(** * PS1-Oracle: the deterministic symbolic pipeline

    Shallow embedding of [minimal_implementation/run_narrative.py],
    [minimal_implementation/interpret.py],
    [minimal_implementation/interpret_llm.py] and of the two tools
    [minimal_implementation/tools/suggest_lex2neutral.py] and
    [minimal_implementation/tools/validate_maps.py].

    Conventions of the embedding:
    - a Python [str] is a [string]. The character classes ([\w], [\b],
      the case folding of [re.I]) and the built-ins [str.lower],
      [str.strip], [str.split], [str.isdigit] and [repr] are defined as
      Python has them on ASCII text: there a character is a byte and the
      classes are the ASCII ones (white space is 9 to 13, 28 to 31 and the
      blank). Python's classes go on over the rest of Unicode, the
      embedding's do not, so every theorem that states what such a class or
      built-in answers carries the hypothesis [ascii_text] on the texts it
      reads;
    - a Python [dict] keyed by strings is a [gmap string _], a Python [set]
      of strings is a [gset string]; the order in which Python walks a set
      is the section variable [set_iter];
    - the module-level tables [SYMBOLS], [REL], [NEUT_MAP] and [PASSAGES]
      are section variables, loaded once and never written. An entry of
      [REL] is a [rel_entry], whose [requires] is a list or missing; the
      table as [json.load] gives it, where [requires] may also hold [null],
      is a [gmap string decoded_entry], and [entry_of] is what the [or []]
      of run_narrative.py makes of it;
    - the library call [json.loads] and the request to the generation
      service are section variables too. A call of [json.loads] ends in a
      [decoding]: the value, a [JSONDecodeError] with its message, or
      another exception (the recursion error of a deep nesting, the
      [ValueError] of an integer literal too long to convert), which the
      guard [except json.JSONDecodeError] does not catch; [json_loads]
      below is a parser of the JSON grammar with these three ends, to
      instantiate the variable;
    - recursion of the closure walk is bounded by [fuel], the depth of the
      Python call stack: [None] is the interpreter giving up;
    - in the tools, [int] on a string of digits is the section variable
      [py_int], the order in which Python walks the items of a dict is the
      section variable [dict_items], and a call ends in an [outcome]: a
      value or the exception that leaves the tool. *)

From Stdlib Require Import Ascii.
From stdpp Require Import gmap strings list sorting fin_maps relations pretty.

Open Scope string_scope.
Open Scope list_scope.
Open Scope nat_scope.

(** * Text and regular expressions *)

(** A string as the list of its characters, for scanning. *)
Definition text : Type := list ascii.

Definition chars (s : string) : text := String.list_ascii_of_string s.
Definition str (t : text) : string := String.string_of_list_ascii t.

Definition in_range (lo hi c : ascii) : bool :=
  (N_of_ascii lo <=? N_of_ascii c)%N && (N_of_ascii c <=? N_of_ascii hi)%N.

Definition is_upper (c : ascii) : bool := in_range "A" "Z" c.
Definition is_lower (c : ascii) : bool := in_range "a" "z" c.
Definition is_digit (c : ascii) : bool := in_range "0" "9" c.

(** [\w], on ASCII text. *)
Definition is_word (c : ascii) : bool :=
  is_upper c || is_lower c || is_digit c || Ascii.eqb c "_".

Definition lower_char (c : ascii) : ascii :=
  if is_upper c then ascii_of_N (N_of_ascii c + 32) else c.

(** [s.lower()], on ASCII text. *)
Definition lower (s : string) : string := str (map lower_char (chars s)).

(** The patterns of this program are sequences of these four items. *)
Inductive atom : Type :=
  | One (p : ascii → bool)     (* one character of a class *)
  | Star (p : ascii → bool)    (* [class*], greedy *)
  | Plus (p : ascii → bool)    (* [class+], greedy *)
  | WordB.                     (* [\b] *)

Definition regex : Type := list atom.

(** [\b] holds between a word character and a non-word character or an end
    of the text; the word characters are those of ASCII text. *)
Definition boundary (prev next : option ascii) : bool :=
  xorb (from_option is_word false prev) (from_option is_word false next).

(** A match: the text each atom consumed, and the text left. *)
Definition found : Type := list text * text.

Definition under (seg : text) (r : option found) : option found :=
  '(segs, rest) ← r; Some (seg :: segs, rest).

(** [class*] followed by [k]: take a character and go on, and when what
    follows fails with it, give it back. *)
Fixpoint star (p : ascii → bool) (k : option ascii → text → option found)
    (prev : option ascii) (s : text) : option found :=
  match s with
  | x :: s' =>
      if p x then
        match star p k (Some x) s' with
        | Some (seg :: segs, rest) => Some ((x :: seg) :: segs, rest)
        | _ => under [] (k prev s)
        end
      else under [] (k prev s)
  | [] => under [] (k prev s)
  end.

(** The backtracking matcher anchored at the head of [s]; [prev] is the
    character before it. *)
Fixpoint match_here (re : regex) (prev : option ascii) (s : text)
  : option found :=
  match re with
  | [] => Some ([], s)
  | One p :: re' =>
      match s with
      | x :: s' => if p x then under [x] (match_here re' (Some x) s') else None
      | [] => None
      end
  | Star p :: re' => star p (match_here re') prev s
  | Plus p :: re' =>
      match s with
      | x :: s' =>
          if p x then
            match star p (match_here re') (Some x) s' with
            | Some (seg :: segs, rest) => Some ((x :: seg) :: segs, rest)
            | _ => None
            end
          else None
      | [] => None
      end
  | WordB :: re' =>
      if boundary prev (head s) then under [] (match_here re' prev s) else None
  end.

(** A text cut at the successive leftmost matches of a pattern. *)
Inductive piece : Type :=
  | Gap (t : text)
  | Hit (segs : list text).

(** The scan shared by [re.findall], [re.sub], [re.split] and [re.search]:
    try each position from the left; after a match resume behind it
    ([skip] counts the characters of the match still to pass). *)
Fixpoint scan (re : regex) (prev : option ascii) (s : text)
    (skip : nat) (gap : text) : list piece :=
  match skip with
  | S skip' =>
      match s with
      | x :: s' => scan re (Some x) s' skip' gap
      | [] => [Gap gap]
      end
  | O =>
      match match_here re prev s with
      | Some (segs, _) =>
          Gap gap :: Hit segs ::
            match s with
            | x :: s' =>
                match length (concat segs) with
                | O => scan re (Some x) s' 0 [x]
                | S n => scan re (Some x) s' n []
                end
            | [] => [Gap []]
            end
      | None =>
          match s with
          | x :: s' => scan re (Some x) s' 0 (gap ++ [x])
          | [] => [Gap gap]
          end
      end
  end.

Definition pieces (re : regex) (t : text) : list piece := scan re None t 0 [].

Definition hits (pcs : list piece) : list (list text) :=
  omap (λ pc, match pc with Hit segs => Some segs | Gap _ => None end) pcs.

Definition gaps (pcs : list piece) : list text :=
  omap (λ pc, match pc with Gap t => Some t | Hit _ => None end) pcs.

(** [re.findall(re, s)] for a pattern without groups. *)
Definition re_findall (re : regex) (s : string) : list string :=
  (λ segs, str (concat segs)) <$> hits (pieces re (chars s)).

(** [re.split(re, s)] for a pattern without groups. *)
Definition re_split (re : regex) (s : string) : list string :=
  str <$> gaps (pieces re (chars s)).

(** [re.search(re, s)]: the leftmost match, atom by atom. *)
Definition re_search (re : regex) (s : string) : option (list text) :=
  head (hits (pieces re (chars s))).

(** [re.sub(re, repl, s)] with a function for [repl]. *)
Definition re_sub (re : regex) (repl : list text → text) (s : string) : string :=
  str (concat ((λ pc, match pc with Gap t => t | Hit segs => repl segs end)
                 <$> pieces re (chars s))).

Definition lit (c : ascii) : atom := One (Ascii.eqb c).

(** [re.escape(term)] under [re.I]: each character of [term], either case,
    as [re.I] folds ASCII text. *)
Definition lit_nocase (c : ascii) : atom :=
  One (λ x, Ascii.eqb (lower_char x) (lower_char c)).

(** [[^a-z0-9_]+] *)
Definition re_separator : regex :=
  [Plus (λ c, negb (is_lower c || is_digit c || Ascii.eqb c "_"))].

(** [\b[A-Z][A-Za-z0-9_]*\b] *)
Definition re_capitalized : regex :=
  [WordB; One is_upper;
   Star (λ c, is_upper c || is_lower c || is_digit c || Ascii.eqb c "_"); WordB].

(** [[a-zA-Z0-9_.-]] *)
Definition is_cid_char (c : ascii) : bool :=
  is_lower c || is_upper c || is_digit c || Ascii.eqb c "_"
  || Ascii.eqb c "." || Ascii.eqb c "-".

(** [\[([a-zA-Z0-9_.-]+)\]]; the group is the atom at index 1. *)
Definition re_citation : regex := [lit "["; Plus is_cid_char; lit "]"].

(** [\{.*\}] with [re.S] *)
Definition re_braces : regex := [lit "{"; Star (λ _, true); lit "}"].

(** [rf"\b{re.escape(term)}\b"] with [re.I] *)
Definition re_banned (term : string) : regex :=
  [WordB] ++ (lit_nocase <$> chars term) ++ [WordB].

(** * JSON values and the library's decoder *)

#[warnings="-register-all"]
Inductive json : Type :=
  | JNull
  | JBool (b : bool)
  | JNum (literal : string)
  | JStr (s : string)
  | JArr (xs : list json)
  | JObj (kvs : list (string * json)).

(** The exceptions of Python that the pipeline meets. [IntValueError] is
    the [ValueError] that [int] raises on a literal of more digits than it
    converts. *)
Inductive pyexn : Type :=
  | TypeError
  | RecursionError
  | JSONDecodeError
  | RequestError
  | IntValueError.

(** [json.JSONDecodeError]: the message and the offset it points at. *)
Record decode_error := DecodeError { err_msg : string; err_pos : nat }.

(** What stops the decoder: a fault of syntax, reported as a
    [JSONDecodeError], or another exception with its text. *)
Inductive fault : Type :=
  | Syntax (msg : string)
  | Other (e : pyexn) (msg : string).

(** A failure carries its fault and the text left where it struck. *)
Definition parsed (A : Type) : Type := (fault * text) + (A * text).

(** How [json.loads] ends: with the decoded value, with a
    [JSONDecodeError] and its text, or with another exception and its
    text. *)
Inductive decoding : Type :=
  | Decoded (j : json)
  | Undecodable (msg : string)
  | Failed (e : pyexn) (msg : string).

(** The most digits of an integer literal that [int] converts. *)
Definition int_max_str_digits : nat := 4300.

Definition quote_char : ascii := "034".
Definition backslash : ascii := "\".

Definition is_space (c : ascii) : bool :=
  Ascii.eqb c " " || Ascii.eqb c "009" || Ascii.eqb c "010" || Ascii.eqb c "013".

Fixpoint skip_ws (s : text) : text :=
  match s with
  | c :: s' => if is_space c then skip_ws s' else s
  | [] => []
  end.

Definition hex_digit (c : ascii) : option N :=
  let n := N_of_ascii c in
  if is_digit c then Some (n - 48)%N
  else if in_range "a" "f" c then Some (n - 87)%N
  else if in_range "A" "F" c then Some (n - 55)%N
  else None.

Definition hex4 (a b c d : ascii) : option N :=
  x ← hex_digit a; y ← hex_digit b; z ← hex_digit c; w ← hex_digit d;
  Some (((x * 16 + y) * 16 + z) * 16 + w)%N.

(** The UTF-8 bytes of a code point. *)
Definition utf8 (n : N) : text :=
  let byte (k : N) := ascii_of_N k in
  if (n <? 128)%N then [byte n]
  else if (n <? 2048)%N then
    [byte (192 + n / 64); byte (128 + n mod 64)]%N
  else if (n <? 65536)%N then
    [byte (224 + n / 4096); byte (128 + (n / 64) mod 64); byte (128 + n mod 64)]%N
  else
    [byte (240 + n / 262144); byte (128 + (n / 4096) mod 64);
     byte (128 + (n / 64) mod 64); byte (128 + n mod 64)]%N.

Definition unescape (c : ascii) : option ascii :=
  if Ascii.eqb c quote_char then Some quote_char
  else if Ascii.eqb c backslash then Some backslash
  else if Ascii.eqb c "/" then Some "/"%char
  else if Ascii.eqb c "b" then Some "008"%char
  else if Ascii.eqb c "f" then Some "012"%char
  else if Ascii.eqb c "n" then Some "010"%char
  else if Ascii.eqb c "r" then Some "013"%char
  else if Ascii.eqb c "t" then Some "009"%char
  else None.

(** The body of a string literal, behind its opening quote. *)
Fixpoint scan_string (s : text) (acc : text) (opening : text) : parsed string :=
  match s with
  | [] => inl (Syntax "Unterminated string starting at", opening)
  | c :: s' =>
      if Ascii.eqb c quote_char then inr (str acc, s')
      else if Ascii.eqb c backslash then
        match s' with
        | [] => inl (Syntax "Unterminated string starting at", opening)
        | e :: s'' =>
            if Ascii.eqb e "u" then
              match s'' with
              | h1 :: h2 :: h3 :: h4 :: s3 =>
                  match hex4 h1 h2 h3 h4 with
                  | None => inl (Syntax "Invalid \uXXXX escape", s')
                  | Some hi =>
                      match s3 with
                      | b :: u :: l1 :: l2 :: l3 :: l4 :: s4 =>
                          match hex4 l1 l2 l3 l4 with
                          | Some lo =>
                              if Ascii.eqb b backslash && Ascii.eqb u "u"
                                 && (55296 <=? hi)%N && (hi <=? 56319)%N
                                 && (56320 <=? lo)%N && (lo <=? 57343)%N
                              then scan_string s4
                                     (acc ++ utf8 (65536 + (hi - 55296) * 1024
                                                   + (lo - 56320))%N) opening
                              else scan_string s3 (acc ++ utf8 hi) opening
                          | None => scan_string s3 (acc ++ utf8 hi) opening
                          end
                      | _ => scan_string s3 (acc ++ utf8 hi) opening
                      end
                  end
              | _ => inl (Syntax "Invalid \uXXXX escape", s')
              end
            else
              match unescape e with
              | Some ch => scan_string s'' (acc ++ [ch]) opening
              | None => inl (Syntax "Invalid \escape", s)
              end
        end
      else if (N_of_ascii c <? 32)%N then
        inl (Syntax "Invalid control character at", s)
      else scan_string s' (acc ++ [c]) opening
  end.

Fixpoint take_digits (s : text) : text * text :=
  match s with
  | c :: s' =>
      if is_digit c then let '(ds, rest) := take_digits s' in (c :: ds, rest)
      else ([], s)
  | [] => ([], [])
  end.

(** The number at the head of [s]: an optional minus, [0] or a run of digits
    without leading zero, an optional fraction, an optional exponent. *)
Definition scan_number (s : text) : option (text * text) :=
  let '(sign, s1) :=
    match s with
    | c :: s' => if Ascii.eqb c "-" then ([c], s') else ([], s)
    | [] => ([], s)
    end in
  let integer :=
    match s1 with
    | c :: s' =>
        if Ascii.eqb c "0" then Some ([c], s')
        else if is_digit c then
          let '(ds, rest) := take_digits s' in Some (c :: ds, rest)
        else None
    | [] => None
    end in
  '(int, s2) ← integer;
  let '(frac, s3) :=
    match s2 with
    | c :: s' =>
        if Ascii.eqb c "." then
          match take_digits s' with
          | ([], _) => ([], s2)
          | (ds, rest) => (c :: ds, rest)
          end
        else ([], s2)
    | [] => ([], s2)
    end in
  let '(exp, s4) :=
    match s3 with
    | c :: s' =>
        if Ascii.eqb c "e" || Ascii.eqb c "E" then
          let '(sg, s'') :=
            match s' with
            | d :: t => if Ascii.eqb d "-" || Ascii.eqb d "+" then ([d], t)
                        else ([], s')
            | [] => ([], s')
            end in
          match take_digits s'' with
          | ([], _) => ([], s3)
          | (ds, rest) => (c :: sg ++ ds, rest)
          end
        else ([], s3)
    | [] => ([], s3)
    end in
  Some (sign ++ int ++ frac ++ exp, s4).

(** [s] behind the prefix [w], when it starts with it. *)
Fixpoint strip_prefix (w s : text) : option text :=
  match w, s with
  | [], _ => Some s
  | a :: w', b :: s' => if Ascii.eqb a b then strip_prefix w' s' else None
  | _ :: _, [] => None
  end.

(** The members of an object, from the opening quote of a key; [n] bounds
    their number. *)
Fixpoint object_members (value : text → parsed json) (n : nat) (s : text)
    (acc : list (string * json)) : parsed (list (string * json)) :=
  match n with
  | O => inl (Syntax "Expecting ',' delimiter", s)
  | S n' =>
      match scan_string (tail s) [] s with
      | inl e => inl e
      | inr (key, s1) =>
          match skip_ws s1 with
          | c :: s2 =>
              if Ascii.eqb c ":" then
                match value (skip_ws s2) with
                | inl e => inl e
                | inr (v, s3) =>
                    let acc' := acc ++ [(key, v)] in
                    match skip_ws s3 with
                    | d :: s4 =>
                        if Ascii.eqb d "}" then inr (acc', s4)
                        else if Ascii.eqb d "," then
                          match skip_ws s4 with
                          | q :: s5 =>
                              if Ascii.eqb q quote_char
                              then object_members value n' (q :: s5) acc'
                              else inl (Syntax "Expecting property name enclosed in double quotes",
                                        q :: s5)
                          | [] => inl (Syntax "Expecting property name enclosed in double quotes", [])
                          end
                        else inl (Syntax "Expecting ',' delimiter", d :: s4)
                    | [] => inl (Syntax "Expecting ',' delimiter", [])
                    end
                end
              else inl (Syntax "Expecting ':' delimiter", c :: s2)
          | [] => inl (Syntax "Expecting ':' delimiter", [])
          end
      end
  end.

(** The elements of an array behind its first value's position. *)
Fixpoint array_elements (value : text → parsed json) (n : nat) (s : text)
    (acc : list json) : parsed (list json) :=
  match n with
  | O => inl (Syntax "Expecting ',' delimiter", s)
  | S n' =>
      match value s with
      | inl e => inl e
      | inr (v, s1) =>
          let acc' := acc ++ [v] in
          match skip_ws s1 with
          | d :: s2 =>
              if Ascii.eqb d "]" then inr (acc', s2)
              else if Ascii.eqb d "," then array_elements value n' (skip_ws s2) acc'
              else inl (Syntax "Expecting ',' delimiter", d :: s2)
          | [] => inl (Syntax "Expecting ',' delimiter", [])
          end
      end
  end.

Definition keyword (w : string) (v : json) (s : text) : option (json * text) :=
  rest ← strip_prefix (chars w) s; Some (v, rest).

(** The text of the [RecursionError] of a container nested deeper than
    the stack allows. *)
Definition too_deep (container : string) : fault :=
  Other RecursionError
    ("maximum recursion depth exceeded while decoding a JSON " +:+ container
     +:+ " from a unicode string").

(** The fault of an integer literal that [int] does not convert. *)
Definition too_long (literal : text) : option fault :=
  let digits := List.filter is_digit literal in
  if forallb (λ c, is_digit c || Ascii.eqb c "-") literal
     && (int_max_str_digits <? length digits)
  then
    Some (Other IntValueError
            ("Exceeds the limit (" +:+ pretty int_max_str_digits
             +:+ " digits) for integer string conversion: value has "
             +:+ pretty (length digits)
             +:+ " digits; use sys.set_int_max_str_digits() to increase the limit"))
  else None.

(** One value at the head of [s]; [fuel] bounds the recursion of this
    definition, [stack] is the depth left on the interpreter's stack, of
    which every object and every array takes one level. *)
Fixpoint scan_once (fuel : nat) (stack : nat) (s : text) : parsed json :=
  match fuel with
  | O => inl (Syntax "Expecting value", s)
  | S fuel' =>
      match s with
      | [] => inl (Syntax "Expecting value", s)
      | c :: s' =>
          if Ascii.eqb c quote_char then
            match scan_string s' [] s with
            | inl e => inl e
            | inr (v, rest) => inr (JStr v, rest)
            end
          else if Ascii.eqb c "{" then
            match stack with
            | O => inl (too_deep "object", s)
            | S stack' =>
                match skip_ws s' with
                | d :: s'' =>
                    if Ascii.eqb d "}" then inr (JObj [], s'')
                    else if Ascii.eqb d quote_char then
                      match object_members (scan_once fuel' stack') (length s)
                              (d :: s'') [] with
                      | inl e => inl e
                      | inr (kvs, rest) => inr (JObj kvs, rest)
                      end
                    else inl (Syntax "Expecting property name enclosed in double quotes",
                              d :: s'')
                | [] => inl (Syntax "Expecting property name enclosed in double quotes", [])
                end
            end
          else if Ascii.eqb c "[" then
            match stack with
            | O => inl (too_deep "array", s)
            | S stack' =>
                match skip_ws s' with
                | d :: s'' =>
                    if Ascii.eqb d "]" then inr (JArr [], s'')
                    else
                      match array_elements (scan_once fuel' stack') (length s)
                              (d :: s'') [] with
                      | inl e => inl e
                      | inr (xs, rest) => inr (JArr xs, rest)
                      end
                | [] => inl (Syntax "Expecting value", [])
                end
            end
          else
            match keyword "null" JNull s, keyword "true" (JBool true) s,
                  keyword "false" (JBool false) s with
            | Some r, _, _ | None, Some r, _ | None, None, Some r => inr r
            | None, None, None =>
                match scan_number s with
                | Some (lit, rest) =>
                    match too_long lit with
                    | Some f => inl (f, s)
                    | None => inr (JNum (str lit), rest)
                    end
                | None =>
                    match keyword "NaN" (JNum "NaN") s,
                          keyword "Infinity" (JNum "Infinity") s,
                          keyword "-Infinity" (JNum "-Infinity") s with
                    | Some r, _, _ | None, Some r, _ | None, None, Some r => inr r
                    | None, None, None => inl (Syntax "Expecting value", s)
                    end
                end
            end
      end
  end.

(** The line and column Python prints for an offset. *)
Definition line_col (doc : text) (pos : nat) : nat * nat :=
  foldl (λ '(line, col) c, if Ascii.eqb c "010" then (S line, 1) else (line, S col))
        (1, 1) (take pos doc).

(** [str(e)] of a [JSONDecodeError]. *)
Definition render_error (doc : text) (e : decode_error) : string :=
  let '(line, col) := line_col doc (err_pos e) in
  String.concat ""
    [err_msg e; ": line "; pretty line; " column "; pretty col;
     " (char "; pretty (err_pos e); ")"].

(** [json.loads(s)] with [stack] levels left on the interpreter's stack:
    leading space, one value, trailing space, the end. *)
Definition json_decode (stack : nat) (s : string) : decoding :=
  let doc := chars s in
  let fail (msg : string) (at_ : text) :=
    Undecodable (render_error doc (DecodeError msg (length doc - length at_))) in
  match scan_once (S (length doc)) stack (skip_ws doc) with
  | inl (Syntax msg, at_) => fail msg at_
  | inl (Other e msg, _) => Failed e msg
  | inr (v, rest) =>
      match skip_ws rest with
      | [] => Decoded v
      | extra => fail "Extra data" extra
      end
  end.

(** The decoder under the interpreter's default limit of 1000 frames, a
    few of them taken by the call. *)
Definition json_loads : string → decoding := json_decode 990.
(** * Python values, exceptions and the static tables *)

(** The values held by the dicts this program builds and reads. *)
Inductive pyval : Type :=
  | VStr (s : string)
  | VList (xs : list string)
  | VBool (b : bool).

(** How a call ends: with a value, with an exception, or on an input this
    model does not cover. *)
Inductive result (A : Type) : Type :=
  | Ok (a : A)
  | Raise (e : pyexn)
  | Outside.
Arguments Ok {A} a.
Arguments Raise {A} e.
Arguments Outside {A}.

Definition result_bind {A B : Type} (r : result A) (k : A → result B) : result B :=
  match r with
  | Ok a => k a
  | Raise e => Raise e
  | Outside => Outside
  end.

(** [for x in v] over a value: the items of a list, the characters of a
    string; a bool is not iterable. *)
Definition py_iter (v : pyval) : result (list string) :=
  match v with
  | VList xs => Ok xs
  | VStr s => Ok ((λ c, String c "") <$> chars s)
  | VBool _ => Raise TypeError
  end.

(** An argument of [re.sub], [re.findall] or [re.search] must be a string. *)
Definition py_text (v : pyval) : result string :=
  match v with
  | VStr s => Ok s
  | _ => Raise TypeError
  end.

(** A decoded JSON value as a [pyval]: strings, booleans and lists of
    strings; numbers, null and nested values are not covered. *)
Definition py_val (j : json) : option pyval :=
  match j with
  | JStr s => Some (VStr s)
  | JBool b => Some (VBool b)
  | JArr xs =>
      VList <$> mapM (λ x, match x with JStr s => Some s | _ => None end) xs
  | _ => None
  end.

(** A decoded JSON object as a Python dict; a later binding of a key
    replaces an earlier one. *)
Definition py_dict (j : json) : option (gmap string pyval) :=
  match j with
  | JObj kvs =>
      foldl (λ acc '(k, v), d ← acc; x ← py_val v; Some (<[k := x]> d))
            (Some ∅) kvs
  | _ => None
  end.

(** One entry of [relations.json]; a missing key is [None]. *)
Record rel_entry := RelEntry {
  requires : option (list string);
  yields : option (list string)
}.

(** The value under [requires] as [json.load] gives it: the key may be
    missing, and the file may hold [null] in place of a list. *)
Inductive requires_field : Type :=
  | Missing
  | Null
  | Listed (rs : list string).

#[global] Instance requires_field_eq_dec : EqDecision requires_field.
Proof. solve_decision. Defined.

(** One entry of [relations.json] as decoded: what stands under [requires]
    and under [yields]. *)
Definition decoded_entry : Type := requires_field * option (list string).

(** The entry that [requires_of] of run_narrative.py sees: its [or []]
    takes [null] for no list. *)
Definition entry_of (e : decoded_entry) : rel_entry :=
  RelEntry (match e.1 with Listed rs => Some rs | _ => None end) e.2.

(** [symbols.json] *)
Record symbols := Symbols {
  functions : option (list string);
  literals : option (list string);
  enums : option (gmap string json)
}.

(** [neutral_map.json] *)
Record neutral_map := NeutralMap {
  lex2neutral : option (gmap string (list string));
  neutral2sdk : option (gmap string (list string))
}.

(** One passage of [manual_passages.json]; the keys [id] and [text] are
    read by subscript, [tokens] and [role] with [p.get]. *)
Record passage := Passage {
  p_id : string;
  p_text : string;
  p_tokens : option (list string);
  p_role : option string
}.

(** The dict with the keys [id] and [text] that the selector emits. *)
Record quote := Quote {
  quote_id : string;
  quote_text : string
}.

(** The user message sent to the generation service. *)
Record payload := Payload {
  EventBrief : string;
  AllowedTokens : list string;
  Passages : list quote
}.

(** The result of [interpret_event] in run_narrative.py. *)
Record interpretation := Interpretation {
  bag_of_api : list string;
  unrepresentable : list string
}.

(** The banners the orchestrator prints, one per stage entered. *)
Inductive stage : Type :=
  | INTERPRET
  | FALLBACK
  | EXPAND
  | SELECT
  | GENERATE
  | LINT.

(** ** Loops *)

(** [for x in xs: body] over a state that the body may fail to produce. *)
Fixpoint for_each {A S : Type} (body : A → S → option S) (xs : list A) (st : S)
  : option S :=
  match xs with
  | [] => Some st
  | x :: xs' => st' ← body x st; for_each body xs' st'
  end.

(** A loop body either goes on to the next item or leaves the loop. *)
Inductive flow (S : Type) : Type :=
  | Next (st : S)
  | Leave (st : S).
Arguments Next {S} st.
Arguments Leave {S} st.

Fixpoint loop {A S : Type} (body : A → S → flow S) (xs : list A) (st : S)
  : flow S :=
  match xs with
  | [] => Next st
  | x :: xs' =>
      match body x st with
      | Next st' => loop body xs' st'
      | Leave st' => Leave st'
      end
  end.

(** [sorted(xs)] on strings. *)
Definition sorted (xs : list string) : list string := merge_sort String.le xs.

(** * run_narrative.py *)

Module RunNarrative.
Section Tables.

Variable SYMBOLS : symbols.
Variable REL : gmap string rel_entry.
Variable NEUT_MAP : neutral_map.
Variable PASSAGES : list passage.

(** The order in which Python walks a set: [for x in s], [list(s)],
    [sorted(s)]. *)
Variable set_iter : gset string → list string.

(** [json.loads]: the decoded value, the text of its [JSONDecodeError], or
    the exception of another kind that it raises. *)
Variable loads : string → decoding.

(** [call_lmstudio]: the content of the service's reply, or the exception
    of the failed request. *)
Variable call_lmstudio : payload → result string.

(** ** Interpreter *)

Definition _tokenize (text : string) : list string :=
  filter (λ t, t ≠ "") (re_split re_separator (lower text)).

(** [NEUT_MAP.get("lex2neutral", {}).get(t, [])] *)
Definition lex_tags (t : string) : list string :=
  default [] (default ∅ (lex2neutral NEUT_MAP) !! t).

(** [NEUT_MAP.get("neutral2sdk", {}).get(n, [])] *)
Definition tag_symbols (n : string) : list string :=
  default [] (default ∅ (neutral2sdk NEUT_MAP) !! n).

(** [w in SYMBOLS.get("functions", []) or w in SYMBOLS.get("literals", [])
    or w in SYMBOLS.get("enums", {})] *)
Definition in_vocabulary (w : string) : bool :=
  bool_decide (w ∈ default [] (functions SYMBOLS))
  || bool_decide (w ∈ default [] (literals SYMBOLS))
  || bool_decide (w ∈ dom (default ∅ (enums SYMBOLS))).

Definition interpret_event (text : string) : interpretation :=
  let tokens := _tokenize text in
  let neutral : gset string :=
    foldl (λ neutral t, neutral ∪ list_to_set (lex_tags t)) ∅ tokens in
  let sdk : gset string :=
    foldl (λ sdk n,
             foldl (λ sdk w, if in_vocabulary w then {[w]} ∪ sdk else sdk)
                   sdk (tag_symbols n))
          ∅ (set_iter neutral) in
  let mapped_terms : gset string :=
    list_to_set (filter (λ t, lex_tags t ≠ []) tokens) in
  let unrepresentable := sorted (set_iter (list_to_set tokens ∖ mapped_terms)) in
  {| bag_of_api := sorted (set_iter sdk);
     unrepresentable := unrepresentable |}.

(** ** Requires closure *)

(** [REL.get(tok, {}).get("requires", []) or []] *)
Definition requires_of (tok : string) : list string :=
  match REL !! tok with
  | Some e => default [] (requires e)
  | None => []
  end.

(** The two closure variables [out] and [seen] of [expand_with_requires]. *)
Definition walk : Type := list string * gset string.

(** The inner [add]: return at once on a seen symbol, else walk the
    requires in order, then mark and emit the symbol. *)
Fixpoint add (fuel : nat) (w : string) (st : walk) : option walk :=
  match fuel with
  | O => None
  | S fuel' =>
      if decide (w ∈ st.2) then Some st
      else
        st' ← for_each (add fuel') (requires_of w) st;
        Some (st'.1 ++ [w], {[w]} ∪ st'.2)
  end.

Definition expand_with_requires (fuel : nat) (tokens : list string)
  : option (list string) :=
  fst <$> for_each (add fuel) tokens ([], ∅).

Definition requires_set (fuel : nat) (tokens : gset string)
  : option (gset string) :=
  expanded ← expand_with_requires fuel (set_iter tokens);
  Some (list_to_set expanded ∖ tokens).

(** ** Passage selection *)

(** [any(tok in S for tok in p.get("tokens", []))] *)
Definition substantiates (p : passage) (S : gset string) : bool :=
  existsb (λ tok, bool_decide (tok ∈ S)) (default [] (p_tokens p)).

Definition is_backbone (p : passage) : bool :=
  bool_decide (p_role p = Some "backbone").

(** The variables [chosen] and [seen_ids] of the selector. *)
Definition selection : Type := list quote * gset string.

(** The body shared by both loops once a passage is admitted. *)
Definition choose (max_quotes : Z) (p : passage) (st : selection)
  : flow selection :=
  let chosen := st.1 ++ [Quote (p_id p) (p_text p)] in
  let st' := (chosen, {[p_id p]} ∪ st.2) in
  if bool_decide (max_quotes ≤ Z.of_nat (length chosen))%Z then Leave st' else Next st'.

(** The first loop: passages that are not backbone. *)
Definition pick_specific (T : gset string) (max_quotes : Z) (p : passage)
    (st : selection) : flow selection :=
  if bool_decide (p_id p ∈ st.2) || is_backbone p then Next st
  else if substantiates p T then choose max_quotes p st
  else Next st.

(** The second loop: backbone passages, for actual prerequisites only. *)
Definition pick_backbone (prereq_only : gset string) (max_quotes : Z)
    (p : passage) (st : selection) : flow selection :=
  if bool_decide (p_id p ∈ st.2) || negb (is_backbone p) then Next st
  else if substantiates p prereq_only then choose max_quotes p st
  else Next st.

Definition select_passages_event_minimal (fuel : nat)
    (activated_tokens : gset string) (max_quotes : Z) : option (list quote) :=
  expanded ← expand_with_requires fuel (set_iter activated_tokens);
  let T : gset string := list_to_set expanded in
  prereq_only ← requires_set fuel activated_tokens;
  match loop (pick_specific T max_quotes) PASSAGES ([], ∅) with
  | Leave st => Some st.1
  | Next st =>
      match loop (pick_backbone prereq_only max_quotes) PASSAGES st with
      | Leave st' | Next st' => Some st'.1
      end
  end.

(** ** The reply of the generation service *)

(** The dict put in place of a reply that cannot be decoded. *)
Definition undecoded (parse_error raw : string) : json :=
  JObj [("narrative", JStr ""); ("citationsUsed", JArr []);
        ("tokensUsed", JArr []); ("__parse_error", JStr parse_error);
        ("__raw", JStr raw)].

(** The first half of [ask_lmstudio] behind the request: decode the reply,
    or else what lies between its first opening and its last closing
    brace. The first decoding is guarded by [except json.JSONDecodeError]
    alone, the second by [except Exception]. *)
Definition parse_reply (raw : string) : result json :=
  match loads raw with
  | Decoded out => Ok out
  | Failed e _ => Raise e
  | Undecodable _ =>
      match re_search re_braces raw with
      | None => Ok (undecoded "no-json-object-found" raw)
      | Some m =>
          match loads (str (concat m)) with
          | Decoded out => Ok out
          | Undecodable e | Failed _ e => Ok (undecoded e raw)
          end
      end
  end.

(** [citation_replacer]: group 1 is the identifier, group 0 the marker. *)
Definition citation_replacer (provided_ids : gset string) (m : list text) : text :=
  let cid := str (nth 1 m []) in
  if bool_decide (cid ∉ provided_ids) then [] else concat m.

(** The second half of [ask_lmstudio]: the guardrail on citations. *)
Definition guard_citations (out : gmap string pyval) (quotes : list quote)
  : result (gmap string pyval) :=
  let provided_ids : gset string := list_to_set (quote_id <$> quotes) in
  result_bind
    (match out !! "citationsUsed" with
     | Some v =>
         result_bind (py_iter v) (λ cids,
           Ok (<["citationsUsed" :=
                   VList (filter (λ cid, cid ∈ provided_ids) cids)]> out))
     | None => Ok out
     end)
    (λ out,
       match out !! "narrative" with
       | Some v =>
           if bool_decide (provided_ids ≠ ∅) then
             result_bind (py_text v) (λ narrative,
               Ok (<["narrative" :=
                       VStr (re_sub re_citation (citation_replacer provided_ids)
                                    narrative)]> out))
           else Ok out
       | None => Ok out
       end).

Definition ask_lmstudio (allowed_tokens : list string) (quotes : list quote)
    (event_brief : string) : result (gmap string pyval) :=
  result_bind (call_lmstudio (Payload event_brief allowed_tokens quotes)) (λ raw,
    result_bind (parse_reply raw) (λ reply,
      match py_dict reply with
      | Some out => guard_citations out quotes
      | None => Outside
      end)).

(** ** Lint *)

(** [ok = False; issues.append(msg)] when [violated]. *)
Definition flag (violated : bool) (msg : string) (st : bool * list string)
  : bool * list string :=
  if violated then (false, st.2 ++ [msg]) else st.

(** [out.get("narrative", "")] as an argument of [re]. *)
Definition narrative_of (out : gmap string pyval) : result string :=
  match out !! "narrative" with
  | Some v => py_text v
  | None => Ok ""
  end.

(** [set(out.get("citationsUsed", []))] *)
Definition citations_of (out : gmap string pyval) : result (gset string) :=
  match out !! "citationsUsed" with
  | Some v => result_bind (py_iter v) (λ cids, Ok (list_to_set cids))
  | None => Ok ∅
  end.

Definition lint_output (out : gmap string pyval) (allowed_tokens : gset string)
    (provided_ids : list string) (banned_terms : option (list string))
  : result (bool * list string) :=
  result_bind (narrative_of out) (λ narrative,
    let used_caps : gset string :=
      list_to_set (re_findall re_capitalized narrative) in
    let st :=
      foldl (λ st t,
               flag (bool_decide (t ∉ allowed_tokens)
                     && bool_decide (t ∉ ({["I"; "PS1"]} : gset string)))
                    ("unallowed token: " +:+ t) st)
            (true, []) (set_iter used_caps) in
    result_bind (citations_of out) (λ cids,
      let valid_ids : gset string := list_to_set provided_ids in
      let st := flag (bool_decide (cids = ∅)) "no citations used" st in
      let st :=
        foldl (λ st cid,
                 flag (bool_decide (cid ∉ valid_ids))
                      ("bad citation id: " +:+ cid) st)
              st (set_iter cids) in
      let st :=
        foldl (λ st term,
                 flag (bool_decide (is_Some (re_search (re_banned term) narrative)))
                      ("unrepresentable term present: " +:+ term) st)
              st (default [] banned_terms) in
      Ok st)).

(** ** Orchestrator *)

Definition fallback_narrative : string :=
  "No part of the PlayStation SDK vocabulary can be used to describe this event. "
  +:+ "The input does not map to any known SDK concepts or tokens.".

Definition fallback : gmap string pyval :=
  list_to_map
    [("narrative", VStr fallback_narrative);
     ("citationsUsed", VList []);
     ("tokensUsed", VList []);
     ("__ok", VBool true);
     ("__activated_tokens", VList []);
     ("__allowed_tokens", VList []);
     ("__provided_ids", VList []);
     ("__fallback", VBool true)].

(** [not activated or len(banned) == len(_tokenize(event_text))] *)
Definition fallback_guard (event_text : string) : bool :=
  let interp := interpret_event event_text in
  let activated : gset string := list_to_set (bag_of_api interp) in
  let banned := unrepresentable interp in
  bool_decide (activated = ∅)
  || bool_decide (length banned = length (_tokenize event_text)).

(** The request from text to result, with the banners printed on the way. *)
Definition generate_narrative (fuel : nat) (event_text : string)
  : list stage * result (gmap string pyval) :=
  let interp := interpret_event event_text in
  let activated : gset string := list_to_set (bag_of_api interp) in
  let banned := unrepresentable interp in
  if bool_decide (activated = ∅)
     || bool_decide (length banned = length (_tokenize event_text))
  then ([INTERPRET; FALLBACK], Ok fallback)
  else
    match expand_with_requires fuel (set_iter activated) with
    | None => ([INTERPRET; EXPAND], Raise RecursionError)
    | Some allowed_tokens =>
        match select_passages_event_minimal fuel activated 4 with
        | None => ([INTERPRET; EXPAND; SELECT], Raise RecursionError)
        | Some quotes =>
            let provided_ids := quote_id <$> quotes in
            match ask_lmstudio allowed_tokens quotes event_text with
            | Ok out =>
                ([INTERPRET; EXPAND; SELECT; GENERATE; LINT],
                 result_bind
                   (lint_output out (list_to_set allowed_tokens) provided_ids
                                (Some banned))
                   (λ '(ok, issues),
                      let out := <["__ok" := VBool ok]> out in
                      let out :=
                        if ok then out else <["__issues" := VList issues]> out in
                      let out :=
                        <["__activated_tokens" := VList (sorted (set_iter activated))]>
                          out in
                      let out := <["__allowed_tokens" := VList allowed_tokens]> out in
                      Ok (<["__provided_ids" := VList provided_ids]> out)))
            | Raise e => ([INTERPRET; EXPAND; SELECT; GENERATE], Raise e)
            | Outside => ([INTERPRET; EXPAND; SELECT; GENERATE], Outside)
            end
        end
    end.

End Tables.
End RunNarrative.

(** * interpret_llm.py *)

Module InterpretLlm.
Section Tables.

Variable REL : gmap string rel_entry.
Variable set_iter : gset string → list string.
Variable loads : string → decoding.

(** [requires_of], [expand_with_requires], [requires_set] and [lint_output]
    have the text of their namesakes in run_narrative.py. *)
Definition requires_of := RunNarrative.requires_of REL.
Definition expand_with_requires := RunNarrative.expand_with_requires REL.
Definition requires_set := RunNarrative.requires_set REL set_iter.
Definition lint_output := RunNarrative.lint_output set_iter.

(** The selector of run_narrative.py with the corpus as an argument. *)
Definition select_passages_event_minimal (fuel : nat)
    (activated_tokens : gset string) (all_passages : list passage)
    (max_quotes : Z) : option (list quote) :=
  RunNarrative.select_passages_event_minimal REL all_passages set_iter fuel
    activated_tokens max_quotes.

(** The end of [ask_lmstudio]: decode the reply, or else what lies between
    its first opening and its last closing brace; the second decoding is
    not guarded. *)
Definition parse_reply (content : string) : result json :=
  match loads content with
  | Decoded out => Ok out
  | Failed e _ => Raise e
  | Undecodable _ =>
      match re_search re_braces content with
      | Some m =>
          match loads (str (concat m)) with
          | Decoded out => Ok out
          | Undecodable _ => Raise JSONDecodeError
          | Failed e _ => Raise e
          end
      | None =>
          Ok (JObj [("narrative", JStr ""); ("citationsUsed", JArr []);
                    ("tokensUsed", JArr [])])
      end
  end.

(** The corpus that [load_passages] reads from disk. *)
Variable load_passages : list passage.

(** The request inside [ask_lmstudio]: the content of the service's reply,
    or the exception of the failed request. *)
Variable post : payload → result string.

Definition ask_lmstudio (allowed_tokens : list string) (quotes : list quote)
    (event_brief : string) : result (gmap string pyval) :=
  result_bind (post (Payload event_brief allowed_tokens quotes)) (λ content,
    result_bind (parse_reply content) (λ out,
      match py_dict out with
      | Some out => Ok out
      | None => Outside
      end)).

(** The orchestrator of this file: no fallback, and no guardrail between
    the reply and the lint. *)
Definition narrative_from_event (fuel : nat) (event_text : string)
    (tokens_from_interpreter unrep_terms : list string)
  : result (gmap string pyval) :=
  let passages := load_passages in
  let activated : gset string := list_to_set tokens_from_interpreter in
  match expand_with_requires fuel (set_iter activated) with
  | None => Raise RecursionError
  | Some allowed_tokens =>
      match select_passages_event_minimal fuel activated passages 4 with
      | None => Raise RecursionError
      | Some quotes =>
          let provided_ids := quote_id <$> quotes in
          result_bind (ask_lmstudio allowed_tokens quotes event_text) (λ llm_out,
            result_bind
              (lint_output llm_out (list_to_set allowed_tokens) provided_ids
                           (Some unrep_terms))
              (λ '(ok, issues),
                 let llm_out := <["__ok" := VBool ok]> llm_out in
                 Ok (if ok then llm_out
                     else <["__issues" := VList issues]> llm_out)))
      end
  end.

End Tables.
End InterpretLlm.

(** * interpret.py *)

Module Interpret.

(** The result of [interpret_event] in interpret.py. *)
Record interpretation := Interpretation {
  api_sentence : list string;
  observable : list string;
  callable : list string;
  bag_of_api : list string;
  unrepresentable : list string
}.

Section Tables.

Variable SYMBOLS : symbols.
Variable REL : gmap string rel_entry.
Variable MAP : neutral_map.
Variable set_iter : gset string → list string.

Definition tokenize (text : string) : list string :=
  filter (λ t, t ≠ "") (re_split re_separator (lower text)).

(** [MAP.get("lex2neutral", {}).get(t, [])] *)
Definition lex_tags (t : string) : list string :=
  default [] (default ∅ (lex2neutral MAP) !! t).

Definition to_neutral (tokens : list string) : gset string :=
  foldl (λ neutral t, foldl (λ neutral n, {[n]} ∪ neutral) neutral (lex_tags t))
        ∅ tokens.

Definition in_vocabulary (w : string) : bool :=
  bool_decide (w ∈ default [] (functions SYMBOLS))
  || bool_decide (w ∈ default [] (literals SYMBOLS))
  || bool_decide (w ∈ dom (default ∅ (enums SYMBOLS))).

Definition neutral_to_sdk (neutral : gset string) : gset string :=
  foldl (λ sdk n,
           foldl (λ sdk w, if in_vocabulary w then {[w]} ∪ sdk else sdk)
                 sdk (default [] (default ∅ (neutral2sdk MAP) !! n)))
        ∅ (set_iter neutral).

(** [REL.get(w, {}).get("requires", [])] *)
Definition requires_of (w : string) : list string :=
  match REL !! w with
  | Some e => default [] (requires e)
  | None => []
  end.

(** The inner [add_with_requires] of [topo_require_chain]: as [add] of
    run_narrative.py, with a second membership test before the symbol is
    emitted. *)
Fixpoint add_with_requires (fuel : nat) (w : string) (st : list string * gset string)
  : option (list string * gset string) :=
  match fuel with
  | O => None
  | S fuel' =>
      if decide (w ∈ st.2) then Some st
      else
        st' ← for_each (add_with_requires fuel') (requires_of w) st;
        if decide (w ∉ st'.2) then Some (st'.1 ++ [w], {[w]} ∪ st'.2)
        else Some st'
  end.

Definition topo_require_chain (fuel : nat) (targets : list string)
  : option (list string) :=
  fst <$> for_each (add_with_requires fuel) targets ([], ∅).

Definition build_state_tableau (sdk_words : gset string)
  : list string * list string :=
  foldl (λ '(observable, callable_) w,
           match REL !! w ≫= yields with
           | Some (domain :: _) =>
               (observable ++ [w +:+ " → " +:+ domain], callable_)
           | _ =>
               if bool_decide (w ∈ default [] (functions SYMBOLS))
                  || bool_decide (w ∈ default [] (literals SYMBOLS))
               then (observable, callable_ ++ [w])
               else (observable, callable_)
           end)
        ([], []) (sorted (set_iter sdk_words)).

Definition interpret_event (fuel : nat) (text : string) : option interpretation :=
  let tokens := tokenize text in
  let neutral := to_neutral tokens in
  let sdk_words := neutral_to_sdk neutral in
  let desired := ["PadInit"; "PadGetState"; "PAD_STATE_*"; "VSync(0)"] in
  let desired_present :=
    List.filter
      (λ w,
         if decide (w = "PAD_STATE_*")
         then bool_decide ("PAD_STATE_*" ∈ dom (default ∅ (enums SYMBOLS)))
         else bool_decide (w ∈ sdk_words)
              || bool_decide (w ∈ default [] (literals SYMBOLS)))
      desired in
  api_sentence ← topo_require_chain fuel desired_present;
  let '(observable, callable_) := build_state_tableau sdk_words in
  let bag := sorted (set_iter sdk_words) in
  let mapped_any : gset string :=
    foldl (λ mapped_any t,
             if bool_decide (lex_tags t ≠ []) then {[t]} ∪ mapped_any
             else mapped_any)
          ∅ tokens in
  let unrep :=
    sorted (filter (λ t, t ∉ mapped_any) (set_iter (list_to_set tokens))) in
  Some {| api_sentence := api_sentence;
          observable := observable;
          callable := callable_;
          bag_of_api := bag;
          unrepresentable := unrep |}.

End Tables.

(** ** The closure walk on the table as it is decoded *)

Section Decoded.

(** [REL] as [json.load] gives it. *)
Variable DEC : gmap string decoded_entry.

(** [for r in REL.get(w, {}).get("requires", [])]: the list walked; [null]
    cannot be walked. *)
Definition requires_walked (w : string) : result (list string) :=
  match DEC !! w with
  | Some (Listed rs, _) => Ok rs
  | Some (Null, _) => Raise TypeError
  | Some (Missing, _) | None => Ok []
  end.

(** A loop whose body may run out of stack or raise. *)
Fixpoint each {A S : Type} (body : A → S → option (result S)) (xs : list A)
    (st : S) : option (result S) :=
  match xs with
  | [] => Some (Ok st)
  | x :: xs' =>
      match body x st with
      | Some (Ok st') => each body xs' st'
      | stopped => stopped
      end
  end.

(** [add_with_requires] of [topo_require_chain], lines 44 to 51. *)
Fixpoint add_with_requires_decoded (fuel : nat) (w : string)
    (st : list string * gset string) : option (result (list string * gset string)) :=
  match fuel with
  | O => None
  | S fuel' =>
      if decide (w ∈ st.2) then Some (Ok st)
      else
        match requires_walked w with
        | Ok rs =>
            match each (add_with_requires_decoded fuel') rs st with
            | Some (Ok st') =>
                if decide (w ∉ st'.2) then Some (Ok (st'.1 ++ [w], {[w]} ∪ st'.2))
                else Some (Ok st')
            | stopped => stopped
            end
        | Raise e => Some (Raise e)
        | Outside => Some Outside
        end
  end.

(** [topo_require_chain] on the decoded table. *)
Definition topo_require_chain_decoded (fuel : nat) (targets : list string)
  : option (result (list string)) :=
  match each (add_with_requires_decoded fuel) targets ([], ∅) with
  | Some (Ok st) => Some (Ok st.1)
  | Some (Raise e) => Some (Raise e)
  | Some Outside => Some Outside
  | None => None
  end.

End Decoded.
End Interpret.


(** * Built-ins of the tools *)

(** The characters that [str.strip] and [str.split] take for white space,
    on ASCII text. *)
Definition py_space (c : ascii) : bool :=
  in_range "009" "013" c || in_range "028" "031" c || Ascii.eqb c " ".

Fixpoint lstrip (t : text) : text :=
  match t with
  | c :: t' => if py_space c then lstrip t' else t
  | [] => []
  end.

(** [s.strip()] *)
Definition strip (s : string) : string :=
  str (reverse (lstrip (reverse (lstrip (chars s))))).

(** [s.split()]: the runs of characters that are not white space; [word]
    is the run being read. *)
Fixpoint split_ws (t : text) (word : text) : list text :=
  match t with
  | c :: t' =>
      if py_space c then
        match word with
        | [] => split_ws t' []
        | _ => word :: split_ws t' []
        end
      else split_ws t' (word ++ [c])
  | [] =>
      match word with
      | [] => []
      | _ => [word]
      end
  end.

Definition split (s : string) : list string := str <$> split_ws (chars s) [].

(** [c in token] together with [token.split(c, 1)]: the text before the
    first [c] and the text behind it, when the token holds one. *)
Fixpoint cut_at (c : ascii) (t : text) : option (text * text) :=
  match t with
  | x :: t' =>
      if Ascii.eqb x c then Some ([], t')
      else '(a, b) ← cut_at c t'; Some (x :: a, b)
  | [] => None
  end.

(** [s.isdigit()], on ASCII text. *)
Definition isdigit (t : text) : bool :=
  bool_decide (t ≠ []) && forallb is_digit t.

(** The value of a string of decimal digits. *)
Definition digits_value (t : text) : Z :=
  foldl (λ n c, 10 * n + (Z.of_N (N_of_ascii c) - 48))%Z 0%Z t.

(** [t[:-1]] *)
Definition but_last (t : text) : text := take (length t - 1) t.

(** [repr(s)] for a string: between single quotes, or double quotes when
    the string holds a single quote and no double one; control characters
    are escaped, every byte above them is kept, which is [repr] on ASCII
    text. *)
Definition hex_char (n : N) : ascii :=
  if (n <? 10)%N then ascii_of_N (48 + n) else ascii_of_N (87 + n).

Definition repr_char (q c : ascii) : text :=
  if Ascii.eqb c q || Ascii.eqb c backslash then [backslash; c]
  else if Ascii.eqb c "009" then [backslash; "t"%char]
  else if Ascii.eqb c "010" then [backslash; "n"%char]
  else if Ascii.eqb c "013" then [backslash; "r"%char]
  else if (N_of_ascii c <? 32)%N || Ascii.eqb c "127" then
    [backslash; "x"%char; hex_char (N_of_ascii c / 16);
     hex_char (N_of_ascii c mod 16)]
  else [c].

Definition py_repr (s : string) : string :=
  let t := chars s in
  let q : ascii :=
    if bool_decide ("'"%char ∈ t) && negb (bool_decide (quote_char ∈ t))
    then quote_char else "'"%char in
  str (q :: concat (repr_char q <$> t) ++ [q]).

(** [repr(xs)] for a list of strings, as an f-string prints it. *)
Definition py_repr_list (xs : list string) : string :=
  "[" +:+ String.concat ", " (py_repr <$> xs) +:+ "]".

(** [f"{i:2d}"] *)
Definition pad2 (i : nat) : string :=
  if i <? 10 then " " +:+ pretty i else pretty i.

(** A pattern whose end is decided by [k]: [match_here] is the case of a
    [k] that accepts any rest. *)
Fixpoint match_then (k : option ascii → text → option found) (re : regex)
    (prev : option ascii) (s : text) : option found :=
  match re with
  | [] => k prev s
  | One p :: re' =>
      match s with
      | x :: s' => if p x then under [x] (match_then k re' (Some x) s') else None
      | [] => None
      end
  | Star p :: re' => star p (match_then k re') prev s
  | Plus p :: re' =>
      match s with
      | x :: s' =>
          if p x then
            match star p (match_then k re') (Some x) s' with
            | Some (seg :: segs, rest) => Some ((x :: seg) :: segs, rest)
            | _ => None
            end
          else None
      | [] => None
      end
  | WordB :: re' =>
      if boundary prev (head s) then under [] (match_then k re' prev s) else None
  end.

(** [$]: the end of the text, or the line feed that ends it. *)
Definition end_of_text (prev : option ascii) (s : text) : option found :=
  match s with
  | [] => Some ([], [])
  | [c] => if Ascii.eqb c "010" then Some ([], s) else None
  | _ => None
  end.

(** [re.search] of a pattern that ends in [$], as a truth value. *)
Fixpoint search_to_end (re : regex) (prev : option ascii) (s : text) : bool :=
  match match_then end_of_text re prev s with
  | Some _ => true
  | None =>
      match s with
      | x :: s' => search_to_end re (Some x) s'
      | [] => false
      end
  end.

(** The exceptions that leave the tools. *)
Inductive tool_exn : Type :=
  | ValueError (msg : string)
  | KeyError (key : string)
  | EOFError
  | SystemExit (code : Z).

Inductive outcome (A : Type) : Type :=
  | Return (a : A)
  | Throw (e : tool_exn).
Arguments Return {A} a.
Arguments Throw {A} e.

Definition outcome_bind {A B : Type} (r : outcome A) (k : A → outcome B)
  : outcome B :=
  match r with
  | Return a => k a
  | Throw e => Throw e
  end.

(** * tools/suggest_lex2neutral.py *)

Module SuggestLex2neutral.

(** ** Providers *)

(** [SynonymProvider]: a class with the method [suggest]. *)
Class SynonymProvider (P : Type) : Type :=
  suggest : P → string → string → outcome (list string).

Inductive LocalHeuristicsProvider : Type := LocalHeuristics.

Definition _tiny : gmap string (list string) :=
  list_to_map
    [("spill", ["spilt"; "spilling"; "spills"; "spilled"; "splashed"]);
     ("pause", ["pausing"; "paused"; "pauses"; "halt"; "break"]);
     ("disconnect", ["disconnected"; "disconnecting"; "unplug"; "unplugged"]);
     ("shake", ["shook"; "shaking"; "jolt"; "bump"; "bumped"])].

(** [[a-z]e$] *)
Definition re_e_ending : regex := [One is_lower; lit "e"].

(** [^[a-z][a-z0-9_-]*$] *)
Definition TOKEN_RX : regex :=
  [One is_lower;
   Star (λ c, is_lower c || is_digit c || Ascii.eqb c "_" || Ascii.eqb c "-")].

(** [TOKEN_RX.match(tok)] as a truth value. *)
Definition TOKEN_RX_match (tok : string) : bool :=
  bool_decide (is_Some (match_then end_of_text TOKEN_RX None (chars tok))).

Section Tool.

(** The order in which Python walks a set. *)
Variable set_iter : gset string → list string.

(** [int(s)] on a string of digits: its value, or the [ValueError] of a
    string longer than the interpreter converts. *)
Variable py_int : text → outcome Z.

(** [LocalHeuristicsProvider.suggest] *)
Definition local_suggest (term sense_hint : string) : list string :=
  let t := lower term in
  let base : gset string := list_to_set (default [] (_tiny !! t)) in
  let base : gset string :=
    if search_to_end re_e_ending None (chars t)
    then
      list_to_set [t +:+ "d"; str (but_last (chars t)) +:+ "ing"; t +:+ "s"] ∪ base
    else list_to_set [t +:+ "ed"; t +:+ "ing"; t +:+ "s"] ∪ base in
  sorted (set_iter base).

#[export] Instance local_provider : SynonymProvider LocalHeuristicsProvider :=
  λ _ term sense_hint, Return (local_suggest term sense_hint).

(** ** Helpers *)

(** The variables [out] and [seen] of [sanitize]. *)
Definition sanitize_step (st : list string * gset string) (c : string)
  : list string * gset string :=
  let tok := lower (strip c) in
  if bool_decide (tok = "") || (String.length tok <? 3) then st
  else if negb (TOKEN_RX_match tok) then st
  else if bool_decide (tok ∈ st.2) then st
  else (st.1 ++ [tok], {[tok]} ∪ st.2).

Definition sanitize (cands : list string) : list string :=
  (foldl sanitize_step ([], ∅) cands).1.

Definition propose {P : Type} `{SynonymProvider P} (provider : P)
    (term sense_hint : string) : outcome (list string) :=
  outcome_bind (suggest provider term sense_hint) (λ cands,
    Return (sanitize cands)).

(** One token of the reply: an index, a range of indexes, or nothing. *)
Definition pick (token : text) (picks : gset Z) : outcome (gset Z) :=
  match cut_at "-" token with
  | Some (a, b) =>
      if isdigit a && isdigit b then
        outcome_bind (py_int a) (λ lo,
          outcome_bind (py_int b) (λ hi,
            Return (foldl (λ picks k, {[k]} ∪ picks) picks
                          (seqZ lo (hi + 1 - lo)))))
      else Return picks
  | None =>
      if isdigit token then
        outcome_bind (py_int token) (λ k, Return ({[k]} ∪ picks))
      else Return picks
  end.

Fixpoint picks_of (tokens : list text) (picks : gset Z) : outcome (gset Z) :=
  match tokens with
  | [] => Return picks
  | token :: tokens' =>
      outcome_bind (pick token picks) (picks_of tokens')
  end.

(** The last loop of [interactive_select]. *)
Definition chosen_of (props : list string) (existing_keys : gset string)
    (picks : gset Z) : list string :=
  foldl (λ chosen k,
           if bool_decide (1 ≤ k ≤ Z.of_nat (length props))%Z then
             match props !! Z.to_nat (k - 1) with
             | Some cand =>
                 if bool_decide (cand ∉ existing_keys) then chosen ++ [cand]
                 else chosen
             | None => chosen
             end
           else chosen)
        [] (merge_sort Z.le (elements picks)).

(** The listing printed before the question. *)
Definition listing (props : list string) (existing_keys : gset string)
  : list string :=
  imap (λ i p,
          let mark := if bool_decide (p ∈ existing_keys) then "(exists)" else "" in
          "  " +:+ pad2 (S i) +:+ ". " +:+ p +:+ " " +:+ mark)
       props.

(** [interactive_select]: what is printed, the prompt included, and how the
    call ends; [line] is the next line of the standard input, if any. *)
Definition interactive_select (term : string) (sense props : list string)
    (existing_keys : gset string) (line : option string)
  : list string * outcome (list string) :=
  let title :=
    String "010" "" +:+ "=== Term: '" +:+ term +:+ "' → tags "
    +:+ py_repr_list sense in
  match props with
  | [] => ([title; "No proposals."], Return [])
  | _ =>
      let printed :=
        [title;
         "Proposed additions (type indexes or ranges like '1 3-5', "
         +:+ "ENTER=none, 'all'=everything; 'q' quits):"]
        ++ listing props existing_keys ++ ["> "] in
      match line with
      | None => (printed, Throw EOFError)
      | Some line =>
          let sel := lower (strip line) in
          if bool_decide (sel ∈ ["q"; "quit"; "exit"]) then
            (printed, Throw (SystemExit 1))
          else if bool_decide (sel = "") || bool_decide (sel = "none") then
            (printed, Return [])
          else if bool_decide (sel = "all") then
            (printed,
             Return (List.filter (λ p, bool_decide (p ∉ existing_keys)) props))
          else
            (printed,
             outcome_bind (picks_of (chars <$> split sel) ∅) (λ picks,
               Return (chosen_of props existing_keys picks)))
      end
  end.

(** [merge_lex2neutral] writes into [mapobj]: the state of the object when
    the call ends, and the exception if it ends by one. *)
Definition merge_pair (valid_neutrals : gset string)
    (pair : string * list string) (mapobj : neutral_map)
  : flow (neutral_map * option tool_exn) :=
  let '(k, tags) := pair in
  if negb (bool_decide ((list_to_set tags : gset string) ⊆ valid_neutrals)) then
    Leave (mapobj,
           Some (ValueError
                   ("Refusing to add '" +:+ k +:+ "' → " +:+ py_repr_list tags
                    +:+ ": contains non-existent neutral tags.")))
  else
    match lex2neutral mapobj with
    | None => Leave (mapobj, Some (KeyError "lex2neutral"))
    | Some entries =>
        let existing := default [] (entries !! k) in
        let merged :=
          sorted (set_iter (list_to_set existing ∪ list_to_set tags)) in
        Next ({| lex2neutral := Some (<[k := merged]> entries);
                 neutral2sdk := neutral2sdk mapobj |}, None)
    end.

Definition merge_lex2neutral (mapobj : neutral_map)
    (new_pairs : list (string * list string))
  : neutral_map * option tool_exn :=
  let valid_neutrals : gset string := dom (default ∅ (neutral2sdk mapobj)) in
  match loop (λ pair st, merge_pair valid_neutrals pair st.1) new_pairs
             (mapobj, None) with
  | Next st | Leave st => st
  end.

End Tool.
End SuggestLex2neutral.

(** * tools/validate_maps.py *)

Module ValidateMaps.
Section Tool.

Variable set_iter : gset string → list string.

(** The order in which Python walks the items of a dict. *)
Variable dict_items : gmap string (list string) → list (string * list string).

(** The two variables of the script: the lines printed and [ok]. *)
Definition report : Type := list string * bool.

Definition check_symbols (allowed : gset string) (st : report)
    (item : string * list string) : report :=
  let '(k, vals) := item in
  foldl (λ st v,
           if bool_decide (v ∉ allowed) then
             (st.1 ++ ["[ERR] neutral2sdk[" +:+ k +:+ "] -> '" +:+ v
                       +:+ "' not in symbols.json"], false)
           else st)
        st vals.

Definition check_categories (cats : gset string) (st : report)
    (item : string * list string) : report :=
  let '(term, tags) := item in
  let missing : gset string := list_to_set tags ∖ cats in
  if bool_decide (missing ≠ ∅) then
    (st.1 ++ ["[ERR] lex2neutral['" +:+ term +:+ "'] has unknown categories: "
              +:+ py_repr_list (sorted (set_iter missing))], false)
  else st.

(** The script: what it prints and the exception that ends it. *)
Definition validate_maps (sym : symbols) (mp : neutral_map)
  : list string * tool_exn :=
  match functions sym with
  | None => ([], KeyError "functions")
  | Some fns =>
      let allowed : gset string :=
        list_to_set fns ∪ list_to_set (default [] (literals sym))
        ∪ dom (default ∅ (enums sym)) in
      let st :=
        foldl (check_symbols allowed) ([], true)
              (dict_items (default ∅ (neutral2sdk mp))) in
      let cats : gset string := dom (default ∅ (neutral2sdk mp)) in
      let st :=
        foldl (check_categories cats) st
              (dict_items (default ∅ (lex2neutral mp))) in
      (st.1, SystemExit (if st.2 then 0 else 1))
  end.

End Tool.
End ValidateMaps.
(** * Vocabulary of the statements *)

(** A text of ASCII characters. On such text the character classes and the
    case folding of the patterns, [str.lower], [str.strip], [str.split] and
    [str.isdigit] of this development are those of Python. *)
Definition ascii_text (s : string) : Prop :=
  Forall (λ c, (N_of_ascii c < 128)%N) (chars s).

(** No symbol of the decoded table has [null] under [requires]. *)
Definition no_null (DEC : gmap string decoded_entry) : Prop :=
  ∀ w e, DEC !! w = Some e → e.1 ≠ Null.

(** A legal order of walking sets: every set is walked once through each
    of its elements. *)
Definition walks_sets (set_iter : gset string → list string) : Prop :=
  ∀ X, set_iter X ≡ₚ elements X.

(** [w] lists [r] among its requires. *)
Definition req_edge (REL : gmap string rel_entry) (w r : string) : Prop :=
  r ∈ RunNarrative.requires_of REL w.

(** No symbol requires itself through one or more steps. *)
Definition acyclic (REL : gmap string rel_entry) : Prop :=
  ∀ w, ¬ tc (req_edge REL) w w.

(** [x] is a target or is required by one through some steps. *)
Definition reached (REL : gmap string rel_entry) (targets : list string)
    (x : string) : Prop :=
  ∃ t, t ∈ targets ∧ rtc (req_edge REL) t x.

(** [r] stands at a strictly smaller index than [w] in [out]. *)
Definition precedes (r w : string) (out : list string) : Prop :=
  ∃ i j, out !! i = Some r ∧ out !! j = Some w ∧ i < j.

(** What the closure walk maintains between two calls of [add]. *)
Definition walk_inv (REL : gmap string rel_entry) (st : RunNarrative.walk)
  : Prop :=
  st.2 = list_to_set st.1 ∧
  NoDup st.1 ∧
  ∀ w r, w ∈ st.1 → req_edge REL w r → precedes r w st.1.

(** What a run of the walk over [roots] adds to a state. *)
Definition walk_post (REL : gmap string rel_entry) (roots : list string)
    (st st' : RunNarrative.walk) : Prop :=
  walk_inv REL st' ∧
  ∃ ext, st'.1 = st.1 ++ ext ∧
    (∀ r, r ∈ roots → r ∈ st'.1) ∧
    (∀ x, x ∈ ext → reached REL roots x).

(** [p] names a symbol of [S] among its tokens. *)
Definition cites (p : passage) (S : string → Prop) : Prop :=
  ∃ tok, tok ∈ default [] (p_tokens p) ∧ S tok.

Definition quote_of (p : passage) : quote := Quote (p_id p) (p_text p).

(** A passage that either loop of the selector may admit. *)
Definition admissible (PASSAGES : list passage) (T prereq_only : gset string)
    (p : passage) : Prop :=
  p ∈ PASSAGES ∧
  if RunNarrative.is_backbone p
  then RunNarrative.substantiates p prereq_only = true
  else RunNarrative.substantiates p T = true.

(** What both loops maintain: the passages behind the quotes chosen so far
    are admissible, their identifiers are distinct and are the seen ones. *)
Definition chosen_from (PASSAGES : list passage) (T prereq_only : gset string)
    (picked : list passage) (st : RunNarrative.selection) : Prop :=
  st.1 = quote_of <$> picked ∧
  st.2 = list_to_set (p_id <$> picked) ∧
  NoDup (p_id <$> picked) ∧
  Forall (admissible PASSAGES T prereq_only) picked.

(** Room is left while the loops go on, when the limit is at least one. *)
Definition room_left (max_quotes : Z) (st : RunNarrative.selection) : Prop :=
  (1 ≤ max_quotes → Z.of_nat (length st.1) < max_quotes)%Z.

Definition within_quota (max_quotes : Z) (st : RunNarrative.selection) : Prop :=
  (1 ≤ max_quotes → Z.of_nat (length st.1) ≤ max_quotes)%Z.

(** The verdict stays the absence of issues. *)
Definition verdict_ok (st : bool * list string) : Prop := st.1 = true ↔ st.2 = [].

(** The character before the text that follows [seg]. *)
Fixpoint before (prev : option ascii) (seg : text) : option ascii :=
  match seg with
  | [] => prev
  | x :: seg' => before (Some x) seg'
  end.

(** The character [c] is absent or not a word character. *)
Definition no_word (c : option ascii) : Prop := from_option is_word false c = false.

(** [t] is a capitalized token of [s]: a run of word characters that starts
    with an upper-case letter and has no word character on either side. *)
Definition capitalized_token (s : text) (t : string) : Prop :=
  ∃ pre x w post,
    s = pre ++ x :: w ++ post ∧ t = str (x :: w) ∧
    is_upper x = true ∧ Forall (λ c, is_word c = true) w ∧
    no_word (before None pre) ∧ no_word (head post).

(** [term] occurs in [s] in either case between two word boundaries. *)
Definition whole_word (term s : text) : Prop :=
  ∃ pre m post,
    s = pre ++ m ++ post ∧
    lower_char <$> m = lower_char <$> term ∧
    boundary (before None pre) (head (m ++ post)) = true ∧
    boundary (before None (pre ++ m)) (head post) = true.

(** The four kinds of violation and the issue each one leaves. *)
Definition violation (narrative : string) (cids allowed_tokens : gset string)
    (provided_ids : list string) (banned_terms : option (list string))
    (issue : string) : Prop :=
  (∃ t, capitalized_token (chars narrative) t ∧
        (t ∉ allowed_tokens) ∧ t ≠ "I" ∧ t ≠ "PS1" ∧
        issue = ("unallowed token: " +:+ t)) ∨
  (cids = ∅ ∧ issue = "no citations used") ∨
  (∃ cid, cid ∈ cids ∧ (cid ∉ provided_ids) ∧
          issue = ("bad citation id: " +:+ cid)) ∨
  (∃ term, term ∈ default [] banned_terms ∧
           whole_word (chars term) (chars narrative) ∧
           issue = ("unrepresentable term present: " +:+ term)).

(** The text a list of pieces was cut from. *)
Definition render (pcs : list piece) : text :=
  concat ((λ pc, match pc with Gap t => t | Hit segs => concat segs end) <$> pcs).

(** The leftmost match of a pattern in [s], with the text before it. *)
Fixpoint first_match (re : regex) (prev : option ascii) (s : text) (gap : text)
  : option (text * list text * text) :=
  match match_here re prev s with
  | Some (segs, rest) => Some (gap, segs, rest)
  | None =>
      match s with
      | x :: s' => first_match re (Some x) s' (gap ++ [x])
      | [] => None
      end
  end.

(** Every attempt to match [re] from inside [gap], read before [ctx] and
    behind [prev0], fails. *)
Definition failed_in (re : regex) (prev0 : option ascii) (gap ctx : text) : Prop :=
  ∀ a b, gap = a ++ b → b ≠ [] → match_here re (before prev0 a) (b ++ ctx) = None.

(** The pieces of a scan: a hit is a match, a gap holds none. *)
Definition scanned (re : regex) (pc : piece) : Prop :=
  match pc with
  | Gap t => ∃ prev0 ctx, failed_in re prev0 t ctx
  | Hit segs => ∃ prev s rest, match_here re prev s = Some (segs, rest)
  end.

(** [t] holds the marker of the identifier [cid]. *)
Definition has_marker (t cid : text) : Prop :=
  cid ≠ [] ∧ Forall (λ c, is_cid_char c = true) cid ∧
  ∃ pre post, t = pre ++ "["%char :: cid ++ "]"%char :: post.

(** The pieces that the guardrail keeps: the text between markers, and the
    markers of provided identifiers. *)
Definition kept (provided_ids : gset string) (pc : piece) : bool :=
  match pc with
  | Gap _ => true
  | Hit segs => bool_decide (str (nth 1 segs []) ∈ provided_ids)
  end.

(** * Sample tables *)

Module Demo.

Definition SYMBOLS : symbols :=
  {| functions := Some ["PadInit"; "PadGetState"; "VSync"];
     literals := Some [];
     enums := Some {[ "PAD_STATE_*" := JArr [JStr "PAD_STATE_STABLE"] ]} |}.

Definition REL : gmap string rel_entry :=
  {[ "PadGetState" := RelEntry (Some ["PadInit"]) (Some ["PAD_STATE_*"]);
     "PadInit" := RelEntry (Some []) None ]}.

(** A table with a cycle. *)
Definition REL_loop : gmap string rel_entry :=
  {[ "A" := RelEntry (Some ["B"]) None; "B" := RelEntry (Some ["A"]) None ]}.

(** [relations.json] as decoded: [VSync] has no [requires]. *)
Definition DEC : gmap string decoded_entry :=
  {[ "PadGetState" := (Listed ["PadInit"], Some ["PAD_STATE_*"]);
     "PadInit" := (Listed [], None);
     "VSync" := (Missing, None) ]}.

(** A table that holds [null] under the [requires] of [PadInit]. *)
Definition DEC_null : gmap string decoded_entry :=
  {[ "PadGetState" := (Listed ["PadInit"], Some ["PAD_STATE_*"]);
     "PadInit" := (Null, None) ]}.

Definition NEUT_MAP : neutral_map :=
  {| lex2neutral :=
       Some {[ "controller" := ["input_device"];
               "poll" := ["read_state"];
               "ghost" := ["phantom"];
               "void" := [] ]};
     neutral2sdk :=
       Some {[ "input_device" := ["PadInit"];
               "read_state" := ["PadGetState"];
               "phantom" := ["SpuInit"] ]} |}.

Definition PASSAGES : list passage :=
  [ {| p_id := "pad.init.p3"; p_text := "PadInit sets up the controller port.";
       p_tokens := Some ["PadInit"]; p_role := Some "backbone" |};
    {| p_id := "pad.state.p12"; p_text := "PadGetState reports the port state.";
       p_tokens := Some ["PadGetState"]; p_role := None |};
    {| p_id := "vsync.p1"; p_text := "VSync waits for the vertical blank.";
       p_tokens := Some ["VSync"]; p_role := Some "backbone" |} ].

Definition set_iter : gset string → list string := elements.

(** A service that answers with fixed text. *)
Definition answers (content : string) : payload → result string :=
  λ _, Ok content.

(** A service that cannot be reached. *)
Definition unreachable : payload → result string := λ _, Raise RequestError.

Definition dq : string := String quote_char "".

(** [{"narrative": "n", "citationsUsed": ["c"]}] *)
Definition reply (n c : string) : string :=
  String.concat dq
    ["{"; "narrative"; ": "; n; ", "; "citationsUsed"; ": ["; c; "]}"].

(** A generator output citing a passage that was not provided. *)
Definition out_xyz : gmap string pyval :=
  {[ "narrative" := VStr "I call PadGetState [pad.state.p12] then Foo [xyz]";
     "citationsUsed" := VList ["pad.state.p12"; "xyz"];
     "tokensUsed" := VList ["PadGetState"] ]}.

Definition quotes : list quote :=
  [Quote "pad.state.p12" "PadGetState reports the port state."].

(** A rank that drops along every edge of [REL]. *)
Definition rank (w : string) : nat := if decide (w = "PadGetState") then 1 else 0.

(** Two JSON objects in one reply. *)
Definition two_objects : string :=
  reply "a" "p1" +:+ " or " +:+ reply "b" "p2".

End Demo.


(** * Vocabulary of the statements on the walk of any table *)

(** [w] requires, through any number of steps, a symbol that requires
    itself through one or more. *)
Definition reaches_cycle (REL : gmap string rel_entry) (w : string) : Prop :=
  ∃ c, rtc (req_edge REL) w c ∧ tc (req_edge REL) c c.

(** No seen symbol reaches a cycle. *)
Definition cycle_free (REL : gmap string rel_entry) (seen : gset string) : Prop :=
  ∀ w, w ∈ seen → ¬ reaches_cycle REL w.

(** * Vocabulary of the statements on the selector's answer *)

(** The passages of a list that bring an identifier not met before, [seen]
    holding the identifiers met so far. *)
Fixpoint first_ids (seen : gset string) (ps : list passage) : list passage :=
  match ps with
  | [] => []
  | p :: ps' =>
      if decide (p_id p ∈ seen) then first_ids seen ps'
      else p :: first_ids ({[p_id p]} ∪ seen) ps'
  end.

(** The passages either loop may take, in the order in which the loops meet
    them: the ones that are not backbone and name a symbol of [T], then the
    backbone ones that name a symbol of [prereq_only]. *)
Definition candidates (PASSAGES : list passage) (T prereq_only : gset string)
  : list passage :=
  List.filter (λ p, negb (RunNarrative.is_backbone p)
                    && RunNarrative.substantiates p T) PASSAGES
  ++ List.filter (λ p, RunNarrative.is_backbone p
                       && RunNarrative.substantiates p prereq_only) PASSAGES.

(** The number of quotes at which the selector stops: the limit, and one
    when the limit is below one. *)
Definition quota (max_quotes : Z) : nat := Z.to_nat (Z.max 1 max_quotes).

(** The shape shared by both loops of the selector: pass a passage whose
    identifier is seen or that [skip] holds of, take one that names a symbol
    of [S]. *)
Definition pick_if (max_quotes : Z) (skip : passage → bool) (S : gset string)
    (p : passage) (st : RunNarrative.selection) : flow RunNarrative.selection :=
  if bool_decide (p_id p ∈ st.2) || skip p then Next st
  else if RunNarrative.substantiates p S then RunNarrative.choose max_quotes p st
  else Next st.

(** * Vocabulary of the statements on the orchestrators *)

(** The marks that [generate_narrative] leaves on a linted reply. *)
Definition marked (reply : gmap string pyval) (ok : bool)
    (issues activated allowed_tokens provided_ids : list string)
  : gmap string pyval :=
  <["__provided_ids" := VList provided_ids]>
    (<["__allowed_tokens" := VList allowed_tokens]>
       (<["__activated_tokens" := VList activated]>
          (if ok then <["__ok" := VBool ok]> reply
           else <["__issues" := VList issues]> (<["__ok" := VBool ok]> reply)))).

(** * Vocabulary of the statements on tokens *)

(** [[a-z0-9_]] *)
Definition token_char (c : ascii) : bool :=
  is_lower c || is_digit c || Ascii.eqb c "_".

(** The maximal runs of characters of a class in a text, from the left;
    [word] is the run being read. *)
Fixpoint runs (p : ascii → bool) (s : text) (word : text) : list text :=
  match s with
  | x :: s' =>
      if p x then runs p s' (word ++ [x])
      else
        match word with
        | [] => runs p s' []
        | _ => word :: runs p s' []
        end
  | [] =>
      match word with
      | [] => []
      | _ => [word]
      end
  end.

(** A text that the tokenizer returns as one token. *)
Definition is_token (t : string) : Prop :=
  t ≠ "" ∧ Forall (λ c, token_char c = true) (chars t).

(** * Vocabulary of the statements on interpret.py *)

(** The first symbol that [w] yields, when it yields any. *)
Definition first_yield (REL : gmap string rel_entry) (w : string) : option string :=
  match REL !! w ≫= yields with
  | Some (domain :: _) => Some domain
  | _ => None
  end.

(** The row of the tableau for a word that yields. *)
Definition tableau_row (REL : gmap string rel_entry) (w : string) : option string :=
  domain ← first_yield REL w; Some (w +:+ " → " +:+ domain).

(** A word that is listed as callable. *)
Definition tableau_callable (SYMBOLS : symbols) (REL : gmap string rel_entry)
    (w : string) : bool :=
  match first_yield REL w with
  | Some _ => false
  | None =>
      bool_decide (w ∈ default [] (functions SYMBOLS))
      || bool_decide (w ∈ default [] (literals SYMBOLS))
  end.

(** A symbol of the desired path that [interpret_event] keeps. *)
Definition desired_present (SYMBOLS : symbols) (bag : list string) (w : string)
  : Prop :=
  (w = "PAD_STATE_*" ∧ "PAD_STATE_*" ∈ dom (default ∅ (enums SYMBOLS))) ∨
  (w ∈ ["PadInit"; "PadGetState"; "VSync(0)"] ∧
   (w ∈ bag ∨ w ∈ default [] (literals SYMBOLS))).

(** * More sample tables *)

Module Sample.

(** The table of [Demo] beside two symbols that require each other. *)
Definition REL : gmap string rel_entry :=
  {[ "PadGetState" := RelEntry (Some ["PadInit"]) (Some ["PAD_STATE_*"]);
     "PadInit" := RelEntry (Some []) None;
     "A" := RelEntry (Some ["B"]) None;
     "B" := RelEntry (Some ["A"]) None ]}.

(** The part of [REL] that no cycle touches. *)
Definition sound : gset string := {[ "PadGetState"; "PadInit" ]}.

End Sample.

(** * Vocabulary of the statements on the tools *)

(** [[a-z0-9_-]] *)
Definition name_char (c : ascii) : bool :=
  is_lower c || is_digit c || Ascii.eqb c "_" || Ascii.eqb c "-".

(** [c.strip().lower()] *)
Definition normal (c : string) : string := lower (strip c).

(** A lexeme that [sanitize] lets through: three characters or more, a
    small letter first, then small letters, digits, [_] and [-] up to the
    end. *)
Definition well_formed (tok : string) : Prop :=
  3 ≤ String.length tok ∧
  ∃ x body, chars tok = x :: body ∧ is_lower x = true ∧
            Forall (λ c, name_char c = true) body.

(** A legal order of walking dicts: every item once. *)
Definition walks_dicts
    (dict_items : gmap string (list string) → list (string * list string))
  : Prop :=
  ∀ m, dict_items m ≡ₚ map_to_list m.

(** Every tag of the lexicon is a key of [neutral2sdk]. *)
Definition tags_known (m : neutral_map) : Prop :=
  ∀ term tags tag,
    default ∅ (lex2neutral m) !! term = Some tags → tag ∈ tags →
    tag ∈ dom (default ∅ (neutral2sdk m)).

(** Every symbol of [neutral2sdk] is a function, a literal or the name of
    an enum of symbols.json. *)
Definition symbols_known (sym : symbols) (m : neutral_map) : Prop :=
  ∀ n ws w,
    default ∅ (neutral2sdk m) !! n = Some ws → w ∈ ws →
    w ∈ default [] (functions sym) ∨ w ∈ default [] (literals sym)
    ∨ w ∈ dom (default ∅ (enums sym)).

(** A text with a small letter and then [e] at its end, or before the line
    feed that ends it. *)
Definition e_ending (t : string) : Prop :=
  ∃ pre c tail, chars t = pre ++ c :: "e"%char :: tail ∧ is_lower c = true ∧
                (tail = [] ∨ tail = ["010"%char]).

(** What one index of the reply selects. *)
Definition selected (props : list string) (existing_keys : gset string) (k : Z)
  : option string :=
  if bool_decide (1 ≤ k ≤ Z.of_nat (length props))%Z then
    match props !! Z.to_nat (k - 1) with
    | Some cand => if bool_decide (cand ∉ existing_keys) then Some cand else None
    | None => None
    end
  else None.

(** The indexes that one token of the reply names: its value, or the
    values from the one before its first [-] to the one behind it. *)
Definition token_picks (token : text) (k : Z) : bool :=
  match cut_at "-" token with
  | Some (a, b) =>
      isdigit a && isdigit b
      && (digits_value a <=? k)%Z && (k <=? digits_value b)%Z
  | None => isdigit token && (digits_value token =? k)%Z
  end.

(** [int] converts the digits of a token. *)
Definition converts (py_int : text → outcome Z) (token : text) : Prop :=
  ∀ part,
    part ∈ match cut_at "-" token with
           | Some (a, b) => [a; b]
           | None => [token]
           end →
    isdigit part = true → py_int part = Return (digits_value part).

(** * Sample tables for the tools *)

Module ToolSample.

(** Tables that validate_maps.py passes. *)
Definition NEUT_MAP : neutral_map :=
  {| lex2neutral :=
       Some {[ "controller" := ["input_device"]; "poll" := ["read_state"] ]};
     neutral2sdk :=
       Some {[ "input_device" := ["PadInit"]; "read_state" := ["PadGetState"] ]} |}.

(** A lexicon that activates a symbol of a cycle of [Sample.REL]. *)
Definition SYMBOLS_loop : symbols :=
  {| functions := Some ["A"; "B"]; literals := None; enums := None |}.

Definition NEUT_MAP_loop : neutral_map :=
  {| lex2neutral := Some {[ "spin" := ["looping"] ]};
     neutral2sdk := Some {[ "looping" := ["A"] ]} |}.

(** [int] on digits that it converts. *)
Definition py_int (t : text) : outcome Z := Return (digits_value t).

End ToolSample.
(** * Facts *)

(** ** Loops *)


Lemma for_each_total {A S : Type} (body : A → S → option S) (xs : list A) :
  (∀ x st, x ∈ xs → is_Some (body x st)) →
  ∀ st, is_Some (for_each body xs st).
Proof.
  induction xs as [|x xs IH]; intros Hbody st; simpl.
  - by eexists.
  - destruct (Hbody x st) as [st' ->]; [left|]. simpl.
    apply IH. intros y st'' Hy. apply Hbody. by right.
Qed.

Lemma for_each_ext {A S : Type} (f g : A → S → option S) (xs : list A) st r :
  (∀ x s s', x ∈ xs → f x s = Some s' → g x s = Some s') →
  for_each f xs st = Some r → for_each g xs st = Some r.
Proof.
  revert st. induction xs as [|x xs IH]; intros st Hfg; simpl; [done|].
  destruct (f x st) as [s1|] eqn:E; simpl; [|done].
  rewrite (Hfg x st s1 ltac:(left) E). simpl.
  apply IH. intros y s s' Hy. apply Hfg. by right.
Qed.

Lemma for_each_agree {A S : Type} (I : S → Prop) (f g : A → S → option S)
    (xs : list A) :
  (∀ x s, x ∈ xs → I s → f x s = g x s) →
  (∀ x s s', x ∈ xs → I s → g x s = Some s' → I s') →
  ∀ st, I st → for_each f xs st = for_each g xs st.
Proof.
  induction xs as [|x xs IH]; intros Hfg Hstep st Hst; simpl; [done|].
  rewrite (Hfg x st); [|left|done].
  destruct (g x st) as [s1|] eqn:E; simpl; [|done].
  apply IH.
  - intros y s Hy. apply Hfg. by right.
  - intros y s s' Hy. apply Hstep. by right.
  - eapply Hstep; [left|done..].
Qed.

(** ** Requires closure *)

Section Closure.

Context (REL : gmap string rel_entry).

Local Abbreviation requires_of := (RunNarrative.requires_of REL).
Local Abbreviation add := (RunNarrative.add REL).
Local Abbreviation expand_with_requires := (RunNarrative.expand_with_requires REL).
Local Abbreviation add_with_requires := (Interpret.add_with_requires REL).
Local Abbreviation topo_require_chain := (Interpret.topo_require_chain REL).
Local Abbreviation req_edge := (req_edge REL).
Local Abbreviation acyclic := (acyclic REL).
Local Abbreviation walk_inv := (walk_inv REL).
Local Abbreviation walk_post := (walk_post REL).
Local Abbreviation walk := RunNarrative.walk.

(** Entries with requires are keys of [REL]. *)
Lemma req_edge_dom w r : req_edge w r → w ∈ dom REL.
Proof.
  unfold req_edge, requires_of. intros H. apply elem_of_dom.
  destruct (REL !! w); [by eexists | by apply elem_of_nil in H].
Qed.

(** A duplicate-free list of keys is no longer than the table. *)
Lemma path_bound (path : list string) :
  NoDup path → (∀ a, a ∈ path → a ∈ dom REL) → length path ≤ size REL.
Proof.
  intros Hnd Hin.
  rewrite <- (size_dom (D := gset string)).
  rewrite <- (size_list_to_set (C := gset string) path Hnd).
  apply subseteq_size. intros a Ha. apply Hin. set_solver.
Qed.

(** Depth of the walk: along a chain of requires no key repeats, so the
    call stack is never deeper than the table is large. *)
Lemma add_returns_on_path (Hacyc : acyclic) fuel :
  ∀ path w st,
    NoDup path →
    (∀ a, a ∈ path → tc req_edge a w) →
    size REL < length path + fuel →
    is_Some (add fuel w st).
Proof.
  induction fuel as [|fuel IH]; intros path w st Hnd Hanc Hlen.
  - exfalso.
    assert (length path ≤ size REL); [|lia].
    apply path_bound; [done|]. intros a Ha.
    apply Hanc in Ha. inversion Ha; subst; by eapply req_edge_dom.
  - simpl. case_decide; [by eexists|].
    destruct (for_each_total (add fuel) (requires_of w)) with (st := st)
      as [st' ->]; [|by eexists].
    intros r st0 Hr. apply (IH (w :: path)).
    + constructor; [|done]. intros Hw. by apply (Hacyc w), Hanc.
    + intros a [->|Ha]%elem_of_cons; [by apply tc_once|].
      eapply tc_r; [by apply Hanc|done].
    + simpl. lia.
Qed.

Lemma add_returns (Hacyc : acyclic) fuel w st :
  size REL < fuel → is_Some (add fuel w st).
Proof.
  intros. apply (add_returns_on_path Hacyc fuel []); simpl;
    [constructor | by intros a ?%elem_of_nil | lia].
Qed.

(** More stack never changes an answer. *)
Lemma add_fuel_mono fuel :
  ∀ fuel' w st st', fuel ≤ fuel' →
    add fuel w st = Some st' → add fuel' w st = Some st'.
Proof.
  induction fuel as [|fuel IH]; intros fuel' w st st' Hle; [done|].
  destruct fuel' as [|fuel']; [lia|]. simpl.
  case_decide; [done|].
  destruct (for_each (add fuel) (requires_of w) st) as [s1|] eqn:E; [|done].
  erewrite (for_each_ext (add fuel) (add fuel')); [done| |exact E].
  intros x s s' _. apply IH. lia.
Qed.

Lemma precedes_app r w out ext :
  precedes r w out → precedes r w (out ++ ext).
Proof.
  intros (i & j & Hi & Hj & Hlt). exists i, j.
  split_and!; [by apply lookup_app_l_Some..|done].
Qed.

Lemma precedes_snoc r w out : r ∈ out → precedes r w (out ++ [w]).
Proof.
  intros [i Hi]%list_elem_of_lookup. exists i, (length out).
  split_and!.
  - by apply lookup_app_l_Some.
  - by rewrite list_lookup_middle.
  - by eapply lookup_lt_Some.
Qed.

Lemma precedes_elem r w out : precedes r w out → r ∈ out.
Proof. intros (i & j & Hi & _). by eapply list_elem_of_lookup_2. Qed.

(** An emitted symbol has all it reaches emitted with it. *)
Lemma walk_inv_reach st w x :
  walk_inv st → w ∈ st.1 → rtc req_edge w x → x ∈ st.1.
Proof.
  intros (_ & _ & Hpre) Hw Hreach.
  induction Hreach as [|w r x Hedge _ IH]; [done|].
  apply IH. eapply precedes_elem, Hpre; done.
Qed.

Lemma for_each_walk (body : string → walk → option walk) (roots : list string) :
  (∀ r st st', r ∈ roots → walk_inv st → body r st = Some st' →
     walk_post [r] st st') →
  ∀ st st', walk_inv st → for_each body roots st = Some st' →
    walk_post roots st st'.
Proof.
  induction roots as [|r roots IH]; intros Hbody st st' Hinv Hrun; simpl in Hrun.
  - injection Hrun as <-. split; [done|]. exists [].
    split_and!; [by rewrite app_nil_r | by intros ? ?%elem_of_nil..].
  - destruct (body r st) as [s1|] eqn:E; simpl in Hrun; [|done].
    destruct (Hbody r st s1) as (Hinv1 & ext1 & Hout1 & Hin1 & Hreach1);
      [left|done|done|].
    destruct (IH (λ y s s' Hy, Hbody y s s' (list_elem_of_further _ _ _ Hy))
                s1 st' Hinv1 Hrun) as (Hinv' & ext2 & Hout2 & Hin2 & Hreach2).
    split; [done|]. exists (ext1 ++ ext2). split_and!.
    + by rewrite Hout2, Hout1, app_assoc.
    + intros y [->|Hy]%elem_of_cons; [|by apply Hin2].
      rewrite Hout2. apply elem_of_app. left. apply Hin1. left.
    + intros x [Hx|Hx]%elem_of_app.
      * destruct (Hreach1 x Hx) as (y & ->%list_elem_of_singleton & Hy).
        exists r. split; [left|done].
      * destruct (Hreach2 x Hx) as (y & Hy & Hyx).
        exists y. split; [by right|done].
Qed.

(** After the requires of an unseen [w] are walked, [w] is still unseen:
    all that was added is required by [w], and [w] does not require itself. *)
Lemma requires_walk_fresh (Hacyc : acyclic) w st st' :
  w ∉ st.2 → walk_inv st → walk_post (requires_of w) st st' → w ∉ st'.1.
Proof.
  intros Hw (Hseen & _) (_ & ext & Hout & _ & Hreach).
  rewrite Hout. intros [Hin|Hin]%elem_of_app.
  - apply Hw. rewrite Hseen. by apply elem_of_list_to_set.
  - destruct (Hreach w Hin) as (r & Hr & Hrw).
    apply (Hacyc w). by eapply tc_rtc_r; [apply tc_once|].
Qed.

Lemma walk_emit (Hacyc : acyclic) w st st' :
  w ∉ st.2 → walk_inv st → walk_post (requires_of w) st st' →
  walk_post [w] st (st'.1 ++ [w], {[w]} ∪ st'.2).
Proof.
  intros Hw Hinv Hpost.
  pose proof (requires_walk_fresh Hacyc w st st' Hw Hinv Hpost) as Hfresh.
  destruct Hpost as ((Hseen' & Hnd' & Hpre') & ext & Hout & Hin & Hreach).
  split; [split_and!|]; simpl.
  - rewrite Hseen', list_to_set_app_L. apply set_eq. intros x.
    rewrite !elem_of_union, elem_of_singleton, !elem_of_list_to_set.
    rewrite list_elem_of_singleton. tauto.
  - apply NoDup_app. split_and!; [done| |apply NoDup_singleton].
    by intros x Hx ->%list_elem_of_singleton.
  - intros x r [Hx| ->%list_elem_of_singleton]%elem_of_app Hedge.
    + by apply precedes_app, Hpre'.
    + by apply precedes_snoc, Hin.
  - exists (ext ++ [w]). split_and!.
    + by rewrite Hout, app_assoc.
    + intros r ->%list_elem_of_singleton. apply elem_of_app. right. left.
    + intros x [Hx| ->%list_elem_of_singleton]%elem_of_app.
      * destruct (Hreach x Hx) as (r & Hr & Hrx). exists w.
        split; [left|]. by eapply rtc_l.
      * exists w. split; [left|done].
Qed.

Lemma walk_post_seen w st : walk_inv st → w ∈ st.2 → walk_post [w] st st.
Proof.
  intros Hinv Hw. split; [done|]. exists []. split_and!.
  - by rewrite app_nil_r.
  - intros r ->%list_elem_of_singleton. destruct Hinv as (Hseen & _).
    rewrite Hseen in Hw. by apply elem_of_list_to_set in Hw.
  - by intros ? ?%elem_of_nil.
Qed.

Lemma add_walk (Hacyc : acyclic) fuel :
  ∀ w st st', walk_inv st → add fuel w st = Some st' → walk_post [w] st st'.
Proof.
  induction fuel as [|fuel IH]; intros w st st' Hinv Hrun; [done|].
  simpl in Hrun. case_decide as Hw.
  - injection Hrun as <-. by apply walk_post_seen.
  - destruct (for_each (add fuel) (requires_of w) st) as [s1|] eqn:E;
      simpl in Hrun; [|done].
    injection Hrun as <-. apply (walk_emit Hacyc); [done..|].
    eapply for_each_walk; [|done..]. intros r s s' _. apply IH.
Qed.

(** On an acyclic table the second membership test of [topo_require_chain]
    never fails, so both walks are the same function. *)
Lemma add_with_requires_add (Hacyc : acyclic) fuel :
  ∀ w st, walk_inv st → add_with_requires fuel w st = add fuel w st.
Proof.
  induction fuel as [|fuel IH]; intros w st Hinv; [done|].
  simpl. case_decide as Hw; [done|].
  change (Interpret.requires_of REL w) with (requires_of w).
  rewrite (for_each_agree walk_inv (add_with_requires fuel) (add fuel));
    [|by intros; apply IH| |done].
  2:{ intros x s s' _ Hs Hrun. by apply (add_walk Hacyc fuel x s s'). }
  destruct (for_each (add fuel) (requires_of w) st) as [s1|] eqn:E; [|done].
  simpl. case_decide as Hfresh; [done|]. exfalso.
  assert (walk_post (requires_of w) st s1) as Hpost.
  { eapply for_each_walk; [|done..]. intros r s s' _. apply (add_walk Hacyc). }
  pose proof (requires_walk_fresh Hacyc w st s1 Hw Hinv Hpost) as Hnot.
  destruct Hpost as ((Hseen & _) & _). rewrite Hseen in Hfresh.
  apply Hnot. by apply elem_of_list_to_set in Hfresh.
Qed.

Lemma walk_inv_empty : walk_inv ([], ∅).
Proof.
  split_and!; simpl; [done|constructor|by intros ? ? ?%elem_of_nil].
Qed.

(** The closure walk from the empty state returns, and with the same answer
    for every stack deeper than the table is large. *)
Lemma closure_walk (Hacyc : acyclic) (targets : list string) :
  ∃ st,
    (∀ fuel, size REL < fuel → for_each (add fuel) targets ([], ∅) = Some st) ∧
    walk_post targets ([], ∅) st.
Proof.
  destruct (for_each_total (add (S (size REL))) targets) with (st := ([], ∅) : walk)
    as [st Hst].
  { intros x s _. apply (add_returns Hacyc). lia. }
  exists st. split.
  - intros fuel Hfuel. eapply for_each_ext; [|exact Hst].
    intros x s s' _. apply add_fuel_mono. lia.
  - eapply for_each_walk; [|apply walk_inv_empty|exact Hst].
    intros r s s' _. apply (add_walk Hacyc).
Qed.

Lemma topo_require_chain_expand (Hacyc : acyclic) fuel targets :
  topo_require_chain fuel targets = expand_with_requires fuel targets.
Proof.
  unfold topo_require_chain, expand_with_requires. f_equal.
  apply (for_each_agree walk_inv); [|by intros; eapply add_walk|apply walk_inv_empty].
  intros x s _. apply (add_with_requires_add Hacyc).
Qed.

(** A table is acyclic as soon as some rank drops along every edge. *)
Lemma acyclic_by_rank (rank : string → nat) :
  (∀ w r, req_edge w r → rank r < rank w) → acyclic.
Proof.
  intros Hrank.
  assert (∀ w x, tc req_edge w x → rank x < rank w) as Htc.
  { induction 1 as [w x H|w r x H _ IH]; [by apply Hrank|].
    apply Hrank in H. lia. }
  intros w Hw. apply Htc in Hw. lia.
Qed.

(** C1. On an acyclic [requires] relation the dependency closure of any list
    of targets returns (for every stack deeper than the table is large, and
    the same from [expand_with_requires] and [topo_require_chain]) a sequence
    that holds every target and every symbol a target requires through any
    number of steps, holds no symbol twice, and places each element of a
    symbol's requires-list at a smaller index than the symbol. *)
Theorem expand_with_requires_topological (targets : list string) :
  acyclic →
  ∃ out,
    (∀ fuel, size REL < fuel →
       expand_with_requires fuel targets = Some out ∧
       topo_require_chain fuel targets = Some out) ∧
    (∀ t, t ∈ targets → t ∈ out) ∧
    (∀ t s, t ∈ targets → rtc req_edge t s → s ∈ out) ∧
    NoDup out ∧
    (∀ w r, w ∈ out → r ∈ requires_of w → precedes r w out).
Proof.
  intros Hacyc.
  destruct (closure_walk Hacyc targets)
    as (st & Hrun & Hinv & ext & Hout & Hin & Hreach).
  exists st.1. split_and!.
  - intros fuel Hfuel. rewrite (topo_require_chain_expand Hacyc).
    unfold expand_with_requires. by rewrite (Hrun fuel Hfuel).
  - done.
  - intros t s Ht. apply walk_inv_reach; [done|]. by apply Hin.
  - by destruct Hinv as (_ & ? & _).
  - by destruct Hinv as (_ & _ & ?).
Qed.

(** Nothing else is emitted: every element of the closure is reached from
    a target. *)
Lemma expand_with_requires_reached (Hacyc : acyclic) fuel targets out :
  expand_with_requires fuel targets = Some out →
  ∀ x, x ∈ out ↔ ∃ t, t ∈ targets ∧ rtc req_edge t x.
Proof.
  unfold expand_with_requires. intros Hrun.
  destruct (for_each (add fuel) targets ([], ∅)) as [st|] eqn:E; [|done].
  injection Hrun as <-.
  destruct (for_each_walk (add fuel) targets) with (st := ([], ∅) : walk) (st' := st)
    as (Hinv & ext & Hout & Hin & Hreach);
    [by intros; eapply add_walk|apply walk_inv_empty|done|].
  simpl in Hout. subst ext. intros x. split; [apply Hreach|].
  intros (t & Ht & Htx). eapply walk_inv_reach; [done| |done]. by apply Hin.
Qed.

End Closure.
(** ** Sets, their walks and [sorted] *)

Lemma sorted_perm (xs : list string) : sorted xs ≡ₚ xs.
Proof. apply merge_sort_Permutation. Qed.

Lemma sorted_elem (xs : list string) x : x ∈ sorted xs ↔ x ∈ xs.
Proof. by rewrite sorted_perm. Qed.

Lemma sorted_length (xs : list string) : length (sorted xs) = length xs.
Proof. by rewrite sorted_perm. Qed.

(** [sorted] forgets the order of its argument. *)
Lemma sorted_order_free (xs ys : list string) : xs ≡ₚ ys → sorted xs = sorted ys.
Proof.
  intros Hperm. apply (Sorted_unique String.le).
  - apply Sorted_merge_sort, _.
  - apply Sorted_merge_sort, _.
  - by rewrite !sorted_perm.
Qed.

Section Walks.

Context (set_iter : gset string → list string) (Hwalk : walks_sets set_iter).

Lemma set_iter_elem (X : gset string) x : x ∈ set_iter X ↔ x ∈ X.
Proof. by rewrite (Hwalk X), elem_of_elements. Qed.

Lemma set_iter_empty : set_iter ∅ = [].
Proof. apply Permutation_nil_r. by rewrite (Hwalk ∅), elements_empty. Qed.

Lemma set_iter_length (X : gset string) : length (set_iter X) = size X.
Proof. by rewrite (Hwalk X). Qed.

Lemma set_iter_NoDup (X : gset string) : NoDup (set_iter X).
Proof. rewrite (Hwalk X). apply NoDup_elements. Qed.

Lemma set_iter_set (X : gset string) : list_to_set (set_iter X) = X.
Proof. apply set_eq. intros x. by rewrite elem_of_list_to_set, set_iter_elem. Qed.

End Walks.

(** Two legal walks of a set sort to the same list. *)
Lemma sorted_set_iter (it1 it2 : gset string → list string) (X : gset string) :
  walks_sets it1 → walks_sets it2 → sorted (it1 X) = sorted (it2 X).
Proof. intros H1 H2. apply sorted_order_free. by rewrite (H1 X), (H2 X). Qed.

(** ** Interpreter *)

Section Interpreter.

Context (SYMBOLS : symbols) (NEUT_MAP : neutral_map).

Local Abbreviation lex_tags := (RunNarrative.lex_tags NEUT_MAP).
Local Abbreviation tag_symbols := (RunNarrative.tag_symbols NEUT_MAP).
Local Abbreviation in_vocabulary := (RunNarrative.in_vocabulary SYMBOLS).

(** One round of the loop over the tags. *)
Local Abbreviation sdk_step :=
  (λ (sdk : gset string) (n : string),
     foldl (λ (sdk : gset string) w, if in_vocabulary w then {[w]} ∪ sdk else sdk)
           sdk (tag_symbols n)).

(** The tags gathered over a list of tokens. *)
Lemma neutral_elem (tokens : list string) (acc : gset string) n :
  n ∈ foldl (λ neutral t, neutral ∪ list_to_set (lex_tags t)) acc tokens ↔
  n ∈ acc ∨ ∃ t, t ∈ tokens ∧ n ∈ lex_tags t.
Proof.
  revert acc. induction tokens as [|t tokens IH]; intros acc; simpl.
  - split; [by left|]. intros [?|(t & []%elem_of_nil & _)]. done.
  - rewrite IH, elem_of_union, elem_of_list_to_set. split.
    + intros [[?|?]|(t' & ? & ?)]; [by left|right..].
      * exists t. split; [left|done].
      * exists t'. split; [by right|done].
    + intros [?|(t' & [->|?]%elem_of_cons & ?)];
        [by left; left|by left; right|right; by exists t'].
Qed.

(** The symbols gathered over a list of tags. *)
Lemma sdk_elem (tags : list string) (acc : gset string) w :
  w ∈ foldl sdk_step acc tags ↔
  w ∈ acc ∨ ∃ n, n ∈ tags ∧ w ∈ tag_symbols n ∧ in_vocabulary w = true.
Proof.
  assert (∀ (ws : list string) (acc : gset string),
    w ∈ foldl (λ sdk w, if in_vocabulary w then {[w]} ∪ sdk else sdk) acc ws ↔
    w ∈ acc ∨ (w ∈ ws ∧ in_vocabulary w = true)) as Hinner.
  { induction ws as [|x ws IH]; intros acc'; simpl.
    - split; [by left|]. by intros [?|[[]%elem_of_nil _]].
    - rewrite IH, elem_of_cons. destruct (in_vocabulary x) eqn:Hx.
      + rewrite elem_of_union, elem_of_singleton. split.
        * intros [[->|?]|[? ?]]; [right|left|right]; auto.
        * intros [?|[[->|?] ?]]; auto.
      + split; [intros [?|[? ?]]; auto|].
        intros [?|[[->|?] ?]]; [auto|congruence|auto]. }
  revert acc. induction tags as [|n tags IH]; intros acc; simpl.
  - split; [by left|]. by intros [?|(n & []%elem_of_nil & _)].
  - rewrite IH, Hinner. split.
    + intros [[?|[? ?]]|(n' & ? & ?)]; [by left|right..].
      * exists n. split; [left|done].
      * exists n'. split; [by right|done].
    + intros [?|(n' & [->|?]%elem_of_cons & ? & ?)];
        [by left; left|by left; right|right; by exists n'].
Qed.



(** The symbols gathered do not depend on the walk of the tag set. *)
Lemma sdk_walk_free (it1 it2 : gset string → list string) (neutral : gset string) :
  walks_sets it1 → walks_sets it2 →
  foldl sdk_step ∅ (it1 neutral) = foldl sdk_step ∅ (it2 neutral).
Proof.
  intros H1 H2. apply set_eq. intros w. rewrite !sdk_elem.
  by setoid_rewrite (set_iter_elem it1 H1); setoid_rewrite (set_iter_elem it2 H2).
Qed.

Section OneWalk.

Context (set_iter : gset string → list string) (Hwalk : walks_sets set_iter).

Local Abbreviation interpret_event :=
  (RunNarrative.interpret_event SYMBOLS NEUT_MAP set_iter).

(** The activated symbols: those a tag of a token maps to, when the
    vocabulary has them. *)
Lemma bag_of_api_elem text w :
  w ∈ bag_of_api (interpret_event text) ↔
  ∃ t n, t ∈ RunNarrative._tokenize text ∧ n ∈ lex_tags t ∧
         w ∈ tag_symbols n ∧ in_vocabulary w = true.
Proof.
  unfold RunNarrative.interpret_event. simpl.
  rewrite sorted_elem, (set_iter_elem _ Hwalk), sdk_elem. split.
  - intros [[]%not_elem_of_empty|(n & Hn & Hw & Hv)].
    apply (set_iter_elem _ Hwalk), neutral_elem in Hn
      as [[]%not_elem_of_empty|(t & Ht & Hn)].
    by exists t, n.
  - intros (t & n & Ht & Hn & Hw & Hv). right. exists n. split; [|done].
    apply (set_iter_elem _ Hwalk), neutral_elem. right. by exists t.
Qed.

(** The unrepresentable terms: the tokens without a tag. *)
Lemma unrepresentable_elem text t :
  t ∈ unrepresentable (interpret_event text) ↔
  t ∈ RunNarrative._tokenize text ∧ lex_tags t = [].
Proof.
  unfold RunNarrative.interpret_event. simpl.
  rewrite sorted_elem, (set_iter_elem _ Hwalk), elem_of_difference.
  rewrite !elem_of_list_to_set, list_elem_of_filter. split.
  - intros [Ht Hno]. split; [done|].
    destruct (decide (lex_tags t = [])) as [|Hne]; [done|]. by destruct Hno.
  - intros [Ht Hnil]. split; [done|]. intros [Hne _]. by apply Hne.
Qed.

Lemma unrepresentable_NoDup text : NoDup (unrepresentable (interpret_event text)).
Proof.
  unfold RunNarrative.interpret_event. simpl.
  rewrite sorted_perm. by apply set_iter_NoDup.
Qed.

(** There are no more unrepresentable terms than there are tokens, and as
    many only when no token has a tag. *)
Lemma unrepresentable_count text :
  length (unrepresentable (interpret_event text))
    = length (RunNarrative._tokenize text) →
  ∀ t, t ∈ RunNarrative._tokenize text → lex_tags t = [].
Proof.
  intros Hlen t Ht.
  destruct (decide (lex_tags t = [])) as [|Hne]; [done|]. exfalso.
  set (tokens := RunNarrative._tokenize text) in *.
  assert (unrepresentable (interpret_event text) ⊆+ filter (λ x, x ≠ t) tokens)
    as Hsub.
  { apply NoDup_submseteq; [apply unrepresentable_NoDup|].
    intros x [Hx Hnil]%unrepresentable_elem. apply list_elem_of_filter.
    split; [|done]. intros ->. by apply Hne. }
  apply submseteq_length in Hsub. rewrite Hlen in Hsub.
  assert (length (filter (λ x, x ≠ t) tokens) < length tokens); [|lia].
  clear -Ht. induction Ht as [t l|t y l Ht IH].
  - rewrite filter_cons_False by (by intros []). simpl.
    pose proof (length_filter (λ x, x ≠ t) l). lia.
  - rewrite filter_cons. case_decide; simpl; [lia|].
    pose proof (length_filter (λ x, x ≠ t) l). lia.
Qed.

(** Without a tagged token nothing is activated. *)
Lemma no_tag_no_symbol text :
  (∀ t, t ∈ RunNarrative._tokenize text → lex_tags t = []) →
  bag_of_api (interpret_event text) = [].
Proof.
  intros Hnone. apply elem_of_nil_inv. intros w.
  rewrite bag_of_api_elem. intros (t & n & Ht & Hn & _).
  rewrite (Hnone t Ht) in Hn. by apply elem_of_nil in Hn.
Qed.

End OneWalk.
End Interpreter.
(** The second interpreter gathers the same two lists. *)
Lemma interpret_py_agrees SYMBOLS REL NEUT_MAP set_iter fuel text r :
  walks_sets set_iter →
  Interpret.interpret_event SYMBOLS REL NEUT_MAP set_iter fuel text = Some r →
  Interpret.bag_of_api r
    = bag_of_api (RunNarrative.interpret_event SYMBOLS NEUT_MAP set_iter text) ∧
  Interpret.unrepresentable r
    = unrepresentable (RunNarrative.interpret_event SYMBOLS NEUT_MAP set_iter text).
Proof.
  intros Hwalk. unfold Interpret.interpret_event.
  destruct (Interpret.topo_require_chain _ _ _) as [sentence|]; [|done]. simpl.
  destruct (Interpret.build_state_tableau _ _ _ _) as [obs cal].
  intros [= <-]. simpl. split.
  - unfold RunNarrative.interpret_event. simpl. f_equal. f_equal.
    unfold Interpret.neutral_to_sdk. f_equal. f_equal.
    apply set_eq. intros n. rewrite neutral_elem.
    unfold Interpret.to_neutral.
    change (Interpret.tokenize text) with (RunNarrative._tokenize text).
    change (Interpret.lex_tags NEUT_MAP) with (RunNarrative.lex_tags NEUT_MAP).
    generalize (∅ : gset string) as acc.
    induction (RunNarrative._tokenize text) as [|t ts IH]; intros acc; simpl.
    + split; [by left|]. by intros [?|(t & []%elem_of_nil & _)].
    + rewrite IH. clear IH.
      assert (∀ (ns : list string) (a : gset string),
        n ∈ foldl (λ (neutral : gset string) n, {[n]} ∪ neutral) a ns ↔
        n ∈ a ∨ n ∈ ns) as Hinner.
      { induction ns as [|x ns IH]; intros a; simpl.
        - rewrite elem_of_nil. tauto.
        - rewrite IH, elem_of_union, elem_of_singleton, elem_of_cons. tauto. }
      rewrite Hinner. split.
      * intros [[?|?]|(t' & ? & ?)]; [by left|right..].
        -- exists t. split; [left|done].
        -- exists t'. split; [by right|done].
      * intros [?|(t' & [->|?]%elem_of_cons & ?)];
          [by left; left|by left; right|right; by exists t'].
  - apply sorted_order_free, NoDup_Permutation.
    + apply NoDup_filter, set_iter_NoDup, Hwalk.
    + apply set_iter_NoDup, Hwalk.
    + intros t. rewrite list_elem_of_filter, !(set_iter_elem _ Hwalk).
      rewrite elem_of_difference, !elem_of_list_to_set, list_elem_of_filter.
      change (Interpret.tokenize text) with (RunNarrative._tokenize text).
      change (Interpret.lex_tags NEUT_MAP) with (RunNarrative.lex_tags NEUT_MAP).
      assert (∀ (ts : list string) (a : gset string),
        t ∈ foldl (λ (mapped_any : gset string) t,
                     if bool_decide (RunNarrative.lex_tags NEUT_MAP t ≠ [])
                     then {[t]} ∪ mapped_any else mapped_any) a ts ↔
        t ∈ a ∨ (t ∈ ts ∧ RunNarrative.lex_tags NEUT_MAP t ≠ [])) as Hmapped.
      { induction ts as [|x ts IH]; intros a; simpl.
        - rewrite elem_of_nil. tauto.
        - rewrite IH, elem_of_cons. case_bool_decide as Hx.
          + rewrite elem_of_union, elem_of_singleton. split.
            * intros [[->|?]|[? ?]]; auto.
            * intros [?|[[->|?] ?]]; auto.
          + split; [intros [?|[? ?]]; auto|].
            intros [?|[[->|?] ?]]; [auto|done|auto]. }
      rewrite Hmapped, elem_of_empty. tauto.
Qed.

(** C9. Two runs of the interpretation of one text against the same tables
    give the same result, whatever the order in which each run walks its
    sets; this holds for both interpreters. *)
Theorem interpret_event_deterministic SYMBOLS REL NEUT_MAP
    (it1 it2 : gset string → list string) fuel text :
  walks_sets it1 → walks_sets it2 →
  RunNarrative.interpret_event SYMBOLS NEUT_MAP it1 text
    = RunNarrative.interpret_event SYMBOLS NEUT_MAP it2 text ∧
  Interpret.interpret_event SYMBOLS REL NEUT_MAP it1 fuel text
    = Interpret.interpret_event SYMBOLS REL NEUT_MAP it2 fuel text.
Proof.
  intros H1 H2.
  assert (∀ X, sorted (it1 X) = sorted (it2 X)) as Hsorted.
  { intros X. by apply sorted_set_iter. }
  split.
  - unfold RunNarrative.interpret_event.
    rewrite (sdk_walk_free SYMBOLS NEUT_MAP it1 it2 _ H1 H2).
    by rewrite !Hsorted.
  - unfold Interpret.interpret_event, Interpret.build_state_tableau.
    assert (∀ X, Interpret.neutral_to_sdk SYMBOLS NEUT_MAP it1 X
                 = Interpret.neutral_to_sdk SYMBOLS NEUT_MAP it2 X) as ->.
    { intros X. apply (sdk_walk_free SYMBOLS NEUT_MAP it1 it2 _ H1 H2). }
    rewrite Hsorted.
    destruct (Interpret.topo_require_chain _ _ _) as [sentence|]; [|done]. simpl.
    destruct (foldl _ _ _) as [obs cal].
    do 2 f_equal. apply sorted_order_free.
    apply filter_Permutation. by rewrite (H1 _), (H2 _).
Qed.

Section Guard.

Context (SYMBOLS : symbols) (REL : gmap string rel_entry)
  (NEUT_MAP : neutral_map) (PASSAGES : list passage)
  (set_iter : gset string → list string)
  (loads : string → decoding)
  (call_lmstudio : payload → result string).

Local Abbreviation interpret_event :=
  (RunNarrative.interpret_event SYMBOLS NEUT_MAP set_iter).
Local Abbreviation fallback_guard :=
  (RunNarrative.fallback_guard SYMBOLS NEUT_MAP set_iter).
Local Abbreviation generate_narrative :=
  (RunNarrative.generate_narrative SYMBOLS REL NEUT_MAP PASSAGES set_iter loads
     call_lmstudio).

(** The orchestrator branches on [fallback_guard]. *)
Lemma generate_narrative_branch fuel text :
  (fallback_guard text = true ∧
   generate_narrative fuel text = ([INTERPRET; FALLBACK], Ok RunNarrative.fallback)) ∨
  (fallback_guard text = false ∧
   ∃ more r, generate_narrative fuel text = (INTERPRET :: EXPAND :: more, r)).
Proof.
  unfold RunNarrative.generate_narrative, RunNarrative.fallback_guard.
  destruct (_ || _); [by left|right]. split; [done|].
  destruct (RunNarrative.expand_with_requires _ _ _); [|by eexists _, _].
  destruct (RunNarrative.select_passages_event_minimal _ _ _ _ _ _);
    [|by eexists _, _].
  destruct (RunNarrative.ask_lmstudio _ _ _ _ _); by eexists _, _.
Qed.

Lemma activated_empty (bag : list string) :
  (list_to_set bag : gset string) = ∅ ↔ bag = [].
Proof.
  split; [|by intros ->].
  destruct bag as [|x bag]; [done|]. simpl. intros H.
  assert (x ∈ (∅ : gset string)) as []%not_elem_of_empty.
  rewrite <- H. apply elem_of_union. left. by apply elem_of_singleton.
Qed.

(** The guard in terms of the interpretation. *)
Lemma fallback_guard_true text :
  fallback_guard text = true ↔
  bag_of_api (interpret_event text) = [] ∨
  length (unrepresentable (interpret_event text))
    = length (RunNarrative._tokenize text).
Proof.
  unfold RunNarrative.fallback_guard.
  rewrite orb_true_iff, !bool_decide_eq_true, activated_empty. done.
Qed.

(** C10. The fallback guard fires exactly when no symbol is activated: when
    there are as many distinct unrepresentable terms as raw tokens, every
    token is without a tag and nothing is activated, so the second disjunct
    adds nothing; the orchestrator returns the fallback exactly then. *)
Theorem fallback_guard_iff_nothing_activated fuel text :
  walks_sets set_iter →
  let interp := interpret_event text in
  let activated : gset string := list_to_set (bag_of_api interp) in
  (length (unrepresentable interp) = length (RunNarrative._tokenize text) →
     (∀ t, t ∈ RunNarrative._tokenize text →
           RunNarrative.lex_tags NEUT_MAP t = []) ∧
     activated = ∅) ∧
  (fallback_guard text = true ↔ activated = ∅) ∧
  (generate_narrative fuel text = ([INTERPRET; FALLBACK], Ok RunNarrative.fallback)
     ↔ activated = ∅).
Proof.
  intros Hwalk interp activated.
  assert (length (unrepresentable interp) = length (RunNarrative._tokenize text) →
          (∀ t, t ∈ RunNarrative._tokenize text →
                RunNarrative.lex_tags NEUT_MAP t = []) ∧
          activated = ∅) as Hsecond.
  { intros Hlen.
    pose proof (unrepresentable_count SYMBOLS NEUT_MAP set_iter Hwalk text Hlen)
      as Hnone.
    split; [done|]. apply activated_empty. by apply no_tag_no_symbol. }
  assert (fallback_guard text = true ↔ activated = ∅) as Hguard.
  { rewrite fallback_guard_true. unfold activated. rewrite activated_empty.
    split; [|by left]. intros [?|Hlen]; [done|].
    apply activated_empty. by apply Hsecond. }
  split_and!; [done..|].
  rewrite <- Hguard.
  destruct (generate_narrative_branch fuel text)
    as [[Hg ->]|[Hg (more & r & ->)]]; rewrite Hg; split; done.
Qed.

(** C6. When the interpretation activates no symbol (so when no token of
    the text has a tag in the lexicon), or reports as many unrepresentable
    terms as the text has raw tokens, the orchestrator prints the banners of
    the interpret and fallback stages only and returns the canned narrative
    with an empty citation list, an empty token list and a valid verdict,
    for every table of requires, corpus, stack depth, decoder and
    generation service. *)
Theorem fallback_on_nothing_representable fuel text :
  walks_sets set_iter →
  bag_of_api (interpret_event text) = [] ∨
  length (unrepresentable (interpret_event text))
    = length (RunNarrative._tokenize text) ∨
  (∀ t, t ∈ RunNarrative._tokenize text → RunNarrative.lex_tags NEUT_MAP t = []) →
  generate_narrative fuel text = ([INTERPRET; FALLBACK], Ok RunNarrative.fallback) ∧
  RunNarrative.fallback !! "narrative" = Some (VStr RunNarrative.fallback_narrative) ∧
  RunNarrative.fallback !! "citationsUsed" = Some (VList []) ∧
  RunNarrative.fallback !! "tokensUsed" = Some (VList []) ∧
  RunNarrative.fallback !! "__ok" = Some (VBool true).
Proof.
  intros Hwalk Hpre. split; [|by vm_compute].
  destruct (generate_narrative_branch fuel text) as [[_ ->]|[Hg _]]; [done|].
  exfalso. apply not_true_iff_false in Hg. apply Hg, fallback_guard_true.
  destruct Hpre as [?|[?|Hnone]]; [by left|by right|left].
  by apply no_tag_no_symbol.
Qed.

End Guard.

(** ** Passage selection *)

(** A loop keeps [P] on the items passed so far while it goes on, and
    establishes [Q] when it is left. *)
Lemma loop_ind {A S : Type} (body : A → S → flow S) (xs : list A)
    (P : list A → S → Prop) (Q : S → Prop) :
  (∀ passed x st, x ∈ xs → P passed st →
     match body x st with
     | Next st' => P (passed ++ [x]) st'
     | Leave st' => Q st'
     end) →
  ∀ st, P [] st →
    match loop body xs st with
    | Next st' => P xs st'
    | Leave st' => Q st'
    end.
Proof.
  intros Hstep.
  assert (∀ rest passed st, (∀ x, x ∈ rest → x ∈ xs) → P passed st →
            match loop body rest st with
            | Next st' => P (passed ++ rest) st'
            | Leave st' => Q st'
            end) as Hgen.
  { induction rest as [|x rest IH]; intros passed st Hsub HP; simpl.
    - by rewrite app_nil_r.
    - pose proof (Hstep passed x st (Hsub x ltac:(left)) HP) as Hx.
      destruct (body x st) as [st'|st']; [|done].
      rewrite (assoc_L (++) passed [x] rest : passed ++ x :: rest = _).
      apply IH; [|done]. intros y Hy. apply Hsub. by right. }
  intros st HP. by apply (Hgen xs []).
Qed.

Section Selection.

Context (PASSAGES : list passage) (T prereq_only : gset string) (max_quotes : Z).

Local Abbreviation selection := RunNarrative.selection.
Local Abbreviation is_backbone := RunNarrative.is_backbone.
Local Abbreviation substantiates := RunNarrative.substantiates.

Local Abbreviation admissible := (admissible PASSAGES T prereq_only).
Local Abbreviation room_left := (room_left max_quotes).
Local Abbreviation within_quota := (within_quota max_quotes).
Local Abbreviation chosen_from := (chosen_from PASSAGES T prereq_only).

Lemma choose_spec p picked st :
  p_id p ∉ st.2 → admissible p → chosen_from picked st → room_left st →
  match RunNarrative.choose max_quotes p st with
  | Next st' => chosen_from (picked ++ [p]) st' ∧ room_left st'
  | Leave st' =>
      chosen_from (picked ++ [p]) st' ∧ within_quota st' ∧
      (max_quotes ≤ Z.of_nat (length st'.1))%Z
  end.
Proof.
  intros Hnew Hadm (Hch & Hseen & Hnd & Hall) Hroom.
  assert (chosen_from (picked ++ [p])
            (st.1 ++ [Quote (p_id p) (p_text p)], {[p_id p]} ∪ st.2)) as Hinv.
  { split_and!; simpl.
    - by rewrite Hch, fmap_app.
    - rewrite Hseen, fmap_app, list_to_set_app_L.
      change (p_id <$> [p]) with [p_id p]. apply set_eq. intros x.
      rewrite !elem_of_union, elem_of_singleton, !elem_of_list_to_set.
      rewrite list_elem_of_singleton. tauto.
    - rewrite fmap_app. apply NoDup_app. split_and!; [done| |apply NoDup_singleton].
      intros x Hx ->%list_elem_of_singleton. apply Hnew.
      rewrite Hseen. by apply elem_of_list_to_set.
    - apply Forall_app. split; [done|]. by apply Forall_singleton. }
  unfold RunNarrative.choose. case_bool_decide as Hfull.
  - split_and!; [done| |done]. unfold within_quota, room_left in *. simpl in *.
    rewrite length_app in *. simpl. intros H1. specialize (Hroom H1). lia.
  - split; [done|]. unfold room_left in *. simpl in *. intros _. lia.
Qed.

Lemma substantiates_cites p (S : gset string) :
  substantiates p S = true ↔ cites p (λ tok, tok ∈ S).
Proof.
  unfold RunNarrative.substantiates, cites. rewrite existsb_exists.
  setoid_rewrite bool_decide_eq_true. by setoid_rewrite list_elem_of_In.
Qed.

(** The first loop. *)
Lemma pick_specific_spec :
  match loop (RunNarrative.pick_specific T max_quotes) PASSAGES ([], ∅) with
  | Next st =>
      ∃ picked, chosen_from picked st ∧ room_left st ∧
        ∀ p, p ∈ PASSAGES → is_backbone p = false → substantiates p T = true →
             p_id p ∈ st.2
  | Leave st =>
      ∃ picked, chosen_from picked st ∧ within_quota st ∧
        (max_quotes ≤ Z.of_nat (length st.1))%Z
  end.
Proof.
  apply (loop_ind (RunNarrative.pick_specific T max_quotes) PASSAGES
    (λ passed st, ∃ picked, chosen_from picked st ∧ room_left st ∧
       ∀ p, p ∈ passed → is_backbone p = false → substantiates p T = true →
            p_id p ∈ st.2)
    (λ st, ∃ picked, chosen_from picked st ∧ within_quota st ∧
       (max_quotes ≤ Z.of_nat (length st.1))%Z)).
  - intros passed p st Hp (picked & Hinv & Hroom & Hdone).
    unfold RunNarrative.pick_specific.
    destruct (bool_decide (p_id p ∈ st.2)) eqn:Hseen; simpl.
    { exists picked. split_and!; [done..|].
      intros p' [Hp'| ->%list_elem_of_singleton]%elem_of_app; [by apply Hdone|].
      intros _ _. by apply bool_decide_eq_true in Hseen. }
    apply bool_decide_eq_false in Hseen.
    destruct (is_backbone p) eqn:Hbb; simpl.
    { exists picked. split_and!; [done..|].
      intros p' [Hp'| ->%list_elem_of_singleton]%elem_of_app; [by apply Hdone|].
      by rewrite Hbb. }
    destruct (substantiates p T) eqn:HT.
    + assert (admissible p) as Hadm. { split; [done|]. by rewrite Hbb. }
      pose proof (choose_spec p picked st Hseen Hadm Hinv Hroom) as Hch.
      destruct (RunNarrative.choose max_quotes p st) as [st'|st'] eqn:E.
      * destruct Hch as [Hinv' Hroom']. exists (picked ++ [p]).
        split_and!; [done..|].
        destruct Hinv as (_ & Hs & _), Hinv' as (_ & Hs' & _).
        intros p' Hp' Hb' HT'. rewrite Hs', fmap_app, list_to_set_app_L.
        apply elem_of_app in Hp' as [Hp'| ->%list_elem_of_singleton].
        -- apply elem_of_union. left. rewrite <- Hs. by apply Hdone.
        -- apply elem_of_union. right. apply elem_of_list_to_set. left.
      * destruct Hch as (Hinv' & Hq & Hfull). by exists (picked ++ [p]).
    + exists picked. split_and!; [done..|].
      intros p' [Hp'| ->%list_elem_of_singleton]%elem_of_app; [by apply Hdone|].
      intros _. by rewrite HT.
  - exists []. split_and!.
    + split_and!; simpl; [done|done|constructor|constructor].
    + intros H. simpl. lia.
    + by intros p []%elem_of_nil.
Qed.

(** The second loop, from a state the first loop went through. *)
Lemma pick_backbone_spec picked st :
  chosen_from picked st → room_left st →
  ∃ more st',
    (loop (RunNarrative.pick_backbone prereq_only max_quotes) PASSAGES st = Next st'
     ∨ loop (RunNarrative.pick_backbone prereq_only max_quotes) PASSAGES st = Leave st')
    ∧ chosen_from (picked ++ more) st' ∧ within_quota st'.
Proof.
  intros Hinv Hroom.
  pose proof (loop_ind (RunNarrative.pick_backbone prereq_only max_quotes) PASSAGES
    (λ _ st', ∃ more, chosen_from (picked ++ more) st' ∧ room_left st')
    (λ st', ∃ more, chosen_from (picked ++ more) st' ∧ within_quota st')) as Hloop.
  specialize (Hloop ltac:(
    intros _ p s Hp (more & Hi & Hr);
    unfold RunNarrative.pick_backbone;
    destruct (bool_decide (p_id p ∈ s.2)) eqn:Hseen; simpl; [by exists more|];
    apply bool_decide_eq_false in Hseen;
    destruct (is_backbone p) eqn:Hbb; simpl; [|by exists more];
    destruct (substantiates p prereq_only) eqn:HP; [|by exists more];
    assert (admissible p) as Hadm by (split; [done|]; by rewrite Hbb);
    pose proof (choose_spec p (picked ++ more) s Hseen Hadm Hi Hr) as Hch;
    destruct (RunNarrative.choose max_quotes p s) as [s'|s'];
      [destruct Hch as [? ?]|destruct Hch as (? & ? & _)];
      exists (more ++ [p]); by rewrite (assoc_L (++))) st).
  specialize (Hloop ltac:(exists []; by rewrite app_nil_r)).
  destruct (loop _ PASSAGES st) as [st'|st'].
  - destruct Hloop as (more & Hinv' & Hroom').
    exists more, st'. split_and!; [by left|done|].
    intros H1. specialize (Hroom' H1). lia.
  - destruct Hloop as (more & Hinv' & Hq).
    exists more, st'. split_and!; [by right|done..].
Qed.

End Selection.

Section Selector.

Context (REL : gmap string rel_entry) (PASSAGES : list passage)
  (set_iter : gset string → list string).

Local Abbreviation select_passages_event_minimal :=
  (RunNarrative.select_passages_event_minimal REL PASSAGES set_iter).

(** The closure of an activated set, as the selector computes it. *)
Lemma activated_closure (Hacyc : acyclic REL) (Hwalk : walks_sets set_iter)
    (activated : gset string) :
  ∃ expanded,
    (∀ fuel, size REL < fuel →
       RunNarrative.expand_with_requires REL fuel (set_iter activated)
         = Some expanded) ∧
    ∀ x, x ∈ expanded ↔ ∃ a, a ∈ activated ∧ rtc (req_edge REL) a x.
Proof.
  destruct (closure_walk REL Hacyc (set_iter activated)) as (st & Hwalked & _).
  assert (∀ fuel, size REL < fuel →
            RunNarrative.expand_with_requires REL fuel (set_iter activated)
              = Some st.1) as Hrun.
  { intros fuel Hfuel. unfold RunNarrative.expand_with_requires.
    by rewrite (Hwalked fuel Hfuel). }
  exists st.1. split; [done|].
  intros x.
  rewrite (expand_with_requires_reached REL Hacyc (S (size REL))
             (set_iter activated) st.1); [|apply Hrun; lia].
  by setoid_rewrite (set_iter_elem set_iter Hwalk).
Qed.

(** The selector returns, and what it returns comes from admissible
    passages with distinct identifiers. *)
Lemma select_spec (Hacyc : acyclic REL) (Hwalk : walks_sets set_iter)
    (activated : gset string) (max_quotes : Z) :
  ∃ expanded picked,
    (∀ x, x ∈ expanded ↔ ∃ a, a ∈ activated ∧ rtc (req_edge REL) a x) ∧
    (∀ fuel, size REL < fuel →
       select_passages_event_minimal fuel activated max_quotes
         = Some (quote_of <$> picked)) ∧
    NoDup (p_id <$> picked) ∧
    Forall (admissible PASSAGES (list_to_set expanded)
              (list_to_set expanded ∖ activated)) picked ∧
    (1 ≤ max_quotes → Z.of_nat (length picked) ≤ max_quotes)%Z ∧
    (∀ p, p ∈ PASSAGES → RunNarrative.is_backbone p = false →
          RunNarrative.substantiates p (list_to_set expanded) = true →
          p_id p ∈ p_id <$> picked ∨ (max_quotes ≤ Z.of_nat (length picked))%Z).
Proof.
  destruct (activated_closure Hacyc Hwalk activated) as (expanded & Hrun & Hexp).
  set (T := list_to_set expanded : gset string).
  set (prereq_only := T ∖ activated).
  assert (∀ fuel, size REL < fuel →
    select_passages_event_minimal fuel activated max_quotes =
    match loop (RunNarrative.pick_specific T max_quotes) PASSAGES ([], ∅) with
    | Leave st => Some st.1
    | Next st =>
        match loop (RunNarrative.pick_backbone prereq_only max_quotes) PASSAGES st with
        | Leave st' | Next st' => Some st'.1
        end
    end) as Hsel.
  { intros fuel Hfuel.
    unfold RunNarrative.select_passages_event_minimal, RunNarrative.requires_set.
    by rewrite (Hrun fuel Hfuel). }
  pose proof (pick_specific_spec PASSAGES T prereq_only max_quotes) as H1.
  destruct (loop (RunNarrative.pick_specific T max_quotes) PASSAGES ([], ∅))
    as [st|st].
  - destruct H1 as (picked & Hinv & Hroom & Hdone).
    destruct (pick_backbone_spec PASSAGES T prereq_only max_quotes picked st
                Hinv Hroom) as (more & st' & Hloop & Hinv' & Hq).
    destruct Hinv as (_ & Hs & _), Hinv' as (Hch' & Hs' & Hnd' & Hall').
    exists expanded, (picked ++ more). split_and!; [done| |done|done| |].
    + intros fuel Hfuel. rewrite (Hsel fuel Hfuel), <- Hch'.
      by destruct Hloop as [-> | ->].
    + intros Hone. specialize (Hq Hone). by rewrite Hch', length_fmap in Hq.
    + intros p Hp Hbb HT. left. rewrite fmap_app. apply elem_of_app. left.
      apply (elem_of_list_to_set (C := gset string)). rewrite <- Hs.
      by apply Hdone.
  - destruct H1 as (picked & (Hch & Hs & Hnd & Hall) & Hq & Hfull).
    exists expanded, picked. split_and!; [done| |done|done| |].
    + intros fuel Hfuel. by rewrite (Hsel fuel Hfuel), Hch.
    + intros Hone. specialize (Hq Hone). by rewrite Hch, length_fmap in Hq.
    + intros p _ _ _. right. by rewrite Hch, length_fmap in Hfull.
Qed.

(** C2. On an acyclic table, with [closure] the symbols reached from the
    activated ones: every quote returned comes from a passage of the corpus
    that, when backbone, names a symbol of the closure outside the activated
    set, and otherwise names a symbol of the closure; and a passage that is
    not backbone and names a symbol of the closure has its identifier among
    the quotes unless the limit was reached, whatever the prerequisites. *)
Theorem select_backbone_only_for_prerequisites (activated : gset string)
    (max_quotes : Z) :
  acyclic REL → walks_sets set_iter →
  let closure x := ∃ a, a ∈ activated ∧ rtc (req_edge REL) a x in
  ∃ picked,
    (∀ fuel, size REL < fuel →
       select_passages_event_minimal fuel activated max_quotes
         = Some (quote_of <$> picked) ∧
       InterpretLlm.select_passages_event_minimal REL set_iter fuel activated
         PASSAGES max_quotes = Some (quote_of <$> picked)) ∧
    (∀ p, p ∈ picked →
       p ∈ PASSAGES ∧
       if RunNarrative.is_backbone p
       then cites p (λ tok, closure tok ∧ tok ∉ activated)
       else cites p closure) ∧
    (∀ p, p ∈ PASSAGES → RunNarrative.is_backbone p = false → cites p closure →
       p_id p ∈ quote_id <$> (quote_of <$> picked)
       ∨ (max_quotes ≤ Z.of_nat (length (quote_of <$> picked)))%Z).
Proof.
  intros Hacyc Hwalk closure.
  destruct (select_spec Hacyc Hwalk activated max_quotes)
    as (expanded & picked & Hexp & Hrun & _ & Hall & _ & Hdone).
  assert (∀ tok, tok ∈ (list_to_set expanded : gset string) ↔ closure tok) as HT.
  { intros tok. by rewrite elem_of_list_to_set, Hexp. }
  exists picked. split_and!.
  - intros fuel Hfuel. split; by apply Hrun.
  - intros p Hp. rewrite Forall_forall in Hall.
    destruct (Hall p Hp) as [Hin Hadm]. split; [done|].
    destruct (RunNarrative.is_backbone p).
    + apply substantiates_cites in Hadm as (tok & Htok & Hpre).
      exists tok. split; [done|].
      apply elem_of_difference in Hpre as [Hc Hn]. split; [by apply HT|done].
    + apply substantiates_cites in Hadm as (tok & Htok & Hc).
      exists tok. split; [done|by apply HT].
  - intros p Hp Hbb (tok & Htok & Hc).
    rewrite <- list_fmap_compose, length_fmap.
    apply Hdone; [done..|]. apply substantiates_cites.
    exists tok. split; [done|by apply HT].
Qed.

(** The part of the quota that holds: identifiers are always distinct, and
    a limit of at least one is kept. *)
Lemma select_within_quota (activated : gset string) (max_quotes : Z) :
  acyclic REL → walks_sets set_iter →
  ∃ chosen,
    (∀ fuel, size REL < fuel →
       select_passages_event_minimal fuel activated max_quotes = Some chosen) ∧
    NoDup (quote_id <$> chosen) ∧
    (1 ≤ max_quotes → Z.of_nat (length chosen) ≤ max_quotes)%Z.
Proof.
  intros Hacyc Hwalk.
  destruct (select_spec Hacyc Hwalk activated max_quotes)
    as (expanded & picked & _ & Hrun & Hnd & _ & Hq & _).
  exists (quote_of <$> picked). split_and!; [done| |].
  - by rewrite <- list_fmap_compose.
  - by rewrite length_fmap.
Qed.

End Selector.

(** ** The matcher *)

Lemma str_chars s : str (chars s) = s.
Proof. apply String.string_of_list_ascii_of_string. Qed.

Lemma chars_str t : chars (str t) = t.
Proof. apply String.list_ascii_of_string_of_list_ascii. Qed.

Lemma under_Some seg r segs rest :
  under seg r = Some (segs, rest) ↔
  ∃ segs', r = Some (segs', rest) ∧ segs = seg :: segs'.
Proof.
  unfold under. destruct r as [[segs' rest']|]; simpl.
  - split; [intros [= <- <-]; by eexists|]. by intros (? & [= <- <-] & ->).
  - split; [done|]. by intros (? & ? & _).
Qed.

Lemma under_None seg r : under seg r = None ↔ r = None.
Proof. unfold under. by destruct r as [[? ?]|]. Qed.

Lemma before_snoc prev gap x : before prev (gap ++ [x]) = Some x.
Proof. revert prev. induction gap as [|y gap IH]; intros prev; simpl; auto. Qed.

Lemma before_app prev a b : before prev (a ++ b) = before (before prev a) b.
Proof. revert prev. induction a as [|y a IH]; intros prev; simpl; auto. Qed.

(** The matcher, one atom at a time. *)
Lemma match_here_One p re prev x s :
  match_here (One p :: re) prev (x :: s)
    = if p x then under [x] (match_here re (Some x) s) else None.
Proof. done. Qed.

Lemma match_here_Plus p re prev x s :
  match_here (Plus p :: re) prev (x :: s)
    = if p x then
        match star p (match_here re) (Some x) s with
        | Some (seg :: segs, rest) => Some ((x :: seg) :: segs, rest)
        | _ => None
        end
      else None.
Proof. done. Qed.

Lemma match_here_Star p re prev s :
  match_here (Star p :: re) prev s = star p (match_here re) prev s.
Proof. done. Qed.

Lemma match_here_WordB re prev s :
  match_here (WordB :: re) prev s
    = if boundary prev (head s) then under [] (match_here re prev s) else None.
Proof. done. Qed.

Section Star.

Context (p : ascii → bool) (k : option ascii → text → option found).

(** [class*] takes the longest run of the class after which the rest of
    the pattern matches. *)
Lemma star_spec prev s :
  match star p k prev s with
  | Some (segs, rest) =>
      ∃ seg segs' suffix,
        segs = seg :: segs' ∧ s = seg ++ suffix ∧
        Forall (λ c, p c = true) seg ∧
        k (before prev seg) suffix = Some (segs', rest) ∧
        ∀ seg2 suffix2, s = seg2 ++ suffix2 → Forall (λ c, p c = true) seg2 →
          length seg < length seg2 → k (before prev seg2) suffix2 = None
  | None =>
      ∀ seg suffix, s = seg ++ suffix → Forall (λ c, p c = true) seg →
        k (before prev seg) suffix = None
  end.
Proof.
  revert prev. induction s as [|x s IH]; intros prev.
  - simpl. destruct (k prev []) as [[segs rest]|] eqn:Hk; simpl.
    + exists [], segs, []. split_and!; [done|done|constructor|done|].
      intros seg2 suffix2 Heq _ Hlen. symmetry in Heq.
      apply app_eq_nil in Heq as [-> _]. simpl in Hlen. lia.
    + intros seg suffix Heq _. symmetry in Heq.
      by apply app_eq_nil in Heq as [-> ->].
  - assert (match under [] (k prev (x :: s)) with
            | Some (segs, rest) =>
                ∃ segs', segs = [] :: segs' ∧ k prev (x :: s) = Some (segs', rest)
            | None => k prev (x :: s) = None
            end) as Hstop.
    { destruct (k prev (x :: s)) as [[segs rest]|]; simpl; [by eexists|done]. }
    simpl. destruct (p x) eqn:Hx.
    + specialize (IH (Some x)).
      destruct (star p k (Some x) s) as [[[|seg segs] rest]|].
      * by destruct IH as (? & ? & ? & ? & _).
      * destruct IH as (seg' & segs' & suffix & [= <- <-] & -> & Hall & Hk & Hmax).
        exists (x :: seg), segs, suffix.
        split_and!; [done|done|by constructor|done|].
        intros [|y seg2] suffix2 Heq Hall2 Hlen; [simpl in Hlen; lia|].
        injection Heq as <- Heq. apply Forall_cons in Hall2 as [_ Hall2].
        simpl. apply Hmax; [done..|]. simpl in Hlen. lia.
      * destruct (under [] (k prev (x :: s))) as [[segs rest]|].
        -- destruct Hstop as (segs' & -> & Hk).
           exists [], segs', (x :: s). split_and!; [done|done|constructor|done|].
           intros [|y seg2] suffix2 Heq Hall2 Hlen; [simpl in Hlen; lia|].
           injection Heq as <- Heq. apply Forall_cons in Hall2 as [_ Hall2].
           simpl. by apply IH.
        -- intros [|y seg] suffix Heq Hall; simpl.
           ++ simpl in Heq. by subst.
           ++ injection Heq as <- Heq. apply Forall_cons in Hall as [_ Hall].
              by apply IH.
    + destruct (under [] (k prev (x :: s))) as [[segs rest]|].
      * destruct Hstop as (segs' & -> & Hk).
        exists [], segs', (x :: s). split_and!; [done|done|constructor|done|].
        intros [|y seg2] suffix2 Heq Hall2 Hlen; [simpl in Hlen; lia|].
        injection Heq as <- Heq. apply Forall_cons in Hall2 as [Hy _]. congruence.
      * intros [|y seg] suffix Heq Hall; simpl.
        -- simpl in Heq. by subst.
        -- injection Heq as <- Heq. apply Forall_cons in Hall as [Hy _]. congruence.
Qed.

End Star.

(** What a match consumed is the head of the text. *)
Lemma match_here_prefix re : ∀ prev s segs rest,
  match_here re prev s = Some (segs, rest) → s = concat segs ++ rest.
Proof.
  induction re as [|a re IH]; intros prev s segs rest; simpl.
  - by intros [= <- <-].
  - destruct a as [p|p|p|].
    + destruct s as [|x s]; [done|]. destruct (p x); [|done].
      intros (segs' & Hm & ->)%under_Some. simpl. f_equal. by eapply IH.
    + intros Hstar. pose proof (star_spec p (match_here re) prev s) as Hs.
      rewrite Hstar in Hs.
      destruct Hs as (seg & segs' & suffix & -> & -> & _ & Hk & _).
      simpl. rewrite <- (assoc_L (++)). f_equal. by eapply IH.
    + destruct s as [|x s]; [done|]. destruct (p x); [|done].
      pose proof (star_spec p (match_here re) (Some x) s) as Hs.
      destruct (star p (match_here re) (Some x) s) as [[[|seg segs'] rest']|];
        [done| |done].
      intros [= <- <-].
      destruct Hs as (seg' & segs'' & suffix & [= <- <-] & -> & _ & Hk & _).
      simpl. f_equal. rewrite <- (assoc_L (++)). f_equal. by eapply IH.
    + destruct (boundary prev (head s)); [|done].
      intros (segs' & Hm & ->)%under_Some. simpl. by eapply IH.
Qed.

(** ** The scan *)

(** The pieces of a scan put together give the text back. *)
Lemma scan_render re : ∀ s prev skip gap,
  skip ≤ length s → render (scan re prev s skip gap) = gap ++ drop skip s.
Proof.
  unfold render.
  induction s as [|x s IH]; intros prev skip gap Hskip.
  - simpl in Hskip. assert (skip = 0) as -> by lia. simpl.
    destruct (match_here re prev []) as [[segs rest]|] eqn:Hm; simpl.
    + apply match_here_prefix in Hm. symmetry in Hm.
      apply app_eq_nil in Hm as [-> _]. by rewrite !app_nil_r.
    + by rewrite app_nil_r.
  - destruct skip as [|skip]; simpl.
    + destruct (match_here re prev (x :: s)) as [[segs rest]|] eqn:Hm.
      * pose proof (match_here_prefix _ _ _ _ _ Hm) as Hpre.
        destruct (length (concat segs)) as [|n] eqn:Hlen; simpl.
        -- apply length_zero_iff_nil in Hlen. rewrite Hlen. simpl.
           rewrite IH by lia. by simpl.
        -- rewrite IH.
           2:{ apply (f_equal length) in Hpre. rewrite length_app in Hpre.
               simpl in Hpre. lia. }
           simpl. f_equal.
           assert (x :: s = concat segs ++ drop (S n) (x :: s)) as Hcut.
           { rewrite <- Hlen. rewrite Hpre at 2. by rewrite drop_app_length. }
           simpl in Hcut.
           apply (f_equal (take (S n))) in Hcut.
           rewrite <- Hlen in Hcut at 2. rewrite take_app_length in Hcut.
           rewrite <- Hcut. simpl. f_equal. apply take_drop.
      * simpl. rewrite IH by lia. simpl. by rewrite <- (assoc_L (++)).
    + simpl in Hskip. apply IH. lia.
Qed.

Lemma pieces_render re t : render (pieces re t) = t.
Proof. unfold pieces. by rewrite scan_render by lia. Qed.

(** The first hit of a scan is the leftmost match. *)
Lemma scan_first_hit re : ∀ s prev gap,
  head (hits (scan re prev s 0 gap))
    = (λ m, m.1.2) <$> first_match re prev s gap.
Proof.
  unfold hits.
  induction s as [|x s IH]; intros prev gap; simpl.
  - by destruct (match_here re prev []) as [[segs rest]|].
  - destruct (match_here re prev (x :: s)) as [[segs rest]|]; [done|].
    apply IH.
Qed.

(** ** Matches by position *)

(** The leftmost match exists when some position matches. *)
Lemma first_match_is_Some re : ∀ s prev gap,
  is_Some (first_match re prev s gap) ↔
  ∃ pre suf, s = pre ++ suf ∧ is_Some (match_here re (before prev pre) suf).
Proof.
  induction s as [|x s IH]; intros prev gap; cbn [first_match].
  - destruct (match_here re prev []) as [[segs rest]|] eqn:Hm.
    + split; [|by eexists]. intros _. exists [], []. simpl. by rewrite Hm.
    + split; [by intros [? ?]|].
      intros (pre & suf & Heq & Hs). symmetry in Heq.
      apply app_eq_nil in Heq as [-> ->]. simpl in Hs. rewrite Hm in Hs.
      by destruct Hs.
  - destruct (match_here re prev (x :: s)) as [[segs rest]|] eqn:Hm.
    + split; [|by eexists]. intros _. exists [], (x :: s). simpl. by rewrite Hm.
    + rewrite IH. split.
      * intros (pre & suf & -> & Hs). by exists (x :: pre), suf.
      * intros ([|y pre] & suf & Heq & Hs).
        -- simpl in *. subst suf. rewrite Hm in Hs. by destruct Hs.
        -- injection Heq as <- ->. by exists pre, suf.
Qed.

Lemma re_search_is_Some re (s : string) :
  is_Some (re_search re s) ↔
  ∃ pre suf, chars s = pre ++ suf ∧ is_Some (match_here re (before None pre) suf).
Proof.
  unfold re_search, pieces. rewrite scan_first_hit, <- first_match_is_Some.
  by rewrite fmap_is_Some.
Qed.

(** Every hit of a scan is a match at some position of the text. *)
Lemma scan_sound re : ∀ s prev skip gap segs,
  Hit segs ∈ scan re prev s skip gap →
  ∃ a b rest, s = a ++ b ∧ match_here re (before prev a) b = Some (segs, rest).
Proof.
  induction s as [|x s IH]; intros prev skip gap segs.
  - destruct skip as [|skip]; cbn [scan].
    + destruct (match_here re prev []) as [[segs0 rest0]|] eqn:Hm.
      * rewrite !elem_of_cons, elem_of_nil.
        intros [?|[[= <-]|[?|[]]]]; [done| |done]. by exists [], [], rest0.
      * by intros [?|[]%elem_of_nil]%elem_of_cons.
    + by intros [?|[]%elem_of_nil]%elem_of_cons.
  - assert (∀ k g, Hit segs ∈ scan re (Some x) s k g →
              ∃ a b rest, x :: s = a ++ b ∧
                match_here re (before prev a) b = Some (segs, rest)) as Htail.
    { intros k g (a & b & rest & -> & Hm)%IH. by exists (x :: a), b, rest. }
    destruct skip as [|skip]; cbn [scan]; [|apply Htail].
    destruct (match_here re prev (x :: s)) as [[segs0 rest0]|] eqn:Hm;
      [|apply Htail].
    rewrite !elem_of_cons.
    intros [?|[[= <-]|Hin]]; [done|by exists [], (x :: s), rest0|].
    destruct (length (concat segs0)); by eapply Htail.
Qed.

(** A match at a position is a hit of the scan, for a pattern whose matches
    are not empty and hold no other match inside. *)
Lemma scan_complete re :
  (∀ prev s segs rest, match_here re prev s = Some (segs, rest) →
     concat segs ≠ []) →
  (∀ prev s segs rest a b, match_here re prev s = Some (segs, rest) →
     concat segs = a ++ b → a ≠ [] → b ≠ [] →
     match_here re (before prev a) (b ++ rest) = None) →
  ∀ s prev skip gap,
    (∀ a b, s = a ++ b → length a < skip →
       match_here re (before prev a) b = None) →
    ∀ a b segs rest, s = a ++ b →
      match_here re (before prev a) b = Some (segs, rest) →
      Hit segs ∈ scan re prev s skip gap.
Proof.
  intros Hne Hno.
  induction s as [|x s IH]; intros prev skip gap Hskip a b segs rest Heq Hm.
  - symmetry in Heq. apply app_eq_nil in Heq as [-> ->].
    pose proof (match_here_prefix _ _ _ _ _ Hm) as Hpre. symmetry in Hpre.
    apply app_eq_nil in Hpre as [Hpre _]. by apply Hne in Hm.
  - destruct skip as [|skip]; cbn [scan].
    + destruct (match_here re prev (x :: s)) as [[segs0 rest0]|] eqn:Hm0.
      * destruct a as [|y a].
        { simpl in *. subst b. rewrite Hm0 in Hm. injection Hm as <- <-.
          right. left. }
        injection Heq as <- ->. do 2 right.
        pose proof (match_here_prefix _ _ _ _ _ Hm0) as Hpre.
        destruct (length (concat segs0)) as [|n] eqn:Hlen.
        { apply length_zero_iff_nil in Hlen. by apply Hne in Hm0. }
        apply (IH (Some x) n [] ) with (a := a) (b := b) (rest := rest);
          [|done|done].
        intros a2 b2 Heq2 Hlen2.
        assert (concat segs0 = (x :: a2) ++ drop (S (length a2)) (concat segs0)
                ∧ b2 = drop (S (length a2)) (concat segs0) ++ rest0
                ∧ drop (S (length a2)) (concat segs0) ≠ []) as (Hc & -> & Hd).
        { assert (take (S (length a2)) (concat segs0) = x :: a2) as Htake.
          { apply (f_equal (take (S (length a2)))) in Hpre.
            rewrite take_app_le in Hpre by lia.
            rewrite <- Hpre, Heq2. simpl. f_equal.
            by rewrite take_app_length. }
          split_and!.
          - by rewrite <- Htake, take_drop.
          - apply (f_equal (drop (S (length a2)))) in Hpre.
            rewrite drop_app_le in Hpre by lia.
            rewrite <- Hpre, Heq2. simpl. by rewrite drop_app_length.
          - intros Hnil. apply (f_equal length) in Hnil.
            rewrite length_drop in Hnil. simpl in Hnil. lia. }
        apply (Hno prev _ segs0 rest0 (x :: a2) _ Hm0 Hc); [done|done].
      * destruct a as [|y a].
        { simpl in *. subst b. congruence. }
        injection Heq as <- ->.
        apply (IH (Some x) 0 (gap ++ [x])) with (a := a) (b := b) (rest := rest);
          [|done|done].
        intros ? ? _ ?. lia.
    + destruct a as [|y a].
      { rewrite (Hskip [] b Heq) in Hm by (simpl; lia). done. }
      injection Heq as <- ->.
      apply (IH (Some x) skip gap) with (a := a) (b := b) (rest := rest);
        [|done|done].
      intros a2 b2 Heq2 Hlen2.
      apply (Hskip (x :: a2) b2); [simpl; by rewrite Heq2|simpl; lia].
Qed.

(** The same with the place of the hit: the pieces before it give the text
    before the match. *)
Lemma scan_complete_at re :
  (∀ prev s segs rest, match_here re prev s = Some (segs, rest) →
     concat segs ≠ []) →
  (∀ prev s segs rest a b, match_here re prev s = Some (segs, rest) →
     concat segs = a ++ b → a ≠ [] → b ≠ [] →
     match_here re (before prev a) (b ++ rest) = None) →
  ∀ s prev skip gap,
    (∀ a b, s = a ++ b → length a < skip →
       match_here re (before prev a) b = None) →
    ∀ a b segs rest, s = a ++ b →
      match_here re (before prev a) b = Some (segs, rest) →
      ∃ pcs1 pcs2,
        scan re prev s skip gap = pcs1 ++ Hit segs :: pcs2 ∧
        render pcs1 = gap ++ drop skip a.
Proof.
  intros Hne Hno.
  induction s as [|x s IH]; intros prev skip gap Hskip a b segs rest Heq Hm.
  - symmetry in Heq. apply app_eq_nil in Heq as [-> ->].
    pose proof (match_here_prefix _ _ _ _ _ Hm) as Hpre. symmetry in Hpre.
    apply app_eq_nil in Hpre as [Hpre _]. by apply Hne in Hm.
  - destruct skip as [|skip]; cbn [scan].
    + destruct (match_here re prev (x :: s)) as [[segs0 rest0]|] eqn:Hm0.
      * destruct a as [|y a].
        { simpl in *. subst b. rewrite Hm0 in Hm. injection Hm as <- <-.
          eexists [Gap gap], _. split; [done|]. unfold render. simpl.
          by rewrite !app_nil_r. }
        injection Heq as <- ->.
        pose proof (match_here_prefix _ _ _ _ _ Hm0) as Hpre.
        destruct (length (concat segs0)) as [|n] eqn:Hlen.
        { apply length_zero_iff_nil in Hlen. by apply Hne in Hm0. }
        assert (∀ a2 b2, a ++ b = a2 ++ b2 → length a2 < n →
                  match_here re (before (Some x) a2) b2 = None) as Hinside.
        { intros a2 b2 Heq2 Hlen2.
          assert (concat segs0 = (x :: a2) ++ drop (S (length a2)) (concat segs0)
                  ∧ b2 = drop (S (length a2)) (concat segs0) ++ rest0
                  ∧ drop (S (length a2)) (concat segs0) ≠ []) as (Hc & -> & Hd).
          { assert (take (S (length a2)) (concat segs0) = x :: a2) as Htake.
            { apply (f_equal (take (S (length a2)))) in Hpre.
              rewrite take_app_le in Hpre by lia.
              rewrite <- Hpre, Heq2. simpl. f_equal.
              by rewrite take_app_length. }
            split_and!.
            - by rewrite <- Htake, take_drop.
            - apply (f_equal (drop (S (length a2)))) in Hpre.
              rewrite drop_app_le in Hpre by lia.
              rewrite <- Hpre, Heq2. simpl. by rewrite drop_app_length.
            - intros Hnil. apply (f_equal length) in Hnil.
              rewrite length_drop in Hnil. simpl in Hnil. lia. }
          apply (Hno prev _ segs0 rest0 (x :: a2) _ Hm0 Hc); [done|done]. }
        assert (n ≤ length a) as Hlong.
        { destruct (decide (n ≤ length a)) as [|Hshort]; [done|].
          assert (match_here re (before (Some x) a) b = None) as Hnone
            by (apply Hinside; [done|lia]).
          change (before prev (x :: a)) with (before (Some x) a) in Hm.
          congruence. }
        destruct (IH (Some x) n [] Hinside a b segs rest eq_refl Hm)
          as (pcs1 & pcs2 & Hscan & Hrender).
        exists (Gap gap :: Hit segs0 :: pcs1), pcs2. split.
        { by rewrite Hscan. }
        unfold render in *. cbn [fmap list_fmap concat]. rewrite Hrender.
        cbn [app drop]. f_equal.
        assert (concat segs0 = x :: take n a) as ->.
        { apply (f_equal (take (S n))) in Hpre.
          rewrite <- Hlen in Hpre at 2. rewrite take_app_length in Hpre.
          rewrite <- Hpre. simpl. f_equal. by rewrite take_app_le. }
        simpl. f_equal. apply take_drop.
      * destruct a as [|y a].
        { simpl in *. subst b. congruence. }
        injection Heq as <- ->.
        destruct (IH (Some x) 0 (gap ++ [x])) with (a := a) (b := b)
          (segs := segs) (rest := rest) as (pcs1 & pcs2 & Hscan & Hrender);
          [|done|done|].
        { intros ? ? _ ?. lia. }
        exists pcs1, pcs2. split; [done|].
        rewrite Hrender. cbn [drop]. by rewrite <- (assoc_L (++)).
    + destruct a as [|y a].
      { rewrite (Hskip [] b Heq) in Hm by (simpl; lia). done. }
      injection Heq as <- ->.
      destruct (IH (Some x) skip gap) with (a := a) (b := b)
        (segs := segs) (rest := rest) as (pcs1 & pcs2 & Hscan & Hrender);
        [|done|done|].
      { intros a2 b2 Heq2 Hlen2.
        apply (Hskip (x :: a2) b2); [simpl; by rewrite Heq2|simpl; lia]. }
      by exists pcs1, pcs2.
Qed.

Lemma pieces_hits re (t : text) :
  (∀ prev s segs rest, match_here re prev s = Some (segs, rest) →
     concat segs ≠ []) →
  (∀ prev s segs rest a b, match_here re prev s = Some (segs, rest) →
     concat segs = a ++ b → a ≠ [] → b ≠ [] →
     match_here re (before prev a) (b ++ rest) = None) →
  ∀ segs, segs ∈ hits (pieces re t) ↔
    ∃ a b rest, t = a ++ b ∧ match_here re (before None a) b = Some (segs, rest).
Proof.
  intros Hne Hno segs. unfold hits. rewrite list_elem_of_omap. split.
  - intros ([g|segs'] & Hin & Heq); [done|]. injection Heq as ->.
    by apply scan_sound in Hin.
  - intros (a & b & rest & Heq & Hm). exists (Hit segs). split; [|done].
    eapply (scan_complete re Hne Hno); [|done..]. intros ? ? _ ?. lia.
Qed.

(** ** Capitalized tokens and banned terms *)

Lemma under_is_Some seg r : is_Some (under seg r) ↔ is_Some r.
Proof. unfold under. destruct r as [[? ?]|]; simpl; split; by intros [? ?]. Qed.

Lemma is_upper_word c : is_upper c = true → is_word c = true.
Proof. unfold is_word. by intros ->. Qed.

(** Behind a run of word characters stands a word character. *)
Lemma before_word x w :
  is_word x = true → Forall (λ c, is_word c = true) w →
  from_option is_word false (before (Some x) w) = true.
Proof.
  revert x. induction w as [|y w IH]; intros x Hx Hw; simpl; [done|].
  apply Forall_cons in Hw as [Hy Hw]. by apply IH.
Qed.

(** A run of a class that stops before a character outside the class is
    determined by the text. *)
Lemma run_unique (p : ascii → bool) (seg suffix w rest : text) :
  seg ++ suffix = w ++ rest →
  Forall (λ c, p c = true) seg → Forall (λ c, p c = true) w →
  from_option p false (head suffix) = false →
  from_option p false (head rest) = false →
  seg = w ∧ suffix = rest.
Proof.
  revert w. induction seg as [|a seg IH]; intros [|b w] Heq Hseg Hw Hs Hr;
    simplify_eq/=.
  - done.
  - apply Forall_cons in Hw as [? _]. congruence.
  - apply Forall_cons in Hseg as [? _]. congruence.
  - apply Forall_cons in Hseg as [_ Hseg]. apply Forall_cons in Hw as [_ Hw].
    destruct (IH w) as [-> ->]; done.
Qed.

(** The capitalized-token pattern at the head of a text. *)
Lemma match_capitalized prev s segs rest :
  match_here re_capitalized prev s = Some (segs, rest) ↔
  ∃ x w, s = x :: w ++ rest ∧ is_upper x = true ∧
         Forall (λ c, is_word c = true) w ∧
         no_word prev ∧ no_word (head rest) ∧
         segs = [[]; [x]; w; []].
Proof.
  unfold re_capitalized, no_word. rewrite match_here_WordB.
  change (λ c, is_upper c || is_lower c || is_digit c || Ascii.eqb c "_")
    with is_word.
  destruct s as [|x s].
  { split; [|by intros (? & ? & ? & _)].
    destruct (boundary prev (head [])); [|done].
    by intros (? & ? & _)%under_Some. }
  rewrite match_here_One. cbn [head].
  destruct (is_upper x) eqn:Hx.
  2:{ split; [|intros (? & ? & [= <- _] & ? & _); congruence].
      destruct (boundary prev (Some x)); [|done].
      by intros (? & ? & _)%under_Some. }
  pose proof (is_upper_word x Hx) as Hwx.
  rewrite match_here_Star.
  pose proof (star_spec is_word (match_here [WordB]) (Some x) s) as Hs.
  unfold boundary at 1. cbn [from_option]. rewrite Hwx.
  destruct (from_option is_word false prev) eqn:Hprev; cbn [xorb].
  { split; [done|]. by intros (? & ? & _ & _ & _ & ? & _). }
  destruct (star is_word (match_here [WordB]) (Some x) s)
    as [[segs0 rest0]|] eqn:Hstar.
  - destruct Hs as (seg & segs' & suffix & -> & -> & Hall & Hk & _).
    rewrite match_here_WordB in Hk.
    destruct (boundary (before (Some x) seg) (head suffix)) eqn:Hb; [|done].
    apply under_Some in Hk as (? & [= <- <-] & ->).
    assert (from_option is_word false (head suffix) = false) as Hsuf.
    { unfold boundary in Hb. rewrite (before_word x seg Hwx Hall) in Hb.
      by destruct (from_option is_word false (head suffix)). }
    cbn. split.
    + intros [= <- <-]. by exists x, seg.
    + intros (x' & w & [= <- Heq] & _ & Hw & _ & Hrest & ->).
      by destruct (run_unique is_word _ _ _ _ Heq Hall Hw Hsuf Hrest) as [-> ->].
  - cbn. split; [done|].
    intros (x' & w & [= <- ->] & _ & Hw & _ & Hrest & _).
    specialize (Hs w rest eq_refl Hw). rewrite match_here_WordB in Hs.
    unfold boundary in Hs. rewrite (before_word x w Hwx Hw), Hrest in Hs.
    done.
Qed.

Lemma capitalized_not_empty prev s segs rest :
  match_here re_capitalized prev s = Some (segs, rest) → concat segs ≠ [].
Proof. by intros (x & w & _ & _ & _ & _ & _ & ->)%match_capitalized. Qed.

(** No capitalized token starts inside another. *)
Lemma capitalized_no_overlap prev s segs rest a b :
  match_here re_capitalized prev s = Some (segs, rest) →
  concat segs = a ++ b → a ≠ [] → b ≠ [] →
  match_here re_capitalized (before prev a) (b ++ rest) = None.
Proof.
  intros (x & w & _ & Hx & Hw & _ & _ & ->)%match_capitalized Heq Ha Hb.
  simpl in Heq. rewrite app_nil_r in Heq.
  assert (Forall (λ c, is_word c = true) (a ++ b)) as Hall.
  { rewrite <- Heq. constructor; [by apply is_upper_word|done]. }
  apply Forall_app in Hall as [Hwa Hwb].
  unfold re_capitalized. rewrite match_here_WordB.
  destruct a as [|y a]; [done|]. destruct b as [|z b]; [done|].
  apply Forall_cons in Hwa as [Hy Hwa]. apply Forall_cons in Hwb as [Hz _].
  unfold boundary. simpl. by rewrite (before_word y a Hy Hwa), Hz.
Qed.

(** What [re.findall] returns for the capitalized-token pattern. *)
Lemma re_findall_capitalized (s t : string) :
  t ∈ re_findall re_capitalized s ↔ capitalized_token (chars s) t.
Proof.
  unfold re_findall, capitalized_token. rewrite list_elem_of_fmap.
  setoid_rewrite (pieces_hits re_capitalized (chars s) capitalized_not_empty
                    capitalized_no_overlap).
  split.
  - intros (segs & -> & a & b & rest & Heq & Hm).
    apply match_capitalized in Hm as (x & w & -> & Hx & Hw & Hp & Hr & ->).
    exists a, x, w, rest. simpl. by rewrite app_nil_r.
  - intros (pre & x & w & post & Heq & -> & Hx & Hw & Hp & Hr).
    exists [[]; [x]; w; []]. split; [simpl; by rewrite app_nil_r|].
    exists pre, (x :: w ++ post), post. split; [done|].
    apply match_capitalized. by exists x, w.
Qed.

(** A run of literals in either case, then the rest of a pattern. *)
Lemma match_literals (w : text) (re : regex) : ∀ prev s,
  is_Some (match_here ((lit_nocase <$> w) ++ re) prev s) ↔
  ∃ m s', s = m ++ s' ∧ lower_char <$> m = lower_char <$> w ∧
          is_Some (match_here re (before prev m) s').
Proof.
  induction w as [|c w IH]; intros prev s.
  - simpl. split.
    + intros Hs. by exists [], s.
    + intros (m & s' & -> & Hm & Hs). apply fmap_nil_inv in Hm as ->. done.
  - rewrite fmap_cons. cbn [app]. unfold lit_nocase at 1.
    destruct s as [|x s].
    { split; [by intros [? ?]|].
      intros ([|? ?] & s' & Heq & Hm & _); simplify_eq/=. }
    rewrite match_here_One.
    destruct (Ascii.eqb_spec (lower_char x) (lower_char c)) as [Hxc|Hxc].
    + rewrite under_is_Some, IH. split.
      * intros (m & s' & -> & Hm & Hs). exists (x :: m), s'.
        split_and!; [done|by rewrite fmap_cons, Hxc, Hm|done].
      * intros ([|y m] & s' & Heq & Hm & Hs); simplify_eq/=.
        by exists m, s'.
    + split; [by intros [? ?]|].
      intros ([|y m] & s' & Heq & Hm & _); simplify_eq/=.
Qed.

(** The banned-term pattern at the head of a text. *)
Lemma match_banned (term : string) prev s :
  is_Some (match_here (re_banned term) prev s) ↔
  boundary prev (head s) = true ∧
  ∃ m s', s = m ++ s' ∧ lower_char <$> m = lower_char <$> chars term ∧
          boundary (before prev m) (head s') = true.
Proof.
  unfold re_banned. cbn [app]. rewrite match_here_WordB.
  destruct (boundary prev (head s)); [|split; [by intros [? ?]|by intros [? _]]].
  rewrite under_is_Some, match_literals.
  setoid_rewrite match_here_WordB. split.
  - intros (m & s' & -> & Hm & Hs). split; [done|]. exists m, s'.
    split_and!; [done..|]. destruct (boundary _ _); [done|by destruct Hs].
  - intros (_ & m & s' & -> & Hm & Hb). exists m, s'.
    split_and!; [done..|]. rewrite Hb. by eexists.
Qed.

(** What [re.search] decides for the banned-term pattern. *)
Lemma re_search_banned (term s : string) :
  is_Some (re_search (re_banned term) s) ↔ whole_word (chars term) (chars s).
Proof.
  rewrite re_search_is_Some. unfold whole_word. split.
  - intros (pre & suf & Heq & (Hb & m & post & -> & Hm & Hb')%match_banned).
    exists pre, m, post. by rewrite before_app.
  - intros (pre & m & post & Heq & Hm & Hb & Hb').
    exists pre, (m ++ post). split; [done|]. apply match_banned.
    split; [done|]. exists m, post. by rewrite <- before_app.
Qed.

(** Every hit of a scan is a match; no match starts inside a gap, for a
    pattern that does not match the empty text. *)
Lemma scan_scanned re :
  (∀ prev s segs rest, match_here re prev s = Some (segs, rest) →
     concat segs ≠ []) →
  ∀ s prev0 prev skip gap,
    (skip = 0 → prev = before prev0 gap) → (skip ≠ 0 → gap = []) →
    failed_in re prev0 gap (drop skip s) →
    Forall (scanned re) (scan re prev s skip gap).
Proof.
  intros Hne.
  assert (∀ prev0 ctx, failed_in re prev0 [] ctx) as Hnil.
  { intros prev0 ctx a b Heq Hb. symmetry in Heq.
    by apply app_eq_nil in Heq as [_ ->]. }
  induction s as [|x s IH]; intros prev0 prev skip gap Hprev Hgap Hfail.
  - destruct skip as [|skip]; simpl.
    + destruct (match_here re prev []) as [[segs rest]|] eqn:Hm.
      * repeat constructor; simpl; [by eexists _, _|by eexists _, _, _|].
        by exists None, [].
      * repeat constructor. by exists prev0, [].
    + repeat constructor. rewrite Hgap by done. by exists None, [].
  - destruct skip as [|skip]; simpl.
    + destruct (match_here re prev (x :: s)) as [[segs rest]|] eqn:Hm.
      * constructor; [by exists prev0, (x :: s)|].
        constructor; [by eexists _, _, _|].
        destruct (length (concat segs)) as [|n] eqn:Hlen.
        { apply length_zero_iff_nil in Hlen. by apply Hne in Hm. }
        apply (IH (Some x)); [done..|]. apply Hnil.
      * apply (IH prev0).
        -- intros _. by rewrite before_snoc.
        -- done.
        -- simpl. intros a b Heq Hb.
           destruct b as [|y b _] using rev_ind; [done|].
           rewrite (assoc_L (++)) in Heq. apply app_inj_tail in Heq as [-> ->].
           rewrite <- (assoc_L (++)). simpl.
           destruct b as [|z b].
           ++ simpl. rewrite app_nil_r in Hprev. by rewrite <- Hprev.
           ++ specialize (Hfail a (z :: b) eq_refl ltac:(done)). exact Hfail.
    + rewrite (Hgap ltac:(done)). apply (IH (Some x)); [done|done|apply Hnil].
Qed.

Lemma pieces_scanned re t :
  (∀ prev s segs rest, match_here re prev s = Some (segs, rest) →
     concat segs ≠ []) →
  Forall (scanned re) (pieces re t).
Proof.
  intros Hne. apply (scan_scanned re Hne t None); [done..|].
  intros a b Heq Hb. symmetry in Heq. by apply app_eq_nil in Heq as [_ ->].
Qed.

(** ** Citation markers *)

(** The marker pattern at the head of a text. *)
Lemma match_citation prev s :
  match match_here re_citation prev s with
  | Some (segs, rest) =>
      ∃ cid, cid ≠ [] ∧ Forall (λ c, is_cid_char c = true) cid ∧
             s = "["%char :: cid ++ "]"%char :: rest ∧
             segs = [["["%char]; cid; ["]"%char]]
  | None =>
      ∀ cid rest, cid ≠ [] → Forall (λ c, is_cid_char c = true) cid →
                  s ≠ "["%char :: cid ++ "]"%char :: rest
  end.
Proof.
  unfold re_citation, lit.
  destruct s as [|x s]; [by intros|]. rewrite match_here_One.
  destruct (Ascii.eqb_spec "["%char x) as [<-|Hx];
    [|intros cid rest _ _ [= ? _]; by apply Hx].
  destruct s as [|y s].
  { intros [|c cid] rest Hc _ Heq; [done|]. by simplify_eq/=. }
  rewrite match_here_Plus.
  destruct (is_cid_char y) eqn:Hy.
  2:{ intros [|c cid] rest Hc Hall Heq; [done|]. simplify_eq/=.
      apply Forall_cons in Hall as [? _]. congruence. }
  pose proof (star_spec is_cid_char (match_here [One (Ascii.eqb "]")]) (Some y) s)
    as Hs.
  destruct (star is_cid_char (match_here [One (Ascii.eqb "]")]) (Some y) s)
    as [[[|seg segs] rest]|] eqn:Hstar.
  - by destruct Hs as (? & ? & ? & ? & _).
  - destruct Hs as (seg' & segs' & suffix & [= <- <-] & -> & Hall & Hk & _).
    destruct suffix as [|z suffix]; [done|]. rewrite match_here_One in Hk.
    destruct (Ascii.eqb_spec "]"%char z) as [<-|]; [|done].
    apply under_Some in Hk as (segs'' & [= <- <-] & ->). cbn.
    exists (y :: seg). split_and!; [done|by constructor|done|done].
  - cbn. intros [|c cid] rest Hc Hall Heq; [done|]. injection Heq as <- ->.
    apply Forall_cons in Hall as [_ Hall].
    specialize (Hs cid ("]"%char :: rest) eq_refl Hall).
    rewrite match_here_One in Hs. by destruct (Ascii.eqb_spec "]"%char "]"%char).
Qed.

Lemma citation_not_empty prev s segs rest :
  match_here re_citation prev s = Some (segs, rest) → concat segs ≠ [].
Proof.
  intros Hm. pose proof (match_citation prev s) as H. rewrite Hm in H.
  by destruct H as (cid & _ & _ & _ & ->).
Qed.

(** The markers of a narrative are its hits; the gaps hold none. *)
Lemma citation_pieces (t : text) :
  Forall (λ pc,
            match pc with
            | Hit segs =>
                ∃ cid, cid ≠ [] ∧ Forall (λ c, is_cid_char c = true) cid ∧
                       segs = [["["%char]; cid; ["]"%char]]
            | Gap g => ∀ cid, ¬ has_marker g cid
            end) (pieces re_citation t).
Proof.
  eapply Forall_impl; [apply pieces_scanned, citation_not_empty|].
  intros [g|segs]; unfold scanned.
  - intros (prev0 & ctx & Hfail) cid (Hne & Hall & pre & post & ->).
    specialize (Hfail pre ("["%char :: cid ++ "]"%char :: post) eq_refl
                  ltac:(done)).
    pose proof (match_citation (before prev0 pre)
                  (("["%char :: cid ++ "]"%char :: post) ++ ctx)) as H.
    rewrite Hfail in H. apply (H cid (post ++ ctx) Hne Hall).
    simpl. by rewrite <- (assoc_L (++)).
  - intros (prev & s & rest & Hm).
    pose proof (match_citation prev s) as H. rewrite Hm in H.
    destruct H as (cid & ? & ? & _ & ->). by exists cid.
Qed.

(** No marker starts inside a marker. *)
Lemma citation_no_overlap prev s segs rest a b :
  match_here re_citation prev s = Some (segs, rest) →
  concat segs = a ++ b → a ≠ [] → b ≠ [] →
  match_here re_citation (before prev a) (b ++ rest) = None.
Proof.
  intros Hm Hcut Ha Hb.
  pose proof (match_citation prev s) as H. rewrite Hm in H.
  destruct H as (cid & Hne & Hall & _ & ->). cbn in Hcut.
  destruct b as [|c b]; [done|].
  assert (c ≠ "["%char) as Hc.
  { destruct a as [|x a]; [done|]. injection Hcut as <- Hcut.
    assert (c ∈ cid ++ ["]"%char]) as Hin.
    { rewrite ?app_nil_r in Hcut. rewrite Hcut. apply elem_of_app. right. left. }
    apply elem_of_app in Hin as [Hin|Hin%list_elem_of_singleton].
    - rewrite Forall_forall in Hall. specialize (Hall c Hin).
      intros ->. by vm_compute in Hall.
    - by subst c. }
  unfold re_citation, lit. cbn [app]. rewrite match_here_One.
  by destruct (Ascii.eqb_spec "["%char c) as [<-|].
Qed.

(** Every marker of a narrative is cut out as a hit, at its place. *)
Lemma citation_cut (t pre cid post : text) :
  t = pre ++ "["%char :: cid ++ "]"%char :: post →
  cid ≠ [] → Forall (λ c, is_cid_char c = true) cid →
  ∃ pcs1 pcs2,
    pieces re_citation t = pcs1 ++ Hit [["["%char]; cid; ["]"%char]] :: pcs2 ∧
    render pcs1 = pre.
Proof.
  intros Ht Hne Hall.
  pose proof (match_citation (before None pre)
                ("["%char :: cid ++ "]"%char :: post)) as Hm.
  destruct (match_here re_citation (before None pre)
              ("["%char :: cid ++ "]"%char :: post)) as [[segs rest]|] eqn:E.
  2:{ by destruct (Hm cid post Hne Hall). }
  destruct Hm as (cid' & Hne' & Hall' & Heq & ->).
  injection Heq as Heq.
  destruct (run_unique is_cid_char cid ("]"%char :: post) cid' ("]"%char :: rest)
              Heq Hall Hall') as [<- _]; [done..|].
  destruct (scan_complete_at re_citation citation_not_empty citation_no_overlap
              t None 0 [] (λ _ _ _ Hlt, False_ind _ (Nat.nlt_0_r _ Hlt))
              pre _ _ _ Ht E) as (pcs1 & pcs2 & Hscan & Hrender).
  exists pcs1, pcs2. split; [exact Hscan|]. by rewrite Hrender.
Qed.

(** The guardrail's substitution drops the hits it does not keep. *)
Lemma re_sub_citation (provided_ids : gset string) (s : string) :
  re_sub re_citation (RunNarrative.citation_replacer provided_ids) s
    = str (render (filter (λ pc, kept provided_ids pc = true)
                     (pieces re_citation (chars s)))).
Proof.
  unfold re_sub, render. f_equal.
  induction (pieces re_citation (chars s)) as [|pc pcs IH]; [done|].
  rewrite filter_cons, fmap_cons, concat_cons, IH. clear IH.
  destruct pc as [g|segs]; cbn [kept].
  - by rewrite decide_True.
  - unfold RunNarrative.citation_replacer.
    destruct (decide (str (nth 1 segs []) ∈ provided_ids)) as [Hin|Hout].
    + rewrite bool_decide_eq_false_2 by (by intros ?).
      rewrite decide_True by (by apply bool_decide_eq_true). done.
    + rewrite bool_decide_eq_true_2 by done.
      rewrite decide_False; [done|]. by rewrite bool_decide_eq_true.
Qed.

(** ** Lint *)

Lemma flag_fold_issues {A : Type} (violated : A → bool) (msg : A → string)
    (xs : list A) (st : bool * list string) m :
  m ∈ (foldl (λ st x, RunNarrative.flag (violated x) (msg x) st) st xs).2 ↔
  m ∈ st.2 ∨ ∃ x, x ∈ xs ∧ violated x = true ∧ m = msg x.
Proof.
  revert st. induction xs as [|x xs IH]; intros st; simpl.
  - split; [by left|]. by intros [?|(x & []%elem_of_nil & _)].
  - rewrite IH. unfold RunNarrative.flag. destruct (violated x) eqn:Hx; simpl.
    + rewrite elem_of_app, list_elem_of_singleton. split.
      * intros [[?| ->]|(y & ? & ? & ?)]; [by left|right..].
        -- exists x. split_and!; [left|done..].
        -- exists y. split_and!; [by right|done..].
      * intros [?|(y & [->|?]%elem_of_cons & ? & ->)];
          [by left; left|by left; right|right; by exists y].
    + split.
      * intros [?|(y & ? & ? & ?)]; [by left|right].
        exists y. split_and!; [by right|done..].
      * intros [?|(y & [->|?]%elem_of_cons & ? & ->)];
          [by left|congruence|right; by exists y].
Qed.

Lemma flag_verdict violated msg st :
  verdict_ok st → verdict_ok (RunNarrative.flag violated msg st).
Proof.
  unfold verdict_ok, RunNarrative.flag. destruct violated; [|done].
  intros _. simpl. split; [done|]. by intros [_ ?]%app_eq_nil.
Qed.

Lemma flag_fold_verdict {A : Type} (violated : A → bool) (msg : A → string)
    (xs : list A) (st : bool * list string) :
  verdict_ok st →
  verdict_ok (foldl (λ st x, RunNarrative.flag (violated x) (msg x) st) st xs).
Proof.
  revert st. induction xs as [|x xs IH]; intros st Hst; simpl; [done|].
  by apply IH, flag_verdict.
Qed.

Section Lint.

Context (set_iter : gset string → list string) (Hwalk : walks_sets set_iter).

Local Abbreviation lint_output := (RunNarrative.lint_output set_iter).

(** The issue list holds exactly the issues of the violations, and the
    verdict is its emptiness. *)
Lemma lint_output_issues out allowed_tokens provided_ids banned_terms
    narrative cids :
  RunNarrative.narrative_of out = Ok narrative →
  RunNarrative.citations_of out = Ok cids →
  ∃ ok issues,
    lint_output out allowed_tokens provided_ids banned_terms = Ok (ok, issues) ∧
    (ok = true ↔ issues = []) ∧
    ∀ issue, issue ∈ issues ↔
      violation narrative cids allowed_tokens provided_ids banned_terms issue.
Proof.
  intros Hn Hc. unfold RunNarrative.lint_output. rewrite Hn, Hc. simpl.
  eexists _, _. split; [by rewrite <- surjective_pairing|]. split.
  - apply flag_fold_verdict, flag_fold_verdict, flag_verdict, flag_fold_verdict.
    done.
  - intros issue. unfold violation.
    setoid_rewrite <- re_findall_capitalized.
    setoid_rewrite <- re_search_banned.
    rewrite flag_fold_issues, flag_fold_issues.
    unfold RunNarrative.flag at 1.
    assert (issue ∈ (if bool_decide (cids = ∅)
                     then (false, (foldl (λ st t,
                         RunNarrative.flag
                           (bool_decide (t ∉ allowed_tokens)
                            && bool_decide (t ∉ ({["I"; "PS1"]} : gset string)))
                           ("unallowed token: " +:+ t) st) (true, [])
                         (set_iter (list_to_set
                            (re_findall re_capitalized narrative)))).2
                         ++ ["no citations used"])
                     else foldl (λ st t,
                         RunNarrative.flag
                           (bool_decide (t ∉ allowed_tokens)
                            && bool_decide (t ∉ ({["I"; "PS1"]} : gset string)))
                           ("unallowed token: " +:+ t) st) (true, [])
                         (set_iter (list_to_set
                            (re_findall re_capitalized narrative)))).2 ↔
            (∃ t, t ∈ re_findall re_capitalized narrative ∧
                  (t ∉ allowed_tokens) ∧ t ≠ "I" ∧ t ≠ "PS1" ∧
                  issue = ("unallowed token: " +:+ t)) ∨
            (cids = ∅ ∧ issue = "no citations used")) as ->.
    { assert (∀ (t : string),
        (t ∈ set_iter (list_to_set (re_findall re_capitalized narrative)) ∧
         bool_decide (t ∉ allowed_tokens)
         && bool_decide (t ∉ ({["I"; "PS1"]} : gset string)) = true ∧
         issue = ("unallowed token: " +:+ t)) ↔
        (t ∈ re_findall re_capitalized narrative ∧
         (t ∉ allowed_tokens) ∧ t ≠ "I" ∧ t ≠ "PS1" ∧
         issue = ("unallowed token: " +:+ t))) as Hcap.
      { intros t. rewrite (set_iter_elem _ Hwalk), elem_of_list_to_set.
        rewrite andb_true_iff, !bool_decide_eq_true.
        rewrite not_elem_of_union, !not_elem_of_singleton. tauto. }
      case_bool_decide as Hempty; simpl.
      - rewrite elem_of_app, list_elem_of_singleton, flag_fold_issues. simpl.
        rewrite elem_of_nil. setoid_rewrite Hcap. tauto.
      - rewrite flag_fold_issues. simpl.
        rewrite elem_of_nil. setoid_rewrite Hcap. tauto. }
    setoid_rewrite (set_iter_elem _ Hwalk).
    setoid_rewrite bool_decide_eq_true.
    setoid_rewrite elem_of_list_to_set. tauto.
Qed.


(** An output whose narrative is not text, or whose citations cannot be
    walked, ends lint with the exception. *)
Lemma lint_output_raises out allowed_tokens provided_ids banned_terms e :
  RunNarrative.narrative_of out = Raise e ∨
  (∃ narrative, RunNarrative.narrative_of out = Ok narrative) ∧
  RunNarrative.citations_of out = Raise e →
  lint_output out allowed_tokens provided_ids banned_terms = Raise e.
Proof.
  unfold RunNarrative.lint_output.
  intros [-> |[[narrative ->] Hc]]; [done|]. simpl. by rewrite Hc.
Qed.

End Lint.

(** ** The reply of the generation service *)

(** The brace pattern at the head of a text: from an opening brace to the
    last closing brace behind it. *)
Lemma match_braces prev s :
  match match_here re_braces prev s with
  | Some (segs, rest) =>
      ∃ mid, s = "{"%char :: mid ++ "}"%char :: rest ∧
             ("}"%char ∉ rest) ∧
             segs = [["{"%char]; mid; ["}"%char]]
  | None => ∀ mid rest, s ≠ "{"%char :: mid ++ "}"%char :: rest
  end.
Proof.
  unfold re_braces, lit.
  destruct s as [|x s]; [by intros|]. rewrite match_here_One.
  destruct (Ascii.eqb_spec "{"%char x) as [<-|Hx];
    [|intros mid rest [= ? _]; by apply Hx].
  rewrite match_here_Star.
  pose proof (star_spec (λ _, true) (match_here [One (Ascii.eqb "}")])
                (Some "{"%char) s) as Hs.
  destruct (star (λ _, true) (match_here [One (Ascii.eqb "}")])
              (Some "{"%char) s) as [[segs rest]|].
  - destruct Hs as (mid & segs' & suffix & -> & -> & _ & Hk & Hmax).
    destruct suffix as [|z suffix]; [done|]. rewrite match_here_One in Hk.
    destruct (Ascii.eqb_spec "}"%char z) as [<-|]; [|done].
    apply under_Some in Hk as (segs'' & [= <- <-] & ->). cbn.
    exists mid. split_and!; [done| |done].
    intros (r1 & r2 & ->)%list_elem_of_split.
    specialize (Hmax (mid ++ "}"%char :: r1) ("}"%char :: r2)).
    rewrite match_here_One in Hmax.
    destruct (Ascii.eqb_spec "}"%char "}"%char); [|done].
    discriminate Hmax.
    + by rewrite <- (assoc_L (++)).
    + by apply Forall_true.
    + rewrite length_app. simpl. lia.
  - cbn. intros mid rest [= ->].
    specialize (Hs mid ("}"%char :: rest) eq_refl (Forall_true _ _ (λ _, eq_refl))).
    rewrite match_here_One in Hs.
    by destruct (Ascii.eqb_spec "}"%char "}"%char).
Qed.

(** The leftmost match of the brace pattern: from the first opening brace
    of the text to its last closing brace. *)
Lemma first_match_braces : ∀ s prev gap,
  match first_match re_braces prev s gap with
  | Some (g, segs, rest) =>
      ∃ pre mid,
        g = gap ++ pre ∧
        s = pre ++ "{"%char :: mid ++ "}"%char :: rest ∧
        ("{"%char ∉ pre) ∧ ("}"%char ∉ rest) ∧
        segs = [["{"%char]; mid; ["}"%char]]
  | None => ∀ pre mid rest, s ≠ pre ++ "{"%char :: mid ++ "}"%char :: rest
  end.
Proof.
  induction s as [|x s IH]; intros prev gap.
  - cbn. by intros [|? ?] ? ?.
  - pose proof (match_braces prev (x :: s)) as Hm.
    cbn [first_match].
    destruct (match_here re_braces prev (x :: s)) as [[segs rest]|].
    + destruct Hm as (mid & Heq & Hrest & ->).
      exists [], mid. rewrite app_nil_r.
      split_and!; [done|done|apply not_elem_of_nil|done|done].
    + specialize (IH (Some x) (gap ++ [x])).
      destruct (first_match re_braces (Some x) s (gap ++ [x]))
        as [[[g segs] rest]|].
      * destruct IH as (pre & mid & -> & -> & Hpre & Hrest & ->).
        exists (x :: pre), mid.
        split_and!; [by rewrite <- (assoc_L (++))|done| |done|done].
        intros [Hx|?]%elem_of_cons; [subst x|done].
        apply (Hm (pre ++ "{"%char :: mid) rest).
        by rewrite <- (assoc_L (++)).
      * intros [|y pre] mid rest.
        -- apply Hm.
        -- intros [= -> Heq]. by apply (IH pre mid rest).
Qed.

(** [re.search] with the brace pattern. *)
Lemma re_search_braces (raw : string) :
  match re_search re_braces raw with
  | Some segs =>
      ∃ pre mid post,
        chars raw = pre ++ "{"%char :: mid ++ "}"%char :: post ∧
        ("{"%char ∉ pre) ∧ ("}"%char ∉ post) ∧
        segs = [["{"%char]; mid; ["}"%char]]
  | None => ∀ pre mid post, chars raw ≠ pre ++ "{"%char :: mid ++ "}"%char :: post
  end.
Proof.
  unfold re_search, pieces. rewrite scan_first_hit.
  pose proof (first_match_braces (chars raw) None []) as H.
  destruct (first_match re_braces None (chars raw) []) as [[[g segs] rest]|];
    [|done].
  destruct H as (pre & mid & _ & ? & ? & ? & ->). simpl. by exists pre, mid, rest.
Qed.

(** The span between the first opening and the last closing brace is
    unique. *)
Lemma brace_span_unique (pre mid post pre' mid' post' : text) :
  pre ++ "{"%char :: mid ++ "}"%char :: post
    = pre' ++ "{"%char :: mid' ++ "}"%char :: post' →
  "{"%char ∉ pre → "}"%char ∉ post → "{"%char ∉ pre' → "}"%char ∉ post' →
  mid = mid'.
Proof.
  intros Heq Hpre Hpost Hpre' Hpost'.
  assert (pre = pre' ∧ mid ++ "}"%char :: post = mid' ++ "}"%char :: post')
    as [_ Hmid].
  { clear Hpost Hpost'. revert pre' Heq Hpre'.
    induction pre as [|a pre IH]; intros [|b pre'] Heq Hpre'; simplify_eq/=.
    - done.
    - destruct Hpre'. left.
    - destruct Hpre. left.
    - apply not_elem_of_cons in Hpre as [_ Hpre].
      apply not_elem_of_cons in Hpre' as [_ Hpre'].
      destruct (IH Hpre pre') as [-> ?]; done. }
  apply (f_equal reverse) in Hmid.
  rewrite !reverse_app, !reverse_cons in Hmid.
  rewrite <- !(assoc_L (++)) in Hmid. simpl in Hmid.
  assert (reverse post = reverse post' ∧ reverse mid = reverse mid') as [_ Hr].
  { assert ("}"%char ∉ reverse post) as H1 by (by rewrite elem_of_reverse).
    assert ("}"%char ∉ reverse post') as H2 by (by rewrite elem_of_reverse).
    revert Hmid H1 H2. generalize (reverse post), (reverse post').
    intros p. induction p as [|a p IH]; intros [|b p'] Hpp H1 H2; simplify_eq/=.
    - done.
    - destruct H2. left.
    - destruct H1. left.
    - apply not_elem_of_cons in H1 as [_ H1].
      apply not_elem_of_cons in H2 as [_ H2].
      destruct (IH p') as [-> ?]; done. }
  by apply (inj reverse).
Qed.

Section Reply.

Context (loads : string → decoding).

(** C8, as the code has it. For a reply whose decoding as it stands fails
    with a [JSONDecodeError], the boundary of run_narrative.py decodes the
    text from the first opening brace of the reply to its last closing
    brace: it returns the decoded value when that text decodes, the empty
    result marked with the text of the exception when it does not
    (whatever the exception), and the empty result marked
    [no-json-object-found] when the reply has no opening brace followed by
    a closing one; one of the three always applies, so the request does not
    fail. A reply whose decoding as it stands ends in an exception of
    another kind (too deep a nesting for the stack, an integer of more
    digits than [int] converts) is not caught: the request fails with that
    exception. *)
Theorem parse_reply_brace_span (raw : string) :
  (∀ e, loads raw = Undecodable e →
     (∀ pre mid post,
        chars raw = pre ++ "{"%char :: mid ++ "}"%char :: post →
        "{"%char ∉ pre → "}"%char ∉ post →
        RunNarrative.parse_reply loads raw
          = Ok match loads (str ("{"%char :: mid ++ ["}"%char])) with
               | Decoded out => out
               | Undecodable e' | Failed _ e' => RunNarrative.undecoded e' raw
               end) ∧
     ((∀ pre mid post, chars raw ≠ pre ++ "{"%char :: mid ++ "}"%char :: post) →
        RunNarrative.parse_reply loads raw
          = Ok (RunNarrative.undecoded "no-json-object-found" raw)) ∧
     ((∃ pre mid post,
         chars raw = pre ++ "{"%char :: mid ++ "}"%char :: post ∧
         ("{"%char ∉ pre) ∧ "}"%char ∉ post) ∨
      (∀ pre mid post, chars raw ≠ pre ++ "{"%char :: mid ++ "}"%char :: post))) ∧
  (∀ ex msg, loads raw = Failed ex msg →
     RunNarrative.parse_reply loads raw = Raise ex) ∧
  (∀ out, loads raw = Decoded out →
     RunNarrative.parse_reply loads raw = Ok out).
Proof.
  unfold RunNarrative.parse_reply. split_and!.
  - intros e ->.
    pose proof (re_search_braces raw) as Hs.
    destruct (re_search re_braces raw) as [segs|].
    + destruct Hs as (pre & mid & post & Heq & Hpre & Hpost & ->).
      split_and!.
      * intros pre' mid' post' Heq' Hpre' Hpost'. rewrite Heq in Heq'.
        rewrite (brace_span_unique _ _ _ _ _ _ Heq' Hpre Hpost Hpre' Hpost').
        by destruct (loads _).
      * intros Hno. by destruct (Hno pre mid post).
      * left. by exists pre, mid, post.
    + split_and!; [|done|by right].
      intros pre mid post Heq. by destruct (Hs pre mid post).
  - by intros ex msg ->.
  - by intros out ->.
Qed.

End Reply.
(** ** The guardrail on citations *)

Section Guardrail.

Context (set_iter : gset string → list string) (Hwalk : walks_sets set_iter).

(** C5, as the code has it. The guardrail, which runs before lint, keeps of
    the claimed citations exactly those in the provided list, in order.
    When at least one passage was provided, the narrative is cut into
    pieces, text and markers; every marker [[id]] that stands in the
    narrative is one of the cut markers, at its place, the text pieces hold
    no marker, and the result is the narrative without the cut markers
    whose identifier is not provided, every other piece as it stands. When
    no passage was provided the narrative is returned as it came. Lint of
    the result then reports no bad citation identifier. *)
Theorem guard_citations_repairs out quotes allowed_tokens banned_terms
    cids narrative :
  out !! "citationsUsed" = Some (VList cids) →
  out !! "narrative" = Some (VStr narrative) →
  let provided_ids := quote_id <$> quotes in
  ∃ out' narrative',
    RunNarrative.guard_citations out quotes = Ok out' ∧
    out' !! "citationsUsed"
      = Some (VList (filter (λ cid, cid ∈ provided_ids) cids)) ∧
    out' !! "narrative" = Some (VStr narrative') ∧
    (quotes = [] → narrative' = narrative) ∧
    (quotes ≠ [] →
       ∃ pcs,
         render pcs = chars narrative ∧
         render (filter (λ pc, kept (list_to_set provided_ids) pc = true) pcs)
           = chars narrative' ∧
         (∀ pre cid post,
            chars narrative = pre ++ "["%char :: cid ++ "]"%char :: post →
            cid ≠ [] → Forall (λ c, is_cid_char c = true) cid →
            ∃ pcs1 pcs2,
              pcs = pcs1 ++ Hit [["["%char]; cid; ["]"%char]] :: pcs2 ∧
              render pcs1 = pre) ∧
         Forall (λ pc,
                   match pc with
                   | Hit segs =>
                       ∃ cid, cid ≠ [] ∧
                              Forall (λ c, is_cid_char c = true) cid ∧
                              segs = [["["%char]; cid; ["]"%char]]
                   | Gap g => ∀ cid, ¬ has_marker g cid
                   end) pcs) ∧
    ∃ ok issues,
      RunNarrative.lint_output set_iter out' allowed_tokens provided_ids
        banned_terms = Ok (ok, issues) ∧
      ∀ cid, ("bad citation id: " +:+ cid) ∉ issues.
Proof.
  intros Hc Hn provided_ids.
  set (provided := list_to_set provided_ids : gset string).
  set (cids' := filter (λ cid, cid ∈ provided_ids) cids).
  set (out1 := <["citationsUsed" := VList cids']> out).
  assert (filter (λ cid, cid ∈ provided) cids = cids') as Hfilter.
  { apply list_filter_iff. intros cid. apply elem_of_list_to_set. }
  assert (∀ narrative',
    ∃ ok issues,
      RunNarrative.lint_output set_iter (<["narrative" := VStr narrative']> out1)
        allowed_tokens provided_ids banned_terms = Ok (ok, issues) ∧
      ∀ cid, ("bad citation id: " +:+ cid) ∉ issues) as Hlint.
  { intros narrative'.
    destruct (lint_output_issues set_iter Hwalk
                (<["narrative" := VStr narrative']> out1) allowed_tokens
                provided_ids banned_terms narrative' (list_to_set cids'))
      as (ok & issues & Hrun & _ & Hissues).
    - unfold RunNarrative.narrative_of. by rewrite lookup_insert_eq.
    - unfold RunNarrative.citations_of, out1.
      rewrite lookup_insert_ne by done. by rewrite lookup_insert_eq.
    - exists ok, issues. split; [done|]. intros cid Hin.
      apply Hissues in Hin
        as [(t & _ & _ & _ & _ & Heq)|[[_ Heq]|
            [(cid' & Hcid' & Hno & _)|(term & _ & _ & Heq)]]];
        [done|done| |done].
      apply Hno. apply elem_of_list_to_set in Hcid'.
      by apply list_elem_of_filter in Hcid' as [? _]. }
  assert (RunNarrative.guard_citations out quotes
          = Ok (if bool_decide (provided ≠ ∅)
                then <["narrative" :=
                         VStr (re_sub re_citation
                                 (RunNarrative.citation_replacer provided)
                                 narrative)]> out1
                else out1)) as Hrun.
  { unfold RunNarrative.guard_citations. rewrite Hc. simpl.
    fold provided_ids. fold provided. rewrite Hfilter. fold out1.
    unfold out1 at 1. rewrite lookup_insert_ne by done. rewrite Hn.
    by case_bool_decide. }
  assert (provided = ∅ ↔ quotes = []) as Hempty.
  { unfold provided, provided_ids. rewrite activated_empty.
    split; [apply fmap_nil_inv|by intros ->]. }
  assert (<["narrative" := VStr narrative]> out1 = out1) as Hsame.
  { apply insert_id. unfold out1. by rewrite lookup_insert_ne. }
  case_bool_decide as Hprov.
  - eexists _, _. split_and!; [done| | | | |apply Hlint].
    + rewrite lookup_insert_ne by done. apply lookup_insert_eq.
    + apply lookup_insert_eq.
    + intros Hq. by apply Hempty in Hq.
    + intros _. exists (pieces re_citation (chars narrative)). split_and!.
      * apply pieces_render.
      * by rewrite re_sub_citation, chars_str.
      * intros pre cid post. apply citation_cut.
      * apply citation_pieces.
  - exists out1, narrative. split_and!; [done| | |done| |].
    + apply lookup_insert_eq.
    + unfold out1. by rewrite lookup_insert_ne.
    + intros Hq. exfalso. apply Hq, Hempty.
      destruct (decide (provided = ∅)) as [|Hne]; [done|]. naive_solver.
    + rewrite <- Hsame. apply Hlint.
Qed.

End Guardrail.

(** * Instances *)

(** Close a decidable goal over closed terms by evaluation. *)
Ltac by_compute := apply (bool_decide_unpack _); vm_compute; exact I.

(** A text that is ASCII, by computation. *)
Ltac by_ascii := unfold ascii_text; by_compute.

Lemma demo_walks_sets : walks_sets Demo.set_iter.
Proof. by intros X. Qed.

(** A table is acyclic when a rank drops along each of its entries. *)
Lemma acyclic_check (REL : gmap string rel_entry) (rank : string → nat) :
  map_Forall (λ w e, Forall (λ r, rank r < rank w) (default [] (requires e))) REL →
  acyclic REL.
Proof.
  intros Hall. apply (acyclic_by_rank REL rank). intros w r.
  unfold req_edge, RunNarrative.requires_of.
  destruct (REL !! w) as [e|] eqn:E; [|by intros ?%elem_of_nil].
  intros Hr. specialize (Hall w e E). simpl in Hall.
  rewrite Forall_forall in Hall. by apply Hall.
Qed.

Lemma demo_acyclic : acyclic Demo.REL.
Proof.
  apply (acyclic_check _ Demo.rank). by_compute.
Qed.

(** The two scenarios of the closure. *)
Example expand_PadInit :
  RunNarrative.expand_with_requires Demo.REL 3 ["PadInit"] = Some ["PadInit"].
Proof. by vm_compute. Qed.

Example expand_PadGetState :
  RunNarrative.expand_with_requires Demo.REL 3 ["PadGetState"]
    = Some ["PadInit"; "PadGetState"].
Proof. by vm_compute. Qed.

(** On a table with a cycle the walk exhausts every stack. *)
Example expand_loop fuel :
  RunNarrative.expand_with_requires Demo.REL_loop fuel ["A"] = None.
Proof.
  unfold RunNarrative.expand_with_requires. simpl.
  assert (∀ w, w = "A" ∨ w = "B" →
            RunNarrative.add Demo.REL_loop fuel w ([], ∅) = None) as H.
  { induction fuel as [|fuel IH]; intros w Hw; [done|]. simpl.
    rewrite decide_False by apply not_elem_of_empty.
    destruct Hw as [-> | ->].
    - change (RunNarrative.requires_of Demo.REL_loop "A") with ["B"].
      simpl. rewrite IH; [done|by right].
    - change (RunNarrative.requires_of Demo.REL_loop "B") with ["A"].
      simpl. rewrite IH; [done|by left]. }
  rewrite H; [done|by left].
Qed.

Lemma expand_with_requires_topological_witness :
  acyclic Demo.REL ∧
  ∃ out,
    RunNarrative.expand_with_requires Demo.REL 3 ["PadGetState"] = Some out ∧
    "PadGetState" ∈ out ∧ NoDup out.
Proof.
  split; [exact demo_acyclic|].
  destruct (expand_with_requires_topological Demo.REL ["PadGetState"] demo_acyclic)
    as (out & Hrun & Htargets & _ & Hnd & _).
  exists out. split_and!.
  - apply Hrun. vm_compute. lia.
  - apply Htargets. left.
  - exact Hnd.
Defined.

Lemma select_backbone_only_for_prerequisites_witness :
  acyclic Demo.REL ∧ walks_sets Demo.set_iter ∧
  ∃ picked,
    RunNarrative.select_passages_event_minimal Demo.REL Demo.PASSAGES
      Demo.set_iter 3 {["PadGetState"]} 4 = Some (quote_of <$> picked) ∧
    ∀ p, p ∈ picked → p ∈ Demo.PASSAGES.
Proof.
  split; [exact demo_acyclic|]. split; [exact demo_walks_sets|].
  destruct (select_backbone_only_for_prerequisites Demo.REL Demo.PASSAGES
              Demo.set_iter {["PadGetState"]} 4 demo_acyclic demo_walks_sets)
    as (picked & Hrun & Hfrom & _).
  exists picked. split.
  - apply Hrun. vm_compute. lia.
  - intros p Hp. apply (Hfrom p Hp).
Defined.

(** C3 at its failing input: with a limit of zero the selector returns one
    quote. *)
Theorem select_passages_over_zero_quota :
  ∃ chosen,
    RunNarrative.select_passages_event_minimal Demo.REL Demo.PASSAGES
      Demo.set_iter 3 {["PadGetState"]} 0 = Some chosen ∧
    InterpretLlm.select_passages_event_minimal Demo.REL Demo.set_iter 3
      {["PadGetState"]} Demo.PASSAGES 0 = Some chosen ∧
    chosen = [Quote "pad.state.p12" "PadGetState reports the port state."] ∧
    ¬ (Z.of_nat (length chosen) ≤ 0)%Z.
Proof. eexists. split_and!; [by vm_compute|by vm_compute|done|simpl; lia]. Qed.

(** The same corpus under limits of at least one. *)
Example select_quota_one :
  RunNarrative.select_passages_event_minimal Demo.REL Demo.PASSAGES
    Demo.set_iter 3 {["PadGetState"]} 1
  = Some [Quote "pad.state.p12" "PadGetState reports the port state."].
Proof. by vm_compute. Qed.

Example select_quota_four :
  RunNarrative.select_passages_event_minimal Demo.REL Demo.PASSAGES
    Demo.set_iter 3 {["PadGetState"]} 4
  = Some [Quote "pad.state.p12" "PadGetState reports the port state.";
          Quote "pad.init.p3" "PadInit sets up the controller port."].
Proof. by vm_compute. Qed.

(** With the prerequisite activated too, its backbone passage stays out. *)
Example select_no_backbone :
  RunNarrative.select_passages_event_minimal Demo.REL Demo.PASSAGES
    Demo.set_iter 3 {["PadGetState"; "PadInit"]} 4
  = Some [Quote "pad.state.p12" "PadGetState reports the port state."].
Proof. by vm_compute. Qed.



(** The scenario of the guardrail: the citation [xyz] and its marker go,
    the provided one stays, and lint has no bad citation identifier. *)
Example guard_citations_xyz :
  ∃ out',
    RunNarrative.guard_citations Demo.out_xyz Demo.quotes = Ok out' ∧
    out' !! "citationsUsed" = Some (VList ["pad.state.p12"]) ∧
    out' !! "narrative"
      = Some (VStr "I call PadGetState [pad.state.p12] then Foo ") ∧
    RunNarrative.lint_output Demo.set_iter out' {["PadInit"; "PadGetState"]}
      ["pad.state.p12"] (Some ["coffee"])
      = Ok (false, ["unallowed token: Foo"]).
Proof. eexists. split_and!; vm_compute; reflexivity. Qed.

Lemma guard_citations_repairs_witness :
  walks_sets Demo.set_iter ∧
  Demo.out_xyz !! "citationsUsed" = Some (VList ["pad.state.p12"; "xyz"]) ∧
  Demo.out_xyz !! "narrative"
    = Some (VStr "I call PadGetState [pad.state.p12] then Foo [xyz]") ∧
  ∃ out',
    RunNarrative.guard_citations Demo.out_xyz Demo.quotes = Ok out' ∧
    out' !! "citationsUsed"
      = Some (VList (filter (λ cid, cid ∈ quote_id <$> Demo.quotes)
                       ["pad.state.p12"; "xyz"])).
Proof.
  split; [exact demo_walks_sets|]. split; [vm_compute; reflexivity|].
  split; [vm_compute; reflexivity|].
  destruct (guard_citations_repairs Demo.set_iter demo_walks_sets Demo.out_xyz
              Demo.quotes {["PadInit"; "PadGetState"]} (Some ["coffee"])
              ["pad.state.p12"; "xyz"]
              "I call PadGetState [pad.state.p12] then Foo [xyz]")
    as (out' & narrative' & Hrun & Hcids & _); [vm_compute; reflexivity..|].
  exists out'. split; [exact Hrun|exact Hcids].
Defined.

(** C5 as stated fails when no passage was provided: the marker of an
    identifier outside the (empty) provided list stays in the narrative. *)
Lemma guard_citations_keeps_marker_without_passages :
  ∃ out' narrative',
    RunNarrative.guard_citations Demo.out_xyz [] = Ok out' ∧
    out' !! "narrative" = Some (VStr narrative') ∧
    has_marker (chars narrative') (chars "xyz") ∧
    "xyz" ∉ quote_id <$> ([] : list quote).
Proof.
  exists (<["citationsUsed" := VList []]> Demo.out_xyz),
    "I call PadGetState [pad.state.p12] then Foo [xyz]".
  split_and!.
  - vm_compute. reflexivity.
  - vm_compute. reflexivity.
  - split_and!; [done|by_compute|].
    exists (chars "I call PadGetState [pad.state.p12] then Foo "), []. reflexivity.
  - apply not_elem_of_nil.
Qed.

Lemma fallback_on_nothing_representable_witness :
  walks_sets Demo.set_iter ∧
  (∀ t, t ∈ RunNarrative._tokenize "Coffee spills, coffee!" →
        RunNarrative.lex_tags Demo.NEUT_MAP t = []) ∧
  RunNarrative.generate_narrative Demo.SYMBOLS Demo.REL_loop Demo.NEUT_MAP
    Demo.PASSAGES Demo.set_iter json_loads Demo.unreachable 0
    "Coffee spills, coffee!"
  = ([INTERPRET; FALLBACK], Ok RunNarrative.fallback).
Proof.
  split; [exact demo_walks_sets|].
  assert (∀ t, t ∈ RunNarrative._tokenize "Coffee spills, coffee!" →
               RunNarrative.lex_tags Demo.NEUT_MAP t = []) as Hnone.
  { apply Forall_forall. by_compute. }
  split; [exact Hnone|].
  apply (fallback_on_nothing_representable Demo.SYMBOLS Demo.REL_loop
           Demo.NEUT_MAP Demo.PASSAGES Demo.set_iter json_loads Demo.unreachable
           0 "Coffee spills, coffee!" demo_walks_sets).
  right. right. exact Hnone.
Defined.

(** A word with a tag whose symbol the vocabulary lacks is represented,
    and still activates nothing. *)
Example interpret_ghost :
  RunNarrative.interpret_event Demo.SYMBOLS Demo.NEUT_MAP Demo.set_iter
    "A ghost! A GHOST, a ghost"
  = {| bag_of_api := []; unrepresentable := ["a"] |}.
Proof. vm_compute. reflexivity. Qed.

Example interpret_poll :
  RunNarrative.interpret_event Demo.SYMBOLS Demo.NEUT_MAP Demo.set_iter
    "Poll the controller, void of coffee"
  = {| bag_of_api := ["PadGetState"; "PadInit"];
       unrepresentable := ["coffee"; "of"; "the"; "void"] |}.
Proof. vm_compute. reflexivity. Qed.

(** Another legal walk of sets: the elements in reverse. *)
Lemma reverse_walks_sets : walks_sets (λ X, reverse (elements X)).
Proof. intros X. apply reverse_Permutation. Qed.

Lemma interpret_event_deterministic_witness :
  walks_sets Demo.set_iter ∧ walks_sets (λ X, reverse (elements X)) ∧
  RunNarrative.interpret_event Demo.SYMBOLS Demo.NEUT_MAP Demo.set_iter
    "Poll the controller, void of coffee"
  = RunNarrative.interpret_event Demo.SYMBOLS Demo.NEUT_MAP
      (λ X, reverse (elements X)) "Poll the controller, void of coffee".
Proof.
  split; [exact demo_walks_sets|]. split; [exact reverse_walks_sets|].
  exact (proj1 (interpret_event_deterministic Demo.SYMBOLS Demo.REL Demo.NEUT_MAP
                  Demo.set_iter (λ X, reverse (elements X)) 3
                  "Poll the controller, void of coffee"
                  demo_walks_sets reverse_walks_sets)).
Defined.

Lemma fallback_guard_iff_nothing_activated_witness :
  walks_sets Demo.set_iter ∧
  (RunNarrative.fallback_guard Demo.SYMBOLS Demo.NEUT_MAP Demo.set_iter
     "A ghost! A GHOST, a ghost" = true ↔
   (list_to_set
      (bag_of_api
         (RunNarrative.interpret_event Demo.SYMBOLS Demo.NEUT_MAP Demo.set_iter
            "A ghost! A GHOST, a ghost")) : gset string) = ∅).
Proof.
  split; [exact demo_walks_sets|].
  destruct (fallback_guard_iff_nothing_activated Demo.SYMBOLS Demo.REL
              Demo.NEUT_MAP Demo.PASSAGES Demo.set_iter json_loads
              Demo.unreachable 0 "A ghost! A GHOST, a ghost" demo_walks_sets)
    as (_ & Hguard & _).
  exact Hguard.
Defined.

(** Repeated unrecognized words: six raw tokens, one unrepresentable term,
    nothing activated, and the fallback is taken. *)
Example fallback_repeated_words :
  RunNarrative._tokenize "A ghost! A GHOST, a ghost"
    = ["a"; "ghost"; "a"; "ghost"; "a"; "ghost"] ∧
  RunNarrative.fallback_guard Demo.SYMBOLS Demo.NEUT_MAP Demo.set_iter
    "A ghost! A GHOST, a ghost" = true.
Proof. split; vm_compute; reflexivity. Qed.

(** A reply wrapped in other text is decoded from its brace span. *)
Example parse_reply_wrapped :
  RunNarrative.parse_reply json_loads ("Sure! " +:+ Demo.reply "a" "p1" +:+ " Done.")
  = Ok (JObj [("narrative", JStr "a"); ("citationsUsed", JArr [JStr "p1"])]).
Proof. vm_compute. reflexivity. Qed.

Lemma parse_reply_brace_span_witness :
  json_loads ("Sure! " +:+ Demo.reply "a" "p1" +:+ " Done.")
    = Undecodable "Expecting value: line 1 column 1 (char 0)" ∧
  RunNarrative.parse_reply json_loads ("Sure! " +:+ Demo.reply "a" "p1" +:+ " Done.")
    = Ok match json_loads (Demo.reply "a" "p1") with
         | Decoded out => out
         | Undecodable e' | Failed _ e' =>
             RunNarrative.undecoded e'
               ("Sure! " +:+ Demo.reply "a" "p1" +:+ " Done.")
         end.
Proof.
  assert (json_loads ("Sure! " +:+ Demo.reply "a" "p1" +:+ " Done.")
          = Undecodable "Expecting value: line 1 column 1 (char 0)") as Hraw
    by (vm_compute; reflexivity).
  split; [exact Hraw|].
  destruct (parse_reply_brace_span json_loads
              ("Sure! " +:+ Demo.reply "a" "p1" +:+ " Done.")) as (Hcaught & _).
  destruct (Hcaught "Expecting value: line 1 column 1 (char 0)" Hraw)
    as (Hspan & _).
  apply (Hspan (chars "Sure! ")
           (removelast (tail (chars (Demo.reply "a" "p1")))) (chars " Done.")).
  - vm_compute. reflexivity.
  - by_compute.
  - by_compute.
Defined.

(** C8 as stated fails on a reply with two objects: the first well-formed
    object decodes, yet the boundary returns the empty result with a parse
    error, because the span runs to the last closing brace. *)
Lemma parse_reply_not_first_object :
  ∃ first rest e,
    Demo.two_objects = first +:+ rest ∧
    json_loads first
      = Decoded (JObj [("narrative", JStr "a"); ("citationsUsed", JArr [JStr "p1"])]) ∧
    json_loads Demo.two_objects = Undecodable e ∧
    RunNarrative.parse_reply json_loads Demo.two_objects
      = Ok (RunNarrative.undecoded e Demo.two_objects).
Proof.
  exists (Demo.reply "a" "p1"), (" or " +:+ Demo.reply "b" "p2"). eexists.
  split_and!; vm_compute; reflexivity.
Qed.

(** The first decoding is guarded against [JSONDecodeError] alone: a reply
    of a thousand opening brackets, or of an integer of 4301 digits, fails
    the request; inside a wrapped reply the same integer is caught by the
    second guard. *)
Example parse_reply_unguarded :
  RunNarrative.parse_reply json_loads (str (replicate 1000 "["%char))
    = Raise RecursionError ∧
  RunNarrative.parse_reply json_loads (str (replicate 4301 "1"%char))
    = Raise IntValueError ∧
  ∃ e, RunNarrative.parse_reply json_loads
         ("Sure! {" +:+ Demo.dq +:+ "n" +:+ Demo.dq +:+ ": "
          +:+ str (replicate 4301 "1"%char) +:+ "}")
       = Ok (RunNarrative.undecoded e
               ("Sure! {" +:+ Demo.dq +:+ "n" +:+ Demo.dq +:+ ": "
                +:+ str (replicate 4301 "1"%char) +:+ "}")).
Proof. split_and!; [| |eexists]; vm_compute; reflexivity. Qed.

(** And the request fails with it: the exception leaves [ask_lmstudio] and
    [generate_narrative]. *)
Example generate_narrative_unguarded :
  ∃ trace,
    RunNarrative.generate_narrative Demo.SYMBOLS Demo.REL Demo.NEUT_MAP
      Demo.PASSAGES Demo.set_iter json_loads
      (Demo.answers (str (replicate 1000 "["%char)))
      3 "Poll the controller"
    = (trace, Raise RecursionError).
Proof. eexists. vm_compute. reflexivity. Qed.

(** The boundary of interpret_llm.py on the same reply: the second decoding
    is not guarded and the request fails; and without braces the empty
    result carries no marker. *)
Example llm_parse_reply_raises :
  InterpretLlm.parse_reply json_loads Demo.two_objects = Raise JSONDecodeError ∧
  InterpretLlm.parse_reply json_loads "no json here"
    = Ok (JObj [("narrative", JStr ""); ("citationsUsed", JArr []);
                ("tokensUsed", JArr [])]).
Proof. split; vm_compute; reflexivity. Qed.

(** A whole request on the sample tables. *)
Example generate_narrative_poll :
  ∃ out,
    RunNarrative.generate_narrative Demo.SYMBOLS Demo.REL Demo.NEUT_MAP
      Demo.PASSAGES Demo.set_iter json_loads
      (Demo.answers
         (Demo.reply "I call PadGetState [pad.state.p12] then Foo [xyz]" "xyz"))
      3 "Poll the controller"
    = ([INTERPRET; EXPAND; SELECT; GENERATE; LINT], Ok out) ∧
    out !! "narrative"
      = Some (VStr "I call PadGetState [pad.state.p12] then Foo ") ∧
    out !! "citationsUsed" = Some (VList []) ∧
    out !! "__ok" = Some (VBool false) ∧
    out !! "__issues"
      = Some (VList ["unallowed token: Foo"; "no citations used"]) ∧
    out !! "__allowed_tokens" = Some (VList ["PadInit"; "PadGetState"]) ∧
    out !! "__provided_ids" = Some (VList ["pad.state.p12"]).
Proof. eexists. split_and!; vm_compute; reflexivity. Qed.

(** * The closure walk on any table *)

Lemma for_each_invariant {A S : Type} (I : S → Prop) (body : A → S → option S)
    (xs : list A) :
  (∀ x s s', x ∈ xs → I s → body x s = Some s' → I s') →
  ∀ st st', I st → for_each body xs st = Some st' → I st'.
Proof.
  induction xs as [|x xs IH]; intros Hstep st st' Hst Hrun; simpl in Hrun.
  - by injection Hrun as <-.
  - destruct (body x st) as [s1|] eqn:E; simpl in Hrun; [|done].
    apply (IH (λ y s s' Hy, Hstep y s s' (list_elem_of_further _ _ _ Hy)) s1);
      [|done].
    eapply Hstep; [left|done..].
Qed.

(** A loop with an item on which the body never returns does not return. *)
Lemma for_each_stuck {A S : Type} (I : S → Prop) (body : A → S → option S)
    (xs : list A) (x : A) :
  (∀ y s s', y ∈ xs → I s → body y s = Some s' → I s') →
  x ∈ xs → (∀ s, I s → body x s = None) →
  ∀ st, I st → for_each body xs st = None.
Proof.
  induction xs as [|y xs IH]; intros Hstep Hx Hnone st Hst;
    [by apply elem_of_nil in Hx|].
  simpl. destruct (body y st) as [s1|] eqn:E; [|done]. simpl.
  apply elem_of_cons in Hx as [->|Hx].
  - by rewrite (Hnone st Hst) in E.
  - apply IH; [|done..|].
    + intros z s s' Hz. apply Hstep. by right.
    + eapply Hstep; [left|done..].
Qed.

Section ClosureAnyTable.

Context (REL : gmap string rel_entry).

Local Abbreviation requires_of := (RunNarrative.requires_of REL).
Local Abbreviation add := (RunNarrative.add REL).
Local Abbreviation expand_with_requires := (RunNarrative.expand_with_requires REL).
Local Abbreviation add_with_requires := (Interpret.add_with_requires REL).
Local Abbreviation topo_require_chain := (Interpret.topo_require_chain REL).
Local Abbreviation req_edge := (req_edge REL).
Local Abbreviation reaches_cycle := (reaches_cycle REL).
Local Abbreviation cycle_free := (cycle_free REL).
Local Abbreviation walk_inv := (walk_inv REL).
Local Abbreviation walk_post := (walk_post REL).
Local Abbreviation walk := RunNarrative.walk.

Lemma reaches_cycle_step w :
  reaches_cycle w → ∃ r, req_edge w r ∧ reaches_cycle r.
Proof.
  intros (c & Hwc & Hcc). destruct Hwc as [w|w y c Hwy Hyc].
  - inversion Hcc as [? ? Hedge|? r ? Hedge Hrw]; subst.
    + exists w. split; [done|]. exists w. split; [done|by apply tc_once].
    + exists r. split; [done|]. exists w. split; [by apply tc_rtc|done].
  - exists y. split; [done|]. by exists c.
Qed.

Lemma reaches_cycle_back w r :
  req_edge w r → reaches_cycle r → reaches_cycle w.
Proof. intros Hwr (c & Hrc & Hcc). exists c. split; [by eapply rtc_l|done]. Qed.

Lemma on_cycle_reaches w : tc req_edge w w → reaches_cycle w.
Proof. intros Hw. by exists w. Qed.

(** The walk never returns from a symbol that reaches a cycle, and what it
    marks seen reaches none. *)
Lemma add_cycle fuel :
  ∀ w st, cycle_free st.2 →
    (reaches_cycle w → add fuel w st = None) ∧
    (∀ st', add fuel w st = Some st' → cycle_free st'.2).
Proof.
  induction fuel as [|fuel IH]; intros w st Hst; [done|].
  assert (∀ st', for_each (add fuel) (requires_of w) st = Some st' →
                 cycle_free st'.2) as Hkeep.
  { intros st'. apply (for_each_invariant (λ s, cycle_free s.2)); [|done].
    intros x s s' _ Hs. by apply IH. }
  assert (reaches_cycle w → add (S fuel) w st = None) as Hnone.
  { intros Hw. simpl. case_decide as Hseen; [by destruct (Hst w)|].
    destruct (reaches_cycle_step w Hw) as (r & Hwr & Hr).
    rewrite (for_each_stuck (λ s, cycle_free s.2) (add fuel) _ r); [done| |done| |done].
    - intros y s s' _ Hs. by apply IH.
    - intros s Hs. by apply IH. }
  split; [done|]. intros st' Hrun x Hx Hbad.
  simpl in Hrun. case_decide as Hseen.
  - injection Hrun as <-. by apply (Hst x).
  - destruct (for_each (add fuel) (requires_of w) st) as [s1|] eqn:E;
      simpl in Hrun; [|done].
    injection Hrun as <-. simpl in Hx.
    apply elem_of_union in Hx as [->%elem_of_singleton|Hx].
    + specialize (Hnone Hbad). simpl in Hnone.
      rewrite decide_False, E in Hnone by done. done.
    + by apply (Hkeep s1 eq_refl x).
Qed.

Lemma for_each_add_cycle fuel (roots : list string) (st st' : walk) :
  cycle_free st.2 → for_each (add fuel) roots st = Some st' → cycle_free st'.2.
Proof.
  apply (for_each_invariant (λ s, cycle_free s.2)).
  intros x s s' _ Hs. by apply add_cycle.
Qed.

(** After the requires of an unseen [w] off every cycle are walked, [w] is
    still unseen. *)
Lemma requires_walk_fresh_off_cycle w st st' :
  ¬ tc req_edge w w →
  w ∉ st.2 → walk_inv st → walk_post (requires_of w) st st' → w ∉ st'.1.
Proof.
  intros Hoff Hw (Hseen & _) (_ & ext & Hout & _ & Hreach).
  rewrite Hout. intros [Hin|Hin]%elem_of_app.
  - apply Hw. rewrite Hseen. by apply elem_of_list_to_set.
  - destruct (Hreach w Hin) as (r & Hr & Hrw).
    apply Hoff. by eapply tc_rtc_r; [apply tc_once|].
Qed.

Lemma walk_emit_off_cycle w st st' :
  ¬ tc req_edge w w →
  w ∉ st.2 → walk_inv st → walk_post (requires_of w) st st' →
  walk_post [w] st (st'.1 ++ [w], {[w]} ∪ st'.2).
Proof.
  intros Hoff Hw Hinv Hpost.
  pose proof (requires_walk_fresh_off_cycle w st st' Hoff Hw Hinv Hpost) as Hfresh.
  destruct Hpost as ((Hseen' & Hnd' & Hpre') & ext & Hout & Hin & Hreach).
  split; [split_and!|]; simpl.
  - rewrite Hseen', list_to_set_app_L. apply set_eq. intros x.
    rewrite !elem_of_union, elem_of_singleton, !elem_of_list_to_set.
    rewrite list_elem_of_singleton. tauto.
  - apply NoDup_app. split_and!; [done| |apply NoDup_singleton].
    by intros x Hx ->%list_elem_of_singleton.
  - intros x r [Hx| ->%list_elem_of_singleton]%elem_of_app Hedge.
    + by apply precedes_app, Hpre'.
    + by apply precedes_snoc, Hin.
  - exists (ext ++ [w]). split_and!.
    + by rewrite Hout, app_assoc.
    + intros r ->%list_elem_of_singleton. apply elem_of_app. right. left.
    + intros x [Hx| ->%list_elem_of_singleton]%elem_of_app.
      * destruct (Hreach x Hx) as (r & Hr & Hrx). exists w.
        split; [left|]. by eapply rtc_l.
      * exists w. split; [left|done].
Qed.

(** [for_each_walk] with a second invariant [J] of the state. *)
Lemma for_each_walk_with (J : walk → Prop) (body : string → walk → option walk)
    (roots : list string) :
  (∀ r st st', r ∈ roots → walk_inv st → J st → body r st = Some st' →
     walk_post [r] st st' ∧ J st') →
  ∀ st st', walk_inv st → J st → for_each body roots st = Some st' →
    walk_post roots st st' ∧ J st'.
Proof.
  induction roots as [|r roots IH]; intros Hbody st st' Hinv HJ Hrun;
    simpl in Hrun.
  - injection Hrun as <-. split; [|done]. split; [done|]. exists [].
    split_and!; [by rewrite app_nil_r | by intros ? ?%elem_of_nil..].
  - destruct (body r st) as [s1|] eqn:E; simpl in Hrun; [|done].
    destruct (Hbody r st s1) as ((Hinv1 & ext1 & Hout1 & Hin1 & Hreach1) & HJ1);
      [left|done..|].
    destruct (IH (λ y s s' Hy, Hbody y s s' (list_elem_of_further _ _ _ Hy))
                s1 st' Hinv1 HJ1 Hrun)
      as ((Hinv' & ext2 & Hout2 & Hin2 & Hreach2) & HJ').
    split; [|done]. split; [done|]. exists (ext1 ++ ext2). split_and!.
    + by rewrite Hout2, Hout1, app_assoc.
    + intros y [->|Hy]%elem_of_cons; [|by apply Hin2].
      rewrite Hout2. apply elem_of_app. left. apply Hin1. left.
    + intros x [Hx|Hx]%elem_of_app.
      * destruct (Hreach1 x Hx) as (y & ->%list_elem_of_singleton & Hy).
        exists r. split; [left|done].
      * destruct (Hreach2 x Hx) as (y & Hy & Hyx).
        exists y. split; [by right|done].
Qed.

(** Whenever the walk returns, on any table, it has extended a topological
    order by what the symbol reaches. *)
Lemma add_walk_any fuel :
  ∀ w st st', walk_inv st → cycle_free st.2 → add fuel w st = Some st' →
    walk_post [w] st st' ∧ cycle_free st'.2.
Proof.
  induction fuel as [|fuel IH]; intros w st st' Hinv Hfree Hrun; [done|].
  split; [|by apply (add_cycle (S fuel) w st)].
  assert (¬ tc req_edge w w ∨ w ∈ st.2) as Hoff.
  { destruct (decide (w ∈ st.2)); [by right|left].
    intros Hw%on_cycle_reaches.
    by rewrite (proj1 (add_cycle (S fuel) w st Hfree) Hw) in Hrun. }
  simpl in Hrun. case_decide as Hw.
  - injection Hrun as <-. by apply walk_post_seen.
  - destruct Hoff as [Hoff|?]; [|done].
    destruct (for_each (add fuel) (requires_of w) st) as [s1|] eqn:E;
      simpl in Hrun; [|done].
    injection Hrun as <-. apply walk_emit_off_cycle; [done..|].
    eapply (for_each_walk_with (λ s, cycle_free s.2)); [|done..].
    intros r s s' _. apply IH.
Qed.

Lemma for_each_add_walk_any fuel (roots : list string) (st st' : walk) :
  walk_inv st → cycle_free st.2 → for_each (add fuel) roots st = Some st' →
  walk_post roots st st' ∧ cycle_free st'.2.
Proof.
  apply (for_each_walk_with (λ s, cycle_free s.2)).
  intros r s s' _. apply add_walk_any.
Qed.

Lemma cycle_free_empty : cycle_free ∅.
Proof. by intros w ?%not_elem_of_empty. Qed.

(** The second membership test of [topo_require_chain] never fails, on any
    table: [w] is still unseen when its requires have been walked. *)
Lemma add_with_requires_add_any fuel :
  ∀ w st, walk_inv st → cycle_free st.2 →
    add_with_requires fuel w st = add fuel w st.
Proof.
  induction fuel as [|fuel IH]; intros w st Hinv Hfree; [done|].
  simpl. case_decide as Hw; [done|].
  change (Interpret.requires_of REL w) with (requires_of w).
  rewrite (for_each_agree (λ s, walk_inv s ∧ cycle_free s.2)
             (add_with_requires fuel) (add fuel)); [| | |done].
  2:{ intros x s _ [? ?]. by apply IH. }
  2:{ intros x s s' _ [Hs1 Hs2] Hrun.
      destruct (add_walk_any fuel x s s' Hs1 Hs2 Hrun) as [[? _] ?]. done. }
  destruct (for_each (add fuel) (requires_of w) st) as [s1|] eqn:E; [|done].
  simpl. case_decide as Hfresh; [done|]. exfalso.
  destruct (for_each_add_walk_any fuel (requires_of w) st s1 Hinv Hfree E)
    as [Hpost Hfree1].
  assert (¬ tc req_edge w w) as Hoff.
  { intros Hcyc%on_cycle_reaches.
    pose proof (proj1 (add_cycle (S fuel) w st Hfree) Hcyc) as Hnone.
    simpl in Hnone. by rewrite decide_False, E in Hnone. }
  pose proof (requires_walk_fresh_off_cycle w st s1 Hoff Hw Hinv Hpost) as Hnot.
  destruct Hpost as ((Hseen & _) & _). rewrite Hseen in Hfresh.
  apply Hnot. by apply elem_of_list_to_set in Hfresh.
Qed.

Lemma topo_require_chain_expand_any fuel targets :
  topo_require_chain fuel targets = expand_with_requires fuel targets.
Proof.
  unfold Interpret.topo_require_chain, RunNarrative.expand_with_requires. f_equal.
  apply (for_each_agree (λ s, walk_inv s ∧ cycle_free s.2)).
  - intros x s _ [? ?]. by apply add_with_requires_add_any.
  - intros x s s' _ [Hs1 Hs2] Hrun.
    destruct (add_walk_any fuel x s s' Hs1 Hs2 Hrun) as [[? _] ?]. done.
  - split; [apply walk_inv_empty|apply cycle_free_empty].
Qed.

(** Depth of the walk from a symbol that reaches no cycle. *)
Lemma add_returns_off_cycle fuel :
  ∀ path w st,
    ¬ reaches_cycle w →
    NoDup path →
    (∀ a, a ∈ path → tc req_edge a w) →
    size REL < length path + fuel →
    is_Some (add fuel w st).
Proof.
  induction fuel as [|fuel IH]; intros path w st Hoff Hnd Hanc Hlen.
  - exfalso.
    assert (length path ≤ size REL); [|lia].
    apply path_bound; [done|]. intros a Ha.
    apply Hanc in Ha. inversion Ha; subst; by eapply req_edge_dom.
  - simpl. case_decide; [by eexists|].
    destruct (for_each_total (add fuel) (requires_of w)) with (st := st)
      as [st' ->]; [|by eexists].
    intros r st0 Hr. apply (IH (w :: path)).
    + intros Hbad. apply Hoff. by eapply reaches_cycle_back.
    + constructor; [|done]. intros Hw. apply Hoff, on_cycle_reaches. by apply Hanc.
    + intros a [->|Ha]%elem_of_cons; [by apply tc_once|].
      eapply tc_r; [by apply Hanc|done].
    + simpl. lia.
Qed.

(** What a returned expansion is, on any table. *)
Lemma expand_with_requires_returned fuel targets out :
  expand_with_requires fuel targets = Some out →
  walk_post targets ([], ∅) (out, list_to_set out) ∧
  cycle_free (list_to_set out).
Proof.
  unfold RunNarrative.expand_with_requires. intros Hrun.
  destruct (for_each (add fuel) targets ([], ∅)) as [st|] eqn:E; [|done].
  injection Hrun as <-.
  destruct (for_each_add_walk_any fuel targets ([], ∅) st)
    as [Hpost Hfree]; [apply walk_inv_empty|apply cycle_free_empty|done|].
  assert (st = (st.1, list_to_set st.1)) as Hst.
  { destruct Hpost as ((Hseen & _) & _). destruct st as [o s]. simpl in *.
    by rewrite Hseen. }
  rewrite Hst in Hpost, Hfree. done.
Qed.

(** The walk returns, with one answer for every stack deeper than the table
    is large, as soon as no target reaches a cycle. *)
Lemma expand_with_requires_off_cycle targets :
  (∀ t, t ∈ targets → ¬ reaches_cycle t) →
  ∃ out, ∀ fuel, size REL < fuel → expand_with_requires fuel targets = Some out.
Proof.
  intros Hoff.
  destruct (for_each_total (add (S (size REL))) targets) with (st := ([], ∅) : walk)
    as [st Hst].
  { intros x s Hx. apply (add_returns_off_cycle _ []); simpl;
      [by apply Hoff|constructor|by intros a ?%elem_of_nil|lia]. }
  exists st.1. intros fuel Hfuel. unfold RunNarrative.expand_with_requires.
  erewrite for_each_ext; [done| |exact Hst].
  intros x s s' _. apply add_fuel_mono. lia.
Qed.

(** The walk is stuck on a target that reaches a cycle. *)
Lemma expand_with_requires_stuck (targets : list string) (t : string) :
  t ∈ targets → reaches_cycle t →
  ∀ fuel, expand_with_requires fuel targets = None.
Proof.
  intros Ht Hbad fuel. unfold RunNarrative.expand_with_requires.
  rewrite (for_each_stuck (λ s, cycle_free s.2) (add fuel) _ t); [done| |done| |].
  - intros y s s' _ Hs. by apply add_cycle.
  - intros s Hs. by apply add_cycle.
  - apply cycle_free_empty.
Qed.

(** A returned expansion holds what the targets reach, and nothing else. *)
Lemma expand_with_requires_reach fuel targets out :
  expand_with_requires fuel targets = Some out →
  ∀ x, x ∈ out ↔ ∃ t, t ∈ targets ∧ rtc req_edge t x.
Proof.
  intros Hrun.
  destruct (expand_with_requires_returned fuel targets out Hrun)
    as [(Hinv & ext & Hext & Hin & Hreach) _].
  simpl in *. subst ext. intros x. split; [apply Hreach|].
  intros (t & Ht & Htx).
  apply (walk_inv_reach REL (out, list_to_set out) t x); [done| |done].
  by apply Hin.
Qed.

(** X1. On any table, the dependency closure never returns when a target
    requires, through any number of steps, a symbol that requires itself:
    whatever the depth of the stack, [expand_with_requires] and
    [topo_require_chain] end in the interpreter's recursion error. *)
Theorem expand_with_requires_recursion_error (targets : list string) (t : string) :
  t ∈ targets → reaches_cycle t →
  ∀ fuel,
    expand_with_requires fuel targets = None ∧
    topo_require_chain fuel targets = None ∧
    InterpretLlm.expand_with_requires REL fuel targets = None.
Proof.
  intros Ht Hbad fuel.
  pose proof (expand_with_requires_stuck targets t Ht Hbad fuel) as Hnone.
  by rewrite topo_require_chain_expand_any.
Qed.

(** X2. On any table, cyclic parts included, the closure of targets that
    reach no cycle returns, with one answer for every stack deeper than the
    table is large and the same from [expand_with_requires] and
    [topo_require_chain]; the answer holds exactly the symbols reached from
    a target, none twice, each behind all it requires, and none of them
    reaches a cycle. *)
Theorem expand_with_requires_off_cycles (targets : list string) :
  (∀ t, t ∈ targets → ¬ reaches_cycle t) →
  ∃ out,
    (∀ fuel, size REL < fuel →
       expand_with_requires fuel targets = Some out ∧
       topo_require_chain fuel targets = Some out) ∧
    (∀ x, x ∈ out ↔ ∃ t, t ∈ targets ∧ rtc req_edge t x) ∧
    NoDup out ∧
    (∀ w r, w ∈ out → r ∈ requires_of w → precedes r w out) ∧
    (∀ x, x ∈ out → ¬ reaches_cycle x).
Proof.
  intros Hoff. destruct (expand_with_requires_off_cycle targets Hoff) as [out Hout].
  exists out.
  assert (expand_with_requires (S (size REL)) targets = Some out) as Hrun
    by (apply Hout; lia).
  destruct (expand_with_requires_returned _ targets out Hrun)
    as [((Hseen & Hnd & Hpre) & _) Hfree].
  simpl in *. split_and!.
  - intros fuel Hfuel. rewrite topo_require_chain_expand_any. by rewrite Hout.
  - by apply (expand_with_requires_reach (S (size REL))).
  - done.
  - done.
  - intros x Hx. apply Hfree. by apply elem_of_list_to_set.
Qed.

(** A loop whose body leaves the state as it is. *)
Lemma for_each_idle {A S : Type} (body : A → S → option S) (xs : list A) (st : S) :
  (∀ x, x ∈ xs → body x st = Some st) → for_each body xs st = Some st.
Proof.
  induction xs as [|x xs IH]; intros Hbody; simpl; [done|].
  rewrite Hbody by left. simpl. apply IH. intros y Hy. apply Hbody. by right.
Qed.

(** Walking a topological order emits it as it stands. *)
Lemma walk_of_order (out : list string) (fuel : nat) :
  NoDup out →
  (∀ w r, w ∈ out → req_edge w r → precedes r w out) →
  2 ≤ fuel →
  ∀ pre suf, out = pre ++ suf →
    for_each (add fuel) suf (pre, list_to_set pre) = Some (out, list_to_set out).
Proof.
  intros Hnd Hpre Hfuel pre suf. revert pre.
  induction suf as [|w suf IH]; intros pre Hout; simpl.
  - by rewrite app_nil_r in Hout; subst.
  - destruct fuel as [|[|fuel]]; [lia..|].
    assert (w ∉ pre) as Hw.
    { rewrite Hout in Hnd. apply NoDup_app in Hnd as (_ & Hnd & _).
      intros Hin. apply (Hnd w Hin). left. }
    cbn [RunNarrative.add]. rewrite decide_False
      by (cbn [snd]; by rewrite elem_of_list_to_set).
    rewrite for_each_idle.
    + cbn [mbind option_bind fst snd].
      replace ({[w]} ∪ list_to_set pre : gset string)
        with (list_to_set (pre ++ [w]) : gset string).
      { apply IH. by rewrite <- app_assoc. }
      rewrite list_to_set_app_L. simpl. apply set_eq. intros x.
      rewrite !elem_of_union, elem_of_singleton, elem_of_empty. tauto.
    + intros r Hr. cbn [RunNarrative.add]. rewrite decide_True; [done|].
      apply elem_of_list_to_set.
      destruct (Hpre w r) as (i & j & Hi & Hj & Hij); [|done|].
      { rewrite Hout. apply elem_of_app. right. left. }
      assert (j = length pre) as ->.
      { eapply NoDup_lookup; [done..|]. rewrite Hout. by apply list_lookup_middle. }
      rewrite Hout, lookup_app_l in Hi by done.
      by eapply list_elem_of_lookup_2.
Qed.

(** X4. Expanding an expansion changes nothing: whenever the closure of a
    list of targets returns, on any table, the closure of the returned list
    is that list again, and a stack of depth two is enough for it. *)
Theorem expand_with_requires_idempotent (fuel : nat) (targets out : list string) :
  expand_with_requires fuel targets = Some out →
  ∀ fuel', 2 ≤ fuel' →
    expand_with_requires fuel' out = Some out ∧
    topo_require_chain fuel' out = Some out.
Proof.
  intros Hrun fuel' Hfuel.
  destruct (expand_with_requires_returned fuel targets out Hrun)
    as [((_ & Hnd & Hpre) & _) _]. simpl in *.
  rewrite topo_require_chain_expand_any.
  assert (expand_with_requires fuel' out = Some out) as ->; [|done].
  unfold RunNarrative.expand_with_requires.
  change (∅ : gset string) with (list_to_set [] : gset string).
  by rewrite (walk_of_order out fuel' Hnd Hpre Hfuel [] out eq_refl).
Qed.

End ClosureAnyTable.

(** No symbol of a set reaches a cycle when the requires of its symbols stay
    in the set and some rank drops along each of them. *)
Lemma off_cycle_check (REL : gmap string rel_entry) (S : gset string)
    (rank : string → nat) :
  set_Forall (λ w, Forall (λ r, r ∈ S ∧ rank r < rank w)
                          (RunNarrative.requires_of REL w)) S →
  ∀ w, w ∈ S → ¬ reaches_cycle REL w.
Proof.
  intros Hall.
  assert (∀ w r, w ∈ S → req_edge REL w r → r ∈ S ∧ rank r < rank w) as Hedge.
  { intros w r Hw Hr. specialize (Hall w Hw). simpl in Hall.
    rewrite Forall_forall in Hall. by apply Hall. }
  assert (∀ w x, rtc (req_edge REL) w x → w ∈ S → x ∈ S) as Hrtc.
  { induction 1 as [|w r x H _ IH]; [done|]. intros Hw. apply IH.
    by apply (Hedge w r). }
  assert (∀ w x, tc (req_edge REL) w x → w ∈ S → rank x < rank w) as Htc.
  { induction 1 as [w x H|w r x H _ IH]; intros Hw; [by apply (Hedge w x)|].
    destruct (Hedge w r Hw H) as [Hr Hlt]. specialize (IH Hr). lia. }
  intros w Hw (c & Hwc & Hcc).
  specialize (Htc c c Hcc (Hrtc w c Hwc Hw)). lia.
Qed.

(** X5. [requires_set] gives the prerequisites proper: for a set of tokens
    none of which reaches a cycle it returns, for every stack deeper than
    the table is large, the set of the symbols that some token requires
    through any number of steps and that are not tokens themselves. *)
Theorem requires_set_proper (REL : gmap string rel_entry)
    (set_iter : gset string → list string) (tokens : gset string) :
  walks_sets set_iter →
  (∀ a, a ∈ tokens → ¬ reaches_cycle REL a) →
  ∃ prereq : gset string,
    (∀ fuel, size REL < fuel →
       RunNarrative.requires_set REL set_iter fuel tokens = Some prereq ∧
       InterpretLlm.requires_set REL set_iter fuel tokens = Some prereq) ∧
    (∀ x, x ∈ prereq ↔
          (x ∉ tokens) ∧ ∃ a, a ∈ tokens ∧ rtc (req_edge REL) a x) ∧
    prereq ## tokens.
Proof.
  intros Hwalk Hoff.
  destruct (expand_with_requires_off_cycle REL (set_iter tokens)) as [out Hrun].
  { intros t Ht. apply Hoff. by apply (set_iter_elem set_iter Hwalk). }
  pose proof (expand_with_requires_reach REL (S (size REL)) (set_iter tokens) out
                (Hrun _ (Nat.lt_succ_diag_r _))) as Hreach.
  exists (list_to_set out ∖ tokens). split_and!.
  - intros fuel Hfuel. unfold InterpretLlm.requires_set, RunNarrative.requires_set.
    by rewrite (Hrun fuel Hfuel).
  - intros x. rewrite elem_of_difference, elem_of_list_to_set, Hreach.
    split.
    + intros [(t & Ht & Htx) Hx]. split; [done|]. exists t.
      split; [|done]. by apply (set_iter_elem set_iter Hwalk).
    + intros [Hx (a & Ha & Hax)]. split; [|done]. exists a.
      split; [|done]. by apply (set_iter_elem set_iter Hwalk).
  - intros x Hx Hx'. apply elem_of_difference in Hx as [_ Hx]. done.
Qed.

(** * The selector in closed form *)

Lemma first_ids_app (seen : gset string) (l1 l2 : list passage) :
  first_ids seen (l1 ++ l2)
    = first_ids seen l1
      ++ first_ids (list_to_set (p_id <$> first_ids seen l1) ∪ seen) l2.
Proof.
  revert seen. induction l1 as [|p l1 IH]; intros seen; simpl.
  - f_equal. apply set_eq. intros x. rewrite elem_of_union, elem_of_empty. tauto.
  - case_decide; [apply IH|]. simpl. f_equal. rewrite IH. f_equal. f_equal.
    apply set_eq. intros x.
    rewrite !elem_of_union, elem_of_singleton. tauto.
Qed.

Lemma first_ids_NoDup (seen : gset string) (ps : list passage) :
  NoDup (p_id <$> first_ids seen ps) ∧
  ∀ p, p ∈ first_ids seen ps → p_id p ∉ seen.
Proof.
  revert seen. induction ps as [|p ps IH]; intros seen; simpl.
  - split; [constructor|by intros ? ?%elem_of_nil].
  - case_decide as Hp; [apply IH|].
    destruct (IH ({[p_id p]} ∪ seen)) as [Hnd Hout]. split.
    + simpl. constructor; [|done].
      intros (q & Hq & Hin)%list_elem_of_fmap.
      apply (Hout q Hin). rewrite Hq. apply elem_of_union. left.
      by apply elem_of_singleton.
    + intros q [->|Hq]%elem_of_cons; [done|].
      intros Hin. apply (Hout q Hq). apply elem_of_union. by right.
Qed.

Lemma first_ids_sublist (seen : gset string) (ps : list passage) :
  first_ids seen ps `sublist_of` ps.
Proof.
  revert seen. induction ps as [|p ps IH]; intros seen; simpl; [done|].
  case_decide; [by apply sublist_cons|by apply sublist_skip].
Qed.

Section SelectorForm.

Context (max_quotes : Z).

Local Abbreviation n := (quota max_quotes).

(** One loop of the selector: it goes through the passages that [skip]
    does not hold of and that name a symbol of [S], takes those that bring a
    new identifier, and is left when the quota is met. *)
Lemma loop_pick_if (skip : passage → bool) (S : gset string) :
  ∀ (ps : list passage) (chosen : list quote) (seen : gset string),
    length chosen < n →
    let cand :=
      first_ids seen
        (List.filter (λ p, negb (skip p) && RunNarrative.substantiates p S) ps) in
    match loop (pick_if max_quotes skip S) ps (chosen, seen) with
    | Leave st' =>
        n ≤ length chosen + length cand ∧
        st'.1 = chosen ++ (quote_of <$> take (n - length chosen) cand)
    | Next st' =>
        length chosen + length cand < n ∧
        st' = (chosen ++ (quote_of <$> cand),
               list_to_set (p_id <$> cand) ∪ seen)
    end.
Proof.
  induction ps as [|p ps IH]; intros chosen seen Hroom; simpl.
  - split; [lia|]. rewrite app_nil_r. f_equal.
    apply set_eq. intros x. rewrite elem_of_union, elem_of_empty. tauto.
  - unfold pick_if at 1. cbn [fst snd].
    destruct (decide (p_id p ∈ seen)) as [Hseen|Hseen].
    { rewrite bool_decide_eq_true_2 by done. cbn [orb].
      specialize (IH chosen seen Hroom). cbn zeta in IH.
      destruct (negb (skip p) && RunNarrative.substantiates p S); [|done].
      simpl. by rewrite decide_True. }
    rewrite bool_decide_eq_false_2 by done. cbn [orb].
    destruct (skip p) eqn:Hskip; cbn [negb andb]; [by apply IH|].
    destruct (RunNarrative.substantiates p S) eqn:Hsub; [|by apply IH].
    cbn [first_ids]. rewrite decide_False by done.
    unfold RunNarrative.choose. cbn [fst snd].
    rewrite length_app. cbn [length].
    unfold quota in *.
    case_bool_decide as Hfull.
    + split; [simpl; lia|]. cbn [fst].
      replace (Z.to_nat (1 `max` max_quotes) - length chosen) with 1 by lia.
      done.
    + specialize (IH (chosen ++ [Quote (p_id p) (p_text p)]) ({[p_id p]} ∪ seen)).
      rewrite length_app in IH. cbn [length] in IH.
      specialize (IH ltac:(lia)). cbn zeta in IH.
      destruct (loop (pick_if max_quotes skip S) ps
                  (chosen ++ [Quote (p_id p) (p_text p)], {[p_id p]} ∪ seen))
        as [st'|st'].
      * destruct IH as [Hlen ->]. split; [simpl; lia|]. f_equal.
        { by rewrite <- app_assoc. }
        simpl. apply set_eq. intros x.
        rewrite !elem_of_union, elem_of_singleton. tauto.
      * destruct IH as [Hlen ->]. split; [simpl; lia|].
        rewrite <- app_assoc. f_equal.
        replace (Z.to_nat (1 `max` max_quotes) - length chosen)
          with (Datatypes.S (Z.to_nat (1 `max` max_quotes) - (length chosen + 1)))
          by lia.
        done.
Qed.

End SelectorForm.

Lemma candidates_corpus (PASSAGES : list passage) (T prereq_only : gset string)
    (p : passage) :
  p ∈ candidates PASSAGES T prereq_only → p ∈ PASSAGES.
Proof.
  unfold candidates. rewrite elem_of_app, !list_elem_of_In, !filter_In.
  tauto.
Qed.

(** The quotes of the first candidates carry distinct identifiers of
    passages of the corpus. *)
Lemma first_candidates (PASSAGES : list passage) (T prereq_only : gset string)
    (k : nat) :
  let ids :=
    quote_id <$> (quote_of <$>
      take k (first_ids ∅ (candidates PASSAGES T prereq_only))) in
  NoDup ids ∧ length ids ≤ k ∧ ∀ i, i ∈ ids → i ∈ p_id <$> PASSAGES.
Proof.
  intros ids.
  assert (ids = p_id <$> take k (first_ids ∅ (candidates PASSAGES T prereq_only)))
    as ->.
  { unfold ids. rewrite <- list_fmap_compose. done. }
  split_and!.
  - rewrite fmap_take. eapply sublist_NoDup; [|apply sublist_take].
    apply first_ids_NoDup.
  - rewrite length_fmap, length_take. lia.
  - intros i (p & -> & Hp)%list_elem_of_fmap. apply list_elem_of_fmap.
    exists p. split; [done|].
    apply (candidates_corpus PASSAGES T prereq_only).
    eapply elem_of_sublist; [|apply first_ids_sublist].
    eapply elem_of_sublist; [done|apply sublist_take].
Qed.

Section SelectorAnswer.

Context (REL : gmap string rel_entry) (PASSAGES : list passage)
  (set_iter : gset string → list string).

(** What the selector returns once the closure has. *)
Lemma select_passages_form (fuel : nat) (activated : gset string)
    (max_quotes : Z) (expanded : list string) :
  RunNarrative.expand_with_requires REL fuel (set_iter activated) = Some expanded →
  RunNarrative.select_passages_event_minimal REL PASSAGES set_iter fuel
    activated max_quotes
  = Some (quote_of <$>
            take (quota max_quotes)
                 (first_ids ∅ (candidates PASSAGES (list_to_set expanded)
                                          (list_to_set expanded ∖ activated)))).
Proof.
  intros Hexp.
  unfold RunNarrative.select_passages_event_minimal, RunNarrative.requires_set.
  rewrite Hexp. cbn [mbind option_bind].
  set (T := list_to_set expanded : gset string).
  set (prereq_only := T ∖ activated).
  change (RunNarrative.pick_specific T max_quotes)
    with (pick_if max_quotes RunNarrative.is_backbone T).
  change (RunNarrative.pick_backbone prereq_only max_quotes)
    with (pick_if max_quotes (λ p, negb (RunNarrative.is_backbone p)) prereq_only).
  assert (0 < quota max_quotes) as Hpos by (unfold quota; lia).
  pose proof (loop_pick_if max_quotes RunNarrative.is_backbone T PASSAGES [] ∅
                ltac:(simpl; lia)) as H1.
  cbn zeta in H1. simpl length in H1. rewrite Nat.sub_0_r in H1.
  unfold candidates. fold T. fold prereq_only.
  rewrite first_ids_app.
  set (l1 := first_ids ∅
               (List.filter (λ p, negb (RunNarrative.is_backbone p)
                                  && RunNarrative.substantiates p T) PASSAGES)) in *.
  assert (List.filter (λ p, RunNarrative.is_backbone p
                            && RunNarrative.substantiates p prereq_only) PASSAGES
          = List.filter (λ p, negb (negb (RunNarrative.is_backbone p))
                              && RunNarrative.substantiates p prereq_only) PASSAGES)
    as ->.
  { apply List.filter_ext. intros p. by rewrite negb_involutive. }
  destruct (loop (pick_if max_quotes RunNarrative.is_backbone T) PASSAGES ([], ∅))
    as [st|st].
  - destruct H1 as [Hlen ->].
    pose proof (loop_pick_if max_quotes (λ p, negb (RunNarrative.is_backbone p))
                  prereq_only PASSAGES (quote_of <$> l1)
                  (list_to_set (p_id <$> l1) ∪ ∅)) as H2.
    rewrite length_fmap in H2. specialize (H2 ltac:(simpl in Hlen; lia)).
    cbn zeta in H2.
    set (l2 := first_ids (list_to_set (p_id <$> l1) ∪ ∅) _) in *.
    simpl app.
    destruct (loop (pick_if max_quotes (λ p, negb (RunNarrative.is_backbone p))
                      prereq_only) PASSAGES _) as [st'|st'].
    + destruct H2 as [Hlen2 ->]. cbn [fst]. f_equal.
      rewrite <- fmap_app. f_equal.
      rewrite take_ge; [done|]. rewrite length_app. lia.
    + destruct H2 as [Hlen2 ->]. f_equal.
      rewrite take_app. rewrite fmap_app. f_equal.
      rewrite take_ge by lia. done.
  - destruct H1 as [Hlen ->]. simpl app. f_equal. f_equal.
    rewrite take_app.
    replace (quota max_quotes - length l1) with 0 by lia.
    rewrite take_0, app_nil_r. done.
Qed.

(** X6. The selector in closed form. Whenever the closure of the activated
    symbols returns [expanded], the selector returns the quotes of the first
    [max_quotes] candidates (the first one when the limit is below one), a
    candidate being a passage that is not backbone and names a symbol of
    [expanded], or behind all of those a backbone passage that names a symbol
    of [expanded] outside the activated ones, each in corpus order and only
    the first passage of an identifier. So the identifiers returned are
    distinct, and they are at most [max_quotes] when the limit is at
    least one. *)
Theorem select_passages_closed_form (fuel : nat) (activated : gset string)
    (max_quotes : Z) (expanded : list string) :
  RunNarrative.expand_with_requires REL fuel (set_iter activated) = Some expanded →
  let chosen :=
    quote_of <$>
      take (quota max_quotes)
           (first_ids ∅ (candidates PASSAGES (list_to_set expanded)
                                    (list_to_set expanded ∖ activated))) in
  RunNarrative.select_passages_event_minimal REL PASSAGES set_iter fuel
    activated max_quotes = Some chosen ∧
  InterpretLlm.select_passages_event_minimal REL set_iter fuel activated
    PASSAGES max_quotes = Some chosen ∧
  NoDup (quote_id <$> chosen) ∧
  (1 ≤ max_quotes → Z.of_nat (length chosen) ≤ max_quotes)%Z.
Proof.
  intros Hexp chosen.
  pose proof (select_passages_form fuel activated max_quotes expanded Hexp) as Hsel.
  destruct (first_candidates PASSAGES (list_to_set expanded)
              (list_to_set expanded ∖ activated) (quota max_quotes))
    as (Hnd & Hlen & _).
  split_and!; [done..|].
  intros Hmax. rewrite length_fmap in Hlen. fold chosen in Hlen.
  unfold quota in Hlen. lia.
Qed.

End SelectorAnswer.

(** * The orchestrators *)

(** A lint that returns has read a narrative and a set of citations. *)
Lemma lint_output_returned set_iter out allowed_tokens provided_ids banned_terms r :
  RunNarrative.lint_output set_iter out allowed_tokens provided_ids banned_terms
    = Ok r →
  ∃ narrative cids,
    RunNarrative.narrative_of out = Ok narrative ∧
    RunNarrative.citations_of out = Ok cids.
Proof.
  unfold RunNarrative.lint_output.
  destruct (RunNarrative.narrative_of out) as [narrative| |]; simpl; [|done..].
  destruct (RunNarrative.citations_of out) as [cids| |]; simpl; [|done..].
  intros _. by exists narrative, cids.
Qed.

(** What the guardrail leaves: every other key as it was, and no claimed
    citation outside the provided ones. *)
Lemma guard_citations_returned out quotes out' :
  RunNarrative.guard_citations out quotes = Ok out' →
  (∀ k, k ≠ "citationsUsed" → k ≠ "narrative" → out' !! k = out !! k) ∧
  (∀ v, out' !! "citationsUsed" = Some v →
        ∃ cids, v = VList cids ∧ ∀ c, c ∈ cids → c ∈ quote_id <$> quotes).
Proof.
  unfold RunNarrative.guard_citations.
  set (provided := list_to_set (quote_id <$> quotes) : gset string).
  set (out1 := match out !! "citationsUsed" with
               | Some v => _
               | None => Ok out
               end).
  intros Hrun.
  assert (∃ o1, out1 = Ok o1 ∧
            (∀ k, k ≠ "citationsUsed" → o1 !! k = out !! k) ∧
            (∀ v, o1 !! "citationsUsed" = Some v →
                  ∃ cids, v = VList cids ∧ ∀ c, c ∈ cids → c ∈ quote_id <$> quotes))
    as (o1 & Ho1 & Hkeep1 & Hcit1).
  { unfold out1 in *. destruct (out !! "citationsUsed") as [v|] eqn:Hc.
    - destruct (py_iter v) as [cids| |]; simpl in *; [|done..].
      eexists. split; [done|]. split.
      + intros k Hk. by rewrite lookup_insert_ne.
      + intros v'. rewrite lookup_insert_eq. intros [= <-]. eexists. split; [done|].
        intros c [Hc' _]%list_elem_of_filter. by apply elem_of_list_to_set in Hc'.
    - exists out. split; [done|]. split; [done|]. intros v. by rewrite Hc. }
  rewrite Ho1 in Hrun. simpl in Hrun.
  destruct (o1 !! "narrative") as [v|] eqn:Hn.
  - case_bool_decide.
    + destruct (py_text v) as [narrative| |]; simpl in Hrun; [|done..].
      injection Hrun as <-. split.
      * intros k Hk1 Hk2. rewrite lookup_insert_ne by done. by apply Hkeep1.
      * intros v'. rewrite lookup_insert_ne by done. apply Hcit1.
    + injection Hrun as <-. split; [|done]. intros k Hk _. by apply Hkeep1.
  - injection Hrun as <-. split; [|done]. intros k Hk _. by apply Hkeep1.
Qed.

(** The keys that the orchestrators write leave the reply's own readable. *)
Lemma narrative_of_insert (out : gmap string pyval) k v :
  k ≠ "narrative" →
  RunNarrative.narrative_of (<[k := v]> out) = RunNarrative.narrative_of out.
Proof. intros Hk. unfold RunNarrative.narrative_of. by rewrite lookup_insert_ne. Qed.

Lemma citations_of_insert (out : gmap string pyval) k v :
  k ≠ "citationsUsed" →
  RunNarrative.citations_of (<[k := v]> out) = RunNarrative.citations_of out.
Proof. intros Hk. unfold RunNarrative.citations_of. by rewrite lookup_insert_ne. Qed.

Section Orchestrator.

Context (SYMBOLS : symbols) (REL : gmap string rel_entry)
  (NEUT_MAP : neutral_map) (PASSAGES : list passage)
  (set_iter : gset string → list string) (Hwalk : walks_sets set_iter)
  (loads : string → decoding)
  (call_lmstudio : payload → result string).

Local Abbreviation interpret_event :=
  (RunNarrative.interpret_event SYMBOLS NEUT_MAP set_iter).
Local Abbreviation fallback_guard :=
  (RunNarrative.fallback_guard SYMBOLS NEUT_MAP set_iter).
Local Abbreviation generate_narrative :=
  (RunNarrative.generate_narrative SYMBOLS REL NEUT_MAP PASSAGES set_iter loads
     call_lmstudio).
Local Abbreviation ask_lmstudio := (RunNarrative.ask_lmstudio loads call_lmstudio).

Lemma marked_lookup reply ok issues activated allowed_tokens provided_ids :
  let out := marked reply ok issues activated allowed_tokens provided_ids in
  out !! "__ok" = Some (VBool ok) ∧
  out !! "__activated_tokens" = Some (VList activated) ∧
  out !! "__allowed_tokens" = Some (VList allowed_tokens) ∧
  out !! "__provided_ids" = Some (VList provided_ids) ∧
  (ok = false → out !! "__issues" = Some (VList issues)) ∧
  out !! "citationsUsed" = reply !! "citationsUsed" ∧
  RunNarrative.narrative_of out = RunNarrative.narrative_of reply ∧
  RunNarrative.citations_of out = RunNarrative.citations_of reply.
Proof.
  unfold marked. destruct ok; simpl.
  - split_and!;
      rewrite ?narrative_of_insert, ?citations_of_insert by done;
      repeat (first [rewrite lookup_insert_eq | rewrite lookup_insert_ne by done]);
      done.
  - split_and!;
      rewrite ?narrative_of_insert, ?citations_of_insert by done;
      repeat (first [rewrite lookup_insert_eq | rewrite lookup_insert_ne by done]);
      done.
Qed.

(** The fallback guard is the emptiness of the bag. *)
Lemma fallback_guard_bag text :
  fallback_guard text = true ↔ bag_of_api (interpret_event text) = [].
Proof.
  rewrite (fallback_guard_true SYMBOLS NEUT_MAP set_iter text).
  split; [|by left]. intros [?|Hcount]; [done|].
  apply (no_tag_no_symbol SYMBOLS NEUT_MAP set_iter Hwalk).
  by apply (unrepresentable_count SYMBOLS NEUT_MAP set_iter Hwalk).
Qed.

(** The bag is its own sorted walk. *)
Lemma bag_of_api_sorted text :
  sorted (set_iter (list_to_set (bag_of_api (interpret_event text))))
    = bag_of_api (interpret_event text).
Proof.
  unfold RunNarrative.interpret_event. cbn [bag_of_api].
  set (sdk := foldl _ ∅ (set_iter _)).
  assert ((list_to_set (sorted (set_iter sdk)) : gset string) = sdk) as ->; [|done].
  apply set_eq. intros x.
  by rewrite elem_of_list_to_set, sorted_elem, (set_iter_elem set_iter Hwalk).
Qed.

(** How a returned request went. *)
Lemma generate_narrative_returned fuel text trace out :
  generate_narrative fuel text = (trace, Ok out) →
  (fallback_guard text = true ∧ trace = [INTERPRET; FALLBACK] ∧
   out = RunNarrative.fallback) ∨
  (fallback_guard text = false ∧
   trace = [INTERPRET; EXPAND; SELECT; GENERATE; LINT] ∧
   ∃ allowed quotes reply ok issues,
     RunNarrative.expand_with_requires REL fuel
       (set_iter (list_to_set (bag_of_api (interpret_event text)))) = Some allowed ∧
     RunNarrative.select_passages_event_minimal REL PASSAGES set_iter fuel
       (list_to_set (bag_of_api (interpret_event text))) 4 = Some quotes ∧
     ask_lmstudio allowed quotes text = Ok reply ∧
     RunNarrative.lint_output set_iter reply (list_to_set allowed)
       (quote_id <$> quotes) (Some (unrepresentable (interpret_event text)))
       = Ok (ok, issues) ∧
     out = marked reply ok issues (bag_of_api (interpret_event text)) allowed
             (quote_id <$> quotes)).
Proof.
  unfold RunNarrative.generate_narrative, RunNarrative.fallback_guard.
  destruct (_ || _); [intros [= <- <-]; by left|]. intros Hrun. right.
  split; [done|].
  destruct (RunNarrative.expand_with_requires _ _ _) as [allowed|] eqn:He; [|done].
  destruct (RunNarrative.select_passages_event_minimal _ _ _ _ _ _) as [quotes|]
    eqn:Hs; [|done].
  destruct (RunNarrative.ask_lmstudio _ _ _ _ _) as [reply| |] eqn:Ha; [|done..].
  destruct (RunNarrative.lint_output _ _ _ _ _) as [[ok issues]| |] eqn:Hl;
    cbn [result_bind] in Hrun; [|done..].
  injection Hrun as <- <-. split; [done|].
  exists allowed, quotes, reply, ok, issues. split_and!; [done..|].
  unfold marked. pose proof (bag_of_api_sorted text) as Hb.
  unfold RunNarrative.interpret_event in Hb |- *. cbn [bag_of_api] in Hb |- *.
  by rewrite Hb.
Qed.

(** A reply that left the boundary went through the guardrail. *)
Lemma ask_lmstudio_returned allowed quotes text reply :
  ask_lmstudio allowed quotes text = Ok reply →
  ∃ out, RunNarrative.guard_citations out quotes = Ok reply.
Proof.
  unfold RunNarrative.ask_lmstudio.
  destruct (call_lmstudio _) as [raw| |]; simpl; [|done..].
  destruct (RunNarrative.parse_reply loads raw) as [decoded| |]; simpl; [|done..].
  destruct (py_dict decoded) as [out|]; [|done]. by exists out.
Qed.

(** The citations that a guarded reply claims are provided ones. *)
Lemma guarded_citations out quotes reply cids :
  RunNarrative.guard_citations out quotes = Ok reply →
  RunNarrative.citations_of reply = Ok cids →
  ∀ c, c ∈ cids → c ∈ quote_id <$> quotes.
Proof.
  intros [_ Hcit]%guard_citations_returned. unfold RunNarrative.citations_of.
  destruct (reply !! "citationsUsed") as [v|] eqn:Hv.
  - destruct (Hcit v eq_refl) as (l & -> & Hl). simpl. intros [= <-] c Hc.
    apply Hl. by apply elem_of_list_to_set in Hc.
  - intros [= <-] c Hc. by apply not_elem_of_empty in Hc.
Qed.

(** What a returned selection is made of. *)
Lemma selected_ids fuel (activated : gset string) allowed quotes :
  RunNarrative.expand_with_requires REL fuel (set_iter activated) = Some allowed →
  RunNarrative.select_passages_event_minimal REL PASSAGES set_iter fuel
    activated 4 = Some quotes →
  NoDup (quote_id <$> quotes) ∧ length (quote_id <$> quotes) ≤ 4 ∧
  ∀ i, i ∈ quote_id <$> quotes → i ∈ p_id <$> PASSAGES.
Proof.
  intros He Hs.
  rewrite (select_passages_form REL PASSAGES set_iter fuel activated 4 allowed He)
    in Hs.
  injection Hs as <-. apply (first_candidates PASSAGES _ _ (quota 4)).
Qed.

(** X7. The keys that [generate_narrative] writes. Whenever the request
    returns a result, by the fallback or through the generation service,
    the result carries a verdict under [__ok], the activated symbols of the
    interpretation under [__activated_tokens], under [__allowed_tokens]
    exactly the symbols that an activated symbol requires through any
    number of steps, and under [__provided_ids] at most four distinct
    identifiers of passages of the corpus; the citations it claims are
    among these identifiers; and a false verdict comes with a list of
    issues that is not empty and holds no bad citation identifier. *)
Theorem generate_narrative_bookkeeping fuel text trace out :
  generate_narrative fuel text = (trace, Ok out) →
  ∃ ok allowed ids,
    out !! "__ok" = Some (VBool ok) ∧
    out !! "__activated_tokens"
      = Some (VList (bag_of_api (interpret_event text))) ∧
    out !! "__allowed_tokens" = Some (VList allowed) ∧
    out !! "__provided_ids" = Some (VList ids) ∧
    (∀ x, x ∈ allowed ↔
          ∃ a, a ∈ bag_of_api (interpret_event text) ∧ rtc (req_edge REL) a x) ∧
    NoDup ids ∧ length ids ≤ 4 ∧
    (∀ i, i ∈ ids → i ∈ p_id <$> PASSAGES) ∧
    (∀ v, out !! "citationsUsed" = Some v →
          ∃ cids, v = VList cids ∧ ∀ c, c ∈ cids → c ∈ ids) ∧
    (ok = false →
       ∃ issues, out !! "__issues" = Some (VList issues) ∧ issues ≠ [] ∧
                 ∀ cid, ("bad citation id: " +:+ cid) ∉ issues).
Proof.
  intros [(Hguard & _ & ->)|(Hguard & _ & allowed & quotes & reply & ok & issues
                              & He & Hs & Ha & Hl & ->)]%generate_narrative_returned.
  - apply fallback_guard_bag in Hguard. rewrite Hguard.
    exists true, [], []. split_and!; [done..| | | | | |done].
    + intros x. split; [by intros ?%elem_of_nil|].
      by intros (a & ?%elem_of_nil & _).
    + constructor.
    + simpl. lia.
    + by intros i ?%elem_of_nil.
    + intros v Hv.
      assert (Some (VList []) = Some v) as [= <-] by exact Hv.
      exists []. split; [done|]. by intros c ?%elem_of_nil.
  - destruct (marked_lookup reply ok issues (bag_of_api (interpret_event text))
                allowed (quote_id <$> quotes))
      as (Hok & Hact & Hall & Hids & Hiss & Hcit & Hnar & Hcids).
    destruct (selected_ids fuel _ allowed quotes He Hs) as (Hnd & Hlen & Hcorpus).
    destruct (ask_lmstudio_returned allowed quotes text reply Ha) as [raw Hguarded].
    exists ok, allowed, (quote_id <$> quotes). split_and!; try done.
    + intros x.
      rewrite (expand_with_requires_reach REL fuel _ allowed He x).
      by setoid_rewrite (set_iter_elem set_iter Hwalk); setoid_rewrite elem_of_list_to_set.
    + intros v. rewrite Hcit.
      by apply (guard_citations_returned raw quotes reply Hguarded).
    + intros ->. exists issues. split; [by apply Hiss|].
      destruct (lint_output_returned _ _ _ _ _ _ Hl) as (narrative & cids & Hn & Hc).
      destruct (lint_output_issues set_iter Hwalk reply (list_to_set allowed)
                  (quote_id <$> quotes)
                  (Some (unrepresentable (interpret_event text))) narrative cids
                  Hn Hc) as (ok' & issues' & Hl' & Hverdict & Hissues).
      rewrite Hl in Hl'. injection Hl' as <- <-. split.
      * intros Hnil. by apply Hverdict in Hnil.
      * intros cid Hin.
        apply Hissues in Hin
          as [(t & _ & _ & _ & _ & Heq)|[[_ Heq]|
              [(cid' & Hcid' & Hno & _)|(term & _ & _ & Heq)]]];
          [done|done| |done].
        apply Hno. by apply (guarded_citations raw quotes reply cids).
Qed.

(** X8. What a true verdict is worth, on ASCII text. When the event is
    ASCII text and activates a symbol, and [generate_narrative] returns a
    result marked [__ok] whose narrative is ASCII text, the result
    claims at least one citation and only identifiers of passages of the
    corpus, every capitalized token of its narrative is [I], [PS1] or a
    symbol that an activated symbol requires through any number of steps,
    and no unrepresentable term of the event stands in the narrative as a
    whole word, in either case. *)
Theorem generate_narrative_ok_sound fuel text trace out :
  ascii_text text →
  (∀ narrative, RunNarrative.narrative_of out = Ok narrative →
                ascii_text narrative) →
  bag_of_api (interpret_event text) ≠ [] →
  generate_narrative fuel text = (trace, Ok out) →
  out !! "__ok" = Some (VBool true) →
  ∃ narrative cids,
    RunNarrative.narrative_of out = Ok narrative ∧
    RunNarrative.citations_of out = Ok cids ∧
    cids ≠ ∅ ∧
    (∀ c, c ∈ cids → c ∈ p_id <$> PASSAGES) ∧
    (∀ t, capitalized_token (chars narrative) t →
          t = "I" ∨ t = "PS1" ∨
          ∃ a, a ∈ bag_of_api (interpret_event text) ∧ rtc (req_edge REL) a t) ∧
    (∀ term, term ∈ unrepresentable (interpret_event text) →
             ¬ whole_word (chars term) (chars narrative)).
Proof.
  intros _ _ Hbag
    [(Hguard & _ & ->)|(Hguard & _ & allowed & quotes & reply & ok & issues
                        & He & Hs & Ha & Hl & ->)]%generate_narrative_returned.
  { by apply fallback_guard_bag in Hguard. }
  destruct (marked_lookup reply ok issues (bag_of_api (interpret_event text))
              allowed (quote_id <$> quotes))
    as (Hok & _ & _ & _ & _ & _ & Hnar & Hcids).
  rewrite Hok. intros [= ->].
  destruct (selected_ids fuel _ allowed quotes He Hs) as (_ & _ & Hcorpus).
  destruct (ask_lmstudio_returned allowed quotes text reply Ha) as [raw Hguarded].
  destruct (lint_output_returned _ _ _ _ _ _ Hl) as (narrative & cids & Hn & Hc).
  destruct (lint_output_issues set_iter Hwalk reply (list_to_set allowed)
              (quote_id <$> quotes)
              (Some (unrepresentable (interpret_event text))) narrative cids
              Hn Hc) as (ok' & issues' & Hl' & Hverdict & Hissues).
  rewrite Hl in Hl'. injection Hl' as <- <-.
  assert (issues = []) as -> by by apply Hverdict.
  assert (∀ issue, ¬ violation narrative cids (list_to_set allowed)
                       (quote_id <$> quotes)
                       (Some (unrepresentable (interpret_event text))) issue)
    as Hnone.
  { intros issue Hv. apply Hissues in Hv. by apply elem_of_nil in Hv. }
  exists narrative, cids. rewrite Hnar, Hcids. split_and!; [done..| | | |].
  - intros ->. apply (Hnone "no citations used"). right. by left.
  - intros c Hc'. apply Hcorpus.
    by apply (guarded_citations raw quotes reply cids).
  - intros t Ht.
    destruct (decide (t = "I")) as [|HI]; [by left|].
    destruct (decide (t = "PS1")) as [|HPS]; [by right; left|].
    right. right.
    destruct (decide (t ∈ (list_to_set allowed : gset string))) as [Hin|Hout].
    + apply elem_of_list_to_set in Hin.
      apply (expand_with_requires_reach REL fuel _ allowed He t) in Hin
        as (a & Ha' & Hat).
      exists a. split; [|done].
      apply (set_iter_elem set_iter Hwalk) in Ha'.
      by apply elem_of_list_to_set in Ha'.
    + exfalso. apply (Hnone ("unallowed token: " +:+ t)). left.
      by exists t.
  - intros term Hterm Hword.
    apply (Hnone ("unrepresentable term present: " +:+ term)).
    right. right. right. by exists term.
Qed.

(** X9. A cycle of [requires] under an activated symbol brings the request
    down: when a symbol that the event activates requires, through any
    number of steps, a symbol that requires itself, [generate_narrative]
    prints the interpret and expand banners and ends in the recursion
    error, whatever the depth of the stack, before any passage is selected
    and before the generation service is asked. *)
Theorem generate_narrative_recursion_error text a :
  a ∈ bag_of_api (interpret_event text) → reaches_cycle REL a →
  ∀ fuel,
    generate_narrative fuel text = ([INTERPRET; EXPAND], Raise RecursionError).
Proof.
  intros Ha Hbad fuel.
  assert (fallback_guard text = false) as Hguard.
  { destruct (fallback_guard text) eqn:E; [|done].
    apply fallback_guard_bag in E. rewrite E in Ha. by apply elem_of_nil in Ha. }
  unfold RunNarrative.generate_narrative.
  unfold RunNarrative.fallback_guard in Hguard. rewrite Hguard.
  rewrite (expand_with_requires_stuck REL _ a); [done| |done].
  apply (set_iter_elem set_iter Hwalk). by apply elem_of_list_to_set.
Qed.

End Orchestrator.

Section LlmOrchestrator.

Context (REL : gmap string rel_entry)
  (set_iter : gset string → list string) (Hwalk : walks_sets set_iter)
  (loads : string → decoding)
  (load_passages : list passage)
  (post : payload → result string).

Local Abbreviation narrative_from_event :=
  (InterpretLlm.narrative_from_event REL set_iter loads load_passages post).

(** X10. interpret_llm.py lints the reply as it came. Whenever
    [narrative_from_event] returns, the result carries the verdict of lint
    under [__ok], a false verdict comes with a list of issues that is not
    empty, and a claimed citation that no passage of the corpus carries
    makes the verdict false and is reported among the issues as a bad
    citation identifier: nothing is dropped from the reply before lint. *)
Theorem narrative_from_event_unrepaired fuel event_text tokens unrep out :
  narrative_from_event fuel event_text tokens unrep = Ok out →
  ∃ ok,
    out !! "__ok" = Some (VBool ok) ∧
    (ok = false →
       ∃ issues, out !! "__issues" = Some (VList issues) ∧ issues ≠ []) ∧
    ∀ cids cid,
      out !! "citationsUsed" = Some (VList cids) → cid ∈ cids →
      cid ∉ p_id <$> load_passages →
      ok = false ∧
      ∃ issues, out !! "__issues" = Some (VList issues) ∧
                ("bad citation id: " +:+ cid) ∈ issues.
Proof.
  unfold InterpretLlm.narrative_from_event, InterpretLlm.expand_with_requires,
    InterpretLlm.select_passages_event_minimal, InterpretLlm.lint_output.
  destruct (RunNarrative.expand_with_requires _ _ _) as [allowed|] eqn:He; [|done].
  destruct (RunNarrative.select_passages_event_minimal _ _ _ _ _ _) as [quotes|]
    eqn:Hs; [|done].
  destruct (InterpretLlm.ask_lmstudio _ _ _ _ _) as [reply| |]; [|done..].
  cbn [result_bind].
  destruct (RunNarrative.lint_output _ _ _ _ _) as [[ok issues]| |] eqn:Hl;
    cbn [result_bind]; [|done..].
  intros [= <-].
  destruct (selected_ids REL load_passages set_iter fuel _ allowed quotes He Hs)
    as (_ & _ & Hcorpus).
  destruct (lint_output_returned _ _ _ _ _ _ Hl) as (narrative & cids & Hn & Hc).
  destruct (lint_output_issues set_iter Hwalk reply (list_to_set allowed)
              (quote_id <$> quotes) (Some unrep) narrative cids Hn Hc)
    as (ok' & issues' & Hl' & Hverdict & Hissues).
  rewrite Hl in Hl'. injection Hl' as <- <-.
  exists ok. split_and!.
  - destruct ok.
    + apply lookup_insert_eq.
    + rewrite lookup_insert_ne by done. apply lookup_insert_eq.
  - intros ->. exists issues. split; [apply lookup_insert_eq|].
    intros Hnil. by apply Hverdict in Hnil.
  - intros l cid Hl0 Hcid Hout.
    assert (reply !! "citationsUsed" = Some (VList l)) as Hreply.
    { destruct ok; rewrite ?lookup_insert_ne in Hl0 by done; done. }
    assert (cids = list_to_set l) as ->.
    { unfold RunNarrative.citations_of in Hc. rewrite Hreply in Hc.
      simpl in Hc. by injection Hc as <-. }
    assert (("bad citation id: " +:+ cid) ∈ issues) as Hin.
    { apply Hissues. right. right. left. exists cid. split_and!; [|  |done].
      - by apply elem_of_list_to_set.
      - intros Hprov. by apply Hout, Hcorpus. }
    assert (ok = false) as ->.
    { destruct ok; [|done]. rewrite (proj1 Hverdict eq_refl) in Hin.
      by apply elem_of_nil in Hin. }
    split; [done|]. exists issues. split; [apply lookup_insert_eq|done].
Qed.

End LlmOrchestrator.

(** * The tokenizer *)

Lemma chars_app (a b : string) : chars (a +:+ b) = chars a ++ chars b.
Proof.
  unfold chars. induction a as [|c a IH]; simpl; [done|]. by rewrite <- IH.
Qed.

Lemma str_app (a b : text) : str (a ++ b) = str a +:+ str b.
Proof. unfold str. induction a as [|c a IH]; simpl; [done|]. by rewrite IH. Qed.

Lemma str_nil (t : text) : str t = "" ↔ t = [].
Proof. destruct t; simpl; split; done. Qed.

Lemma lower_app (a b : string) : lower (a +:+ b) = lower a +:+ lower b.
Proof. unfold lower. by rewrite chars_app, map_app, str_app. Qed.

Lemma token_char_lower c : token_char c = true → lower_char c = c.
Proof.
  unfold lower_char. destruct (is_upper c) eqn:Hup; [|done].
  revert Hup. unfold token_char, is_upper, is_lower, is_digit, in_range.
  destruct c as [[] [] [] [] [] [] [] []]; vm_compute; done.
Qed.

Lemma lower_char_token c : token_char (lower_char c) = token_char c || is_upper c.
Proof. destruct c as [[] [] [] [] [] [] [] []]; vm_compute; done. Qed.

(** [class*] before a pattern that takes any rest always matches. *)
Lemma star_any (p : ascii → bool) prev s :
  ∃ seg rest, star p (match_here []) prev s = Some ([seg], rest) ∧
              s = seg ++ rest ∧ Forall (λ c, p c = true) seg.
Proof.
  pose proof (star_spec p (match_here []) prev s) as H.
  destruct (star p (match_here []) prev s) as [[segs rest]|].
  - destruct H as (seg & segs' & suffix & -> & -> & Hseg & Hk & _).
    simpl in Hk. injection Hk as <- <-. by exists seg, suffix.
  - by specialize (H [] s eq_refl (Forall_nil_2 _)).
Qed.

(** Passing the characters of a match. *)
Lemma scan_skip re : ∀ a b prev gap,
  scan re prev (a ++ b) (length a) gap = scan re (before prev a) b 0 gap.
Proof.
  induction a as [|x a IH]; intros b prev gap; [done|]. simpl. apply IH.
Qed.

Lemma runs_skip (p : ascii → bool) : ∀ seg rest,
  Forall (λ c, p c = false) seg → runs p (seg ++ rest) [] = runs p rest [].
Proof.
  induction seg as [|x seg IH]; intros rest Hseg; [done|].
  apply Forall_cons in Hseg as [Hx Hseg]. simpl. rewrite Hx. by apply IH.
Qed.

(** [re.split] on runs of separators leaves, empty pieces apart, the runs
    of token characters. *)
Lemma scan_runs : ∀ n s prev gap,
  length s ≤ n →
  filter (λ t, t ≠ []) (gaps (scan re_separator prev s 0 gap))
    = runs token_char s gap.
Proof.
  induction n as [|n IH]; intros s prev gap Hlen.
  - destruct s; [|simpl in Hlen; lia]. simpl.
    destruct gap; [done|]. by rewrite filter_cons_True.
  - destruct s as [|x s].
    { simpl. destruct gap; [done|]. by rewrite filter_cons_True. }
    cbn [scan]. unfold re_separator. rewrite match_here_Plus. fold re_separator.
    cbn [runs]. cbn beta.
    change (is_lower x || is_digit x || Ascii.eqb x "_") with (token_char x).
    destruct (token_char x) eqn:Hx; cbn [negb].
    + apply IH. simpl in Hlen. lia.
    + destruct (star_any (λ c, negb (is_lower c || is_digit c || Ascii.eqb c "_"))
                  (Some x) s) as (seg & rest & -> & -> & Hseg).
      cbn [concat length app]. rewrite app_nil_r.
      rewrite scan_skip. cbn [gaps omap].
      assert (filter (λ t, t ≠ []) (gaps (scan re_separator (before (Some x) seg) rest 0 []))
              = runs token_char (seg ++ rest) []) as Hrest.
      { rewrite IH by (simpl in Hlen; rewrite length_app in Hlen; lia).
        symmetry. apply runs_skip. eapply Forall_impl; [exact Hseg|].
        intros c Hc. simpl in Hc. unfold token_char. by apply negb_true_iff in Hc. }
      change (gaps (Gap gap :: Hit [x :: seg] :: ?l)) with (gap :: gaps l).
      destruct gap as [|g gap']; rewrite <- Hrest; reflexivity.
Qed.

Lemma filter_str (l : list text) :
  filter (λ t, t ≠ "") (str <$> l) = str <$> filter (λ t, t ≠ []) l.
Proof.
  induction l as [|t l IH]; [done|]. rewrite fmap_cons, !filter_cons, IH.
  destruct t; reflexivity.
Qed.

Lemma tokenize_as_runs (text : string) :
  RunNarrative._tokenize text = str <$> runs token_char (chars (lower text)) [].
Proof.
  unfold RunNarrative._tokenize, re_split, pieces.
  by rewrite filter_str, (scan_runs (length (chars (lower text)))).
Qed.

Lemma runs_well_formed (p : ascii → bool) : ∀ s word t,
  Forall (λ c, p c = true) word → t ∈ runs p s word →
  t ≠ [] ∧ Forall (λ c, p c = true) t.
Proof.
  induction s as [|x s IH]; intros word t Hword; simpl.
  - destruct word; [by intros ?%elem_of_nil|].
    by intros ->%list_elem_of_singleton.
  - destruct (p x) eqn:Hx.
    + apply IH. apply Forall_app. split; [done|]. by constructor.
    + destruct word as [|c word].
      * by apply IH.
      * intros [->|Ht]%elem_of_cons; [done|]. by apply (IH []).
Qed.

(** A separator cuts the text for the tokenizer. *)
Lemma runs_cut (p : ascii → bool) (x : ascii) : ∀ a b word,
  p x = false → runs p (a ++ x :: b) word = runs p a word ++ runs p b [].
Proof.
  induction a as [|y a IH]; intros b word Hx; simpl.
  - rewrite Hx. by destruct word.
  - destruct (p y); [by apply IH|].
    destruct word; by rewrite IH.
Qed.

Lemma runs_one (p : ascii → bool) : ∀ w word,
  Forall (λ c, p c = true) w → word ++ w ≠ [] → runs p w word = [word ++ w].
Proof.
  induction w as [|x w IH]; intros word Hw Hne; simpl.
  - rewrite app_nil_r in *. by destruct word.
  - apply Forall_cons in Hw as [Hx Hw]. rewrite Hx.
    rewrite IH; [by rewrite <- app_assoc|done|]. by destruct word.
Qed.

Lemma lower_token (t : string) :
  Forall (λ c, token_char c = true) (chars t) → lower t = t.
Proof.
  intros Ht. unfold lower.
  rewrite <- (str_chars t) at 2. f_equal.
  induction Ht as [|c l Hc _ IH]; [done|]. simpl.
  by rewrite (token_char_lower c Hc), IH.
Qed.

Lemma lower_lower (s : string) : lower (lower s) = lower s.
Proof.
  unfold lower. rewrite chars_str. f_equal. rewrite <- list_fmap_compose.
  apply list_fmap_ext. intros _ c _. simpl.
  destruct c as [[] [] [] [] [] [] [] []]; vm_compute; done.
Qed.

Lemma tokenize_token (t : string) : is_token t → RunNarrative._tokenize t = [t].
Proof.
  intros [Hne Ht]. rewrite tokenize_as_runs, (lower_token t Ht).
  rewrite runs_one; [by simpl; rewrite str_chars|done|].
  simpl. intros Hnil. apply Hne. by rewrite <- (str_chars t), Hnil.
Qed.

Lemma tokenize_blank (a b : string) :
  RunNarrative._tokenize (a +:+ " " +:+ b)
    = RunNarrative._tokenize a ++ RunNarrative._tokenize b.
Proof.
  rewrite !tokenize_as_runs, !lower_app, !chars_app.
  change (chars (lower " ")) with [" "%char]. simpl app.
  rewrite runs_cut by done. by rewrite fmap_app.
Qed.

(** X11. On ASCII text, where [lower] is Python's [str.lower], the
    tokenizer returns the maximal runs of lower-case letters, digits and
    underscores of the lower-cased text, from left to right:
    what [re.split] leaves between separators, empty pieces dropped, is
    what a scan of the characters collects. So every token is a non-empty
    text of such characters, the case of the input does not matter, and
    [tokenize] of interpret.py is the same function. *)
Theorem tokenize_maximal_runs (text : string) :
  ascii_text text →
  RunNarrative._tokenize text
    = str <$> runs token_char (chars (lower text)) [] ∧
  Interpret.tokenize text = RunNarrative._tokenize text ∧
  Forall is_token (RunNarrative._tokenize text) ∧
  RunNarrative._tokenize (lower text) = RunNarrative._tokenize text.
Proof.
  intros _. split_and!.
  - apply tokenize_as_runs.
  - done.
  - rewrite tokenize_as_runs. apply Forall_forall.
    intros t (w & -> & Hw)%list_elem_of_fmap.
    destruct (runs_well_formed token_char _ [] w (Forall_nil_2 _) Hw) as [Hne Hall].
    split; [by rewrite str_nil|by rewrite chars_str].
  - by rewrite !tokenize_as_runs, lower_lower.
Qed.

(** X12. Tokens written with blanks between them are read back as they
    are, and a blank cuts a text for the tokenizer: the tokens of two texts
    joined by a blank are the tokens of the first followed by the tokens of
    the second. *)
Theorem tokenize_round_trip (ts : list string) (a b : string) :
  Forall is_token ts →
  RunNarrative._tokenize (String.concat " " ts) = ts ∧
  RunNarrative._tokenize (a +:+ " " +:+ b)
    = RunNarrative._tokenize a ++ RunNarrative._tokenize b ∧
  RunNarrative._tokenize (String.concat " " (RunNarrative._tokenize a))
    = RunNarrative._tokenize a.
Proof.
  assert (∀ l, Forall is_token l → RunNarrative._tokenize (String.concat " " l) = l)
    as Hjoin.
  { induction l as [|t l IH]; intros Hl; [done|].
    apply Forall_cons in Hl as [Ht Hl]. destruct l as [|t' l].
    - by apply tokenize_token.
    - change (String.concat " " (t :: t' :: l))
        with (t +:+ " " +:+ String.concat " " (t' :: l)).
      by rewrite tokenize_blank, (tokenize_token t Ht), IH. }
  intros Hts. split_and!; [by apply Hjoin|apply tokenize_blank|].
  apply Hjoin. rewrite tokenize_as_runs. apply Forall_forall.
  intros t (w & -> & Hw)%list_elem_of_fmap.
  destruct (runs_well_formed token_char _ [] w (Forall_nil_2 _) Hw) as [Hne Hall].
  split; [by rewrite str_nil|by rewrite chars_str].
Qed.

(** * The interpreters, beyond the unrepresentable terms *)

Section Bag.

Context (SYMBOLS : symbols) (NEUT_MAP : neutral_map)
  (set_iter : gset string → list string) (Hwalk : walks_sets set_iter).

Local Abbreviation interpret_event :=
  (RunNarrative.interpret_event SYMBOLS NEUT_MAP set_iter).

Lemma in_vocabulary_true w :
  RunNarrative.in_vocabulary SYMBOLS w = true ↔
  w ∈ default [] (functions SYMBOLS) ∨ w ∈ default [] (literals SYMBOLS)
  ∨ w ∈ dom (default ∅ (enums SYMBOLS)).
Proof.
  unfold RunNarrative.in_vocabulary.
  rewrite !orb_true_iff, !bool_decide_eq_true. tauto.
Qed.

End Bag.

Lemma StronglySorted_filter {A : Type} (R : relation A) (P : A → Prop)
    `{∀ x, Decision (P x)} (l : list A) :
  StronglySorted R l → StronglySorted R (filter P l).
Proof.
  induction 1 as [|x l Hl IH Hx]; [constructor|].
  rewrite filter_cons. case_decide; [|done].
  constructor; [done|]. apply Forall_forall. intros y [_ Hy]%list_elem_of_filter.
  rewrite Forall_forall in Hx. by apply Hx.
Qed.

Section Tableau.

Context (SYMBOLS : symbols) (REL : gmap string rel_entry)
  (set_iter : gset string → list string) (Hwalk : walks_sets set_iter).

Local Abbreviation build_state_tableau :=
  (Interpret.build_state_tableau SYMBOLS REL set_iter).

(** The loop of the tableau sorts each word into at most one list. *)
Lemma tableau_fold (l : list string) : ∀ obs cal,
  foldl (λ '(observable, callable_) w,
           match REL !! w ≫= yields with
           | Some (domain :: _) =>
               (observable ++ [w +:+ " → " +:+ domain], callable_)
           | _ =>
               if bool_decide (w ∈ default [] (functions SYMBOLS))
                  || bool_decide (w ∈ default [] (literals SYMBOLS))
               then (observable, callable_ ++ [w])
               else (observable, callable_)
           end)
        (obs, cal) l
  = (obs ++ omap (tableau_row REL) l,
     cal ++ filter (λ w, tableau_callable SYMBOLS REL w = true) l).
Proof.
  induction l as [|w l IH]; intros obs cal.
  - by rewrite !app_nil_r.
  - cbn [foldl].
    change (omap (tableau_row REL) (w :: l))
      with (match tableau_row REL w with
            | Some row => row :: omap (tableau_row REL) l
            | None => omap (tableau_row REL) l
            end).
    rewrite filter_cons.
    destruct (REL !! w ≫= yields) as [[|d rest]|] eqn:E.
    + assert (tableau_row REL w = None) as ->
        by (unfold tableau_row, first_yield; by rewrite E).
      assert (tableau_callable SYMBOLS REL w
              = bool_decide (w ∈ default [] (functions SYMBOLS))
                || bool_decide (w ∈ default [] (literals SYMBOLS))) as ->
        by (unfold tableau_callable, first_yield; by rewrite E).
      destruct (_ || _); rewrite IH.
      * rewrite decide_True by done. by rewrite <- app_assoc.
      * by rewrite decide_False by done.
    + assert (tableau_row REL w = Some (w +:+ " → " +:+ d)) as ->
        by (unfold tableau_row, first_yield; by rewrite E).
      assert (tableau_callable SYMBOLS REL w = false) as ->
        by (unfold tableau_callable, first_yield; by rewrite E).
      rewrite IH, decide_False by done. by rewrite <- app_assoc.
    + assert (tableau_row REL w = None) as ->
        by (unfold tableau_row, first_yield; by rewrite E).
      assert (tableau_callable SYMBOLS REL w
              = bool_decide (w ∈ default [] (functions SYMBOLS))
                || bool_decide (w ∈ default [] (literals SYMBOLS))) as ->
        by (unfold tableau_callable, first_yield; by rewrite E).
      destruct (_ || _); rewrite IH.
      * rewrite decide_True by done. by rewrite <- app_assoc.
      * by rewrite decide_False by done.
Qed.

Lemma tableau_count (l : list string) :
  length (omap (tableau_row REL) l)
  + length (filter (λ w, tableau_callable SYMBOLS REL w = true) l) ≤ length l.
Proof.
  induction l as [|w l IH]; [done|].
  change (omap (tableau_row REL) (w :: l))
    with (match tableau_row REL w with
          | Some row => row :: omap (tableau_row REL) l
          | None => omap (tableau_row REL) l
          end).
  rewrite filter_cons.
  destruct (first_yield REL w) as [d|] eqn:E.
  - assert (tableau_row REL w = Some (w +:+ " → " +:+ d)) as ->
      by (unfold tableau_row; by rewrite E).
    assert (tableau_callable SYMBOLS REL w = false) as ->
      by (unfold tableau_callable; by rewrite E).
    rewrite decide_False by done. simpl. lia.
  - assert (tableau_row REL w = None) as -> by (unfold tableau_row; by rewrite E).
    case_decide; simpl; lia.
Qed.

(** X14. The state tableau of interpret.py. A row [w → d] is listed as
    observable exactly for a word [w] of the set that yields something, [d]
    being the first symbol it yields; a word is listed as callable exactly
    when it is in the set, yields nothing and is a function or a literal of
    symbols.json. So no word stands in both lists, a word that is only the
    name of an enum stands in neither, and the callable list is sorted and
    holds no word twice. *)
Theorem build_state_tableau_rows (sdk_words : gset string) :
  let observable := (build_state_tableau sdk_words).1 in
  let callable_ := (build_state_tableau sdk_words).2 in
  (∀ row, row ∈ observable ↔
          ∃ w d rest, w ∈ sdk_words ∧ REL !! w ≫= yields = Some (d :: rest) ∧
                      row = w +:+ " → " +:+ d) ∧
  (∀ w, w ∈ callable_ ↔
        w ∈ sdk_words ∧
        (∀ d rest, REL !! w ≫= yields ≠ Some (d :: rest)) ∧
        (w ∈ default [] (functions SYMBOLS) ∨ w ∈ default [] (literals SYMBOLS))) ∧
  Sorted String.le callable_ ∧ NoDup callable_ ∧
  length observable + length callable_ ≤ size sdk_words.
Proof.
  unfold Interpret.build_state_tableau. rewrite tableau_fold. cbn [fst snd app].
  assert (∀ w, w ∈ sorted (set_iter sdk_words) ↔ w ∈ sdk_words) as Hin.
  { intros w. by rewrite sorted_elem, (set_iter_elem set_iter Hwalk). }
  split_and!.
  - intros row. rewrite list_elem_of_omap. setoid_rewrite Hin.
    unfold tableau_row, first_yield. split.
    + intros (w & Hw & Hrow).
      destruct (REL !! w ≫= yields) as [[|d rest]|] eqn:E; [done| |done].
      simpl in Hrow. injection Hrow as <-. by exists w, d, rest.
    + intros (w & d & rest & Hw & Hy & ->). exists w. by rewrite Hy.
  - intros w. rewrite list_elem_of_filter, Hin.
    unfold tableau_callable, first_yield. split.
    + intros [Hc Hw]. split; [done|].
      destruct (REL !! w ≫= yields) as [[|d rest]|]; [|done|].
      * split; [done|].
        by apply orb_true_iff in Hc as [?%bool_decide_eq_true|?%bool_decide_eq_true];
          [left|right].
      * split; [done|].
        by apply orb_true_iff in Hc as [?%bool_decide_eq_true|?%bool_decide_eq_true];
          [left|right].
    + intros (Hw & Hy & Hsym). split; [|done].
      destruct (REL !! w ≫= yields) as [[|d rest]|]; [|by destruct (Hy d rest)|];
        apply orb_true_iff; rewrite !bool_decide_eq_true; tauto.
  - apply StronglySorted_Sorted, StronglySorted_filter.
    apply StronglySorted_merge_sort; apply _.
  - apply NoDup_filter. rewrite sorted_perm. apply (set_iter_NoDup set_iter Hwalk).
  - etransitivity; [apply tableau_count|].
    by rewrite sorted_length, (set_iter_length set_iter Hwalk).
Qed.

End Tableau.

Section ApiSentence.

Context (SYMBOLS : symbols) (REL : gmap string rel_entry) (MAP : neutral_map)
  (set_iter : gset string → list string) (Hwalk : walks_sets set_iter).

Local Abbreviation interpret_event :=
  (Interpret.interpret_event SYMBOLS REL MAP set_iter).

(** The desired symbols that the interpreter keeps. *)
Lemma desired_kept (sdk_words : gset string) (w : string) :
  w ∈ List.filter
        (λ w, if decide (w = "PAD_STATE_*")
              then bool_decide ("PAD_STATE_*" ∈ dom (default ∅ (enums SYMBOLS)))
              else bool_decide (w ∈ sdk_words)
                   || bool_decide (w ∈ default [] (literals SYMBOLS)))
        ["PadInit"; "PadGetState"; "PAD_STATE_*"; "VSync(0)"]
  ↔ desired_present SYMBOLS (sorted (set_iter sdk_words)) w.
Proof.
  rewrite list_elem_of_In, filter_In, <- list_elem_of_In.
  unfold desired_present.
  setoid_rewrite sorted_elem. setoid_rewrite (set_iter_elem set_iter Hwalk).
  rewrite !elem_of_cons, !elem_of_nil. split.
  - intros [Hin Htest]. case_decide as Hw.
    + left. by apply bool_decide_eq_true in Htest.
    + right. split; [tauto|].
      by apply orb_true_iff in Htest as [?%bool_decide_eq_true|?%bool_decide_eq_true];
        [left|right].
  - intros [[-> Henum]|[Hin Hp]].
    + split; [tauto|]. rewrite decide_True by done. by apply bool_decide_eq_true.
    + split; [tauto|]. rewrite decide_False.
      * apply orb_true_iff. rewrite !bool_decide_eq_true. tauto.
      * by destruct Hin as [->|[->|[->|[]]]].
Qed.

(** X15. The API sentence of interpret.py is the closure of the desired
    symbols that are present, where [PAD_STATE_*] is present as soon as it
    names an enum of symbols.json, whatever the text, and [PadInit],
    [PadGetState] and [VSync(0)] are present when the text activates them
    or they are literals. Whenever the interpreter returns, the sentence
    holds exactly what a present symbol requires through any number of
    steps, no symbol twice and each behind all it requires; the interpreter
    returns for every stack deeper than the table is large when no present
    symbol reaches a cycle, and never when one does. *)
Theorem api_sentence_closure (text : string) :
  let bag :=
    bag_of_api (RunNarrative.interpret_event SYMBOLS MAP set_iter text) in
  (∀ fuel r, interpret_event fuel text = Some r →
     (∀ x, x ∈ Interpret.api_sentence r ↔
           ∃ d, desired_present SYMBOLS bag d ∧ rtc (req_edge REL) d x) ∧
     NoDup (Interpret.api_sentence r) ∧
     (∀ w q, w ∈ Interpret.api_sentence r → q ∈ RunNarrative.requires_of REL w →
             precedes q w (Interpret.api_sentence r))) ∧
  ((∀ d, desired_present SYMBOLS bag d → ¬ reaches_cycle REL d) →
   ∀ fuel, size REL < fuel → is_Some (interpret_event fuel text)) ∧
  (∀ d, desired_present SYMBOLS bag d → reaches_cycle REL d →
        ∀ fuel, interpret_event fuel text = None).
Proof.
  intros bag.
  set (sdk_words := Interpret.neutral_to_sdk SYMBOLS MAP set_iter
                      (Interpret.to_neutral MAP (Interpret.tokenize text))).
  set (kept := List.filter
                 (λ w, if decide (w = "PAD_STATE_*")
                       then bool_decide ("PAD_STATE_*" ∈ dom (default ∅ (enums SYMBOLS)))
                       else bool_decide (w ∈ sdk_words)
                            || bool_decide (w ∈ default [] (literals SYMBOLS)))
                 ["PadInit"; "PadGetState"; "PAD_STATE_*"; "VSync(0)"]).
  assert (∀ fuel r, interpret_event fuel text = Some r →
            Interpret.topo_require_chain REL fuel kept
              = Some (Interpret.api_sentence r) ∧
            sorted (set_iter sdk_words) = bag) as Hrun.
  { intros fuel r Hr.
    destruct (interpret_py_agrees _ _ _ _ _ _ _ Hwalk Hr) as [Hbag _].
    unfold Interpret.interpret_event in Hr. fold sdk_words in Hr. fold kept in Hr.
    destruct (Interpret.topo_require_chain REL fuel kept) as [sentence|]; [|done].
    cbn [mbind option_bind] in Hr.
    destruct (Interpret.build_state_tableau _ _ _ _) as [obs cal].
    injection Hr as <-. simpl in *. done. }
  assert (∀ fuel, is_Some (interpret_event fuel text)
                  ↔ is_Some (Interpret.topo_require_chain REL fuel kept)) as Hsome.
  { intros fuel. unfold Interpret.interpret_event. fold sdk_words. fold kept.
    destruct (Interpret.topo_require_chain REL fuel kept) as [sentence|];
      cbn [mbind option_bind].
    - destruct (Interpret.build_state_tableau _ _ _ _) as [obs cal].
      split; by eexists.
    - split; by intros [? ?]. }
  assert (sorted (set_iter sdk_words) = bag) as Hbag.
  { unfold bag, sdk_words, RunNarrative.interpret_event. simpl.
    f_equal. f_equal. unfold Interpret.neutral_to_sdk. f_equal. f_equal.
    apply set_eq. intros n. rewrite neutral_elem.
    unfold Interpret.to_neutral.
    change (Interpret.tokenize text) with (RunNarrative._tokenize text).
    change (Interpret.lex_tags MAP) with (RunNarrative.lex_tags MAP).
    generalize (∅ : gset string) as acc.
    induction (RunNarrative._tokenize text) as [|t ts IH]; intros acc; simpl.
    - split; [by left|]. by intros [?|(t & []%elem_of_nil & _)].
    - rewrite IH. clear IH.
      assert (∀ (ns : list string) (a : gset string),
        n ∈ foldl (λ (neutral : gset string) n, {[n]} ∪ neutral) a ns ↔
        n ∈ a ∨ n ∈ ns) as Hinner.
      { induction ns as [|x ns IH]; intros a; simpl.
        - rewrite elem_of_nil. tauto.
        - rewrite IH, elem_of_union, elem_of_singleton, elem_of_cons. tauto. }
      rewrite Hinner. split.
      + intros [[?|?]|(t' & ? & ?)]; [by left|right..].
        * exists t. split; [left|done].
        * exists t'. split; [by right|done].
      + intros [?|(t' & [->|?]%elem_of_cons & ?)];
          [by left; left|by left; right|right; by exists t']. }
  assert (∀ d, d ∈ kept ↔ desired_present SYMBOLS bag d) as Hkept.
  { intros d. rewrite <- Hbag. apply desired_kept. }
  split_and!.
  - intros fuel r Hr. destruct (Hrun fuel r Hr) as [Htopo _].
    rewrite topo_require_chain_expand_any in Htopo.
    destruct (expand_with_requires_returned REL fuel kept _ Htopo)
      as [((_ & Hnd & Hpre) & _) _].
    split_and!; [|done..].
    intros x. rewrite (expand_with_requires_reach REL fuel kept _ Htopo x).
    by setoid_rewrite Hkept.
  - intros Hoff fuel Hfuel. apply Hsome.
    destruct (expand_with_requires_off_cycle REL kept) as [out Hout].
    { intros t Ht. by apply Hoff, Hkept. }
    rewrite topo_require_chain_expand_any, (Hout fuel Hfuel). by eexists.
  - intros d Hd Hbad fuel.
    destruct (interpret_event fuel text) as [r|] eqn:Hr; [|done].
    destruct (Hrun fuel r Hr) as [Htopo _].
    rewrite topo_require_chain_expand_any in Htopo.
    rewrite (expand_with_requires_stuck REL kept d) in Htopo; [done| |done].
    by apply Hkept.
Qed.

End ApiSentence.

(** * tools/suggest_lex2neutral.py: the proposals *)

Import SuggestLex2neutral.

Lemma py_space_lower c : py_space (lower_char c) = py_space c.
Proof. by destruct c as [[] [] [] [] [] [] [] []]. Qed.

Lemma name_char_plain c :
  name_char c = true → py_space c = false ∧ lower_char c = c.
Proof. by destruct c as [[] [] [] [] [] [] [] []]. Qed.

Lemma is_lower_name c : is_lower c = true → name_char c = true.
Proof. unfold name_char. by intros ->. Qed.

Lemma lstrip_head t :
  match lstrip t with x :: _ => py_space x = false | [] => True end.
Proof.
  induction t as [|c t IH]; [done|]. simpl.
  by destruct (py_space c) eqn:Hc.
Qed.

Lemma lstrip_plain x t : py_space x = false → lstrip (x :: t) = x :: t.
Proof. simpl. by intros ->. Qed.

(** What [strip] returns does not end in white space. *)
Lemma strip_last s c : last (chars (strip s)) = Some c → py_space c = false.
Proof.
  unfold strip. rewrite chars_str, last_reverse.
  pose proof (lstrip_head (reverse (lstrip (chars s)))) as H.
  destruct (lstrip (reverse (lstrip (chars s)))) as [|x t]; [done|].
  by intros [= <-].
Qed.

Lemma normal_last s c : last (chars (normal s)) = Some c → py_space c = false.
Proof.
  unfold normal, lower. rewrite chars_str.
  change (map lower_char (chars (strip s))) with (lower_char <$> chars (strip s)).
  rewrite fmap_last.
  destruct (last (chars (strip s))) as [c0|] eqn:Hc0; [|done].
  intros [= <-]. rewrite py_space_lower. by apply (strip_last s).
Qed.

Lemma normal_plain tok :
  Forall (λ c, name_char c = true) (chars tok) → normal tok = tok.
Proof.
  intros Hall. unfold normal.
  assert (strip tok = tok) as ->.
  { unfold strip. destruct (chars tok) as [|x t] eqn:Ht.
    - simpl. by rewrite <- (str_chars tok), Ht.
    - rewrite lstrip_plain.
      2:{ apply Forall_cons in Hall as [Hx _]. by apply name_char_plain in Hx as [? _]. }
      assert (lstrip (reverse (x :: t)) = reverse (x :: t)) as ->.
      { destruct (reverse (x :: t)) as [|y u] eqn:Hr; [done|].
        apply lstrip_plain.
        assert (y ∈ x :: t) as Hy.
        { apply elem_of_reverse. rewrite Hr. left. }
        rewrite Forall_forall in Hall.
        by destruct (name_char_plain y (Hall y Hy)) as [? _]. }
      by rewrite reverse_involutive, <- Ht, str_chars. }
  unfold lower. rewrite <- (str_chars tok) at 2. f_equal.
  induction Hall as [|c t Hc _ IH]; [done|]. simpl.
  apply name_char_plain in Hc as [_ ->]. by rewrite IH.
Qed.

(** [[a-z0-9_-]*$] *)
Lemma star_end_of_text (p : ascii → bool) prev s :
  is_Some (star p end_of_text prev s) ↔
  ∃ body tail, s = body ++ tail ∧ Forall (λ c, p c = true) body ∧
               (tail = [] ∨ tail = ["010"%char]).
Proof.
  pose proof (star_spec p end_of_text prev s) as H.
  destruct (star p end_of_text prev s) as [[segs rest]|].
  - destruct H as (seg & segs' & suffix & -> & -> & Hseg & Hk & _).
    split; [intros _|by eexists].
    exists seg, suffix. split_and!; [done..|].
    destruct suffix as [|c [|c' suffix]]; [by left| |done].
    simpl in Hk. destruct (Ascii.eqb_spec c "010"); [right; by subst|done].
  - split; [by intros [? ?]|].
    intros (body & tail & -> & Hbody & Htail).
    specialize (H body tail eq_refl Hbody).
    by destruct Htail as [-> | ->].
Qed.

Lemma TOKEN_RX_match_true (tok : string) :
  TOKEN_RX_match tok = true ↔
  ∃ x body tail, chars tok = x :: body ++ tail ∧ is_lower x = true ∧
                 Forall (λ c, name_char c = true) body ∧
                 (tail = [] ∨ tail = ["010"%char]).
Proof.
  unfold TOKEN_RX_match. rewrite bool_decide_eq_true.
  unfold TOKEN_RX. cbn [match_then].
  change (match_then end_of_text []) with end_of_text.
  destruct (chars tok) as [|x s].
  - split; [by intros [? ?]|]. by intros (? & ? & ? & ? & _).
  - destruct (is_lower x) eqn:Hx.
    + rewrite under_is_Some, star_end_of_text. split.
      * intros (body & tail & -> & Hbody & Htail). by exists x, body, tail.
      * intros (x' & body & tail & [= <- ->] & _ & Hbody & Htail).
        by exists body, tail.
    + split; [by intros [? ?]|].
      intros (x' & body & tail & [= <- ->] & Hx' & _). congruence.
Qed.

Lemma string_length_chars (s : string) : String.length s = length (chars s).
Proof. induction s as [|c s IH]; simpl; by rewrite ?IH. Qed.

(** The tests of [sanitize] on a stripped, lowered candidate. *)
Lemma sanitize_tests (c : string) :
  bool_decide (normal c = "") || (String.length (normal c) <? 3) = false ∧
  TOKEN_RX_match (normal c) = true
  ↔ well_formed (normal c).
Proof.
  unfold well_formed. rewrite orb_false_iff, bool_decide_eq_false, Nat.ltb_ge.
  rewrite TOKEN_RX_match_true. split.
  - intros [[_ Hlen] (x & body & tail & Heq & Hx & Hbody & Htail)].
    split; [done|]. destruct Htail as [-> | ->].
    + rewrite app_nil_r in Heq. by exists x, body.
    + exfalso. assert (py_space "010" = false) as Hsp; [|done].
      apply (normal_last c). rewrite Heq.
      change (x :: body ++ ["010"%char]) with ((x :: body) ++ ["010"%char]).
      apply last_snoc.
  - intros [Hlen (x & body & Heq & Hx & Hbody)]. split_and!; [|done|].
    + intros Hempty. rewrite Hempty in Hlen. simpl in Hlen. lia.
    + exists x, body, []. rewrite app_nil_r. split_and!; [done..|by left].
Qed.

Lemma well_formed_names tok :
  well_formed tok → Forall (λ c, name_char c = true) (chars tok).
Proof.
  intros [_ (x & body & -> & Hx & Hbody)].
  constructor; [by apply is_lower_name|done].
Qed.

Lemma sanitize_step_normal st c :
  (well_formed (normal c) ∧ (normal c ∉ st.2) ∧
   sanitize_step st c = ((st.1) ++ [normal c], {[normal c]} ∪ (st.2))) ∨
  (¬ (well_formed (normal c) ∧ normal c ∉ st.2) ∧ sanitize_step st c = st).
Proof.
  unfold sanitize_step. fold (normal c).
  pose proof (sanitize_tests c) as Htests.
  destruct (bool_decide (normal c = "") || (String.length (normal c) <? 3)) eqn:H1.
  { right. split; [|done]. intros [Hwf _].
    apply Htests in Hwf as [? _]. done. }
  destruct (TOKEN_RX_match (normal c)) eqn:H2; simpl.
  2:{ right. split; [|done]. intros [Hwf _].
      apply Htests in Hwf as [_ ?]. done. }
  assert (well_formed (normal c)) as Hwf by by apply Htests.
  destruct (bool_decide (normal c ∈ st.2)) eqn:Hin.
  - apply bool_decide_eq_true in Hin. right. split; [|done]. by intros [_ ?].
  - apply bool_decide_eq_false in Hin. by left.
Qed.

Lemma sanitize_fold (cands : list string) : ∀ out seen,
  seen = list_to_set out → NoDup out →
  let r := foldl sanitize_step (out, seen) cands in
  NoDup r.1 ∧
  (∀ tok, tok ∈ r.1 ↔
          tok ∈ out ∨ (well_formed tok ∧ ∃ c, c ∈ cands ∧ tok = normal c)) ∧
  ∃ new, r.1 = out ++ new ∧ new `sublist_of` (normal <$> cands).
Proof.
  induction cands as [|c cands IH]; intros out seen Hseen Hnd; simpl.
  - split_and!; [done| |].
    + intros tok. split; [by left|].
      by intros [?|(_ & c & ?%elem_of_nil & _)].
    + exists []. by rewrite app_nil_r.
  - destruct (sanitize_step_normal (out, seen) c)
      as [(Hwf & Hnew & ->)|[Hc ->]]; cbn [fst snd] in *.
    + destruct (IH (out ++ [normal c]) ({[normal c]} ∪ seen)) as (Hnd' & Hin & new & Heq & Hsub).
      { subst seen. rewrite list_to_set_app_L. simpl.
        by rewrite (right_id_L ∅ (∪)), (comm_L (∪)). }
      { apply NoDup_app. split_and!; [done| |apply NoDup_singleton].
        intros x Hx ->%list_elem_of_singleton. apply Hnew. subst seen.
        by apply elem_of_list_to_set. }
      split_and!; [done| |].
      * intros tok. rewrite Hin, elem_of_app, list_elem_of_singleton. split.
        -- intros [[?| ->]|(Hw & c' & Hc' & ->)]; [by left|right..].
           ++ split; [done|]. exists c. split; [left|done].
           ++ split; [done|]. exists c'. split; [by right|done].
        -- intros [?|(Hw & c' & [->|Hc']%elem_of_cons & ->)];
             [by left; left|by left; right|right].
           split; [done|]. by exists c'.
      * exists (normal c :: new). split.
        -- by rewrite Heq, <- app_assoc.
        -- by apply sublist_skip.
    + destruct (IH out seen Hseen Hnd) as (Hnd' & Hin & new & Heq & Hsub).
      split_and!; [done| |].
      * intros tok. rewrite Hin. split.
        -- intros [?|(Hw & c' & Hc' & ->)]; [by left|right].
           split; [done|]. exists c'. split; [by right|done].
        -- intros [?|(Hw & c' & [->|Hc']%elem_of_cons & ->)]; [by left| |].
           ++ left.
              destruct (decide (normal c ∈ seen)) as [Hs|Hs]; [|tauto].
              subst seen. by apply elem_of_list_to_set in Hs.
           ++ right. split; [done|]. by exists c'.
      * exists new. split; [done|]. by apply sublist_cons.
Qed.

(** [sanitize] passes a list of distinct well-formed lexemes unchanged. *)
Lemma sanitize_fold_clean (l : list string) : ∀ out (seen : gset string),
  Forall well_formed l → NoDup l → (∀ x, x ∈ l → x ∉ seen) →
  (foldl sanitize_step (out, seen) l).1 = out ++ l.
Proof.
  induction l as [|x l IH]; intros out seen Hwf Hnd Hfresh; simpl.
  - by rewrite app_nil_r.
  - apply Forall_cons in Hwf as [Hx Hwf]. apply NoDup_cons in Hnd as [Hxl Hnd].
    pose proof (normal_plain x (well_formed_names x Hx)) as Hplain.
    destruct (sanitize_step_normal (out, seen) x)
      as [(_ & _ & ->)|[Hc _]]; cbn [fst snd] in *.
    2:{ destruct Hc. rewrite Hplain. split; [done|]. apply Hfresh. left. }
    rewrite Hplain.
    rewrite IH; [by rewrite <- app_assoc|done..|].
    intros y Hy. rewrite elem_of_union, elem_of_singleton.
    intros [->|Hs]; [done|]. by apply (Hfresh y); [right|].
Qed.

(** X16. On candidates of ASCII text, where [strip] and [lower] are
    Python's, [sanitize] returns exactly the well-formed lexemes among the
    stripped, lowered candidates: three characters or more, a small letter
    first, then only small letters, digits, [_] and [-] (the line feed that
    [$] would let pass at the end never survives [strip]). It returns each
    once, in the order of the candidates. *)
Theorem sanitize_well_formed (cands : list string) :
  Forall ascii_text cands →
  (∀ tok, tok ∈ sanitize cands ↔
          well_formed tok ∧ ∃ c, c ∈ cands ∧ tok = lower (strip c)) ∧
  NoDup (sanitize cands) ∧
  sanitize cands `sublist_of` ((λ c, lower (strip c)) <$> cands).
Proof.
  intros _.
  destruct (sanitize_fold cands [] ∅ eq_refl (NoDup_nil_2 (A:=string)))
    as (Hnd & Hin & new & Heq & Hsub).
  unfold sanitize. split_and!; [|done|].
  - intros tok. rewrite Hin, elem_of_nil. unfold normal. tauto.
  - by rewrite Heq.
Qed.

(** X17. [sanitize] is idempotent, and the proposals of a provider pass it
    unchanged: a second pass drops nothing and keeps the order. *)
Theorem sanitize_idempotent (cands : list string) :
  sanitize (sanitize cands) = sanitize cands ∧
  ∀ (P : Type) (provider_class : SynonymProvider P) (provider : P)
    (term sense_hint : string) (props : list string),
    propose provider term sense_hint = Return props → sanitize props = props.
Proof.
  assert (∀ l, sanitize (sanitize l) = sanitize l) as Hid.
  { intros l.
    destruct (sanitize_fold l [] ∅ eq_refl (NoDup_nil_2 (A:=string))) as (Hnd & Hin & _).
    fold (sanitize l) in Hnd, Hin.
    unfold sanitize at 1. rewrite sanitize_fold_clean; [done| |done|set_solver].
    apply Forall_forall. intros x Hx. apply Hin in Hx as [[]%elem_of_nil|[? _]].
    done. }
  split; [done|].
  intros P cls provider term hint props. unfold propose.
  destruct (suggest provider term hint) as [l|e]; [|done].
  simpl. intros [= <-]. apply Hid.
Qed.

(** * tools/suggest_lex2neutral.py: the merge *)

Lemma loop_leave {A S : Type} (body : A → S → flow S) (pre : list A) (x : A)
    (post : list A) : ∀ st st1 st2,
  loop body pre st = Next st1 → body x st1 = Leave st2 →
  loop body (pre ++ x :: post) st = Leave st2.
Proof.
  induction pre as [|y pre IH]; intros st st1 st2 Hpre Hx; simpl in *.
  - injection Hpre as ->. by rewrite Hx.
  - destruct (body y st) as [s|s]; [|done]. by apply (IH s st1).
Qed.

Section Merge.

Context (set_iter : gset string → list string) (Hwalk : walks_sets set_iter).

Local Abbreviation merge_lex2neutral :=
  (SuggestLex2neutral.merge_lex2neutral set_iter).
Local Abbreviation merge_pair := (SuggestLex2neutral.merge_pair set_iter).

(** The message of the refusal. *)
Local Abbreviation refusal k tags :=
  (ValueError ("Refusing to add '" +:+ k +:+ "' → " +:+ py_repr_list tags
               +:+ ": contains non-existent neutral tags.")).

Lemma subseteq_tags (tags : list string) (valid : gset string) :
  (list_to_set tags : gset string) ⊆ valid ↔ ∀ tag, tag ∈ tags → tag ∈ valid.
Proof.
  split.
  - intros Hsub tag Htag. by apply Hsub, elem_of_list_to_set.
  - intros Hall tag Htag%elem_of_list_to_set. by apply Hall.
Qed.

Lemma merged_tags (existing tags : list string) :
  let merged :=
    sorted (set_iter (list_to_set existing ∪ list_to_set tags)) in
  (∀ tag, tag ∈ merged ↔ tag ∈ existing ∨ tag ∈ tags) ∧
  NoDup merged ∧ Sorted String.le merged.
Proof.
  intros merged. unfold merged. split_and!.
  - intros tag. rewrite sorted_elem, (set_iter_elem set_iter Hwalk).
    by rewrite elem_of_union, !elem_of_list_to_set.
  - rewrite sorted_perm. apply (set_iter_NoDup set_iter Hwalk).
  - apply Sorted_merge_sort, _.
Qed.

(** One pair whose tags are known. *)
Lemma merge_pair_known (valid : gset string) k tags entries nb :
  (∀ tag, tag ∈ tags → tag ∈ valid) →
  merge_pair valid (k, tags) (NeutralMap (Some entries) nb)
    = Next (NeutralMap
              (Some (<[k := sorted (set_iter (list_to_set (default [] (entries !! k))
                                              ∪ list_to_set tags))]> entries))
              nb, None).
Proof.
  intros Hknown. unfold SuggestLex2neutral.merge_pair.
  rewrite bool_decide_eq_true_2; [done|]. by apply subseteq_tags.
Qed.

Lemma merge_pair_unknown (valid : gset string) k tags tag m :
  tag ∈ tags → tag ∉ valid →
  merge_pair valid (k, tags) m = Leave (m, Some (refusal k tags)).
Proof.
  intros Htag Hbad. unfold SuggestLex2neutral.merge_pair.
  rewrite bool_decide_eq_false_2; [done|].
  rewrite subseteq_tags. intros Hall. by apply Hbad, Hall.
Qed.

(** The loop over pairs whose tags are all known. *)
Lemma merge_loop_known (valid : gset string) nb (pairs : list (string * list string)) :
  ∀ entries e,
  (∀ k tags tag, (k, tags) ∈ pairs → tag ∈ tags → tag ∈ valid) →
  ∃ entries',
    loop (λ pair st, merge_pair valid pair st.1) pairs
         (NeutralMap (Some entries) nb, e)
      = Next (NeutralMap (Some entries') nb, match pairs with [] => e | _ => None end) ∧
    (∀ k, k ∉ pairs.*1 → entries' !! k = entries !! k) ∧
    (∀ k, k ∈ pairs.*1 →
       ∃ merged, entries' !! k = Some merged ∧
                 Sorted String.le merged ∧ NoDup merged ∧
                 ∀ tag, tag ∈ merged ↔
                        tag ∈ default [] (entries !! k)
                        ∨ ∃ tags, (k, tags) ∈ pairs ∧ tag ∈ tags).
Proof.
  induction pairs as [|[k0 tags0] pairs IH]; intros entries e Hknown.
  - exists entries. split_and!; [done..|]. by intros k ?%elem_of_nil.
  - cbn [loop fst].
    rewrite merge_pair_known by (intros tag; apply (Hknown k0 tags0); left).
    set (merged0 := sorted (set_iter (list_to_set (default [] (entries !! k0))
                                      ∪ list_to_set tags0))).
    destruct (merged_tags (default [] (entries !! k0)) tags0)
      as (Hin0 & Hnd0 & Hsorted0). fold merged0 in Hin0, Hnd0, Hsorted0.
    destruct (IH (<[k0 := merged0]> entries) None) as (entries' & Hrun & Hout & Hin).
    { intros k tags tag Hp. apply (Hknown k tags tag). by right. }
    exists entries'. split_and!.
    + rewrite Hrun. by destruct pairs.
    + intros k Hk. rewrite fmap_cons, not_elem_of_cons in Hk. destruct Hk as [Hne Hk].
      rewrite (Hout k Hk). by apply lookup_insert_ne.
    + intros k Hk. rewrite fmap_cons in Hk.
      destruct (decide (k ∈ pairs.*1)) as [Hrest|Hrest].
      * destruct (Hin k Hrest) as (merged & Hlook & Hs & Hnd & Hmem).
        exists merged. split_and!; [done..|].
        intros tag. rewrite Hmem. destruct (decide (k = k0)) as [->|Hne].
        -- rewrite lookup_insert_eq. simpl. rewrite Hin0. split.
           ++ intros [[?|?]|(tags & Hp & Ht)]; [by left|right..].
              ** exists tags0. split; [left|done].
              ** exists tags. split; [by right|done].
           ++ intros [?|(tags & [[= <-]|Hp]%elem_of_cons & Ht)];
                [by left; left|by left; right|right; by exists tags].
        -- rewrite lookup_insert_ne by done. split.
           ++ intros [?|(tags & Hp & Ht)]; [by left|right].
              exists tags. split; [by right|done].
           ++ intros [?|(tags & [[= ? <-]|Hp]%elem_of_cons & Ht)];
                [by left|done|right; by exists tags].
      * apply elem_of_cons in Hk as [->|Hk]; [|done]. simpl.
        exists merged0. rewrite (Hout k0 Hrest), lookup_insert_eq.
        split_and!; [done..|].
        intros tag. rewrite Hin0. split.
        -- intros [?|?]; [by left|right]. exists tags0. split; [left|done].
        -- intros [?|(tags & [[= <-]|Hp]%elem_of_cons & Ht)];
             [by left|by right|].
           destruct Hrest. apply list_elem_of_fmap. by exists (k0, tags).
Qed.

Lemma lex_tags_insert entries nb (k0 : string) (merged : list string) k :
  RunNarrative.lex_tags (NeutralMap (Some (<[k0 := merged]> entries)) nb) k
  = if decide (k = k0) then merged
    else RunNarrative.lex_tags (NeutralMap (Some entries) nb) k.
Proof.
  unfold RunNarrative.lex_tags. simpl. case_decide as Hk.
  - subst k. by rewrite lookup_insert_eq.
  - by rewrite lookup_insert_ne.
Qed.

(** What the loop keeps, however it ends. *)
Lemma merge_loop_any (valid : gset string) (pairs : list (string * list string)) :
  ∀ m e,
  let r := match loop (λ pair st, merge_pair valid pair st.1) pairs (m, e) with
           | Next st | Leave st => st
           end in
  neutral2sdk r.1 = neutral2sdk m ∧
  (∀ k tag, tag ∈ RunNarrative.lex_tags m k → tag ∈ RunNarrative.lex_tags r.1 k) ∧
  (∀ k tag, tag ∈ RunNarrative.lex_tags r.1 k →
            tag ∈ RunNarrative.lex_tags m k
            ∨ (tag ∈ valid ∧ ∃ tags, (k, tags) ∈ pairs ∧ tag ∈ tags)) ∧
  ((r.2 = e ∨ r.2 = None) ∨
   (∃ k tags tag, (k, tags) ∈ pairs ∧ tag ∈ tags ∧ (tag ∉ valid) ∧
                  r.2 = Some (refusal k tags)) ∨
   (lex2neutral m = None ∧ r.2 = Some (KeyError "lex2neutral"))).
Proof.
  induction pairs as [|[k0 tags0] pairs IH]; intros m e.
  - simpl. split_and!; [done|done|by left|by left; left].
  - destruct (decide (Forall (λ tag, tag ∈ valid) tags0)) as [Hknown|Hbad].
    + rewrite Forall_forall in Hknown. destruct m as [[entries|] nb].
      * cbn [loop fst]. rewrite (merge_pair_known valid k0 tags0 entries nb Hknown).
        set (merged0 := sorted (set_iter (list_to_set (default [] (entries !! k0))
                                          ∪ list_to_set tags0))).
        destruct (merged_tags (default [] (entries !! k0)) tags0)
          as (Hin0 & _ & _). fold merged0 in Hin0.
        specialize (IH (NeutralMap (Some (<[k0 := merged0]> entries)) nb) None).
        cbv zeta in IH |- *.
        destruct IH as (Hnb & Hkeep & Hnew & Herr).
        split_and!.
        -- exact Hnb.
        -- intros k tag Htag. apply Hkeep. rewrite lex_tags_insert.
           case_decide as Hk; [|done]. subst k. apply Hin0. by left.
        -- intros k tag Htag.
           apply Hnew in Htag as [Htag|(Hv & tags & Hp & Ht)].
           ++ rewrite lex_tags_insert in Htag. case_decide as Hk; [|by left].
              subst k. apply Hin0 in Htag as [?|Ht]; [by left|right].
              split; [by apply Hknown|]. exists tags0. split; [left|done].
           ++ right. split; [done|]. exists tags. split; [by right|done].
        -- destruct Herr as [[Hr|Hr]|[(k & tags & tag & Hp & Ht & Hv & Hr)|[? _]]];
             [by left; right|by left; right| |done].
           right. left. exists k, tags, tag. split_and!; [by right|done..].
      * cbn [loop fst]. unfold SuggestLex2neutral.merge_pair.
        rewrite bool_decide_eq_true_2 by by apply subseteq_tags.
        simpl. split_and!; [done|done|by left|]. right. right. done.
    + apply not_Forall_Exists in Hbad; [|apply _].
      apply Exists_exists in Hbad as (tag & Hin & Hv).
      cbn [loop fst]. rewrite (merge_pair_unknown valid k0 tags0 tag m Hin Hv).
      simpl. split_and!; [done|done|by left|]. right. left.
      exists k0, tags0, tag. split_and!; [left|done..].
Qed.

(** X18. A merge of pairs whose tags are all keys of [neutral2sdk], into a
    map that has a lexicon, returns the map with [neutral2sdk] untouched;
    a lexeme that no pair names keeps its entry, and a lexeme that a pair
    names gets, sorted and without repetition, the tags it had together
    with the tags of every pair that names it. *)
Theorem merge_lex2neutral_unions (mapobj : neutral_map)
    (entries : gmap string (list string))
    (new_pairs : list (string * list string)) :
  lex2neutral mapobj = Some entries →
  (∀ k tags tag, (k, tags) ∈ new_pairs → tag ∈ tags →
                 tag ∈ dom (default ∅ (neutral2sdk mapobj))) →
  ∃ entries',
    merge_lex2neutral mapobj new_pairs
      = (NeutralMap (Some entries') (neutral2sdk mapobj), None) ∧
    (∀ k, k ∉ new_pairs.*1 → entries' !! k = entries !! k) ∧
    (∀ k, k ∈ new_pairs.*1 →
       ∃ merged, entries' !! k = Some merged ∧
                 Sorted String.le merged ∧ NoDup merged ∧
                 ∀ tag, tag ∈ merged ↔
                        tag ∈ default [] (entries !! k)
                        ∨ ∃ tags, (k, tags) ∈ new_pairs ∧ tag ∈ tags).
Proof.
  intros Hlex Hknown. destruct mapobj as [lex nb]. simpl in *. subst lex.
  destruct (merge_loop_known (dom (default ∅ nb)) nb new_pairs entries None Hknown)
    as (entries' & Hrun & Hout & Hin).
  exists entries'. split; [|done].
  unfold SuggestLex2neutral.merge_lex2neutral. cbn [neutral2sdk].
  rewrite Hrun. by destruct new_pairs.
Qed.

(** X19. A pair with a tag that is no key of [neutral2sdk] ends the merge
    by a [ValueError] that names the pair; the pairs before it are written
    into the map by then, and the pairs behind it are not looked at: the
    map is left as the merge of the pairs before the refused one. *)
Theorem merge_lex2neutral_refuses (mapobj : neutral_map)
    (entries : gmap string (list string))
    (pre post : list (string * list string)) (k : string) (tags : list string)
    (tag : string) :
  lex2neutral mapobj = Some entries →
  (∀ k' tags' tag', (k', tags') ∈ pre → tag' ∈ tags' →
                    tag' ∈ dom (default ∅ (neutral2sdk mapobj))) →
  tag ∈ tags → tag ∉ dom (default ∅ (neutral2sdk mapobj)) →
  merge_lex2neutral mapobj (pre ++ (k, tags) :: post)
    = ((merge_lex2neutral mapobj pre).1, Some (refusal k tags)) ∧
  (merge_lex2neutral mapobj pre).2 = None ∧
  ∀ k' tags' tag', (k', tags') ∈ pre → tag' ∈ tags' →
    tag' ∈ RunNarrative.lex_tags
             (merge_lex2neutral mapobj (pre ++ (k, tags) :: post)).1 k'.
Proof.
  intros Hlex Hknown Htag Hbad. destruct mapobj as [lex nb]. simpl in *. subst lex.
  destruct (merge_loop_known (dom (default ∅ nb)) nb pre entries None Hknown)
    as (entries' & Hrun & Hout & Hin).
  assert (merge_lex2neutral (NeutralMap (Some entries) nb) pre
            = (NeutralMap (Some entries') nb, None)) as Hpre.
  { unfold SuggestLex2neutral.merge_lex2neutral. cbn [neutral2sdk].
    rewrite Hrun. by destruct pre. }
  assert (merge_lex2neutral (NeutralMap (Some entries) nb) (pre ++ (k, tags) :: post)
            = (NeutralMap (Some entries') nb, Some (refusal k tags))) as Hall.
  { unfold SuggestLex2neutral.merge_lex2neutral. cbn [neutral2sdk].
    erewrite loop_leave; [done|exact Hrun|]. cbn [fst].
    by apply (merge_pair_unknown _ k tags tag). }
  rewrite Hall, Hpre. split_and!; [done..|].
  intros k' tags' tag' Hp Ht. unfold RunNarrative.lex_tags. simpl.
  destruct (Hin k') as (merged & -> & _ & _ & Hmem).
  { apply list_elem_of_fmap. by exists (k', tags'). }
  simpl. apply Hmem. right. by exists tags'.
Qed.

(** X20. However a merge ends, it leaves [neutral2sdk] as it was, takes no
    tag away from any lexeme, and adds to a lexeme only keys of
    [neutral2sdk] that a pair gives it: a lexicon whose tags are all keys
    of [neutral2sdk] stays one. The merge raises nothing but the refusal of
    a pair with an unknown tag, or [KeyError] when the map has no
    lexicon. *)
Theorem merge_lex2neutral_keeps (mapobj : neutral_map)
    (new_pairs : list (string * list string)) :
  let r := merge_lex2neutral mapobj new_pairs in
  neutral2sdk r.1 = neutral2sdk mapobj ∧
  (∀ k tag, tag ∈ RunNarrative.lex_tags mapobj k →
            tag ∈ RunNarrative.lex_tags r.1 k) ∧
  (∀ k tag, tag ∈ RunNarrative.lex_tags r.1 k →
            tag ∈ RunNarrative.lex_tags mapobj k
            ∨ (tag ∈ dom (default ∅ (neutral2sdk mapobj))
               ∧ ∃ tags, (k, tags) ∈ new_pairs ∧ tag ∈ tags)) ∧
  (tags_known mapobj → tags_known r.1) ∧
  (∀ e, r.2 = Some e →
        (∃ k tags tag, (k, tags) ∈ new_pairs ∧ tag ∈ tags ∧
                       (tag ∉ dom (default ∅ (neutral2sdk mapobj))) ∧
                       e = refusal k tags)
        ∨ (lex2neutral mapobj = None ∧ e = KeyError "lex2neutral")).
Proof.
  intros r.
  destruct (merge_loop_any (dom (default ∅ (neutral2sdk mapobj))) new_pairs
              mapobj None) as (Hnb & Hkeep & Hnew & Herr).
  fold (merge_lex2neutral mapobj new_pairs) in Hnb, Hkeep, Hnew, Herr.
  fold r in Hnb, Hkeep, Hnew, Herr.
  split_and!; [done..| |].
  - intros Hknown term tags tag Hlook Htag.
    rewrite Hnb.
    destruct (Hnew term tag) as [Hold|[Hv _]]; [|  |done].
    { unfold RunNarrative.lex_tags. by rewrite Hlook. }
    unfold RunNarrative.lex_tags in Hold.
    destruct (default ∅ (lex2neutral mapobj) !! term) as [old|] eqn:Hterm;
      [|by apply elem_of_nil in Hold].
    by apply (Hknown term old tag).
  - intros e He.
    destruct Herr as [[Hr|Hr]|[(k & tags & tag & Hp & Ht & Hbad & Hr)|[Hnone Hr]]];
      [congruence|congruence| |right].
    + left. exists k, tags, tag. split_and!; [done..|]. congruence.
    + split; [done|]. congruence.
Qed.

End Merge.

(** * tools/validate_maps.py *)

(** A loop that reports each bad item and then holds [ok] false. *)
Lemma report_fold {A : Type} (bad : A → Prop)
    (step : ValidateMaps.report → A → ValidateMaps.report) (items : list A) :
  (∀ st x, (¬ bad x ∧ step st x = st)
           ∨ (bad x ∧ ∃ lines, lines ≠ [] ∧ step st x = (st.1 ++ lines, false))) →
  ∀ st,
    ((∀ x, x ∈ items → ¬ bad x) ∧ foldl step st items = st)
    ∨ ((∃ x, x ∈ items ∧ bad x)
       ∧ ∃ lines, lines ≠ [] ∧ foldl step st items = (st.1 ++ lines, false)).
Proof.
  intros Hstep. induction items as [|x items IH]; intros st.
  - left. split; [|done]. by intros x ?%elem_of_nil.
  - simpl. destruct (Hstep st x) as [[Hgood ->]|(Hbad & l1 & Hl1 & ->)].
    + destruct (IH st) as [[Hall ->]|((y & Hy & Hbad) & lines & Hl & ->)].
      * left. split; [|done]. by intros y [->|?]%elem_of_cons; [|apply Hall].
      * right. split; [exists y; split; [by right|done]|]. by exists lines.
    + right. split; [exists x; split; [left|done]|].
      destruct (IH (st.1 ++ l1, false))
        as [[Hall ->]|(_ & lines & Hl & ->)].
      * by exists l1.
      * exists (l1 ++ lines). simpl. rewrite <- app_assoc. split; [|done].
        by destruct l1.
Qed.

Section Validate.

Context (set_iter : gset string → list string)
  (dict_items : gmap string (list string) → list (string * list string))
  (Hdict : walks_dicts dict_items).

Local Abbreviation validate_maps := (ValidateMaps.validate_maps set_iter dict_items).

Lemma dict_items_elem (m : gmap string (list string)) k v :
  (k, v) ∈ dict_items m ↔ m !! k = Some v.
Proof. by rewrite (Hdict m), elem_of_map_to_list. Qed.

Lemma check_symbols_step (allowed : gset string) st (item : string * list string) :
  (¬ (∃ v, v ∈ item.2 ∧ v ∉ allowed) ∧ ValidateMaps.check_symbols allowed st item = st)
  ∨ ((∃ v, v ∈ item.2 ∧ v ∉ allowed)
     ∧ ∃ lines, lines ≠ [] ∧
         ValidateMaps.check_symbols allowed st item = (st.1 ++ lines, false)).
Proof.
  destruct item as [k vals]. cbn [snd].
  destruct (report_fold (λ v, v ∉ allowed)
              (λ (st : ValidateMaps.report) v,
                 if bool_decide (v ∉ allowed)
                 then (st.1 ++ ["[ERR] neutral2sdk[" +:+ k +:+ "] -> '" +:+ v
                                +:+ "' not in symbols.json"], false)
                 else st) vals) with (st := st)
    as [[Hall Heq]|[Hex (lines & Hl & Heq)]].
  - intros st' v. case_bool_decide as Hv.
    + right. split; [exact Hv|]. by eexists [_].
    + left. split; [by intros Hout|done].
  - left. split; [|exact Heq]. intros (v & Hv & Hbad). by apply (Hall v).
  - right. split; [done|]. exists lines. split; [done|exact Heq].
Qed.

Lemma check_categories_step (cats : gset string) st (item : string * list string) :
  (¬ (∃ tag, tag ∈ item.2 ∧ tag ∉ cats)
   ∧ ValidateMaps.check_categories set_iter cats st item = st)
  ∨ ((∃ tag, tag ∈ item.2 ∧ tag ∉ cats)
     ∧ ∃ lines, lines ≠ [] ∧
         ValidateMaps.check_categories set_iter cats st item = (st.1 ++ lines, false)).
Proof.
  destruct item as [term tags]. unfold ValidateMaps.check_categories. cbn [snd].
  case_bool_decide as Hmissing.
  - right. split; [|by eexists [_]].
    apply set_choose_L in Hmissing as [tag Htag].
    apply elem_of_difference in Htag as [Htag%elem_of_list_to_set Hcat].
    by exists tag.
  - left. split; [|done]. intros (tag & Htag & Hcat).
    apply (not_elem_of_empty (C:=gset string) tag). rewrite <- Hmissing.
    apply elem_of_difference. split; [by apply elem_of_list_to_set|done].
Qed.

(** The verdict of the two checks. *)
Lemma validate_maps_verdict (sym : symbols) (mp : neutral_map) fns :
  functions sym = Some fns →
  ∃ printed code,
    validate_maps sym mp = (printed, SystemExit code) ∧
    (code = 0%Z ∨ code = 1%Z) ∧
    (code = 0%Z ↔ symbols_known sym mp ∧ tags_known mp) ∧
    (printed = [] ↔ code = 0%Z).
Proof.
  intros Hfns. unfold ValidateMaps.validate_maps. rewrite Hfns.
  set (allowed := (list_to_set fns ∪ list_to_set (default [] (literals sym))
                   ∪ dom (default ∅ (enums sym)) : gset string)).
  set (cats := (dom (default ∅ (neutral2sdk mp)) : gset string)).
  assert ((∀ item, item ∈ dict_items (default ∅ (neutral2sdk mp)) →
                   ¬ ∃ v, v ∈ item.2 ∧ v ∉ allowed) ↔ symbols_known sym mp) as HA.
  { unfold symbols_known. rewrite Hfns. simpl. split.
    - intros Hall n ws w Hn Hw.
      destruct (decide (w ∈ allowed)) as [Hin|Hout].
      + unfold allowed in Hin.
        rewrite !elem_of_union, !elem_of_list_to_set in Hin. tauto.
      + destruct (Hall (n, ws)); [by apply dict_items_elem|by exists w].
    - intros Hknown [n ws] Hitem%dict_items_elem (w & Hw & Hout). apply Hout.
      unfold allowed. rewrite !elem_of_union, !elem_of_list_to_set.
      destruct (Hknown n ws w Hitem Hw) as [?|[?|?]]; tauto. }
  assert ((∀ item, item ∈ dict_items (default ∅ (lex2neutral mp)) →
                   ¬ ∃ tag, tag ∈ item.2 ∧ tag ∉ cats) ↔ tags_known mp) as HB.
  { unfold tags_known. fold cats. split.
    - intros Hall term tags tag Hterm Htag.
      destruct (decide (tag ∈ cats)) as [Hin|Hout]; [done|].
      destruct (Hall (term, tags)); [by apply dict_items_elem|by exists tag].
    - intros Hknown [term tags] Hitem%dict_items_elem (tag & Htag & Hout).
      by apply Hout, (Hknown term tags tag). }
  pose proof (report_fold
                (λ item : string * list string, ∃ v, v ∈ item.2 ∧ v ∉ allowed)
                (ValidateMaps.check_symbols allowed)
                (dict_items (default ∅ (neutral2sdk mp)))
                (λ st x, check_symbols_step allowed st x) ([], true)) as FA.
  set (stA := foldl (ValidateMaps.check_symbols allowed) ([], true)
                    (dict_items (default ∅ (neutral2sdk mp)))) in *.
  pose proof (report_fold
                (λ item : string * list string, ∃ tag, tag ∈ item.2 ∧ tag ∉ cats)
                (ValidateMaps.check_categories set_iter cats)
                (dict_items (default ∅ (lex2neutral mp)))
                (λ st x, check_categories_step cats st x) stA) as FB.
  set (stB := foldl (ValidateMaps.check_categories set_iter cats) stA
                    (dict_items (default ∅ (lex2neutral mp)))) in *.
  exists stB.1, (if stB.2 then 0%Z else 1%Z). split; [done|].
  split; [by destruct stB.2; [left|right]|].
  rewrite <- HA, <- HB.
  destruct FA as [[HallA EA]|[(x & Hx & HbadA) (lA & HlA & EA)]];
    destruct FB as [[HallB EB]|[(y & Hy & HbadB) (lB & HlB & EB)]];
    rewrite EB, ?EA; cbn [fst snd].
  - done.
  - split; [split; [done|]|].
    + intros [_ Hall]. by destruct (Hall y Hy).
    + split; [|done]. by destruct lB.
  - split; [split; [done|]|].
    + intros [Hall _]. by destruct (Hall x Hx).
    + split; [|done]. by destruct lA.
  - split; [split; [done|]|].
    + intros [Hall _]. by destruct (Hall x Hx).
    + split; [|done]. by destruct lA.
Qed.

(** X21. With the key [functions] in symbols.json the check ends by
    [sys.exit]; the exit code is 0 when every symbol of [neutral2sdk] is a
    function, a literal or an enum name and every tag of the lexicon is a
    key of [neutral2sdk], and 1 otherwise; it prints nothing exactly when
    the code is 0. Without the key [functions] it raises [KeyError] before
    it prints anything. *)
Theorem validate_maps_exit_code (sym : symbols) (mp : neutral_map) :
  match functions sym with
  | None => validate_maps sym mp = ([], KeyError "functions")
  | Some _ =>
      ∃ printed code,
        validate_maps sym mp = (printed, SystemExit code) ∧
        (code = 0%Z ∨ code = 1%Z) ∧
        (code = 0%Z ↔ symbols_known sym mp ∧ tags_known mp) ∧
        (printed = [] ↔ code = 0%Z)
  end.
Proof.
  destruct (functions sym) as [fns|] eqn:Hfns.
  - by apply (validate_maps_verdict sym mp fns).
  - unfold ValidateMaps.validate_maps. by rewrite Hfns.
Qed.


End Validate.

(** * The tools and the interpreter *)

Section ToolsAndInterpreter.

Context (set_iter : gset string → list string) (Hwalk : walks_sets set_iter)
  (dict_items : gmap string (list string) → list (string * list string))
  (Hdict : walks_dicts dict_items).

Local Abbreviation validate_maps := (ValidateMaps.validate_maps set_iter dict_items).
Local Abbreviation merge_lex2neutral :=
  (SuggestLex2neutral.merge_lex2neutral set_iter).

(** A check that ends by exit code 0. *)
Lemma validate_maps_passed sym mp printed :
  validate_maps sym mp = (printed, SystemExit 0) ↔
  printed = [] ∧ is_Some (functions sym) ∧ symbols_known sym mp ∧ tags_known mp.
Proof.
  destruct (functions sym) as [fns|] eqn:Hfns.
  - destruct (validate_maps_verdict set_iter dict_items Hdict sym mp fns Hfns)
      as (printed' & code & Hrun & Hcode & Hzero & Hprinted).
    rewrite Hrun. split.
    + intros [= -> ->]. split_and!; [by apply Hprinted|done|by apply Hzero..].
    + intros (-> & _ & Hs & Ht).
      assert (code = 0%Z) as -> by by apply Hzero.
      f_equal. by apply Hprinted.
  - unfold ValidateMaps.validate_maps. rewrite Hfns. split; [done|].
    by intros (_ & [? ?] & _).
Qed.

(** X22. A merge never spoils a checked map: when validate_maps.py ends by
    exit code 0 on the tables, it ends by exit code 0 and prints nothing on
    the map that [merge_lex2neutral] leaves, whatever pairs are merged and
    whether the merge returns or raises. *)
Theorem validate_maps_after_merge (sym : symbols) (mapobj : neutral_map)
    (printed : list string) (new_pairs : list (string * list string)) :
  validate_maps sym mapobj = (printed, SystemExit 0) →
  validate_maps sym (merge_lex2neutral mapobj new_pairs).1 = ([], SystemExit 0).
Proof.
  rewrite !validate_maps_passed. intros (_ & Hfns & Hs & Ht).
  destruct (merge_loop_any set_iter Hwalk (dom (default ∅ (neutral2sdk mapobj)))
              new_pairs mapobj None) as (Hnb & Hkeep & Hnew & _).
  fold (merge_lex2neutral mapobj new_pairs) in Hnb, Hkeep, Hnew.
  split_and!; [done|done| |].
  - unfold symbols_known. rewrite Hnb. apply Hs.
  - intros term tags tag Hlook Htag. rewrite Hnb.
    destruct (Hnew term tag) as [Hold|[Hv _]]; [| |done].
    { unfold RunNarrative.lex_tags. by rewrite Hlook. }
    unfold RunNarrative.lex_tags in Hold.
    destruct (default ∅ (lex2neutral mapobj) !! term) as [old|] eqn:Hterm;
      [|by apply elem_of_nil in Hold].
    by apply (Ht term old tag).
Qed.

(** X23. On tables that validate_maps.py passes with exit code 0, the
    vocabulary test of the interpreter drops nothing: a symbol is in the
    bag of API of a text exactly when some token of the text has a tag that
    lists the symbol. *)
Theorem validated_maps_gate (sym : symbols) (mp : neutral_map)
    (printed : list string) (text : string) (w : string) :
  validate_maps sym mp = (printed, SystemExit 0) →
  w ∈ bag_of_api (RunNarrative.interpret_event sym mp set_iter text) ↔
  ∃ t n, t ∈ RunNarrative._tokenize text ∧ n ∈ RunNarrative.lex_tags mp t ∧
         w ∈ RunNarrative.tag_symbols mp n.
Proof.
  rewrite validate_maps_passed. intros (_ & _ & Hs & _).
  rewrite (bag_of_api_elem sym mp set_iter Hwalk). split.
  - intros (t & n & Ht & Hn & Hw & _). by exists t, n.
  - intros (t & n & Ht & Hn & Hw). exists t, n. split_and!; [done..|].
    apply in_vocabulary_true.
    unfold RunNarrative.tag_symbols in Hw.
    destruct (default ∅ (neutral2sdk mp) !! n) as [ws|] eqn:Hws;
      [|by apply elem_of_nil in Hw].
    by apply (Hs n ws w).
Qed.

(** X24. After a merge that returns, the terms of a text that stay
    unrepresentable are the ones that were unrepresentable before and that
    no merged pair gives a tag; the bag of API of the text loses no
    symbol. *)
Theorem merge_lex2neutral_then_interpret (SYMBOLS : symbols)
    (mapobj : neutral_map) (entries : gmap string (list string))
    (new_pairs : list (string * list string)) (text : string) :
  lex2neutral mapobj = Some entries →
  (∀ k tags tag, (k, tags) ∈ new_pairs → tag ∈ tags →
                 tag ∈ dom (default ∅ (neutral2sdk mapobj))) →
  let merged := (merge_lex2neutral mapobj new_pairs).1 in
  (∀ t, t ∈ unrepresentable (RunNarrative.interpret_event SYMBOLS merged set_iter text)
        ↔ t ∈ unrepresentable (RunNarrative.interpret_event SYMBOLS mapobj set_iter text)
          ∧ ∀ tags, (t, tags) ∈ new_pairs → tags = []) ∧
  (∀ w, w ∈ bag_of_api (RunNarrative.interpret_event SYMBOLS mapobj set_iter text)
        → w ∈ bag_of_api (RunNarrative.interpret_event SYMBOLS merged set_iter text)).
Proof.
  intros Hlex Hknown merged.
  destruct (merge_loop_any set_iter Hwalk (dom (default ∅ (neutral2sdk mapobj)))
              new_pairs mapobj None) as (Hnb & Hkeep & Hnew & _).
  fold (merge_lex2neutral mapobj new_pairs) in Hnb, Hkeep, Hnew.
  fold merged in Hnb, Hkeep, Hnew.
  assert (∀ k tags tag, (k, tags) ∈ new_pairs → tag ∈ tags →
                        tag ∈ RunNarrative.lex_tags merged k) as Hadded.
  { intros k tags tag Hp Ht. destruct mapobj as [lex nb]. simpl in *. subst lex.
    destruct (merge_loop_known set_iter Hwalk (dom (default ∅ nb)) nb new_pairs
                entries None Hknown) as (entries' & Hrun & _ & Hin).
    unfold merged, SuggestLex2neutral.merge_lex2neutral. cbn [neutral2sdk].
    rewrite Hrun. cbn [fst]. unfold RunNarrative.lex_tags. simpl.
    destruct (Hin k) as (m & -> & _ & _ & Hmem).
    { apply list_elem_of_fmap. by exists (k, tags). }
    simpl. apply Hmem. right. by exists tags. }
  split.
  - intros t. rewrite !(unrepresentable_elem SYMBOLS _ set_iter Hwalk). split.
    + intros [Ht Hnil]. split_and!; [done| |].
      * destruct (RunNarrative.lex_tags mapobj t) as [|tag old] eqn:Hold; [done|].
        assert (tag ∈ RunNarrative.lex_tags merged t) as Hin.
        { apply Hkeep. rewrite Hold. left. }
        rewrite Hnil in Hin. by apply elem_of_nil in Hin.
      * intros [|tag tags] Hp; [done|].
        assert (tag ∈ RunNarrative.lex_tags merged t) as Hin.
        { apply (Hadded t (tag :: tags)); [done|left]. }
        rewrite Hnil in Hin. by apply elem_of_nil in Hin.
    + intros [[Ht Hnil] Hnone]. split; [done|].
      destruct (RunNarrative.lex_tags merged t) as [|tag new] eqn:Hnew'; [done|].
      destruct (Hnew t tag) as [Hold|(_ & tags & Hp & Htag)].
      * rewrite Hnew'. left.
      * rewrite Hnil in Hold. by apply elem_of_nil in Hold.
      * rewrite (Hnone tags Hp) in Htag. by apply elem_of_nil in Htag.
  - intros w. rewrite !(bag_of_api_elem SYMBOLS _ set_iter Hwalk).
    intros (t & n & Ht & Hn & Hw & Hv). exists t, n. split_and!; [done| | |done].
    + by apply Hkeep.
    + unfold RunNarrative.tag_symbols in *. by rewrite Hnb.
Qed.

End ToolsAndInterpreter.

(** * tools/suggest_lex2neutral.py: the offline provider and the selection *)

Import SuggestLex2neutral.

Lemma match_e_ending prev s :
  is_Some (match_then end_of_text re_e_ending prev s) ↔
  ∃ c tail, s = c :: "e"%char :: tail ∧ is_lower c = true ∧
            (tail = [] ∨ tail = ["010"%char]).
Proof.
  unfold re_e_ending, lit. cbn [match_then].
  destruct s as [|x [|y rest]].
  - split; [by intros [? ?]|]. by intros (? & ? & ? & _).
  - destruct (is_lower x); simpl; (split; [by intros [? ?]|]);
      by intros (? & ? & ? & _).
  - destruct (is_lower x) eqn:Hx.
    + destruct (Ascii.eqb_spec "e" y) as [<-|Hy].
      * rewrite !under_is_Some. split.
        -- intros Hend. exists x, rest. split_and!; [done..|].
           destruct rest as [|c [|c' rest]]; [by left| |by destruct Hend].
           simpl in Hend. destruct (Ascii.eqb_spec c "010"); [right; by subst|].
           by destruct Hend.
        -- intros (c & tail & Heq & _ & Htail). simplify_eq.
           destruct Htail as [-> | ->]; by eexists.
      * simpl. split; [by intros [? ?]|].
        intros (c & tail & Heq & _). by simplify_eq.
    + split; [by intros [? ?]|].
      intros (c & tail & Heq & Hc & _). simplify_eq. congruence.
Qed.

Lemma search_to_end_e_ending : ∀ s prev,
  search_to_end re_e_ending prev s = true ↔
  ∃ pre c tail, s = pre ++ c :: "e"%char :: tail ∧ is_lower c = true ∧
                (tail = [] ∨ tail = ["010"%char]).
Proof.
  induction s as [|x s IH]; intros prev.
  - pose proof (match_e_ending prev []) as Hm. cbn [search_to_end].
    destruct (match_then end_of_text re_e_ending prev []) as [f|].
    + destruct (proj1 Hm (mk_is_Some _ _ eq_refl)) as (c & tail & ? & _). done.
    + split; [done|]. intros (pre & c & tail & Heq & _). by destruct pre.
  - pose proof (match_e_ending prev (x :: s)) as Hm. cbn [search_to_end].
    destruct (match_then end_of_text re_e_ending prev (x :: s)) as [f|].
    + split; [intros _|done].
      destruct (proj1 Hm (mk_is_Some _ _ eq_refl)) as (c & tail & Heq & Hc & Ht).
      by exists [], c, tail.
    + rewrite IH. split.
      * intros (pre & c & tail & -> & Hc & Ht). by exists (x :: pre), c, tail.
      * intros ([|x' pre] & c & tail & Heq & Hc & Ht).
        -- destruct (proj2 Hm) as [? ?]; [|done]. by exists c, tail.
        -- injection Heq as <- ->. by exists pre, c, tail.
Qed.

(** X25. For a term of ASCII text, where [lower] is Python's, the offline
    provider lowers the term and answers, sorted and each once, the entry
    of its table for the term together with three variants: [t+d], [t]
    less its last character [+ing] and [t+s] when the term ends in a small
    letter and [e] (a line feed may follow the [e], and then it is the line
    feed that the second variant loses), and [t+ed], [t+ing] and [t+s]
    otherwise. *)
Theorem local_suggest_variants (set_iter : gset string → list string)
    (term sense_hint : string) :
  walks_sets set_iter →
  ascii_text term →
  let t := lower term in
  let variants :=
    local_suggest set_iter term sense_hint in
  (∀ x, x ∈ variants ↔
        x ∈ default [] (_tiny !! t)
        ∨ (e_ending t ∧
           x ∈ [t +:+ "d"; str (but_last (chars t)) +:+ "ing"; t +:+ "s"])
        ∨ (¬ e_ending t ∧ x ∈ [t +:+ "ed"; t +:+ "ing"; t +:+ "s"])) ∧
  NoDup variants ∧ Sorted String.le variants ∧
  @suggest _ (local_provider set_iter) LocalHeuristics term sense_hint
    = Return variants.
Proof.
  intros Hwalk _ t variants. split_and!.
  - intros x. unfold variants, local_suggest. fold t.
    rewrite sorted_elem, (set_iter_elem set_iter Hwalk).
    pose proof (search_to_end_e_ending (chars t) None) as He.
    fold (e_ending t) in He.
    destruct (search_to_end re_e_ending None (chars t)).
    + assert (e_ending t) as Hyes by by apply He.
      rewrite elem_of_union, !elem_of_list_to_set. tauto.
    + assert (¬ e_ending t) as Hno by (intros H; by apply He in H).
      rewrite elem_of_union, !elem_of_list_to_set. tauto.
  - unfold variants, local_suggest. rewrite sorted_perm.
    apply (set_iter_NoDup set_iter Hwalk).
  - apply Sorted_merge_sort, _.
  - done.
Qed.

(** The last loop of [interactive_select], index by index. *)
Lemma chosen_of_selected props existing_keys (ks : list Z) : ∀ chosen,
  foldl (λ chosen k,
           if bool_decide (1 ≤ k ≤ Z.of_nat (length props))%Z then
             match props !! Z.to_nat (k - 1) with
             | Some cand =>
                 if bool_decide (cand ∉ existing_keys) then chosen ++ [cand]
                 else chosen
             | None => chosen
             end
           else chosen) chosen ks
  = chosen ++ omap (selected props existing_keys) ks.
Proof.
  induction ks as [|k ks IH]; intros chosen; simpl.
  - by rewrite app_nil_r.
  - rewrite IH. unfold selected at 2.
    destruct (bool_decide (1 ≤ k ≤ Z.of_nat (length props))%Z); [|done].
    destruct (props !! Z.to_nat (k - 1)) as [cand|]; [|done].
    destruct (bool_decide (cand ∉ existing_keys)); [|done].
    by rewrite <- app_assoc.
Qed.

Lemma sorted_picks (picks : gset Z) :
  StronglySorted Z.lt (merge_sort Z.le (elements picks)).
Proof.
  assert (NoDup (merge_sort Z.le (elements picks))) as Hnd.
  { rewrite merge_sort_Permutation. apply NoDup_elements. }
  pose proof (StronglySorted_merge_sort Z.le (elements picks)) as Hs.
  induction Hs as [|k ks Hks IH Hk]; [constructor|].
  apply NoDup_cons in Hnd as [Hnotin Hnd].
  constructor; [by apply IH|].
  rewrite Forall_forall in Hk |- *. intros k' Hk'.
  specialize (Hk k' Hk'). assert (k ≠ k') by (by intros ->). lia.
Qed.

Lemma selected_in_order props existing_keys (ks : list Z) :
  StronglySorted Z.lt ks →
  ∀ lo : nat,
    (∀ k, k ∈ ks → selected props existing_keys k ≠ None → (Z.of_nat lo < k)%Z) →
    omap (selected props existing_keys) ks
      `sublist_of` List.filter (λ p, bool_decide (p ∉ existing_keys)) (drop lo props).
Proof.
  induction 1 as [|k ks Hks IH Hk]; intros lo Hlo; [apply sublist_nil_l|].
  change (omap (selected props existing_keys) (k :: ks))
    with (match selected props existing_keys k with
          | Some y => y :: omap (selected props existing_keys) ks
          | None => omap (selected props existing_keys) ks
          end).
  destruct (selected props existing_keys k) as [cand|] eqn:Hsel.
  - assert (Z.of_nat lo < k)%Z as Hlt.
    { apply Hlo; [left|by rewrite Hsel]. }
    unfold selected in Hsel. case_bool_decide as Hrange; [|done].
    destruct (props !! Z.to_nat (k - 1)) as [cand'|] eqn:Hlook; [|done].
    case_bool_decide as Hnew; [|done]. injection Hsel as ->.
    set (i := Z.to_nat (k - 1)) in *.
    assert (drop lo props = take (i - lo) (drop lo props) ++ cand :: drop (S i) props)
      as ->.
    { rewrite <- (take_drop (i - lo) (drop lo props)) at 1. f_equal.
      rewrite drop_drop. replace (lo + (i - lo)) with i by lia.
      by apply drop_S. }
    rewrite List.filter_app. cbn [List.filter].
    rewrite bool_decide_eq_true_2 by done.
    apply sublist_inserts_l, sublist_skip, IH.
    intros k' Hk' _. rewrite Forall_forall in Hk. specialize (Hk k' Hk'). lia.
  - apply IH. intros k' Hk'. apply Hlo. by right.
Qed.

(** X26. Whatever line is typed, a selection that returns gives proposals
    only, in the order of the listing, none of them a key that exists
    already and none more often than it is listed: the answer is a
    sub-list of the proposals that are new. Indexes out of range, and
    whatever [int] makes of the digits, never add anything else. *)
Theorem interactive_select_answer (py_int : text → outcome Z)
    (term : string) (sense props : list string) (existing_keys : gset string)
    (line : option string) (printed chosen : list string) :
  interactive_select py_int term sense props existing_keys line
    = (printed, Return chosen) →
  chosen `sublist_of` List.filter (λ p, bool_decide (p ∉ existing_keys)) props ∧
  (∀ c, c ∈ chosen → c ∈ props ∧ c ∉ existing_keys) ∧
  (NoDup props → NoDup chosen).
Proof.
  intros Hrun.
  assert (chosen `sublist_of`
            List.filter (λ p, bool_decide (p ∉ existing_keys)) props) as Hsub.
  { unfold interactive_select in Hrun.
    destruct props as [|p props]; [injection Hrun as _ <-; apply sublist_nil_l|].
    destruct line as [line|]; [|done].
    case_bool_decide; [done|].
    destruct (bool_decide (lower (strip line) = "")
              || bool_decide (lower (strip line) = "none"));
      [injection Hrun as _ <-; apply sublist_nil_l|].
    case_bool_decide; [by injection Hrun as _ <-|].
    injection Hrun as _ Hrun.
    destruct (picks_of py_int _ ∅) as [picks|e]; [|done].
    simpl in Hrun. injection Hrun as <-.
    unfold chosen_of. rewrite chosen_of_selected. cbn [app].
    apply (selected_in_order (p :: props) existing_keys _ (sorted_picks picks) 0).
    intros k _ Hsel. unfold selected in Hsel.
    case_bool_decide as Hrange; [lia|done]. }
  split_and!; [done| |].
  - intros c Hc. apply (elem_of_sublist _ _ _ Hc) in Hsub.
    apply list_elem_of_In, filter_In in Hsub as [Hin Hnew].
    apply list_elem_of_In in Hin. by apply bool_decide_eq_true in Hnew.
  - intros Hnd. eapply sublist_NoDup; [|exact Hsub].
    apply NoDup_ListNoDup, List.NoDup_filter. by apply NoDup_ListNoDup.
Qed.

Lemma pick_converted py_int (token : text) (picks : gset Z) :
  converts py_int token →
  ∃ picks', pick py_int token picks = Return picks' ∧
            ∀ k, k ∈ picks' ↔ k ∈ picks ∨ token_picks token k = true.
Proof.
  unfold converts, pick, token_picks. intros Hint.
  destruct (cut_at "-" token) as [[a b]|].
  - destruct (isdigit a) eqn:Ha; simpl.
    2:{ exists picks. split; [done|]. intros k. split; [by left|by intros [?|?]]. }
    destruct (isdigit b) eqn:Hb; simpl.
    2:{ exists picks. split; [done|]. intros k. split; [by left|by intros [?|?]]. }
    rewrite (Hint a) by (done || left). simpl.
    rewrite (Hint b) by (done || (right; left)). simpl.
    eexists. split; [done|]. intros k.
    assert (∀ l (acc : gset Z),
              k ∈ foldl (λ picks k, {[k]} ∪ picks) acc l ↔ k ∈ acc ∨ k ∈ l) as Hfold.
    { induction l as [|x l IH]; intros acc; simpl.
      - rewrite elem_of_nil. tauto.
      - rewrite IH, elem_of_union, elem_of_singleton, elem_of_cons. tauto. }
    cbn [andb]. rewrite Hfold, elem_of_seqZ, andb_true_iff, !Z.leb_le.
    split; (intros [?|?]; [by left|right; lia]).
  - destruct (isdigit token) eqn:Ht; simpl.
    2:{ exists picks. split; [done|]. intros k. split; [by left|by intros [?|?]]. }
    rewrite (Hint token) by (done || left). simpl.
    eexists. split; [done|]. intros k.
    cbn [andb]. rewrite elem_of_union, elem_of_singleton, Z.eqb_eq.
    split; (intros [?|?]; [|]); [by right|by left|by right|by left].
Qed.

Lemma picks_of_converted py_int (tokens : list text) : ∀ picks : gset Z,
  Forall (converts py_int) tokens →
  ∃ picks', picks_of py_int tokens picks = Return picks' ∧
            ∀ k, k ∈ picks' ↔
                 k ∈ picks ∨ existsb (λ token, token_picks token k) tokens = true.
Proof.
  induction tokens as [|token tokens IH]; intros picks Hall.
  - exists picks. split; [done|]. intros k. simpl. split; [by left|by intros [?|?]].
  - apply Forall_cons in Hall as [Htoken Hall]. cbn [picks_of].
    destruct (pick_converted py_int token picks Htoken) as (picks1 & -> & H1).
    cbn [outcome_bind].
    destruct (IH picks1 Hall) as (picks' & -> & H').
    exists picks'. split; [done|]. intros k.
    rewrite H', H1. cbn [existsb]. rewrite orb_true_iff. tauto.
Qed.

Lemma omap_filter_none {A B : Type} (f : A → bool) (g : A → option B) (l : list A) :
  (∀ x, f x = false → g x = None) → omap g (List.filter f l) = omap g l.
Proof.
  intros Hnone. induction l as [|x l IH]; [done|]. cbn [List.filter].
  destruct (f x) eqn:Hf.
  - change (omap g (x :: List.filter f l))
      with (match g x with Some y => y :: omap g (List.filter f l)
                         | None => omap g (List.filter f l) end).
    change (omap g (x :: l))
      with (match g x with Some y => y :: omap g l | None => omap g l end).
    by rewrite IH.
  - change (omap g (x :: l))
      with (match g x with Some y => y :: omap g l | None => omap g l end).
    by rewrite (Hnone x Hf).
Qed.

Lemma StronglySorted_List_filter {A : Type} (R : relation A) (f : A → bool)
    (l : list A) :
  StronglySorted R l → StronglySorted R (List.filter f l).
Proof.
  induction 1 as [|x l Hl IH Hx]; [constructor|]. cbn [List.filter].
  destruct (f x); [|done]. constructor; [done|].
  rewrite Forall_forall in Hx |- *. intros y Hy.
  apply list_elem_of_In, filter_In in Hy as [Hy _]. by apply Hx, list_elem_of_In.
Qed.

Lemma StronglySorted_seqZ (len : nat) : ∀ m,
  StronglySorted Z.le (seqZ m (Z.of_nat len)).
Proof.
  induction len as [|len IH]; intros m.
  - rewrite seqZ_nil by lia. constructor.
  - rewrite seqZ_cons by lia.
    replace (Z.pred (Z.of_nat (S len))) with (Z.of_nat len) by lia.
    constructor; [apply IH|].
    apply Forall_forall. intros k Hk%elem_of_seqZ. lia.
Qed.

(** The last loop as a walk up the indexes of the listing. *)
Lemma chosen_of_indexes props existing_keys (picks : gset Z) :
  chosen_of props existing_keys picks
  = omap (selected props existing_keys)
         (List.filter (λ k, bool_decide (k ∈ picks))
                      (seqZ 1 (Z.of_nat (length props)))).
Proof.
  unfold chosen_of. rewrite chosen_of_selected. cbn [app].
  set (n := Z.of_nat (length props)).
  set (ks := merge_sort Z.le (elements picks)).
  rewrite <- (omap_filter_none (λ k, bool_decide (1 ≤ k ≤ n)%Z) _ ks).
  2:{ intros k Hk. unfold selected. fold n. by rewrite Hk. }
  f_equal. apply (StronglySorted_unique Z.le).
  - apply StronglySorted_List_filter, StronglySorted_merge_sort; apply _.
  - apply StronglySorted_List_filter, StronglySorted_seqZ.
  - apply NoDup_Permutation.
    + apply NoDup_ListNoDup, List.NoDup_filter, NoDup_ListNoDup.
      unfold ks. rewrite merge_sort_Permutation. apply NoDup_elements.
    + apply NoDup_ListNoDup, List.NoDup_filter, NoDup_ListNoDup, NoDup_seqZ.
    + intros k. rewrite !list_elem_of_In, !filter_In, <- !list_elem_of_In.
      unfold ks. rewrite merge_sort_Permutation, elem_of_elements, elem_of_seqZ.
      rewrite !bool_decide_eq_true. fold n.
      split; (intros [? ?]; split; [done || lia..]).
Qed.

(** X27. What typing indexes selects, for a reply of ASCII text, where
    [strip], [lower], [split] and [isdigit] are Python's. For a reply that
    is none of the words [q], [quit], [exit], [none], [all] nor empty once
    stripped and lowered, and whose digits [int] converts, the selection returns, going
    up the indexes 1 to the number of proposals, the proposal at each index
    that some token of the reply names (the index itself, or a range
    [a-b] that holds it) unless the proposal is an existing key: the order
    and the repetitions of what is typed play no part, tokens that are not
    of these forms, indexes out of range and ranges that go down select
    nothing. *)
Theorem interactive_select_indexes (py_int : text → outcome Z)
    (term : string) (sense props : list string) (existing_keys : gset string)
    (line : string) :
  ascii_text line →
  props ≠ [] →
  lower (strip line) ∉ ["q"; "quit"; "exit"; ""; "none"; "all"] →
  Forall (converts py_int) (chars <$> split (lower (strip line))) →
  (interactive_select py_int term sense props existing_keys (Some line)).2
  = Return
      (omap (selected props existing_keys)
         (List.filter
            (λ k, existsb (λ token, token_picks token k)
                          (chars <$> split (lower (strip line))))
            (seqZ 1 (Z.of_nat (length props))))).
Proof.
  intros _ Hprops Hsel Hint. unfold interactive_select.
  destruct props as [|p props]; [done|].
  set (sel := lower (strip line)) in *.
  rewrite !not_elem_of_cons in Hsel.
  destruct Hsel as (Hq & Hquit & Hexit & Hempty & Hnone & Hall & _).
  rewrite bool_decide_eq_false_2.
  2:{ rewrite !elem_of_cons, elem_of_nil. tauto. }
  rewrite (bool_decide_eq_false_2 (sel = "")) by done.
  rewrite (bool_decide_eq_false_2 (sel = "none")) by done.
  rewrite (bool_decide_eq_false_2 (sel = "all")) by done.
  cbn [orb snd].
  destruct (picks_of_converted py_int (chars <$> split sel) ∅ Hint)
    as (picks & -> & Hpicks).
  cbn [outcome_bind]. f_equal. rewrite chosen_of_indexes.
  f_equal. apply List.filter_ext. intros k.
  destruct (existsb _ _) eqn:Hk.
  - apply bool_decide_eq_true, Hpicks. by right.
  - apply bool_decide_eq_false. intros [[]%not_elem_of_empty|Hin]%Hpicks.
    congruence.
Qed.

(** * The closure walk of interpret.py on the table as decoded *)

Lemma each_for_each {A S : Type} (body' : A → S → option (result S))
    (body : A → S → option S) (xs : list A) : ∀ st,
  (∀ x st, body' x st = Ok <$> body x st) →
  Interpret.each body' xs st = Ok <$> for_each body xs st.
Proof.
  induction xs as [|x xs IH]; intros st Hbody; [done|].
  cbn [Interpret.each for_each]. rewrite Hbody.
  destruct (body x st) as [st'|]; [|done]. simpl. by apply IH.
Qed.

Section DecodedTable.

Context (DEC : gmap string decoded_entry).

Lemma requires_walked_listed w :
  no_null DEC →
  Interpret.requires_walked DEC w = Ok (Interpret.requires_of (entry_of <$> DEC) w).
Proof.
  intros Hnull. unfold Interpret.requires_walked, Interpret.requires_of.
  rewrite lookup_fmap.
  destruct (DEC !! w) as [[[| |rs] ys]|] eqn:Hw; [done| |done|done].
  by destruct (Hnull w _ Hw).
Qed.

Lemma add_with_requires_decoded_listed (fuel : nat) :
  no_null DEC →
  ∀ w st,
    Interpret.add_with_requires_decoded DEC fuel w st
    = Ok <$> Interpret.add_with_requires (entry_of <$> DEC) fuel w st.
Proof.
  intros Hnull. induction fuel as [|fuel IH]; intros w st; [done|].
  cbn [Interpret.add_with_requires_decoded Interpret.add_with_requires].
  destruct (decide (w ∈ st.2)); [done|].
  rewrite (requires_walked_listed w Hnull).
  rewrite (each_for_each _ (Interpret.add_with_requires (entry_of <$> DEC) fuel))
    by done.
  destruct (for_each _ _ st) as [st'|]; [|done]. simpl.
  by destruct (decide (w ∉ st'.2)).
Qed.

(** X3. The two closure walks differ in one thing, the [or []] that only
    run_narrative.py puts behind its lookup of [requires]. On a decoded
    table that has no [null] under [requires], interpret.py's
    [topo_require_chain] and run_narrative.py's [expand_with_requires] end
    alike for every list of targets and every depth of the stack: with the
    same list, or both in the recursion error; the second membership test
    of [topo_require_chain] is never the one that decides, and the walk on
    the decoded table is the walk [Interpret.topo_require_chain] on its
    entries. On a target whose [requires] is [null] they part:
    [expand_with_requires] returns the target as a symbol that requires
    nothing, [topo_require_chain] raises [TypeError]. *)
Theorem topo_require_chain_is_expand_with_requires :
  (no_null DEC →
   ∀ fuel targets,
     Interpret.topo_require_chain_decoded DEC fuel targets
     = Ok <$> RunNarrative.expand_with_requires (entry_of <$> DEC) fuel targets ∧
     Interpret.topo_require_chain_decoded DEC fuel targets
     = Ok <$> Interpret.topo_require_chain (entry_of <$> DEC) fuel targets) ∧
  (∀ t ys, DEC !! t = Some (Null, ys) →
   ∀ fuel,
     Interpret.topo_require_chain_decoded DEC (S fuel) [t] = Some (Raise TypeError) ∧
     RunNarrative.expand_with_requires (entry_of <$> DEC) (S fuel) [t] = Some [t]).
Proof.
  split.
  - intros Hnull fuel targets.
    assert (Interpret.topo_require_chain_decoded DEC fuel targets
            = Ok <$> Interpret.topo_require_chain (entry_of <$> DEC) fuel targets)
      as Hwalk.
    { unfold Interpret.topo_require_chain_decoded, Interpret.topo_require_chain.
      rewrite (each_for_each _ (Interpret.add_with_requires (entry_of <$> DEC) fuel))
        by (intros; by apply add_with_requires_decoded_listed).
      by destruct (for_each _ _ _) as [st|]. }
    split; [|exact Hwalk].
    by rewrite Hwalk, topo_require_chain_expand_any.
  - intros t ys Ht fuel. split.
    + unfold Interpret.topo_require_chain_decoded.
      cbn [Interpret.each Interpret.add_with_requires_decoded].
      rewrite decide_False by (cbn; apply not_elem_of_empty).
      unfold Interpret.requires_walked. by rewrite Ht.
    + assert (RunNarrative.requires_of (entry_of <$> DEC) t = []) as Hnone.
      { assert ((entry_of <$> DEC) !! t = Some (entry_of (Null, ys))) as Hl
          by (apply lookup_fmap_Some; by exists (Null, ys)).
        unfold RunNarrative.requires_of. by rewrite Hl. }
      unfold RunNarrative.expand_with_requires.
      cbn [for_each RunNarrative.add].
      rewrite decide_False by (cbn; apply not_elem_of_empty).
      by rewrite Hnone.
Qed.

End DecodedTable.

(** * The reports of interpret.py are produced *)

Section Reports.

Context (SYMBOLS : symbols) (REL : gmap string rel_entry) (MAP : neutral_map)
  (set_iter : gset string → list string) (Hwalk : walks_sets set_iter).

(** The bag that interpret.py sorts is the bag of run_narrative.py. *)
Lemma interpret_py_bag (text : string) :
  sorted (set_iter (Interpret.neutral_to_sdk SYMBOLS MAP set_iter
                      (Interpret.to_neutral MAP (Interpret.tokenize text))))
  = bag_of_api (RunNarrative.interpret_event SYMBOLS MAP set_iter text).
Proof.
  set (bag := bag_of_api (RunNarrative.interpret_event SYMBOLS MAP set_iter text)).
  set (sdk_words := Interpret.neutral_to_sdk SYMBOLS MAP set_iter
                      (Interpret.to_neutral MAP (Interpret.tokenize text))).
  assert (sorted (set_iter sdk_words) = bag) as Hbag; [|done].
  { unfold bag, sdk_words, RunNarrative.interpret_event. simpl.
    f_equal. f_equal. unfold Interpret.neutral_to_sdk. f_equal. f_equal.
    apply set_eq. intros n. rewrite neutral_elem.
    unfold Interpret.to_neutral.
    change (Interpret.tokenize text) with (RunNarrative._tokenize text).
    change (Interpret.lex_tags MAP) with (RunNarrative.lex_tags MAP).
    generalize (∅ : gset string) as acc.
    induction (RunNarrative._tokenize text) as [|t ts IH]; intros acc; simpl.
    - split; [by left|]. by intros [?|(t & []%elem_of_nil & _)].
    - rewrite IH. clear IH.
      assert (∀ (ns : list string) (a : gset string),
        n ∈ foldl (λ (neutral : gset string) n, {[n]} ∪ neutral) a ns ↔
        n ∈ a ∨ n ∈ ns) as Hinner.
      { induction ns as [|x ns IH]; intros a; simpl.
        - rewrite elem_of_nil. tauto.
        - rewrite IH, elem_of_union, elem_of_singleton, elem_of_cons. tauto. }
      rewrite Hinner. split.
      + intros [[?|?]|(t' & ? & ?)]; [by left|right..].
        * exists t. split; [left|done].
        * exists t'. split; [by right|done].
      + intros [?|(t' & [->|?]%elem_of_cons & ?)];
          [by left; left|by left; right|right; by exists t']. }
Qed.

(** interpret.py returns, with the two lists of run_narrative.py, whenever
    the stack is deeper than the table is large and no desired symbol that
    is present reaches a cycle. *)
Lemma interpret_py_returns (text : string) :
  (∀ d, desired_present SYMBOLS
          (bag_of_api (RunNarrative.interpret_event SYMBOLS MAP set_iter text)) d →
        ¬ reaches_cycle REL d) →
  ∀ fuel, size REL < fuel →
    ∃ r, Interpret.interpret_event SYMBOLS REL MAP set_iter fuel text = Some r ∧
         Interpret.bag_of_api r
           = bag_of_api (RunNarrative.interpret_event SYMBOLS MAP set_iter text) ∧
         Interpret.unrepresentable r
           = unrepresentable (RunNarrative.interpret_event SYMBOLS MAP set_iter text).
Proof.
  intros Hoff fuel Hfuel.
  set (sdk_words := Interpret.neutral_to_sdk SYMBOLS MAP set_iter
                      (Interpret.to_neutral MAP (Interpret.tokenize text))).
  set (kept := List.filter
                 (λ w, if decide (w = "PAD_STATE_*")
                       then bool_decide ("PAD_STATE_*" ∈ dom (default ∅ (enums SYMBOLS)))
                       else bool_decide (w ∈ sdk_words)
                            || bool_decide (w ∈ default [] (literals SYMBOLS)))
                 ["PadInit"; "PadGetState"; "PAD_STATE_*"; "VSync(0)"]).
  destruct (expand_with_requires_off_cycle REL kept) as [out Hout].
  { intros d Hd. apply Hoff. rewrite <- interpret_py_bag.
    by apply (desired_kept SYMBOLS set_iter Hwalk). }
  assert (∃ r, Interpret.interpret_event SYMBOLS REL MAP set_iter fuel text = Some r)
    as [r Hr].
  { assert (Interpret.topo_require_chain REL fuel kept = Some out) as Htopo
      by (by rewrite topo_require_chain_expand_any, (Hout fuel Hfuel)).
    unfold Interpret.interpret_event. fold sdk_words. fold kept.
    rewrite Htopo. cbn [mbind option_bind].
    destruct (Interpret.build_state_tableau _ _ _ _) as [obs cal]. by eexists. }
  exists r. split; [done|].
  exact (interpret_py_agrees _ _ _ _ _ _ _ Hwalk Hr).
Qed.

End Reports.

(** C7. A token is reported unrepresentable exactly when its lexicon lookup
    gives no neutral tag; the report holds each such token once, and it is
    the same whatever the vocabulary lets through (any [SYMBOLS]), from
    either interpreter. interpret.py produces the report, for every stack
    deeper than the table of requires is large, whenever no desired symbol
    that is present reaches a cycle of requires (so on every acyclic
    table), and every report it produces is this one. *)
Theorem unrepresentable_iff_no_tag SYMBOLS NEUT_MAP set_iter text :
  walks_sets set_iter →
  let unrep :=
    unrepresentable (RunNarrative.interpret_event SYMBOLS NEUT_MAP set_iter text) in
  (∀ t, t ∈ unrep ↔
        t ∈ RunNarrative._tokenize text ∧ RunNarrative.lex_tags NEUT_MAP t = []) ∧
  NoDup unrep ∧
  (∀ SYMBOLS',
     unrepresentable (RunNarrative.interpret_event SYMBOLS' NEUT_MAP set_iter text)
       = unrep) ∧
  (∀ SYMBOLS' REL fuel r,
     Interpret.interpret_event SYMBOLS' REL NEUT_MAP set_iter fuel text = Some r →
     Interpret.unrepresentable r = unrep) ∧
  (∀ SYMBOLS' REL,
     (∀ d, desired_present SYMBOLS'
             (bag_of_api
                (RunNarrative.interpret_event SYMBOLS' NEUT_MAP set_iter text)) d →
           ¬ reaches_cycle REL d) →
     ∀ fuel, size REL < fuel →
       ∃ r, Interpret.interpret_event SYMBOLS' REL NEUT_MAP set_iter fuel text
              = Some r ∧
            Interpret.unrepresentable r = unrep) ∧
  (∀ SYMBOLS' REL,
     acyclic REL →
     ∀ fuel, size REL < fuel →
       ∃ r, Interpret.interpret_event SYMBOLS' REL NEUT_MAP set_iter fuel text
              = Some r ∧
            Interpret.unrepresentable r = unrep).
Proof.
  intros Hwalk unrep.
  assert (∀ SYMBOLS' REL,
     (∀ d, desired_present SYMBOLS'
             (bag_of_api
                (RunNarrative.interpret_event SYMBOLS' NEUT_MAP set_iter text)) d →
           ¬ reaches_cycle REL d) →
     ∀ fuel, size REL < fuel →
       ∃ r, Interpret.interpret_event SYMBOLS' REL NEUT_MAP set_iter fuel text
              = Some r ∧
            Interpret.unrepresentable r = unrep) as Hproduced.
  { intros SYMBOLS' REL Hoff fuel Hfuel.
    destruct (interpret_py_returns SYMBOLS' REL NEUT_MAP set_iter Hwalk text
                Hoff fuel Hfuel) as (r & Hr & _ & Hunrep).
    exists r. split; [done|]. by rewrite Hunrep. }
  split_and!.
  - intros t. by apply unrepresentable_elem.
  - by apply unrepresentable_NoDup.
  - done.
  - intros SYMBOLS' REL fuel r Hr.
    by destruct (interpret_py_agrees _ _ _ _ _ _ _ Hwalk Hr) as [_ ->].
  - exact Hproduced.
  - intros SYMBOLS' REL Hacyc. apply Hproduced.
    intros d _ (c & _ & Hc). by apply (Hacyc c).
Qed.

(** X13. The gate of symbols.json. A symbol is in the bag of API of a text
    exactly when some token of the text has a neutral tag that lists the
    symbol and the symbol is a function, a literal or the name of an enum
    of symbols.json; the bag is sorted and holds no symbol twice.
    interpret.py (through [to_neutral] and [neutral_to_sdk]) returns the
    same bag: it returns, for every stack deeper than the table of requires
    is large, whenever no desired symbol that is present reaches a cycle of
    requires, and every result it returns carries this bag. *)
Theorem bag_of_api_gated SYMBOLS NEUT_MAP set_iter (text : string) :
  walks_sets set_iter →
  let bag := bag_of_api (RunNarrative.interpret_event SYMBOLS NEUT_MAP set_iter text) in
  (∀ w, w ∈ bag ↔
        ∃ t n, t ∈ RunNarrative._tokenize text ∧
               n ∈ RunNarrative.lex_tags NEUT_MAP t ∧
               w ∈ RunNarrative.tag_symbols NEUT_MAP n ∧
               (w ∈ default [] (functions SYMBOLS)
                ∨ w ∈ default [] (literals SYMBOLS)
                ∨ w ∈ dom (default ∅ (enums SYMBOLS)))) ∧
  NoDup bag ∧ Sorted String.le bag ∧
  (∀ REL fuel r,
     Interpret.interpret_event SYMBOLS REL NEUT_MAP set_iter fuel text = Some r →
     Interpret.bag_of_api r = bag) ∧
  (∀ REL,
     (∀ d, desired_present SYMBOLS bag d → ¬ reaches_cycle REL d) →
     ∀ fuel, size REL < fuel →
       ∃ r, Interpret.interpret_event SYMBOLS REL NEUT_MAP set_iter fuel text
              = Some r ∧
            Interpret.bag_of_api r = bag).
Proof.
  intros Hwalk bag. split_and!.
  - intros w. unfold bag.
    rewrite (bag_of_api_elem SYMBOLS NEUT_MAP set_iter Hwalk).
    by setoid_rewrite in_vocabulary_true.
  - unfold bag, RunNarrative.interpret_event. cbn [bag_of_api].
    rewrite sorted_perm. apply (set_iter_NoDup set_iter Hwalk).
  - unfold bag, RunNarrative.interpret_event. cbn [bag_of_api].
    apply Sorted_merge_sort, _.
  - intros REL fuel r Hr.
    by destruct (interpret_py_agrees _ _ _ _ _ _ _ Hwalk Hr) as [-> _].
  - intros REL Hoff fuel Hfuel.
    destruct (interpret_py_returns SYMBOLS REL NEUT_MAP set_iter Hwalk text
                Hoff fuel Hfuel) as (r & Hr & Hbag & _).
    by exists r.
Qed.

(** * More instances *)

Lemma sample_sound : ∀ w, w ∈ Sample.sound → ¬ reaches_cycle Sample.REL w.
Proof. apply (off_cycle_check _ _ Demo.rank). by_compute. Qed.

Lemma sample_cycle : reaches_cycle Sample.REL "A".
Proof.
  exists "A". split; [done|].
  apply (tc_l _ "A" "B" "A"); [|apply tc_once]; unfold req_edge; by_compute.
Qed.

Lemma expand_with_requires_recursion_error_witness :
  "A" ∈ ["PadInit"; "A"] ∧ reaches_cycle Sample.REL "A" ∧
  RunNarrative.expand_with_requires Sample.REL 1000 ["PadInit"; "A"] = None.
Proof.
  split; [by_compute|]. split; [exact sample_cycle|].
  apply (expand_with_requires_recursion_error Sample.REL ["PadInit"; "A"] "A");
    [by_compute|exact sample_cycle].
Defined.

Lemma expand_with_requires_off_cycles_witness :
  (∀ t, t ∈ ["PadGetState"] → ¬ reaches_cycle Sample.REL t) ∧
  ∃ out,
    RunNarrative.expand_with_requires Sample.REL 5 ["PadGetState"] = Some out ∧
    NoDup out.
Proof.
  assert (∀ t, t ∈ ["PadGetState"] → ¬ reaches_cycle Sample.REL t) as Hoff.
  { intros t ->%list_elem_of_singleton. apply sample_sound. by_compute. }
  split; [exact Hoff|].
  destruct (expand_with_requires_off_cycles Sample.REL ["PadGetState"] Hoff)
    as (out & Hrun & _ & Hnd & _).
  exists out. split; [|done]. apply Hrun. vm_compute. lia.
Defined.

Lemma expand_with_requires_idempotent_witness :
  RunNarrative.expand_with_requires Sample.REL 3 ["PadGetState"]
    = Some ["PadInit"; "PadGetState"] ∧
  2 ≤ 2 ∧
  RunNarrative.expand_with_requires Sample.REL 2 ["PadInit"; "PadGetState"]
    = Some ["PadInit"; "PadGetState"].
Proof.
  assert (RunNarrative.expand_with_requires Sample.REL 3 ["PadGetState"]
            = Some ["PadInit"; "PadGetState"]) as Hrun by (vm_compute; reflexivity).
  split; [exact Hrun|]. split; [lia|].
  apply (expand_with_requires_idempotent Sample.REL 3 ["PadGetState"] _ Hrun 2). lia.
Defined.

Lemma requires_set_proper_witness :
  walks_sets Demo.set_iter ∧
  (∀ a, a ∈ ({["PadGetState"]} : gset string) → ¬ reaches_cycle Sample.REL a) ∧
  ∃ prereq : gset string,
    RunNarrative.requires_set Sample.REL Demo.set_iter 5 {["PadGetState"]}
      = Some prereq ∧
    ("PadInit" ∈ prereq ↔
       ("PadInit" ∉ ({["PadGetState"]} : gset string)) ∧
       ∃ a, a ∈ ({["PadGetState"]} : gset string) ∧
            rtc (req_edge Sample.REL) a "PadInit").
Proof.
  assert (∀ a, a ∈ ({["PadGetState"]} : gset string) →
               ¬ reaches_cycle Sample.REL a) as Hoff.
  { intros a ->%elem_of_singleton. apply sample_sound. by_compute. }
  split; [exact demo_walks_sets|]. split; [exact Hoff|].
  destruct (requires_set_proper Sample.REL Demo.set_iter {["PadGetState"]}
              demo_walks_sets Hoff) as (prereq & Hrun & Hin & _).
  exists prereq. split; [|apply Hin]. apply Hrun. vm_compute. lia.
Defined.

Lemma select_passages_closed_form_witness :
  RunNarrative.expand_with_requires Demo.REL 3 (Demo.set_iter {["PadGetState"]})
    = Some ["PadInit"; "PadGetState"] ∧
  RunNarrative.select_passages_event_minimal Demo.REL Demo.PASSAGES Demo.set_iter
    3 {["PadGetState"]} 4
    = Some (quote_of <$>
              take (quota 4)
                (first_ids ∅
                   (candidates Demo.PASSAGES
                      (list_to_set ["PadInit"; "PadGetState"])
                      (list_to_set ["PadInit"; "PadGetState"] ∖ {["PadGetState"]})))).
Proof.
  assert (RunNarrative.expand_with_requires Demo.REL 3
            (Demo.set_iter {["PadGetState"]}) = Some ["PadInit"; "PadGetState"])
    as Hexp by (vm_compute; reflexivity).
  split; [exact Hexp|].
  exact (proj1 (select_passages_closed_form Demo.REL Demo.PASSAGES Demo.set_iter
                  3 {["PadGetState"]} 4 _ Hexp)).
Defined.

Lemma generate_narrative_bookkeeping_witness :
  ∃ trace out,
    RunNarrative.generate_narrative Demo.SYMBOLS Demo.REL Demo.NEUT_MAP
      Demo.PASSAGES Demo.set_iter json_loads
      (Demo.answers
         (Demo.reply "I call PadGetState [pad.state.p12] then Foo [xyz]" "xyz"))
      3 "Poll the controller" = (trace, Ok out) ∧
    ∃ ids, out !! "__provided_ids" = Some (VList ids) ∧ NoDup ids ∧ length ids ≤ 4.
Proof.
  assert (∃ trace out,
            RunNarrative.generate_narrative Demo.SYMBOLS Demo.REL Demo.NEUT_MAP
              Demo.PASSAGES Demo.set_iter json_loads
              (Demo.answers
                 (Demo.reply "I call PadGetState [pad.state.p12] then Foo [xyz]"
                             "xyz"))
              3 "Poll the controller" = (trace, Ok out))
    as (trace & out & Hrun) by (eexists _, _; vm_compute; reflexivity).
  exists trace, out. split; [exact Hrun|].
  destruct (generate_narrative_bookkeeping _ _ _ _ _ demo_walks_sets _ _ _ _ _ _ Hrun)
    as (ok & allowed & ids & _ & _ & _ & Hids & _ & Hnd & Hlen & _).
  exists ids. split_and!; [exact Hids|exact Hnd|exact Hlen].
Defined.

Lemma generate_narrative_ok_sound_witness :
  ∃ trace out,
    ascii_text "Poll the controller" ∧
    (∀ narrative, RunNarrative.narrative_of out = Ok narrative →
                  ascii_text narrative) ∧
    bag_of_api (RunNarrative.interpret_event Demo.SYMBOLS Demo.NEUT_MAP
                  Demo.set_iter "Poll the controller") ≠ [] ∧
    RunNarrative.generate_narrative Demo.SYMBOLS Demo.REL Demo.NEUT_MAP
      Demo.PASSAGES Demo.set_iter json_loads
      (Demo.answers
         (Demo.reply "I call PadGetState [pad.state.p12]" "pad.state.p12"))
      3 "Poll the controller" = (trace, Ok out) ∧
    out !! "__ok" = Some (VBool true) ∧
    ∃ cids, RunNarrative.citations_of out = Ok cids ∧ cids ≠ ∅.
Proof.
  assert (∃ trace out,
            RunNarrative.generate_narrative Demo.SYMBOLS Demo.REL Demo.NEUT_MAP
              Demo.PASSAGES Demo.set_iter json_loads
              (Demo.answers
                 (Demo.reply "I call PadGetState [pad.state.p12]" "pad.state.p12"))
              3 "Poll the controller" = (trace, Ok out) ∧
            out !! "__ok" = Some (VBool true) ∧
            (∀ narrative, RunNarrative.narrative_of out = Ok narrative →
                          ascii_text narrative))
    as (trace & out & Hrun & Hok & Hnarrative).
  { eexists _, _. split_and!.
    - vm_compute; reflexivity.
    - vm_compute; reflexivity.
    - intros narrative Hn. vm_compute in Hn. injection Hn as <-. by_ascii. }
  assert (ascii_text "Poll the controller") as Htext by by_ascii.
  assert (bag_of_api (RunNarrative.interpret_event Demo.SYMBOLS Demo.NEUT_MAP
                        Demo.set_iter "Poll the controller") ≠ [])
    as Hbag by (vm_compute; discriminate).
  exists trace, out.
  split_and!; [exact Htext|exact Hnarrative|exact Hbag|exact Hrun|exact Hok|].
  destruct (generate_narrative_ok_sound _ _ _ _ _ demo_walks_sets _ _ _ _ _ _
              Htext Hnarrative Hbag Hrun Hok) as (narrative & cids & _ & Hc & Hne & _).
  exists cids. split; [exact Hc|exact Hne].
Defined.

Lemma tool_sample_cycle :
  "A" ∈ bag_of_api (RunNarrative.interpret_event ToolSample.SYMBOLS_loop
                      ToolSample.NEUT_MAP_loop Demo.set_iter "Spin it").
Proof. by_compute. Qed.

Lemma generate_narrative_recursion_error_witness :
  "A" ∈ bag_of_api (RunNarrative.interpret_event ToolSample.SYMBOLS_loop
                      ToolSample.NEUT_MAP_loop Demo.set_iter "Spin it") ∧
  reaches_cycle Sample.REL "A" ∧
  RunNarrative.generate_narrative ToolSample.SYMBOLS_loop Sample.REL
    ToolSample.NEUT_MAP_loop Demo.PASSAGES Demo.set_iter json_loads
    Demo.unreachable 1000 "Spin it"
    = ([INTERPRET; EXPAND], Raise RecursionError).
Proof.
  split; [exact tool_sample_cycle|]. split; [exact sample_cycle|].
  exact (generate_narrative_recursion_error ToolSample.SYMBOLS_loop Sample.REL
           ToolSample.NEUT_MAP_loop Demo.PASSAGES Demo.set_iter demo_walks_sets
           json_loads Demo.unreachable "Spin it" "A" tool_sample_cycle
           sample_cycle 1000).
Defined.

Lemma narrative_from_event_unrepaired_witness :
  ∃ out,
    InterpretLlm.narrative_from_event Demo.REL Demo.set_iter json_loads
      Demo.PASSAGES
      (Demo.answers (Demo.reply "I call PadGetState [xyz]" "xyz"))
      3 "Poll the controller" ["PadGetState"] [] = Ok out ∧
    out !! "__ok" = Some (VBool false).
Proof.
  assert (∃ out,
            InterpretLlm.narrative_from_event Demo.REL Demo.set_iter json_loads
              Demo.PASSAGES
              (Demo.answers (Demo.reply "I call PadGetState [xyz]" "xyz"))
              3 "Poll the controller" ["PadGetState"] [] = Ok out ∧
            out !! "citationsUsed" = Some (VList ["xyz"]))
    as (out & Hrun & Hcit) by (eexists; split; vm_compute; reflexivity).
  exists out. split; [exact Hrun|].
  destruct (narrative_from_event_unrepaired _ _ demo_walks_sets _ _ _ _ _ _ _ _ Hrun)
    as (ok & Hok & _ & Hbad).
  destruct (Hbad ["xyz"] "xyz" Hcit) as [-> _]; [left|by_compute|exact Hok].
Defined.

Lemma tokenize_round_trip_witness :
  Forall is_token ["poll"; "pad_1"] ∧
  RunNarrative._tokenize (String.concat " " ["poll"; "pad_1"]) = ["poll"; "pad_1"].
Proof.
  assert (Forall is_token ["poll"; "pad_1"]) as Htok.
  { repeat (constructor; [split; [done|by repeat constructor]|]). constructor. }
  split; [exact Htok|].
  exact (proj1 (tokenize_round_trip ["poll"; "pad_1"] "a" "b" Htok)).
Defined.

Lemma tokenize_maximal_runs_witness :
  ascii_text "Poll the Controller, NOW" ∧
  RunNarrative._tokenize (lower "Poll the Controller, NOW")
    = RunNarrative._tokenize "Poll the Controller, NOW".
Proof.
  assert (ascii_text "Poll the Controller, NOW") as Htext by by_ascii.
  split; [exact Htext|].
  destruct (tokenize_maximal_runs "Poll the Controller, NOW" Htext)
    as (_ & _ & _ & Hlower).
  exact Hlower.
Defined.

Lemma unrepresentable_iff_no_tag_witness :
  walks_sets Demo.set_iter ∧
  ("coffee" ∈ unrepresentable
     (RunNarrative.interpret_event Demo.SYMBOLS Demo.NEUT_MAP Demo.set_iter
        "Poll the controller, void of coffee") ↔
   "coffee" ∈ RunNarrative._tokenize "Poll the controller, void of coffee" ∧
   RunNarrative.lex_tags Demo.NEUT_MAP "coffee" = []) ∧
  ∃ r, Interpret.interpret_event Demo.SYMBOLS Demo.REL Demo.NEUT_MAP Demo.set_iter
         3 "Poll the controller, void of coffee" = Some r ∧
       Interpret.unrepresentable r
       = unrepresentable
           (RunNarrative.interpret_event Demo.SYMBOLS Demo.NEUT_MAP Demo.set_iter
              "Poll the controller, void of coffee").
Proof.
  split; [exact demo_walks_sets|].
  destruct (unrepresentable_iff_no_tag Demo.SYMBOLS Demo.NEUT_MAP Demo.set_iter
              "Poll the controller, void of coffee" demo_walks_sets)
    as (Hiff & _ & _ & _ & _ & Hproduced).
  split; [exact (Hiff "coffee")|].
  apply (Hproduced Demo.SYMBOLS Demo.REL demo_acyclic 3).
  vm_compute. lia.
Defined.

Lemma bag_of_api_gated_witness :
  walks_sets Demo.set_iter ∧
  NoDup (bag_of_api (RunNarrative.interpret_event Demo.SYMBOLS Demo.NEUT_MAP
                       Demo.set_iter "Poll the controller")) ∧
  ∃ r, Interpret.interpret_event Demo.SYMBOLS Demo.REL Demo.NEUT_MAP Demo.set_iter
         3 "Poll the controller" = Some r ∧
       Interpret.bag_of_api r
       = bag_of_api (RunNarrative.interpret_event Demo.SYMBOLS Demo.NEUT_MAP
                       Demo.set_iter "Poll the controller").
Proof.
  split; [exact demo_walks_sets|].
  destruct (bag_of_api_gated Demo.SYMBOLS Demo.NEUT_MAP Demo.set_iter
              "Poll the controller" demo_walks_sets)
    as (_ & Hnd & _ & _ & Hproduced).
  split; [exact Hnd|].
  apply (Hproduced Demo.REL).
  - intros d _ (c & _ & Hc). exact (demo_acyclic c Hc).
  - vm_compute. lia.
Defined.

Lemma topo_require_chain_is_expand_with_requires_witness :
  no_null Demo.DEC ∧
  Interpret.topo_require_chain_decoded Demo.DEC 3 ["PadGetState"; "VSync"]
    = Ok <$> RunNarrative.expand_with_requires (entry_of <$> Demo.DEC) 3
               ["PadGetState"; "VSync"] ∧
  Demo.DEC_null !! "PadInit" = Some (Null, None) ∧
  Interpret.topo_require_chain_decoded Demo.DEC_null 3 ["PadInit"]
    = Some (Raise TypeError) ∧
  RunNarrative.expand_with_requires (entry_of <$> Demo.DEC_null) 3 ["PadInit"]
    = Some ["PadInit"].
Proof.
  assert (no_null Demo.DEC) as Hnull.
  { change (map_Forall (λ _ e, e.1 ≠ Null) Demo.DEC). by_compute. }
  assert (Demo.DEC_null !! "PadInit" = Some (Null, None)) as Hentry
    by (vm_compute; reflexivity).
  destruct (topo_require_chain_is_expand_with_requires Demo.DEC) as [Hsame _].
  destruct (topo_require_chain_is_expand_with_requires Demo.DEC_null)
    as [_ Hpart].
  split; [exact Hnull|].
  split; [exact (proj1 (Hsame Hnull 3 ["PadGetState"; "VSync"]))|].
  split; [exact Hentry|].
  exact (Hpart "PadInit" None Hentry 2).
Defined.

Lemma build_state_tableau_rows_witness :
  walks_sets Demo.set_iter ∧
  NoDup (Interpret.build_state_tableau Demo.SYMBOLS Demo.REL Demo.set_iter
           {["PadGetState"; "PadInit"]}).2.
Proof.
  split; [exact demo_walks_sets|].
  destruct (build_state_tableau_rows Demo.SYMBOLS Demo.REL Demo.set_iter
              demo_walks_sets {["PadGetState"; "PadInit"]}) as (_ & _ & _ & Hnd & _).
  exact Hnd.
Defined.

Lemma api_sentence_closure_witness :
  walks_sets Demo.set_iter ∧
  ∃ r, Interpret.interpret_event Demo.SYMBOLS Demo.REL Demo.NEUT_MAP Demo.set_iter
         5 "Poll the controller" = Some r ∧
       NoDup (Interpret.api_sentence r).
Proof.
  split; [exact demo_walks_sets|].
  assert (∃ r, Interpret.interpret_event Demo.SYMBOLS Demo.REL Demo.NEUT_MAP
                 Demo.set_iter 5 "Poll the controller" = Some r)
    as [r Hr] by (eexists; vm_compute; reflexivity).
  exists r. split; [exact Hr|].
  destruct (api_sentence_closure Demo.SYMBOLS Demo.REL Demo.NEUT_MAP Demo.set_iter
              demo_walks_sets "Poll the controller") as (Hrun & _).
  by destruct (Hrun 5 r Hr) as (_ & Hnd & _).
Defined.

Lemma demo_walks_dicts : walks_dicts map_to_list.
Proof. by intros m. Qed.

Lemma sample_pairs_known :
  ∀ k tags tag, (k, tags) ∈ [("survey", ["read_state"])] → tag ∈ tags →
                tag ∈ dom (default ∅ (neutral2sdk Demo.NEUT_MAP)).
Proof.
  intros k tags tag [= -> ->]%list_elem_of_singleton ->%list_elem_of_singleton.
  by_compute.
Qed.

Lemma merge_lex2neutral_unions_witness :
  walks_sets Demo.set_iter ∧
  ∃ entries',
    SuggestLex2neutral.merge_lex2neutral Demo.set_iter Demo.NEUT_MAP
      [("survey", ["read_state"])]
    = (NeutralMap (Some entries') (neutral2sdk Demo.NEUT_MAP), None) ∧
    ∃ merged, entries' !! "survey" = Some merged ∧ NoDup merged.
Proof.
  split; [exact demo_walks_sets|].
  destruct (merge_lex2neutral_unions Demo.set_iter demo_walks_sets Demo.NEUT_MAP
              _ [("survey", ["read_state"])] eq_refl sample_pairs_known)
    as (entries' & Hrun & _ & Hin).
  exists entries'. split; [exact Hrun|].
  destruct (Hin "survey") as (merged & Hm & _ & Hnd & _); [by_compute|].
  exists merged. split; [exact Hm|exact Hnd].
Defined.

Lemma merge_lex2neutral_refuses_witness :
  walks_sets Demo.set_iter ∧
  ("nope" ∉ dom (default ∅ (neutral2sdk Demo.NEUT_MAP))) ∧
  SuggestLex2neutral.merge_lex2neutral Demo.set_iter Demo.NEUT_MAP
    ([("survey", ["read_state"])] ++ [("bad", ["nope"]); ("late", ["phantom"])])
  = ((SuggestLex2neutral.merge_lex2neutral Demo.set_iter Demo.NEUT_MAP
        [("survey", ["read_state"])]).1,
     Some (ValueError
             ("Refusing to add '" +:+ "bad" +:+ "' → " +:+ py_repr_list ["nope"]
              +:+ ": contains non-existent neutral tags."))).
Proof.
  assert ("nope" ∉ dom (default ∅ (neutral2sdk Demo.NEUT_MAP))) as Hbad
    by by_compute.
  split; [exact demo_walks_sets|]. split; [exact Hbad|].
  exact (proj1 (merge_lex2neutral_refuses Demo.set_iter demo_walks_sets
                  Demo.NEUT_MAP _ [("survey", ["read_state"])]
                  [("late", ["phantom"])] "bad" ["nope"] "nope" eq_refl
                  sample_pairs_known (list_elem_of_here _ _) Hbad)).
Defined.

Lemma merge_lex2neutral_keeps_witness :
  walks_sets Demo.set_iter ∧
  neutral2sdk (SuggestLex2neutral.merge_lex2neutral Demo.set_iter Demo.NEUT_MAP
                 [("bad", ["nope"])]).1
  = neutral2sdk Demo.NEUT_MAP.
Proof.
  split; [exact demo_walks_sets|].
  exact (proj1 (merge_lex2neutral_keeps Demo.set_iter demo_walks_sets
                  Demo.NEUT_MAP [("bad", ["nope"])])).
Defined.

Lemma validate_maps_exit_code_witness :
  walks_dicts map_to_list ∧
  ∃ printed code,
    ValidateMaps.validate_maps Demo.set_iter map_to_list Demo.SYMBOLS Demo.NEUT_MAP
      = (printed, SystemExit code) ∧
    (printed = [] ↔ code = 0%Z).
Proof.
  split; [exact demo_walks_dicts|].
  destruct (validate_maps_exit_code Demo.set_iter map_to_list demo_walks_dicts
              Demo.SYMBOLS Demo.NEUT_MAP) as (printed & code & Hrun & _ & _ & Hp).
  exists printed, code. split; [exact Hrun|exact Hp].
Defined.

Lemma tool_sample_validated :
  ValidateMaps.validate_maps Demo.set_iter map_to_list Demo.SYMBOLS
    ToolSample.NEUT_MAP = ([], SystemExit 0).
Proof. vm_compute. reflexivity. Qed.

Lemma validate_maps_after_merge_witness :
  walks_sets Demo.set_iter ∧ walks_dicts map_to_list ∧
  ValidateMaps.validate_maps Demo.set_iter map_to_list Demo.SYMBOLS
    ToolSample.NEUT_MAP = ([], SystemExit 0) ∧
  ValidateMaps.validate_maps Demo.set_iter map_to_list Demo.SYMBOLS
    (SuggestLex2neutral.merge_lex2neutral Demo.set_iter ToolSample.NEUT_MAP
       [("survey", ["read_state"]); ("bad", ["nope"])]).1
  = ([], SystemExit 0).
Proof.
  split; [exact demo_walks_sets|]. split; [exact demo_walks_dicts|].
  split; [exact tool_sample_validated|].
  exact (validate_maps_after_merge Demo.set_iter demo_walks_sets map_to_list
           demo_walks_dicts Demo.SYMBOLS ToolSample.NEUT_MAP []
           [("survey", ["read_state"]); ("bad", ["nope"])] tool_sample_validated).
Defined.

Lemma validated_maps_gate_witness :
  walks_sets Demo.set_iter ∧ walks_dicts map_to_list ∧
  ValidateMaps.validate_maps Demo.set_iter map_to_list Demo.SYMBOLS
    ToolSample.NEUT_MAP = ([], SystemExit 0) ∧
  "PadGetState" ∈ bag_of_api (RunNarrative.interpret_event Demo.SYMBOLS
                                ToolSample.NEUT_MAP Demo.set_iter "Poll it").
Proof.
  split; [exact demo_walks_sets|]. split; [exact demo_walks_dicts|].
  split; [exact tool_sample_validated|].
  apply (validated_maps_gate Demo.set_iter demo_walks_sets map_to_list
           demo_walks_dicts Demo.SYMBOLS ToolSample.NEUT_MAP [] "Poll it"
           "PadGetState" tool_sample_validated).
  exists "poll", "read_state". split_and!; by_compute.
Defined.

Lemma merge_lex2neutral_then_interpret_witness :
  walks_sets Demo.set_iter ∧
  "survey" ∈ unrepresentable (RunNarrative.interpret_event Demo.SYMBOLS
                                Demo.NEUT_MAP Demo.set_iter "Survey the pad") ∧
  "survey" ∉ unrepresentable
               (RunNarrative.interpret_event Demo.SYMBOLS
                  (SuggestLex2neutral.merge_lex2neutral Demo.set_iter Demo.NEUT_MAP
                     [("survey", ["read_state"])]).1
                  Demo.set_iter "Survey the pad").
Proof.
  split; [exact demo_walks_sets|]. split; [by_compute|].
  destruct (merge_lex2neutral_then_interpret Demo.set_iter demo_walks_sets
              Demo.SYMBOLS Demo.NEUT_MAP _ [("survey", ["read_state"])]
              "Survey the pad" eq_refl sample_pairs_known) as [Hunrep _].
  intros [_ Hnone]%Hunrep.
  by specialize (Hnone ["read_state"] (list_elem_of_here _ _)).
Defined.

Lemma local_suggest_variants_witness :
  walks_sets Demo.set_iter ∧ ascii_text "Pause" ∧
  NoDup (SuggestLex2neutral.local_suggest Demo.set_iter "Pause" "").
Proof.
  assert (ascii_text "Pause") as Hterm by by_ascii.
  split; [exact demo_walks_sets|]. split; [exact Hterm|].
  exact (proj1 (proj2 (local_suggest_variants Demo.set_iter "Pause" ""
                         demo_walks_sets Hterm))).
Defined.

Lemma sanitize_well_formed_witness :
  Forall ascii_text [" Spilt "; "x"; "spilt"; "Pad-1"] ∧
  NoDup (SuggestLex2neutral.sanitize [" Spilt "; "x"; "spilt"; "Pad-1"]).
Proof.
  assert (Forall ascii_text [" Spilt "; "x"; "spilt"; "Pad-1"]) as Hcands
    by (repeat (constructor; [by_ascii|]); constructor).
  split; [exact Hcands|].
  exact (proj1 (proj2 (sanitize_well_formed _ Hcands))).
Defined.

Lemma interactive_select_answer_witness :
  ∃ printed chosen,
    SuggestLex2neutral.interactive_select ToolSample.py_int "spill" ["liquid"]
      ["spilt"; "spills"; "splash"] {["spills"]} (Some " 3 1-2 9 x-1 ")
      = (printed, Return chosen) ∧
    ∀ c, c ∈ chosen → c ∈ ["spilt"; "spills"; "splash"] ∧ c ∉ ({["spills"]} : gset string).
Proof.
  assert (∃ printed chosen,
            SuggestLex2neutral.interactive_select ToolSample.py_int "spill"
              ["liquid"] ["spilt"; "spills"; "splash"] {["spills"]}
              (Some " 3 1-2 9 x-1 ") = (printed, Return chosen))
    as (printed & chosen & Hrun) by (eexists _, _; vm_compute; reflexivity).
  exists printed, chosen. split; [exact Hrun|].
  exact (proj1 (proj2 (interactive_select_answer _ _ _ _ _ _ _ _ Hrun))).
Defined.

Lemma interactive_select_indexes_witness :
  ascii_text " 3 1-2 9 x-1 " ∧
  ["spilt"; "spills"; "splash"] ≠ [] ∧
  (lower (strip " 3 1-2 9 x-1 ") ∉ ["q"; "quit"; "exit"; ""; "none"; "all"]) ∧
  Forall (converts ToolSample.py_int) (chars <$> split (lower (strip " 3 1-2 9 x-1 "))) ∧
  (SuggestLex2neutral.interactive_select ToolSample.py_int "spill" ["liquid"]
     ["spilt"; "spills"; "splash"] {["spills"]} (Some " 3 1-2 9 x-1 ")).2
  = Return ["spilt"; "splash"].
Proof.
  assert (lower (strip " 3 1-2 9 x-1 ")
            ∉ ["q"; "quit"; "exit"; ""; "none"; "all"]) as Hsel by by_compute.
  assert (Forall (converts ToolSample.py_int)
            (chars <$> split (lower (strip " 3 1-2 9 x-1 ")))) as Hint.
  { apply Forall_forall. by intros token _ part _ _. }
  assert (ascii_text " 3 1-2 9 x-1 ") as Hline by by_ascii.
  split; [exact Hline|].
  split; [done|]. split; [exact Hsel|]. split; [exact Hint|].
  exact (interactive_select_indexes ToolSample.py_int "spill" ["liquid"]
           ["spilt"; "spills"; "splash"] {["spills"]} " 3 1-2 9 x-1 " Hline
           (λ H, eq_ind [] (λ l, match l with [] => True | _ => False end) I _
                   (eq_sym H))
           Hsel Hint).
Defined.
